(** * CPP_Resume: a shallow embedding of the tutorial programs

    The repository is a set of independent C++ demonstration programs.
    This development embeds the functions the specification speaks
    about and the other algorithms of the same files, file by file, and
    proves what each of them computes.

    Data model (the one of the [g++ -std=c++20] command line the sources
    name, on an LP64 target): [int] is a 32-bit and [long long] a 64-bit
    two's complement integer, [size_t] is an unsigned 64-bit integer.
    Integers are modelled as [Z] and every arithmetic operation of the
    source is followed by the reduction to its C++ type, so that results
    outside the type wrap around.  (For signed types the C++ standard
    leaves the out-of-range case undefined; wrapping is what the named
    compiler produces at run time.)  A [std::vector<int>] is a [list Z],
    read and written by index; an index outside the vector is undefined
    behaviour and is reported as such.  A vector holds at most
    [max_size()] elements: constructing a larger one, and [push_back]
    on a full one, throw [std::length_error]. *)

From stdpp Require Import base numbers list gmap strings sorting.
From Equations Require Import Equations.
From Stdlib Require Import ZArith Zdivisibility Lia Ascii DecimalString.

Open Scope Z_scope.

(** ** Machine integers *)

Module Cxx.

(** Two's complement reduction of [x] to a signed type of [bits] bits. *)
Definition wrap (bits : Z) (x : Z) : Z :=
  (x + 2 ^ (bits - 1)) `mod` 2 ^ bits - 2 ^ (bits - 1).

Definition INT_MIN : Z := -2147483648.
Definition INT_MAX : Z := 2147483647.
Definition LLONG_MIN : Z := -9223372036854775808.
Definition LLONG_MAX : Z := 9223372036854775807.
Definition SIZE_MAX : Z := 18446744073709551615.

(** Conversion to [int], to [long long] and to [size_t]. *)
Definition int (x : Z) : Z := wrap 32 x.
Definition llong (x : Z) : Z := wrap 64 x.
Definition size_t (x : Z) : Z := x `mod` 2 ^ 64.

(** [std::vector<T>::max_size()] of the target's allocator: the
    largest number of elements of [elt_bytes] bytes whose total size
    fits [ptrdiff_t]. *)
Definition vector_max_size (elt_bytes : Z) : Z :=
  9223372036854775807 `div` elt_bytes.

(** What a call can end in. *)
Inductive exception : Type :=
| invalid_argument (what : string)
| runtime_error (what : string)
| length_error (what : string).

Inductive outcome (A : Type) : Type :=
| Ret (a : A)              (* normal return *)
| Throw (e : exception)    (* a C++ exception leaves the call *)
| Undefined                (* undefined behaviour: index out of range *)
| OutOfFuel.               (* the recursion budget of the model ran out *)
Arguments Ret {A} a.
Arguments Throw {A} e.
Arguments Undefined {A}.
Arguments OutOfFuel {A}.

Definition bind {A B} (m : outcome A) (k : A -> outcome B) : outcome B :=
  match m with
  | Ret a => k a
  | Throw e => Throw e
  | Undefined => Undefined
  | OutOfFuel => OutOfFuel
  end.

(** [v[i]] and [v[i] = x] on a vector of integers. *)
Definition at_ (v : list Z) (i : Z) : outcome Z :=
  if decide (0 <= i)
  then match v !! Z.to_nat i with Some x => Ret x | None => Undefined end
  else Undefined.

Definition set_at (v : list Z) (i : Z) (x : Z) : outcome (list Z) :=
  if decide (0 <= i < Z.of_nat (length v))
  then Ret (<[Z.to_nat i := x]> v)
  else Undefined.

(** [v.size()]. *)
Definition size (v : list Z) : Z := Z.of_nat (length v).

(** [std::vector<T> v(n, x)] for an element type of [elt_bytes]
    bytes; [n] is converted to [size_t], and the constructor throws
    [std::length_error] above [max_size()]. *)
Definition vector_fill (elt_bytes : Z) (n : Z) (x : Z) : outcome (list Z) :=
  if decide (size_t n <= vector_max_size elt_bytes)
  then Ret (replicate (Z.to_nat (size_t n)) x)
  else Throw (length_error "cannot create std::vector larger than max_size()").

(** [v.push_back(x)] for an element type of [elt_bytes] bytes: a vector
    that holds [max_size()] elements cannot grow, and [push_back]
    throws [std::length_error], here with the text of libstdc++. *)
Definition push_back {A : Type} (elt_bytes : Z) (v : list A) (x : A)
    : outcome (list A) :=
  if decide (Z.of_nat (length v) < vector_max_size elt_bytes)
  then Ret (v ++ [x])
  else Throw (length_error "vector::_M_realloc_insert").

(** Counted loops.  [for_loop k i body s] runs [body i], [body (i+1)],
    ... [k] times.  [for_lt lo hi] is [for (i = lo; i < hi; ++i)] and
    [for_le lo hi] is [for (int i = lo; i <= hi; ++i)]; the counter
    stays within [lo .. hi], so its increments do not wrap, except
    that [for_le] with [hi = INT_MAX] would increment past the type:
    the theorems on the programs stay below that bound.  The [_M]
    variants are for bodies that index a vector. *)
Fixpoint for_loop {S : Type} (k : nat) (i : Z)
    (body : Z -> S -> S) (s : S) : S :=
  match k with
  | O => s
  | Datatypes.S k' => for_loop k' (i + 1) body (body i s)
  end.

Definition for_lt {S : Type} (lo hi : Z) (body : Z -> S -> S) (s : S) : S :=
  for_loop (Z.to_nat (hi - lo)) lo body s.

Definition for_le {S : Type} (lo hi : Z) (body : Z -> S -> S) (s : S) : S :=
  for_lt lo (hi + 1) body s.

Fixpoint for_loop_M {S : Type} (k : nat) (i : Z)
    (body : Z -> S -> outcome S) (s : S) : outcome S :=
  match k with
  | O => Ret s
  | Datatypes.S k' => bind (body i s) (for_loop_M k' (i + 1) body)
  end.

Definition for_lt_M {S : Type} (lo hi : Z)
    (body : Z -> S -> outcome S) (s : S) : outcome S :=
  for_loop_M (Z.to_nat (hi - lo)) lo body s.

Definition for_le_M {S : Type} (lo hi : Z)
    (body : Z -> S -> outcome S) (s : S) : outcome S :=
  for_lt_M lo (hi + 1) body s.

(** [for (int x : v)]. *)
Fixpoint for_each_M {S : Type} (v : list Z)
    (body : Z -> S -> outcome S) (s : S) : outcome S :=
  match v with
  | [] => Ret s
  | x :: v' => bind (body x s) (for_each_M v' body)
  end.

Definition for_each {S : Type} (v : list Z) (body : Z -> S -> S) (s : S) : S :=
  fold_left (fun s x => body x s) v s.

(** [for (int i = hi; i >= lo; --i)] for a [lo] above [INT_MIN]: the
    rounds [hi], [hi - 1], ... down to [lo]. *)
Fixpoint for_down_loop_M {S : Type} (k : nat) (i : Z)
    (body : Z -> S -> outcome S) (s : S) : outcome S :=
  match k with
  | O => Ret s
  | Datatypes.S k' => bind (body i s) (for_down_loop_M k' (i - 1) body)
  end.

Definition for_down_M {S : Type} (hi lo : Z)
    (body : Z -> S -> outcome S) (s : S) : outcome S :=
  for_down_loop_M (Z.to_nat (hi - lo + 1)) hi body s.

(** [std::vector<std::vector<int>>]: the rows of a table.  [row_at m i]
    is the row [m[i]], [at2 m i j] reads [m[i][j]] and [set_at2 m i j x]
    is [m[i][j] = x]. *)
Definition row_at (m : list (list Z)) (i : Z) : outcome (list Z) :=
  if decide (0 <= i)
  then match m !! Z.to_nat i with Some r => Ret r | None => Undefined end
  else Undefined.

Definition at2 (m : list (list Z)) (i j : Z) : outcome Z :=
  bind (row_at m i) (fun r => at_ r j).

Definition set_at2 (m : list (list Z)) (i j x : Z)
    : outcome (list (list Z)) :=
  bind (row_at m i) (fun r =>
  bind (set_at r j x) (fun r' =>
  Ret (<[Z.to_nat i := r']> m))).

(** [std::vector<std::vector<int>> m(rows, std::vector<int>(cols, x))]:
    the row is built first, then copied [rows] times; a
    [std::vector<int>] object takes 24 bytes. *)
Definition matrix_fill (rows cols x : Z) : outcome (list (list Z)) :=
  bind (vector_fill 4 cols x) (fun row =>
  if decide (size_t rows <= vector_max_size 24)
  then Ret (replicate (Z.to_nat (size_t rows)) row)
  else Throw (length_error "cannot create std::vector larger than max_size()")).

(** The part of the machine a program can change besides its own
    variables: the files of the working directory, the streams opened
    with [fopen], and what was written to [std::cout] and
    [std::cerr]. *)
Record stream : Type := Stream {
  stream_name : string;      (* the file the stream was opened on *)
  stream_mode : string;      (* the mode it was opened with *)
  stream_rest : string;      (* what is left to read *)
}.

Record world : Type := World {
  files : gmap string string;
  streams : gmap nat stream;
  cout : list string;
  cerr : list string;
}.

(** A computation that can touch the world. *)
Definition io (A : Type) : Type := world -> outcome A * world.

Definition io_ret {A} (a : A) : io A := fun w => (Ret a, w).
Definition io_throw {A} (e : exception) : io A := fun w => (Throw e, w).
Definition io_bind {A B} (m : io A) (k : A -> io B) : io B :=
  fun w =>
    match m w with
    | (Ret a, w') => k a w'
    | (Throw e, w') => (Throw e, w')
    | (Undefined, w') => (Undefined, w')
    | (OutOfFuel, w') => (OutOfFuel, w')
    end.

Definition io_fail {A} (r : forall B, outcome B) : io A := fun w => (r A, w).

(** [try { body } catch (const std::exception& e) { handler }]: every
    exception of the model derives from [std::exception]. *)
Definition try_catch {A} (body : io A) (handler : exception -> io A) : io A :=
  fun w =>
    match body w with
    | (Throw e, w') => handler e w'
    | other => other
    end.

(** A block whose local object is destroyed when the block is left, by
    falling off its end or by an exception passing through. *)
Definition at_scope_exit {A} (body : io A) (destructor : io unit) : io A :=
  fun w =>
    match body w with
    | (Ret a, w') => (Ret a, snd (destructor w'))
    | (Throw e, w') => (Throw e, snd (destructor w'))
    | other => other
    end.

(** [e.what()]. *)
Definition what (e : exception) : string :=
  match e with
  | invalid_argument text | runtime_error text | length_error text => text
  end.

(** The newline character, [std::endl] and ["\n"]. *)
Definition nl : string := String (ascii_of_nat 10) EmptyString.

(** [std::cout << text] and [std::cerr << text]. *)
Definition print (text : string) : io unit :=
  fun w => (Ret tt, World (files w) (streams w) (cout w ++ [text]) (cerr w)).

Definition print_err (text : string) : io unit :=
  fun w => (Ret tt, World (files w) (streams w) (cout w) (cerr w ++ [text])).

(** [std::to_string(n)] and [std::cout << n] for an integer. *)
Definition to_string (n : Z) : string := NilZero.string_of_int (Z.to_int n).

End Cxx.

Import Cxx.

Notation "'do' x <- m ; k" := (bind m (fun x => k))
  (at level 10, x pattern, m at level 100, k at level 200, only parsing).
Notation "'io_do' x <- m ; k" := (io_bind m (fun x => k))
  (at level 10, x pattern, m at level 100, k at level 200, only parsing).
Notation "m ;; k" := (io_bind m (fun _ => k))
  (at level 100, k at level 200, right associativity, only parsing).

(** ** 02_modern_paradigms/examples/constexpr_demo.cpp *)

Module ConstexprDemo.

(** [constexpr int factorial(int n)]: [result *= i] for [i = 2 .. n]. *)
Definition factorial (n : Z) : Z :=
  for_le 2 n (fun i result => int (result * i)) 1.

(** [constexpr int fibonacci(int n)]. *)
Definition fibonacci (n : Z) : Z :=
  if decide (n <= 1) then n
  else
    let '(a, b) :=
      for_le 2 n (fun _ '(a, b) =>
        let temp := int (a + b) in (b, temp)) (0, 1) in
    b.

(** The loop [for (int i = 3; i * i <= n; i += 2)] of [is_prime], with
    a budget of [fuel] rounds; [n % i] is the remainder of the division
    that rounds towards zero, undefined for [i == 0]. *)
Fixpoint is_prime_loop (fuel : nat) (n i : Z) : outcome bool :=
  if decide (int (i * i) <= n) then
    match fuel with
    | O => OutOfFuel
    | S fuel' =>
        if decide (i = 0) then Undefined
        else if decide (n `rem` i = 0) then Ret false
        else is_prime_loop fuel' n (int (i + 2))
    end
  else Ret true.

(** [constexpr bool is_prime(int n)]. *)
Definition is_prime (fuel : nat) (n : Z) : outcome bool :=
  if decide (n < 2) then Ret false
  else if decide (n = 2) then Ret true
  else if decide (n `rem` 2 = 0) then Ret false
  else is_prime_loop fuel n 3.

(** [constexpr std::array<int, 10> create_fibonacci_table()]. *)
Definition create_fibonacci_table : outcome (list Z) :=
  let arr := replicate 10 0 in
  do arr <- set_at arr 0 0;
  do arr <- set_at arr 1 1;
  for_lt_M 2 10 (fun i arr =>
    do x <- at_ arr (i - 1);
    do y <- at_ arr (i - 2);
    set_at arr i (int (x + y))) arr.

(** A [const char*] is the characters from the pointer on; reading
    past the end of what is there is undefined. *)

(** [constexpr size_t string_length(const char* s)]. *)
Fixpoint string_length_from (s : list Z) (len : Z) : outcome Z :=
  match s with
  | [] => Undefined
  | c :: s' =>
      if decide (c <> 0) then string_length_from s' (size_t (len + 1))
      else Ret len
  end.

Definition string_length (s : list Z) : outcome Z := string_length_from s 0.

(** [constexpr bool string_equal(const char* a, const char* b)]. *)
Fixpoint string_equal (a b : list Z) : outcome bool :=
  match a, b with
  | ca :: a', cb :: b' =>
      if decide (ca <> 0 /\ cb <> 0) then
        if decide (ca <> cb) then Ret false
        else string_equal a' b'
      else Ret (bool_decide (ca = cb))
  | _, _ => Undefined
  end.

(** Conversion to [unsigned int], to [unsigned char] and to [char]. *)
Definition uint (x : Z) : Z := x `mod` 2 ^ 32.
Definition uchar (x : Z) : Z := x `mod` 2 ^ 8.
Definition char (x : Z) : Z := wrap 8 x.

(** [constexpr unsigned int string_hash(const char* s)]. *)
Fixpoint string_hash_from (s : list Z) (hash : Z) : outcome Z :=
  match s with
  | [] => Undefined
  | c :: s' =>
      if decide (c <> 0) then string_hash_from s' (uint (uint (hash * 31) + uint c))
      else Ret hash
  end.

Definition string_hash (s : list Z) : outcome Z := string_hash_from s 0.

(** [constexpr std::array<unsigned char, 256> create_lookup_table()];
    ['a'] is 97, ['z'] 122, ['A'] 65 and ['Z'] 90. *)
Definition create_lookup_table : outcome (list Z) :=
  let table := replicate 256 0 in
  for_lt_M 0 256 (fun i table =>
    if decide (i >= 97 /\ i <= 122) then set_at table i (uchar (int (i - 32)))
    else if decide (i >= 65 /\ i <= 90) then set_at table i (uchar (int (i + 32)))
    else set_at table i (uchar i)) table.

(** [constexpr auto case_table = create_lookup_table();]
    [char swap_case(char c)]. *)
Definition swap_case (c : Z) : outcome Z :=
  do case_table <- create_lookup_table;
  do x <- at_ case_table (uchar c);
  Ret (char x).

End ConstexprDemo.

(** ** 01_syntax_review/examples/basic_demo.cpp *)

Opaque int llong.

Module BasicDemo.

(** [constexpr int factorial(int n)]:
    [return n <= 1 ? 1 : n * factorial(n - 1);] *)
Equations? factorial (n : Z) : Z by wf (Z.to_nat n) lt :=
  factorial n with decide (n <= 1) => {
    | left _ := 1 ;
    | right _ := int (n * factorial (n - 1)) }.
Proof. lia. Qed.

End BasicDemo.

(** ** 03_algorithm_design/examples/recursion_demo.cpp *)

Module RecursionDemo.

(** [long long factorial(int n)]: the product is taken in
    [long long]. *)
Equations? factorial (n : Z) : Z by wf (Z.to_nat n) lt :=
  factorial n with decide (n <= 1) => {
    | left _ := 1 ;
    | right _ := llong (n * factorial (n - 1)) }.
Proof. lia. Qed.

(** [long long fib_naive(int n)]. *)
Equations? fib_naive (n : Z) : Z by wf (Z.to_nat n) lt :=
  fib_naive n with decide (n <= 1) => {
    | left _ := n ;
    | right _ := llong (fib_naive (n - 1) + fib_naive (n - 2)) }.
Proof. all: lia. Qed.

(** [int sum_recursive(int n)]: the recursion stops at [n == 0] only,
    so the model carries a recursion budget. *)
Fixpoint sum_recursive (fuel : nat) (n : Z) : outcome Z :=
  if decide (n = 0) then Ret 0
  else match fuel with
       | O => OutOfFuel
       | S fuel' =>
           do r <- sum_recursive fuel' (int (n - 1));
           Ret (int (n + r))
       end.

(** [int array_sum(const std::vector<int>& arr, int index = 0)], with a
    recursion budget. *)
Fixpoint array_sum (fuel : nat) (arr : list Z) (index : Z) : outcome Z :=
  if decide (index >= int (size_t (size arr))) then Ret 0
  else match fuel with
       | O => OutOfFuel
       | S fuel' =>
           do x <- at_ arr index;
           do r <- array_sum fuel' arr (int (index + 1));
           Ret (int (x + r))
       end.

(** [std::string reverse_string(const std::string& s)]: [s.substr(1)]
    is the string without its first character. *)
Fixpoint reverse_string (s : string) : string :=
  match s with
  | EmptyString => s
  | String c rest =>
      if decide (String.length s <= 1)%nat then s
      else reverse_string rest +:+ String c EmptyString
  end.

(** [long long fib_memoized(int n)] over the global
    [std::unordered_map<int, long long> fib_memo], which is passed in
    and handed back.  The two recursive calls of the sum are taken
    from left to right (the order of the operands of [+] is the
    compiler's choice; the right-hand side of the assignment is
    evaluated before [fib_memo[n]]). *)
Equations? fib_memoized (n : Z) (fib_memo : gmap Z Z) : Z * gmap Z Z
    by wf (Z.to_nat n) lt :=
  fib_memoized n fib_memo with decide (n <= 1) => {
    | left _ := (n, fib_memo) ;
    | right _ with fib_memo !! n => {
        | Some r := (r, fib_memo) ;
        | None :=
            let '(r1, m1) := fib_memoized (n - 1) fib_memo in
            let '(r2, m2) := fib_memoized (n - 2) m1 in
            let r := llong (r1 + r2) in
            (r, <[n := r]> m2) } }.
Proof. all: lia. Qed.

(** [long long fib_memo_vec(int n, std::vector<long long>& memo)]; the
    recursive calls are taken from left to right as above. *)
Equations? fib_memo_vec (n : Z) (memo : list Z) : outcome (Z * list Z)
    by wf (Z.to_nat n) lt :=
  fib_memo_vec n memo with decide (n <= 1) => {
    | left _ := Ret (n, memo) ;
    | right _ with at_ memo n => {
        | Ret x with decide (x = -1) => {
            | right _ := Ret (x, memo) ;
            | left _ with fib_memo_vec (n - 1) memo => {
                | Ret (r1, m1) with fib_memo_vec (n - 2) m1 => {
                    | Ret (r2, m2) :=
                        let r := llong (r1 + r2) in
                        do m3 <- set_at m2 n r;
                        Ret (r, m3) ;
                    | Throw e := Throw e ;
                    | Undefined := Undefined ;
                    | OutOfFuel := OutOfFuel } ;
                | Throw e := Throw e ;
                | Undefined := Undefined ;
                | OutOfFuel := OutOfFuel } } ;
        | Throw e := Throw e ;
        | Undefined := Undefined ;
        | OutOfFuel := OutOfFuel } }.
Proof. all: lia. Qed.

(** [long long factorial_normal(int n)]. *)
Equations? factorial_normal (n : Z) : Z by wf (Z.to_nat n) lt :=
  factorial_normal n with decide (n <= 1) => {
    | left _ := 1 ;
    | right _ := llong (n * factorial_normal (n - 1)) }.
Proof. lia. Qed.

(** [long long factorial_tail(int n, long long acc = 1)]. *)
Equations? factorial_tail (n : Z) (acc : Z) : Z by wf (Z.to_nat n) lt :=
  factorial_tail n acc with decide (n <= 1) => {
    | left _ := acc ;
    | right _ := factorial_tail (n - 1) (llong (n * acc)) }.
Proof. lia. Qed.

(** [long long fib_tail(int n, long long a = 0, long long b = 1)].
    The recursion stops at [n == 0] and [n == 1] only, so the model
    carries a recursion budget. *)
Fixpoint fib_tail (fuel : nat) (n : Z) (a b : Z) : outcome Z :=
  if decide (n = 0) then Ret a
  else if decide (n = 1) then Ret b
  else match fuel with
       | O => OutOfFuel
       | S fuel' => fib_tail fuel' (int (n - 1)) b (llong (a + b))
       end.

(** [std::string("Move disk ") + std::to_string(n) + " from " + from
    + " to " + to]; [from] and [to] are [char]s. *)
Definition move_text (n : Z) (from to : ascii) : string :=
  "Move disk " +:+ to_string n +:+ " from "
    +:+ String from "" +:+ " to " +:+ String to "".

(** [void hanoi(int n, char from, char to, char aux,
                std::vector<std::string>& moves)].
    The recursion stops at [n == 1] only, so the model carries a
    recursion budget; [moves] is passed in and handed back.  A
    [std::string] object takes 32 bytes. *)
Fixpoint hanoi (fuel : nat) (n : Z) (from to aux : ascii)
    (moves : list string) : outcome (list string) :=
  if decide (n = 1) then
    push_back 32 moves ("Move disk 1 from " +:+ String from "" +:+ " to "
                          +:+ String to "")
  else
    match fuel with
    | O => OutOfFuel
    | S fuel' =>
        do moves <- hanoi fuel' (int (n - 1)) from aux to moves;
        do moves <- push_back 32 moves (move_text n from to);
        hanoi fuel' (int (n - 1)) aux to from moves
    end.

(** [std::swap(nums[i], nums[j])]. *)
Definition swap (nums : list Z) (i j : Z) : outcome (list Z) :=
  do x <- at_ nums i;
  do y <- at_ nums j;
  do nums <- set_at nums i y;
  set_at nums j x.

(** [void permute_helper(std::vector<int>& nums, int start,
                         std::vector<std::vector<int>>& result)], with a
    budget for the depth of the recursion; [nums] and [result] are
    passed in and handed back.  A [std::vector<int>] object takes 24
    bytes. *)
Fixpoint permute_helper (fuel : nat) (nums : list Z) (start : Z)
    (result : list (list Z)) : outcome (list Z * list (list Z)) :=
  if decide (start = int (size_t (size nums))) then
    do result <- push_back 24 result nums;
    Ret (nums, result)
  else
    match fuel with
    | O => OutOfFuel
    | S fuel' =>
        for_lt_M start (int (size_t (size nums))) (fun i '(nums, result) =>
          do nums <- swap nums start i;
          do (nums, result) <- permute_helper fuel' nums (int (start + 1)) result;
          do nums <- swap nums start i;
          Ret (nums, result)) (nums, result)
    end.

(** [std::vector<std::vector<int>> permutations(std::vector<int> nums)]. *)
Definition permutations (fuel : nat) (nums : list Z) : outcome (list (list Z)) :=
  let result := [] in
  do (nums, result) <- permute_helper fuel nums 0 result;
  Ret result.

(** [current.pop_back()]; on an empty vector it is undefined. *)
Definition pop_back (v : list Z) : outcome (list Z) :=
  match v with
  | [] => Undefined
  | _ => Ret (removelast v)
  end.

(** [void subsets_helper(const std::vector<int>& nums, int index,
                         std::vector<int>& current,
                         std::vector<std::vector<int>>& result)], with a
    budget for the depth of the recursion. *)
Fixpoint subsets_helper (fuel : nat) (nums : list Z) (index : Z)
    (current : list Z) (result : list (list Z))
    : outcome (list Z * list (list Z)) :=
  match fuel with
  | O => OutOfFuel
  | S fuel' =>
      do result <- push_back 24 result current;
      for_lt_M index (int (size_t (size nums))) (fun i '(current, result) =>
        do x <- at_ nums i;
        do current <- push_back 4 current x;
        do (current, result) <-
          subsets_helper fuel' nums (int (i + 1)) current result;
        do current <- pop_back current;
        Ret (current, result)) (current, result)
  end.

(** [std::vector<std::vector<int>> subsets(const std::vector<int>& nums)]. *)
Definition subsets (fuel : nat) (nums : list Z) : outcome (list (list Z)) :=
  let result := [] in
  let current := [] in
  do (current, result) <- subsets_helper fuel nums 0 current result;
  Ret result.

(** [int binary_search_recursive(const std::vector<int>& arr,
                                int target, int left, int right)],
    with a budget for the depth of the recursion. *)
Fixpoint binary_search_recursive (fuel : nat) (arr : list Z) (target : Z)
    (left right : Z) : outcome Z :=
  if decide (left > right) then Ret (-1)
  else
    match fuel with
    | O => OutOfFuel
    | S fuel' =>
        let mid := int (left + int (int (right - left) `quot` 2)) in
        do x <- at_ arr mid;
        if decide (x = target) then Ret mid
        else if decide (x < target) then
          binary_search_recursive fuel' arr target (int (mid + 1)) right
        else
          binary_search_recursive fuel' arr target left (int (mid - 1))
    end.

(** The part of [main] that runs the Hanoi demonstration: it returns
    [moves] as printed and [moves.size()]. *)
Definition main_hanoi (fuel : nat) : outcome (list string * Z) :=
  let moves := [] in
  do moves <- hanoi fuel 3 "A"%char "C"%char "B"%char moves;
  Ret (moves, Z.of_nat (length moves)).

End RecursionDemo.

(** ** 03_algorithm_design/examples/dp_demo.cpp *)

Module DpDemo.

(** [long long fib_memo(int n, std::vector<long long>& memo)]. *)
Equations? fib_memo (n : Z) (memo : list Z) : outcome (Z * list Z)
    by wf (Z.to_nat n) lt :=
  fib_memo n memo with decide (n <= 1) => {
    | left _ := Ret (n, memo) ;
    | right _ with at_ memo n => {
        | Ret x with decide (x = -1) => {
            | right _ := Ret (x, memo) ;
            | left _ with fib_memo (n - 1) memo => {
                | Ret (r1, m1) with fib_memo (n - 2) m1 => {
                    | Ret (r2, m2) :=
                        let r := llong (r1 + r2) in
                        do m3 <- set_at m2 n r;
                        Ret (r, m3) ;
                    | Throw e := Throw e ;
                    | Undefined := Undefined ;
                    | OutOfFuel := OutOfFuel } ;
                | Throw e := Throw e ;
                | Undefined := Undefined ;
                | OutOfFuel := OutOfFuel } } ;
        | Throw e := Throw e ;
        | Undefined := Undefined ;
        | OutOfFuel := OutOfFuel } }.
Proof. all: lia. Qed.

(** [long long fib_dp(int n)]. *)
Definition fib_dp (n : Z) : outcome Z :=
  if decide (n <= 1) then Ret n
  else
    do dp <- vector_fill 8 (int (n + 1)) 0;
    do dp <- set_at dp 0 0;
    do dp <- set_at dp 1 1;
    do dp <- for_le_M 2 n (fun i dp =>
               do x <- at_ dp (i - 1);
               do y <- at_ dp (i - 2);
               set_at dp i (llong (x + y))) dp;
    at_ dp n.

(** [long long fib_optimized(int n)]. *)
Definition fib_optimized (n : Z) : Z :=
  if decide (n <= 1) then n
  else
    let '(prev2, prev1) :=
      for_le 2 n (fun _ '(prev2, prev1) =>
        let curr := llong (prev1 + prev2) in (prev1, curr)) (0, 1) in
    prev1.

(** [int climb_stairs(int n)]. *)
Definition climb_stairs (n : Z) : Z :=
  if decide (n <= 2) then n
  else
    let '(prev2, prev1) :=
      for_le 3 n (fun _ '(prev2, prev1) =>
        let curr := int (prev1 + prev2) in (prev1, curr)) (1, 2) in
    prev1.

(** [int max_subarray(const std::vector<int>& nums)]; the counter [i]
    is a [size_t]. *)
Definition max_subarray (nums : list Z) : outcome Z :=
  do max_sum <- at_ nums 0;
  do curr_sum <- at_ nums 0;
  do (max_sum, curr_sum) <-
    for_lt_M 1 (size nums) (fun i '(max_sum, curr_sum) =>
      do x <- at_ nums i;
      let curr_sum := Z.max x (int (curr_sum + x)) in
      let max_sum := Z.max max_sum curr_sum in
      Ret (max_sum, curr_sum)) (max_sum, curr_sum);
  Ret max_sum.

(** [std::tuple<int, int, int> max_subarray_range(const std::vector<int>& nums)]:
    the [size_t] counter is stored into the [int]s [temp_start] and
    [end]. *)
Definition max_subarray_range (nums : list Z) : outcome (Z * Z * Z) :=
  do max_sum <- at_ nums 0;
  do curr_sum <- at_ nums 0;
  let start := 0 in
  let end_ := 0 in
  let temp_start := 0 in
  do (max_sum, curr_sum, start, end_, temp_start) <-
    for_lt_M 1 (size nums)
      (fun i '(max_sum, curr_sum, start, end_, temp_start) =>
        do x <- at_ nums i;
        let '(curr_sum, temp_start) :=
          if decide (x > int (curr_sum + x)) then (x, int i)
          else (int (curr_sum + x), temp_start) in
        let '(max_sum, start, end_) :=
          if decide (curr_sum > max_sum) then (curr_sum, temp_start, int i)
          else (max_sum, start, end_) in
        Ret (max_sum, curr_sum, start, end_, temp_start))
      (max_sum, curr_sum, start, end_, temp_start);
  Ret (max_sum, start, end_).

(** [int rob(const std::vector<int>& nums)]. *)
Definition rob (nums : list Z) : outcome Z :=
  if decide (nums = []) then Ret 0
  else if decide (size nums = 1) then at_ nums 0
  else
    do prev2 <- at_ nums 0;
    do a <- at_ nums 0;
    do b <- at_ nums 1;
    let prev1 := Z.max a b in
    do (prev2, prev1) <-
      for_lt_M 2 (size nums) (fun i '(prev2, prev1) =>
        do x <- at_ nums i;
        let curr := Z.max prev1 (int (prev2 + x)) in
        Ret (prev1, curr)) (prev2, prev1);
    Ret prev1.

(** [int coin_change(const std::vector<int>& coins, int amount)]. *)
Definition coin_change (coins : list Z) (amount : Z) : outcome Z :=
  do dp <- vector_fill 4 (int (amount + 1)) (int (amount + 1));
  do dp <- set_at dp 0 0;
  do dp <- for_le_M 1 amount (fun i dp =>
             for_each_M coins (fun coin dp =>
               if decide (coin <= i) then
                 do y <- at_ dp (int (i - coin));
                 if decide (y <> int (amount + 1)) then
                   do x <- at_ dp i;
                   set_at dp i (Z.min x (int (y + 1)))
                 else Ret dp
               else Ret dp) dp) dp;
  do r <- at_ dp amount;
  Ret (if decide (r > amount) then -1 else r).

(** [int length_of_lis_n2(const std::vector<int>& nums)]; the counters
    [i] and [j] are [size_t]. *)
Definition length_of_lis_n2 (nums : list Z) : outcome Z :=
  if decide (nums = []) then Ret 0
  else
    do dp <- vector_fill 4 (size nums) 1;
    let max_len := 1 in
    do (dp, max_len) <-
      for_lt_M 1 (size nums) (fun i '(dp, max_len) =>
        do dp <- for_lt_M 0 i (fun j dp =>
                   do nj <- at_ nums j;
                   do ni <- at_ nums i;
                   if decide (nj < ni) then
                     do di <- at_ dp i;
                     do dj <- at_ dp j;
                     set_at dp i (Z.max di (int (dj + 1)))
                   else Ret dp) dp;
        do di <- at_ dp i;
        Ret (dp, Z.max max_len di)) (dp, max_len);
    Ret max_len.

(** [std::lower_bound(tails.begin(), tails.end(), num)] of the standard
    library, by its specification: on a range whose elements less than
    [value] all come first, the position of the first element that is
    not less than [value], or the end of the range. *)
Fixpoint lower_bound (v : list Z) (value : Z) : nat :=
  match v with
  | [] => O
  | x :: v' => if decide (x < value) then S (lower_bound v' value) else O
  end.

(** [int length_of_lis(const std::vector<int>& nums)]: [tails.size()]
    is a [size_t] and is returned as an [int]. *)
Definition length_of_lis (nums : list Z) : Z :=
  let tails :=
    for_each nums (fun num tails =>
      let it := lower_bound tails num in
      if decide (it = length tails) then tails ++ [num]
      else <[it := num]> tails) [] in
  int (size_t (size tails)).

(** [int unique_paths(int m, int n)]. *)
Definition unique_paths (m n : Z) : outcome Z :=
  do dp <- vector_fill 4 n 1;
  do dp <- for_lt_M 1 m (fun i dp =>
             for_lt_M 1 n (fun j dp =>
               do x <- at_ dp j;
               do y <- at_ dp (int (j - 1));
               set_at dp j (int (x + y))) dp) dp;
  at_ dp (int (n - 1)).

(** [int min_path_sum(std::vector<std::vector<int>> grid)]: the grid
    is the function's own copy, which it overwrites with the sums. *)
Definition min_path_sum (grid : list (list Z)) : outcome Z :=
  let m := int (size_t (Z.of_nat (length grid))) in
  do row0 <- row_at grid 0;
  let n := int (size_t (size row0)) in
  do grid <- for_lt_M 1 n (fun j grid =>
               do x <- at2 grid 0 (int (j - 1));
               do y <- at2 grid 0 j;
               set_at2 grid 0 j (int (y + x))) grid;
  do grid <- for_lt_M 1 m (fun i grid =>
               do x <- at2 grid (int (i - 1)) 0;
               do y <- at2 grid i 0;
               set_at2 grid i 0 (int (y + x))) grid;
  do grid <- for_lt_M 1 m (fun i grid =>
               for_lt_M 1 n (fun j grid =>
                 do a <- at2 grid (int (i - 1)) j;
                 do b <- at2 grid i (int (j - 1));
                 do y <- at2 grid i j;
                 set_at2 grid i j (int (y + Z.min a b))) grid) grid;
  at2 grid (int (m - 1)) (int (n - 1)).

(** [int edit_distance(const std::string& word1,
                      const std::string& word2)]; a string is the list
    of its characters. *)
Definition edit_distance (word1 word2 : list Z) : outcome Z :=
  let m := int (size_t (size word1)) in
  let n := int (size_t (size word2)) in
  do dp <- matrix_fill (int (m + 1)) (int (n + 1)) 0;
  do dp <- for_le_M 0 m (fun i dp => set_at2 dp i 0 i) dp;
  do dp <- for_le_M 0 n (fun j dp => set_at2 dp 0 j j) dp;
  do dp <- for_le_M 1 m (fun i dp =>
             for_le_M 1 n (fun j dp =>
               do a <- at_ word1 (int (i - 1));
               do b <- at_ word2 (int (j - 1));
               if decide (a = b) then
                 do x <- at2 dp (int (i - 1)) (int (j - 1));
                 set_at2 dp i j x
               else
                 do x <- at2 dp (int (i - 1)) j;
                 do y <- at2 dp i (int (j - 1));
                 do z <- at2 dp (int (i - 1)) (int (j - 1));
                 set_at2 dp i j (int (1 + Z.min x (Z.min y z)))) dp) dp;
  at2 dp m n.

(** [int lcs(const std::string& text1, const std::string& text2)]. *)
Definition lcs (text1 text2 : list Z) : outcome Z :=
  let m := int (size_t (size text1)) in
  let n := int (size_t (size text2)) in
  do dp <- matrix_fill (int (m + 1)) (int (n + 1)) 0;
  do dp <- for_le_M 1 m (fun i dp =>
             for_le_M 1 n (fun j dp =>
               do a <- at_ text1 (int (i - 1));
               do b <- at_ text2 (int (j - 1));
               if decide (a = b) then
                 do x <- at2 dp (int (i - 1)) (int (j - 1));
                 set_at2 dp i j (int (x + 1))
               else
                 do x <- at2 dp (int (i - 1)) j;
                 do y <- at2 dp i (int (j - 1));
                 set_at2 dp i j (Z.max x y)) dp) dp;
  at2 dp m n.

(** [int knapsack_01(const std::vector<int>& weights,
                    const std::vector<int>& values, int W)]: the inner
    loop runs [w] from [W] down to [weights[i]]. *)
Definition knapsack_01 (weights values : list Z) (W : Z) : outcome Z :=
  do dp <- vector_fill 4 (int (W + 1)) 0;
  do dp <- for_lt_M 0 (size weights) (fun i dp =>
             do wi <- at_ weights i;
             for_down_M W wi (fun w dp =>
               do a <- at_ dp w;
               do b <- at_ dp (int (w - wi));
               do v <- at_ values i;
               set_at dp w (Z.max a (int (b + v)))) dp) dp;
  at_ dp W.

End DpDemo.

(** ** 02_modern_paradigms/examples/error_demo.cpp *)

Module ErrorDemo.

(** [std::optional<int> find_index(const std::vector<int>& v, int target)]:
    [k] iterations are left and the counter is [i]. *)
Fixpoint find_index_loop (k : nat) (i : Z) (v : list Z) (target : Z)
    : outcome (option Z) :=
  match k with
  | O => Ret None
  | S k' =>
      do x <- at_ v i;
      if decide (x = target) then Ret (Some (int i))
      else find_index_loop k' (i + 1) v target
  end.

Definition find_index (v : list Z) (target : Z) : outcome (option Z) :=
  find_index_loop (Z.to_nat (size v - 0)) 0 v target.

(** [void validate_age(int age)]. *)
Definition validate_age (age : Z) : io unit :=
  if decide (age < 0) then
    io_throw (invalid_argument "年龄不能为负")
  else if decide (age > 150) then
    io_throw (invalid_argument "年龄不合理")
  else io_ret tt.

End ErrorDemo.

Transparent int llong.

(** ** 03_algorithm_design/examples/sort_search_demo.cpp *)

Module SortSearchDemo.

(** [std::swap(arr[i], arr[j])]. *)
Definition swap (arr : list Z) (i j : Z) : outcome (list Z) :=
  do x <- at_ arr i;
  do y <- at_ arr j;
  do arr <- set_at arr i y;
  set_at arr j x.

(** [int partition(std::vector<int>& arr, int low, int high)]; the
    vector is passed in and handed back with the pivot position. *)
Definition partition (arr : list Z) (low high : Z) : outcome (list Z * Z) :=
  do pivot <- at_ arr high;
  let i := int (low - 1) in
  do (arr, i) <- for_lt_M low high (fun j '(arr, i) =>
                    do x <- at_ arr j;
                    if decide (x < pivot) then
                      let i := int (i + 1) in
                      do arr <- swap arr i j;
                      Ret (arr, i)
                    else Ret (arr, i)) (arr, i);
  do arr <- swap arr (int (i + 1)) high;
  Ret (arr, int (i + 1)).

(** [void quick_sort_impl(std::vector<int>& arr, int low, int high)],
    with a budget for the depth of the recursion. *)
Fixpoint quick_sort_impl (fuel : nat) (arr : list Z) (low high : Z)
    : outcome (list Z) :=
  if decide (low < high) then
    match fuel with
    | O => OutOfFuel
    | S fuel' =>
        do (arr, pi) <- partition arr low high;
        do arr <- quick_sort_impl fuel' arr low (int (pi - 1));
        quick_sort_impl fuel' arr (int (pi + 1)) high
    end
  else Ret arr.

(** [void quick_sort(std::vector<int>& arr)]: [arr.size() - 1] is
    computed in [size_t] and converted to the [int] parameter. *)
Definition quick_sort (fuel : nat) (arr : list Z) : outcome (list Z) :=
  if decide (arr = []) then Ret arr
  else quick_sort_impl fuel arr 0 (int (size_t (size arr - 1))).

(** [void bubble_sort(std::vector<int>& arr)]: [k] rounds of the outer
    loop are left and its counter is [i]; a round without a swap ends
    the loop. *)
Fixpoint bubble_sort_loop (k : nat) (i n : Z) (arr : list Z)
    : outcome (list Z) :=
  match k with
  | O => Ret arr
  | S k' =>
      let swapped := false in
      do (arr, swapped) <-
        for_lt_M 0 (int (int (n - i) - 1)) (fun j '(arr, swapped) =>
          do x <- at_ arr j;
          do y <- at_ arr (int (j + 1));
          if decide (x > y) then
            do arr <- swap arr j (int (j + 1));
            Ret (arr, true)
          else Ret (arr, swapped)) (arr, swapped);
      if negb swapped then Ret arr
      else bubble_sort_loop k' (i + 1) n arr
  end.

Definition bubble_sort (arr : list Z) : outcome (list Z) :=
  let n := int (size_t (size arr)) in
  bubble_sort_loop (Z.to_nat (int (n - 1) - 0)) 0 n arr.

(** [void selection_sort(std::vector<int>& arr)]. *)
Definition selection_sort (arr : list Z) : outcome (list Z) :=
  let n := int (size_t (size arr)) in
  for_lt_M 0 (int (n - 1)) (fun i arr =>
    let min_idx := i in
    do min_idx <- for_lt_M (int (i + 1)) n (fun j min_idx =>
                    do x <- at_ arr j;
                    do y <- at_ arr min_idx;
                    if decide (x < y) then Ret j else Ret min_idx) min_idx;
    if decide (min_idx <> i) then swap arr i min_idx
    else Ret arr) arr.

(** The loop [while (j >= 0 && arr[j] > key)] of [insertion_sort], with
    a budget of [fuel] rounds; it hands back the vector and [j]. *)
Fixpoint insertion_sort_shift (fuel : nat) (arr : list Z) (j key : Z)
    : outcome (list Z * Z) :=
  if decide (j >= 0) then
    do x <- at_ arr j;
    if decide (x > key) then
      match fuel with
      | O => OutOfFuel
      | S fuel' =>
          do arr <- set_at arr (int (j + 1)) x;
          insertion_sort_shift fuel' arr (int (j - 1)) key
      end
    else Ret (arr, j)
  else Ret (arr, j).

(** [void insertion_sort(std::vector<int>& arr)]. *)
Definition insertion_sort (fuel : nat) (arr : list Z) : outcome (list Z) :=
  let n := int (size_t (size arr)) in
  for_lt_M 1 n (fun i arr =>
    do key <- at_ arr i;
    let j := int (i - 1) in
    do (arr, j) <- insertion_sort_shift fuel arr j key;
    set_at arr (int (j + 1)) key) arr.

(** The three [while] loops of [merge], each with a budget of [fuel]
    rounds; they hand back [temp] and the counters they moved. *)
Fixpoint merge_both (fuel : nat) (arr temp : list Z) (mid right : Z)
    (i j k : Z) : outcome (list Z * Z * Z * Z) :=
  if decide (i <= mid /\ j <= right) then
    match fuel with
    | O => OutOfFuel
    | S fuel' =>
        do x <- at_ arr i;
        do y <- at_ arr j;
        if decide (x <= y) then
          do temp <- set_at temp k x;
          merge_both fuel' arr temp mid right (int (i + 1)) j (int (k + 1))
        else
          do temp <- set_at temp k y;
          merge_both fuel' arr temp mid right i (int (j + 1)) (int (k + 1))
    end
  else Ret (temp, i, j, k).

Fixpoint merge_rest (fuel : nat) (arr temp : list Z) (bound : Z)
    (i k : Z) : outcome (list Z * Z * Z) :=
  if decide (i <= bound) then
    match fuel with
    | O => OutOfFuel
    | S fuel' =>
        do x <- at_ arr i;
        do temp <- set_at temp k x;
        merge_rest fuel' arr temp bound (int (i + 1)) (int (k + 1))
    end
  else Ret (temp, i, k).

(** [void merge(std::vector<int>& arr, int left, int mid, int right)]. *)
Definition merge (fuel : nat) (arr : list Z) (left mid right : Z)
    : outcome (list Z) :=
  do temp <- vector_fill 4 (int (int (right - left) + 1)) 0;
  let i := left in
  let j := int (mid + 1) in
  let k := 0 in
  do (temp, i, j, k) <- merge_both fuel arr temp mid right i j k;
  do (temp, i, k) <- merge_rest fuel arr temp mid i k;
  do (temp, j, k) <- merge_rest fuel arr temp right j k;
  for_lt_M 0 k (fun i arr =>
    do x <- at_ temp i;
    set_at arr (int (left + i)) x) arr.

(** [void merge_sort_impl(std::vector<int>& arr, int left, int right)],
    with a budget for the depth of the recursion and for the loops of
    [merge]. *)
Fixpoint merge_sort_impl (fuel : nat) (arr : list Z) (left right : Z)
    : outcome (list Z) :=
  if decide (left >= right) then Ret arr
  else
    match fuel with
    | O => OutOfFuel
    | S fuel' =>
        let mid := int (left + int (int (right - left) `quot` 2)) in
        do arr <- merge_sort_impl fuel' arr left mid;
        do arr <- merge_sort_impl fuel' arr (int (mid + 1)) right;
        merge fuel arr left mid right
    end.

(** [void merge_sort(std::vector<int>& arr)]. *)
Definition merge_sort (fuel : nat) (arr : list Z) : outcome (list Z) :=
  if decide (arr = []) then Ret arr
  else merge_sort_impl fuel arr 0 (int (size_t (size arr - 1))).

(** [void heapify(std::vector<int>& arr, int n, int i)], with a budget
    for the depth of the recursion. *)
Fixpoint heapify (fuel : nat) (arr : list Z) (n i : Z) : outcome (list Z) :=
  let largest := i in
  let left := int (int (2 * i) + 1) in
  let right := int (int (2 * i) + 2) in
  do largest <-
    (if decide (left < n) then
       do x <- at_ arr left;
       do y <- at_ arr largest;
       if decide (x > y) then Ret left else Ret largest
     else Ret largest);
  do largest <-
    (if decide (right < n) then
       do x <- at_ arr right;
       do y <- at_ arr largest;
       if decide (x > y) then Ret right else Ret largest
     else Ret largest);
  if decide (largest <> i) then
    match fuel with
    | O => OutOfFuel
    | S fuel' =>
        do arr <- swap arr i largest;
        heapify fuel' arr n largest
    end
  else Ret arr.

(** [void heap_sort(std::vector<int>& arr)]. *)
Definition heap_sort (fuel : nat) (arr : list Z) : outcome (list Z) :=
  let n := int (size_t (size arr)) in
  do arr <- for_down_M (int (int (n `quot` 2) - 1)) 0 (fun i arr =>
              heapify fuel arr n i) arr;
  for_down_M (int (n - 1)) 1 (fun i arr =>
    do arr <- swap arr 0 i;
    heapify fuel arr i 0) arr.

(** [int binary_search(const std::vector<int>& arr, int target)]: the
    [while (left <= right)] loop with a budget of [fuel] rounds;
    [mid = left + (right - left) / 2], the division of C++ rounding
    towards zero. *)
Fixpoint binary_search_loop (fuel : nat) (arr : list Z) (target : Z)
    (left right : Z) : outcome Z :=
  if decide (left <= right) then
    match fuel with
    | O => OutOfFuel
    | S fuel' =>
        let mid := int (left + int (int (right - left) `quot` 2)) in
        do x <- at_ arr mid;
        if decide (x = target) then Ret mid
        else if decide (x < target) then
          binary_search_loop fuel' arr target (int (mid + 1)) right
        else
          binary_search_loop fuel' arr target left (int (mid - 1))
    end
  else Ret (-1).

Definition binary_search (fuel : nat) (arr : list Z) (target : Z) : outcome Z :=
  binary_search_loop fuel arr target 0 (int (size_t (size arr - 1))).

(** [int find_first(const std::vector<int>& arr, int target)]. *)
Fixpoint find_first_loop (fuel : nat) (arr : list Z) (target : Z)
    (left right result : Z) : outcome Z :=
  if decide (left <= right) then
    match fuel with
    | O => OutOfFuel
    | S fuel' =>
        let mid := int (left + int (int (right - left) `quot` 2)) in
        do x <- at_ arr mid;
        if decide (x = target) then
          find_first_loop fuel' arr target left (int (mid - 1)) mid
        else if decide (x < target) then
          find_first_loop fuel' arr target (int (mid + 1)) right result
        else
          find_first_loop fuel' arr target left (int (mid - 1)) result
    end
  else Ret result.

Definition find_first (fuel : nat) (arr : list Z) (target : Z) : outcome Z :=
  find_first_loop fuel arr target 0 (int (size_t (size arr - 1))) (-1).

(** [int find_last(const std::vector<int>& arr, int target)]. *)
Fixpoint find_last_loop (fuel : nat) (arr : list Z) (target : Z)
    (left right result : Z) : outcome Z :=
  if decide (left <= right) then
    match fuel with
    | O => OutOfFuel
    | S fuel' =>
        let mid := int (left + int (int (right - left) `quot` 2)) in
        do x <- at_ arr mid;
        if decide (x = target) then
          find_last_loop fuel' arr target (int (mid + 1)) right mid
        else if decide (x < target) then
          find_last_loop fuel' arr target (int (mid + 1)) right result
        else
          find_last_loop fuel' arr target left (int (mid - 1)) result
    end
  else Ret result.

Definition find_last (fuel : nat) (arr : list Z) (target : Z) : outcome Z :=
  find_last_loop fuel arr target 0 (int (size_t (size arr - 1))) (-1).

End SortSearchDemo.

(** ** 02_modern_paradigms/examples/raii_demo.cpp *)

Module RaiiDemo.

Section Environment.

(** Whether the operating system grants an [fopen] is not up to the
    program, which handles both answers; [may_open w name mode] is the
    system's answer in the world [w].  The two durations are what the
    clock measures for the two timers. *)
Variable may_open : world -> string -> string -> bool.
Variable elapsed_loop elapsed_sleep : Z.

(** [fopen(filename, mode)] for the modes ["w"] and ["r"]; the result
    is the new stream, or [None] for a null pointer. *)
Definition fopen (filename mode : string) : io (option nat) :=
  fun w =>
    if may_open w filename mode then
      let fd := fresh (dom (streams w)) in
      if decide (mode = "w") then
        (Ret (Some fd),
         World (<[filename := ""]> (files w))
               (<[fd := Stream filename mode ""]> (streams w))
               (cout w) (cerr w))
      else if decide (mode = "r") then
        match files w !! filename with
        | Some content =>
            (Ret (Some fd),
             World (files w)
                   (<[fd := Stream filename mode content]> (streams w))
                   (cout w) (cerr w))
        | None => (Ret None, w)
        end
      else (Ret None, w)
    else (Ret None, w).

(** [fclose(file)]. *)
Definition fclose (fd : nat) : io unit :=
  fun w =>
    (Ret tt, World (files w) (delete fd (streams w)) (cout w) (cerr w)).

(** [fprintf(file, "%s", text)]: the text goes to the end of the file
    the stream writes to. *)
Definition fprintf (fd : nat) (text : string) : io unit :=
  fun w =>
    match streams w !! fd with
    | Some st =>
        if decide (stream_mode st = "w") then
          (Ret tt,
           World (alter (fun content => content +:+ text) (stream_name st)
                        (files w))
                 (streams w) (cout w) (cerr w))
        else (Ret tt, w)
    | None => (Undefined, w)
    end.

(** The line [fgets] takes from the text left to read: at most [limit]
    characters, up to and including the first newline. *)
Fixpoint take_line (limit : nat) (rest : string) : string * string :=
  match limit, rest with
  | O, _ => (EmptyString, rest)
  | S _, EmptyString => (EmptyString, EmptyString)
  | S limit', String c rest' =>
      if decide (c = ascii_of_nat 10) then (String c EmptyString, rest')
      else
        let '(line, rest'') := take_line limit' rest' in
        (String c line, rest'')
  end.

(** [fgets(buffer, sizeof(buffer), file)] with the 256-byte buffer of
    [read_line]; [None] is the null pointer returned at the end of the
    file. *)
Definition fgets (fd : nat) : io (option string) :=
  fun w =>
    match streams w !! fd with
    | Some st =>
        if decide (stream_mode st = "r" /\ stream_rest st <> EmptyString) then
          let '(line, rest) := take_line 255 (stream_rest st) in
          (Ret (Some line),
           World (files w)
                 (<[fd := Stream (stream_name st) (stream_mode st) rest]>
                    (streams w))
                 (cout w) (cerr w))
        else (Ret None, w)
    | None => (Undefined, w)
    end.

(** [std::remove(filename)]; its result, which [main] ignores, is 0 when
    the file was there. *)
Definition remove (filename : string) : io Z :=
  fun w =>
    (Ret (match files w !! filename with Some _ => 0 | None => -1 end),
     World (delete filename (files w)) (streams w) (cout w) (cerr w)).

(** [class FileHandle]. *)
Record FileHandle : Type := {
  file_ : option nat;
  filename_ : string;
}.

(** [FileHandle(const std::string& filename, const char* mode)]. *)
Definition FileHandle_ctor (filename mode : string) : io FileHandle :=
  io_do file <- fopen filename mode;
  match file with
  | None => io_throw (runtime_error ("Failed to open file: " +:+ filename))
  | Some _ =>
      print ("[FileHandle] 打开文件: " +:+ filename +:+ nl) ;;
      io_ret {| file_ := file; filename_ := filename |}
  end.

(** [~FileHandle()]. *)
Definition FileHandle_dtor (this : FileHandle) : io unit :=
  match file_ this with
  | Some fd =>
      fclose fd ;;
      print ("[FileHandle] 关闭文件: " +:+ filename_ this +:+ nl)
  | None => io_ret tt
  end.

(** [void write(const std::string& text)]. *)
Definition write (this : FileHandle) (text : string) : io unit :=
  match file_ this with
  | Some fd => fprintf fd text
  | None => io_ret tt
  end.

(** [std::string read_line()]. *)
Definition read_line (this : FileHandle) : io string :=
  match file_ this with
  | None => io_ret EmptyString
  | Some fd =>
      io_do got <- fgets fd;
      io_ret (match got with Some line => line | None => EmptyString end)
  end.

(** [while (!(line = file.read_line()).empty()) std::cout << "Read: " << line;]
    with a budget of [fuel] iterations. *)
Fixpoint read_all (fuel : nat) (file : FileHandle) : io unit :=
  match fuel with
  | O => io_fail (@OutOfFuel)
  | S fuel' =>
      io_do line <- read_line file;
      if decide (line = EmptyString) then io_ret tt
      else print "Read: " ;; print line ;; read_all fuel' file
  end.

(** [void demo_file_handle()]. *)
Definition demo_file_handle (fuel : nat) : io unit :=
  print (nl +:+ "=== RAII 文件包装器 ===" +:+ nl) ;;
  try_catch
    (io_do file <- FileHandle_ctor "raii_test.txt" "w";
     at_scope_exit
       (write file ("Hello, RAII!" +:+ nl) ;;
        write file ("This is a test." +:+ nl))
       (FileHandle_dtor file))
    (fun e => print_err "Error: " ;; print_err (what e) ;; print_err nl) ;;
  try_catch
    (io_do file <- FileHandle_ctor "raii_test.txt" "r";
     at_scope_exit (read_all fuel file) (FileHandle_dtor file))
    (fun e => print_err "Error: " ;; print_err (what e) ;; print_err nl) ;;
  print ("文件已自动关闭" +:+ nl).

(** [class ScopeGuard]. *)
Record ScopeGuard : Type := {
  cleanup_ : io unit;
  active_ : bool;
}.

Definition ScopeGuard_ctor (cleanup : io unit) : ScopeGuard :=
  {| cleanup_ := cleanup; active_ := true |}.

Definition ScopeGuard_dtor (this : ScopeGuard) : io unit :=
  if active_ this then cleanup_ this else io_ret tt.

Definition dismiss (this : ScopeGuard) : ScopeGuard :=
  {| cleanup_ := cleanup_ this; active_ := false |}.

(** [void demo_scope_guard()]. *)
Definition demo_scope_guard : io unit :=
  print (nl +:+ "=== ScopeGuard 模式 ===" +:+ nl) ;;
  (print ("进入作用域..." +:+ nl) ;;
   let guard := ScopeGuard_ctor (print ("ScopeGuard: 清理操作执行!" +:+ nl)) in
   at_scope_exit (print ("做一些工作..." +:+ nl)) (ScopeGuard_dtor guard)) ;;
  print ("已离开作用域" +:+ nl) ;;
  (let guard := ScopeGuard_ctor (print ("这条消息不会显示" +:+ nl)) in
   let guard := dismiss guard in
   at_scope_exit (io_ret tt) (ScopeGuard_dtor guard)) ;;
  print ("dismiss 后清理不执行" +:+ nl).

(** [class Timer]: the constructor and the destructor print; the
    duration is the one the clock measured. *)
Definition Timer_ctor (name : string) : io string :=
  print ("[Timer] 开始计时: " +:+ name +:+ nl) ;; io_ret name.

Definition Timer_dtor (name_ : string) (duration : Z) : io unit :=
  print ("[Timer] " +:+ name_ +:+ " 耗时: " +:+ to_string duration
            +:+ " μs" +:+ nl).

(** [void demo_timer()]; the sleep changes nothing but the time.  The
    [int sum] of the numbers below 1000000 passes [INT_MAX] on the way
    and wraps here, as everywhere; the value is only printed. *)
Definition demo_timer : io unit :=
  print (nl +:+ "=== RAII 计时器 ===" +:+ nl) ;;
  (io_do timer <- Timer_ctor "简单循环";
   at_scope_exit
     (let sum := for_lt 0 1000000 (fun i sum => int (sum + i)) 0 in
      print ("Sum = " +:+ to_string sum +:+ nl))
     (Timer_dtor timer elapsed_loop)) ;;
  (io_do timer <- Timer_ctor "睡眠测试";
   at_scope_exit (io_ret tt) (Timer_dtor timer elapsed_sleep)).

(** [class Resource]. *)
Definition Resource_ctor (id : Z) : io Z :=
  print ("[Resource] 创建资源 #" +:+ to_string id +:+ nl) ;; io_ret id.

Definition Resource_dtor (id : Z) : io unit :=
  print ("[Resource] 销毁资源 #" +:+ to_string id +:+ nl).

Definition use (id : Z) : io unit :=
  print ("[Resource] 使用资源 #" +:+ to_string id +:+ nl).

(** [void demo_smart_pointers()]: a [unique_ptr] destroys its resource
    at the end of its scope, the later one first; the [shared_ptr]s
    destroy theirs when the last of them goes. *)
Definition demo_smart_pointers : io unit :=
  print (nl +:+ "=== 智能指针 RAII ===" +:+ nl) ;;
  print (nl +:+ "-- unique_ptr --" +:+ nl) ;;
  (io_do p1 <- Resource_ctor 1;
   at_scope_exit
     (use p1 ;;
      io_do p2 <- Resource_ctor 2;
      at_scope_exit (use p2) (Resource_dtor p2))
     (Resource_dtor p1)) ;;
  print ("资源已自动释放" +:+ nl) ;;
  print (nl +:+ "-- shared_ptr --" +:+ nl) ;;
  (io_do p3 <- Resource_ctor 3;
   at_scope_exit
     (print ("引用计数: " +:+ to_string 1 +:+ nl) ;;
      print ("引用计数: " +:+ to_string 2 +:+ nl) ;;
      print ("p4 离开作用域后引用计数: " +:+ to_string 1 +:+ nl))
     (Resource_dtor p3)) ;;
  print ("资源已自动释放" +:+ nl).

(** [void risky_operation(bool should_throw)]. *)
Definition risky_operation (should_throw : bool) : io unit :=
  if should_throw then io_throw (runtime_error "操作失败!")
  else print ("操作成功!" +:+ nl).

(** [void demo_exception_safety()]. *)
Definition demo_exception_safety : io unit :=
  print (nl +:+ "=== 异常安全 ===" +:+ nl) ;;
  try_catch
    (io_do resource <- Resource_ctor 100;
     at_scope_exit
       (print ("准备执行风险操作..." +:+ nl) ;;
        risky_operation true ;;
        print ("这行不会执行" +:+ nl))
       (Resource_dtor resource))
    (fun e => print "捕获异常: " ;; print (what e) ;; print nl) ;;
  print ("即使异常发生，资源也已正确释放" +:+ nl).

(** [int main()]. *)
Definition main (fuel : nat) : io Z :=
  print ("========================================" +:+ nl) ;;
  print ("      RAII 与资源管理示例" +:+ nl) ;;
  print ("========================================" +:+ nl) ;;
  demo_file_handle fuel ;;
  demo_scope_guard ;;
  demo_timer ;;
  demo_smart_pointers ;;
  demo_exception_safety ;;
  remove "raii_test.txt" ;;
  print (nl +:+ "========================================" +:+ nl) ;;
  print ("            示例结束" +:+ nl) ;;
  print ("========================================" +:+ nl) ;;
  io_ret 0.

End Environment.

End RaiiDemo.

(** ** The mathematical functions the programs are compared with *)

Module Spec.

(** [fact n] is n!. *)
Fixpoint fact (n : nat) : Z :=
  match n with
  | O => 1
  | S n' => Z.of_nat n * fact n'
  end.

(** [fib n] is the n-th Fibonacci number, F(0) = 0 and F(1) = 1. *)
Fixpoint fib (n : nat) : Z :=
  match n with
  | O => 0
  | S n' => match n' with
            | O => 1
            | S n'' => fib n' + fib n''
            end
  end.

(** The Fibonacci numbers by pairs, which evaluates in linear time. *)
Fixpoint fib_pair (n : nat) : Z * Z :=
  match n with
  | O => (0, 1)
  | S n' => let '(a, b) := fib_pair n' in (b, a + b)
  end.

(** [binom n k] is the binomial coefficient "n choose k", by Pascal's
    rule. *)
Fixpoint binom (n k : nat) : Z :=
  match n, k with
  | _, O => 1
  | O, S _ => 0
  | S n', S k' => binom n' k' + binom n' k
  end.

(** [is_lis_length nums k]: [k] is the length of a longest strictly
    increasing subsequence of [nums]. *)
Definition is_lis_length (nums : list Z) (k : nat) : Prop :=
  (exists s : list Z,
     s `sublist_of` nums /\ StronglySorted Z.lt s /\ length s = k) /\
  (forall s : list Z,
     s `sublist_of` nums -> StronglySorted Z.lt s -> (length s <= k)%nat).

(** [pays coins k a]: the amount [a] is the sum of [k] coins, each
    taken from [coins], repetition allowed. *)
Definition pays (coins : list Z) (k : nat) (a : Z) : Prop :=
  exists used : list Z,
    length used = k /\ Forall (fun c => c ∈ coins) used /\
    foldr Z.add 0 used = a.

(** A memo vector as the memoised functions expect it: every entry is
    the sentinel [-1] or the Fibonacci number of its index. *)
Definition memo_vec_ok (memo : list Z) : Prop :=
  forall (k : nat) (x : Z), memo !! k = Some x -> x = -1 \/ x = llong (fib k).

(** The global memo table, as [fib_memoized] leaves it. *)
Definition memo_ok (memo : gmap Z Z) : Prop :=
  forall (k : Z) (x : Z), memo !! k = Some x -> x = llong (fib (Z.to_nat k)).

(** The ways to climb [n] stairs one or two at a time, each as the list
    of its steps. *)
Fixpoint climbs (n : nat) : list (list Z) :=
  match n with
  | O => [[]]
  | S n' =>
      match n' with
      | O => [[1]]
      | S n'' => map (cons 1) (climbs n') ++ map (cons 2) (climbs n'')
      end
  end.

(** [sel_sum sel xs i]: the sum of the elements of [xs] at the chosen
    positions below [i]; [sel] says which positions are chosen. *)
Fixpoint sel_sum (sel : nat -> bool) (xs : list Z) (i : nat) : Z :=
  match i with
  | O => 0
  | S i' => sel_sum sel xs i' + (if sel i' then default 0 (xs !! i') else 0)
  end.

(** No two chosen positions are next to each other. *)
Definition no_adjacent (sel : nat -> bool) : Prop :=
  forall k : nat, sel k = true -> sel (S k) = false.

(** What [swap_case] of constexpr_demo.cpp does to a character, by
    cases: the letters change case, every other character stays. *)
Definition swapped_case (c : Z) : Z :=
  if decide (97 <= c <= 122) then c - 32
  else if decide (65 <= c <= 90) then c + 32 else c.

(** The polynomial [c_0 * 31^(n-1) + ... + c_(n-1)] of the characters
    [c_0 .. c_(n-1)] of a string. *)
Fixpoint poly31 (cs : list Z) : Z :=
  match cs with
  | [] => 0
  | c :: cs' => c * 31 ^ Z.of_nat (length cs') + poly31 cs'
  end.

(** [lcs_length s t k]: [k] is the length of a longest common
    subsequence of [s] and [t]. *)
Definition lcs_length (s t : list Z) (k : nat) : Prop :=
  (exists c : list Z,
     c `sublist_of` s /\ c `sublist_of` t /\ length c = k) /\
  (forall c : list Z,
     c `sublist_of` s -> c `sublist_of` t -> (length c <= k)%nat).

(** One edit of a string: a character is inserted, deleted or
    replaced by another one, anywhere in the string. *)
Inductive edit1 : list Z -> list Z -> Prop :=
  | edit1_insert (y : Z) (t : list Z) : edit1 t (y :: t)
  | edit1_delete (x : Z) (t : list Z) : edit1 (x :: t) t
  | edit1_replace (x y : Z) (t : list Z) : x <> y -> edit1 (x :: t) (y :: t)
  | edit1_skip (x : Z) (t u : list Z) : edit1 t u -> edit1 (x :: t) (x :: u).

(** [edit_steps k s t]: [k] edits, one after the other, turn [s] into
    [t]. *)
Fixpoint edit_steps (k : nat) (s t : list Z) : Prop :=
  match k with
  | O => s = t
  | S k' => exists u : list Z, edit1 s u /\ edit_steps k' u t
  end.

(** [is_edit_distance s t k]: [k] is the least number of edits that
    turn [s] into [t]. *)
Definition is_edit_distance (s t : list Z) (k : nat) : Prop :=
  edit_steps k s t /\ forall k' : nat, edit_steps k' s t -> (k <= k')%nat.

(** [grid_path a b p]: [p] lists the cells, as (row, column), of a
    path through a grid that starts at the top-left cell, ends at row
    [a] and column [b], and steps to the right or down only. *)
Inductive grid_path : nat -> nat -> list (nat * nat) -> Prop :=
  | path_start : grid_path 0 0 [(0%nat, 0%nat)]
  | path_down (a b : nat) (p : list (nat * nat)) :
      grid_path a b p -> grid_path (S a) b (p ++ [(S a, b)])
  | path_right (a b : nat) (p : list (nat * nat)) :
      grid_path a b p -> grid_path a (S b) (p ++ [(a, S b)]).

(** The number in a cell of the grid, and the sum along a path. *)
Definition cell_value (grid : list (list Z)) (c : nat * nat) : Z :=
  match grid !! c.1 with
  | Some r => default 0 (r !! c.2)
  | None => 0
  end.

Definition path_sum (grid : list (list Z)) (p : list (nat * nat)) : Z :=
  foldr (fun c acc => cell_value grid c + acc) 0 p.

(** [is_min_path_sum grid a b v]: [v] is the least sum along a path to
    row [a] and column [b]. *)
Definition is_min_path_sum (grid : list (list Z)) (a b : nat) (v : Z) : Prop :=
  (exists p : list (nat * nat), grid_path a b p /\ path_sum grid p = v) /\
  (forall p : list (nat * nat), grid_path a b p -> v <= path_sum grid p).

(** A position of the Tower of Hanoi: the disks on each peg, top
    first.  [put peg disks st] is [st] with [disks] on [peg]. *)
Definition position : Type := ascii -> list Z.

Definition put (peg : ascii) (disks : list Z) (st : position) : position :=
  fun q => if decide (q = peg) then disks else st q.

(** The position after moving disk [d] from peg [from] to peg [to],
    when the rules allow the move: [d] is on top of [from], and [to]
    is another peg, empty or with a larger disk on top. *)
Definition move_disk (d : Z) (from to : ascii) (st : position)
    : option position :=
  match st from with
  | top :: rest =>
      if bool_decide (top = d) && bool_decide (from <> to)
         && match st to with
            | [] => true
            | t :: _ => bool_decide (d < t)
            end
      then Some (put to (d :: st to) (put from rest st))
      else None
  | [] => None
  end.

(** Playing a list of moves, each a disk with the pegs it goes from
    and to; [None] when a move breaks the rules. *)
Fixpoint play (ms : list (Z * ascii * ascii)) (st : position)
    : option position :=
  match ms with
  | [] => Some st
  | (d, from, to) :: ms' =>
      match move_disk d from to st with
      | Some st' => play ms' st'
      | None => None
      end
  end.

End Spec.

Import Spec.

(** * Invariants

    What the proofs below keep true of the loops and of the recursion. *)

Module Inv.

(** ** unique_paths: the row of the table after row [r] of the grid. *)
Definition row_ok (n : Z) (r : Z) (dp : list Z) : Prop :=
  length dp = Z.to_nat n /\
  forall c : nat, (c < Z.to_nat n)%nat ->
    dp !! c = Some (int (binom (Z.to_nat r + c) c)).

(** ** coin_change, for the coins [coins] and the amount [amount]. *)

(** What an entry of the table must be once it is final. *)
Definition best (coins : list Z) (amount : Z) (a x : Z) : Prop :=
  (x = amount + 1 /\ forall k, ~ pays coins k a) \/
  (0 <= x <= a /\ pays coins (Z.to_nat x) a /\
   forall k, pays coins k a -> x <= Z.of_nat k).

(** What the entry for [i] is after the coins of [done] were tried. *)
Definition partial (coins : list Z) (amount : Z) (i : Z) (done : list Z)
    (x : Z) : Prop :=
  (x = amount + 1 /\ forall c k, c ∈ done -> ~ pays coins k (i - c)) \/
  (0 <= x <= i /\ pays coins (Z.to_nat x) i /\
   forall c k, c ∈ done -> pays coins k (i - c) -> x <= Z.of_nat k + 1).

(** The table when the outer loop is at [i]. *)
Definition table_ok (coins : list Z) (amount : Z) (i : Z) (dp : list Z) : Prop :=
  length dp = Z.to_nat (amount + 1) /\
  (forall a : nat, Z.of_nat a < i ->
     exists x, dp !! a = Some x /\ best coins amount (Z.of_nat a) x) /\
  (forall a : nat, i <= Z.of_nat a <= amount -> dp !! a = Some (amount + 1)).

(** The table inside the inner loop for [i], after the coins of [done]. *)
Definition row_inv (coins : list Z) (amount : Z) (i : Z) (done : list Z)
    (dp : list Z) : Prop :=
  length dp = Z.to_nat (amount + 1) /\
  (forall a : nat, Z.of_nat a < i ->
     exists x, dp !! a = Some x /\ best coins amount (Z.of_nat a) x) /\
  (forall a : nat, i < Z.of_nat a <= amount -> dp !! a = Some (amount + 1)) /\
  (exists x, dp !! Z.to_nat i = Some x /\ partial coins amount i done x).

(** ** raii_demo *)

(** [w'] differs from [w] at most in the file [raii_test.txt] and in
    what was printed. *)
Definition same_but (w w' : world) : Prop :=
  streams w' = streams w /\
  forall name : string, name <> "raii_test.txt" ->
    files w' !! name = files w !! name.

(** A computation that returns and leaves the files and streams as they
    were. *)
Definition tidy {A : Type} (m : io A) : Prop :=
  forall w : world, exists (a : A) (w' : world),
    m w = (Ret a, w') /\ streams w' = streams w /\ files w' = files w.

(** ** quick_sort *)

(** [a'] is [a] rearranged within the positions [low .. high]: the
    other positions are untouched, and whatever holds of every element
    of the segment before still holds of every element after. *)
Definition rearranged (low high : Z) (a a' : list Z) : Prop :=
  length a' = length a /\
  a' ≡ₚ a /\
  (forall k : nat, ~ (low <= Z.of_nat k <= high) -> a' !! k = a !! k) /\
  (forall P : Z -> Prop,
     (forall (k : nat) (x : Z), low <= Z.of_nat k <= high -> a !! k = Some x -> P x) ->
     forall (k : nat) (x : Z), low <= Z.of_nat k <= high -> a' !! k = Some x -> P x).

(** The positions [low .. high] of [a] are in non-decreasing order. *)
Definition sorted_between (low high : Z) (a : list Z) : Prop :=
  forall (k1 k2 : nat) (x1 x2 : Z),
    low <= Z.of_nat k1 -> (k1 <= k2)%nat -> Z.of_nat k2 <= high ->
    a !! k1 = Some x1 -> a !! k2 = Some x2 -> x1 <= x2.

(** The state of the loop of [partition a low high], with pivot [pivot],
    when its counter is [j]. *)
Definition partition_inv (a : list Z) (low high pivot : Z) (j : Z)
    (s : list Z * Z) : Prop :=
  rearranged low high a s.1 /\
  low - 1 <= s.2 < j /\
  s.1 !! Z.to_nat high = Some pivot /\
  (forall (k : nat) (x : Z),
     low <= Z.of_nat k <= s.2 -> s.1 !! k = Some x -> x < pivot) /\
  (forall (k : nat) (x : Z),
     s.2 < Z.of_nat k < j -> s.1 !! k = Some x -> pivot <= x).

(** ** length_of_lis and length_of_lis_n2 *)

(** The vector [tails] after the prefix [p] of the input: it is
    strictly increasing; its entry [k] ends an increasing subsequence of
    [p] of length [k + 1]; and no increasing subsequence of that length
    ends in anything smaller. *)
Definition tails_inv (p t : list Z) : Prop :=
  StronglySorted Z.lt t /\
  (forall (k : nat) (x : Z), t !! k = Some x ->
     exists s, (s ++ [x]) `sublist_of` p /\
               StronglySorted Z.lt (s ++ [x]) /\ length s = k) /\
  (forall (s : list Z) (x : Z),
     (s ++ [x]) `sublist_of` p -> StronglySorted Z.lt (s ++ [x]) ->
     exists y, t !! length s = Some y /\ y <= x).

(** One round of the loop of [length_of_lis]. *)
Definition tails_step (num : Z) (tails : list Z) : list Z :=
  let it := DpDemo.lower_bound tails num in
  if decide (it = length tails) then tails ++ [num]
  else <[it := num]> tails.

(** [d] is the length of a longest increasing subsequence that ends in
    [x] and takes its other elements from [p]. *)
Definition best_end (p : list Z) (x d : Z) : Prop :=
  (exists s, s `sublist_of` p /\ StronglySorted Z.lt (s ++ [x]) /\
             Z.of_nat (length s) + 1 = d) /\
  (forall s, s `sublist_of` p -> StronglySorted Z.lt (s ++ [x]) ->
             Z.of_nat (length s) + 1 <= d).

(** The entries of [dp] below [i] are final. *)
Definition dp_done (nums : list Z) (i : Z) (dp : list Z) : Prop :=
  forall k : nat, Z.of_nat k < i -> Z.of_nat k < size nums ->
    exists d y, nums !! k = Some y /\ dp !! k = Some d /\
                best_end (take k nums) y d.

(** The state of the outer loop of [length_of_lis_n2] at counter [i]. *)
Definition lis_outer_inv (nums : list Z) (i : Z) (s : list Z * Z) : Prop :=
  length s.1 = length nums /\
  dp_done nums i s.1 /\
  (forall k : nat, i <= Z.of_nat k < size nums -> s.1 !! k = Some 1) /\
  (exists k : nat, Z.of_nat k < i /\ s.1 !! k = Some s.2) /\
  (forall (k : nat) (d : Z), Z.of_nat k < i -> s.1 !! k = Some d -> d <= s.2).

(** ** The quadratic sorts *)

(** The first [i] positions of [a] are in order and hold nothing larger
    than what comes after them; [a] is [arr] rearranged. *)
Definition sorted_upto (arr : list Z) (i : Z) (a : list Z) : Prop :=
  length a = length arr /\
  a ≡ₚ arr /\
  sorted_between 0 (i - 1) a /\
  (forall (k1 k2 : nat) (x1 x2 : Z),
     Z.of_nat k1 < i -> i <= Z.of_nat k2 ->
     a !! k1 = Some x1 -> a !! k2 = Some x2 -> x1 <= x2).

(** [m] is a position of a smallest element among the positions
    [i .. j - 1] of [a]. *)
Definition smallest_at (a : list Z) (i j m : Z) : Prop :=
  i <= m < j /\
  exists y, a !! Z.to_nat m = Some y /\
    forall (k : nat) (x : Z), i <= Z.of_nat k < j -> a !! k = Some x -> y <= x.

(** The positions from [p] on are in order and hold nothing smaller
    than what comes before them; [a] is [arr] rearranged. *)
Definition sorted_from (arr : list Z) (p : Z) (a : list Z) : Prop :=
  length a = length arr /\
  a ≡ₚ arr /\
  sorted_between p (size arr - 1) a /\
  (forall (k1 k2 : nat) (x1 x2 : Z),
     Z.of_nat k1 < p -> p <= Z.of_nat k2 ->
     a !! k1 = Some x1 -> a !! k2 = Some x2 -> x1 <= x2).

(** The inner loop of [bubble_sort] at counter [j], over the first [p]
    positions of [a]: position [j] holds the largest element so far,
    and as long as nothing was swapped the positions up to [j] are in
    order. *)
Definition bubble_inner_inv (a : list Z) (p : Z) (j : Z)
    (s : list Z * bool) : Prop :=
  rearranged 0 (p - 1) a s.1 /\
  (forall (k : nat) (x y : Z),
     Z.of_nat k <= j -> s.1 !! k = Some x -> s.1 !! Z.to_nat j = Some y -> x <= y) /\
  (s.2 = false -> sorted_between 0 j s.1).

(** The loop of [insertion_sort] that makes room for [key], taken from
    position [i] of [a]: position [j + 1] of [b] is free, the positions
    up to [j] are as in [a], those after [j + 1] up to [i] hold what
    was one place to the left, all of it larger than [key]. *)
Definition shift_inv (a : list Z) (i key : Z) (j : Z) (b : list Z) : Prop :=
  length b = length a /\
  -1 <= j < i /\
  <[Z.to_nat (j + 1) := key]> b ≡ₚ a /\
  (forall k : nat, Z.of_nat k <= j -> b !! k = a !! k) /\
  (forall k : nat, j + 1 < Z.of_nat k <= i -> b !! k = a !! (k - 1)%nat) /\
  (forall (k : nat) (x : Z), j + 1 < Z.of_nat k <= i -> b !! k = Some x -> key < x).

(** The first [i] positions of [a] are in order; [a] is [arr]
    rearranged. *)
Definition prefix_sorted (arr : list Z) (i : Z) (a : list Z) : Prop :=
  length a = length arr /\ a ≡ₚ arr /\ sorted_between 0 (i - 1) a.

(** ** merge sort *)

(** The elements of [a] at the positions [lo .. hi - 1]. *)
Definition segment (a : list Z) (lo hi : Z) : list Z :=
  take (Z.to_nat (hi - lo)) (drop (Z.to_nat lo) a).

(** The loops of [merge arr left mid right]: the first [k] entries of
    [temp] are the elements of [arr] at [left .. i - 1] and at
    [mid + 1 .. j - 1], in order, none larger than what the two runs
    still hold. *)
Definition merge_inv (arr : list Z) (left mid right : Z)
    (s : list Z * Z * Z * Z) : Prop :=
  let '(temp, i, j, k) := s in
  left <= i <= mid + 1 /\ mid + 1 <= j <= right + 1 /\
  k = (i - left) + (j - (mid + 1)) /\
  length temp = Z.to_nat (right - left + 1) /\
  take (Z.to_nat k) temp ≡ₚ segment arr left i ++ segment arr (mid + 1) j /\
  sorted_between 0 (k - 1) temp /\
  (forall (p : nat) (x y : Z),
     Z.of_nat p < k -> temp !! p = Some x ->
     i <= mid -> arr !! Z.to_nat i = Some y -> x <= y) /\
  (forall (p : nat) (x y : Z),
     Z.of_nat p < k -> temp !! p = Some x ->
     j <= right -> arr !! Z.to_nat j = Some y -> x <= y).

(** The loop of [merge] that copies [temp] back, at counter [c]. *)
Definition copy_inv (arr : list Z) (left : Z) (temp : list Z) (c : Z)
    (a : list Z) : Prop :=
  length a = length arr /\
  (forall p : nat, Z.of_nat p < c -> a !! (Z.to_nat left + p)%nat = temp !! p) /\
  (forall q : nat, Z.of_nat q < left \/ left + c <= Z.of_nat q -> a !! q = arr !! q).

(** ** heap sort *)

(** Within the first [n] positions of [a], the children of position
    [k] hold nothing larger than position [k] does. *)
Definition heap_at (n : Z) (a : list Z) (k : Z) : Prop :=
  forall (c x y : Z),
    c = 2 * k + 1 \/ c = 2 * k + 2 -> c < n ->
    a !! Z.to_nat k = Some x -> a !! Z.to_nat c = Some y -> y <= x.

(** [heapify(arr, n, i)] on its way down: every position from [lo] on
    but [i] is in order with its children, and the children of [i] hold
    nothing larger than the parent of [i] does. *)
Definition sift_inv (n lo i : Z) (a : list Z) : Prop :=
  (forall k : Z, lo <= k < n -> k <> i -> heap_at n a k) /\
  (forall (p c x y : Z),
     lo <= p -> i = 2 * p + 1 \/ i = 2 * p + 2 ->
     c = 2 * i + 1 \/ c = 2 * i + 2 -> c < n ->
     a !! Z.to_nat p = Some x -> a !! Z.to_nat c = Some y -> y <= x).

(** The first loop of [heap_sort] at counter [j]. *)
Definition heap_build_inv (arr : list Z) (j : Z) (a : list Z) : Prop :=
  rearranged 0 (size arr - 1) arr a /\
  (forall k : Z, j < k < size arr -> heap_at (size arr) a k).

(** The second loop of [heap_sort] at counter [i]: the first [i + 1]
    positions are a heap, the others are in order and hold nothing
    smaller than the heap does. *)
Definition heap_sort_inv (arr : list Z) (i : Z) (a : list Z) : Prop :=
  rearranged 0 (size arr - 1) arr a /\
  (forall k : Z, 0 <= k < i + 1 -> heap_at (i + 1) a k) /\
  sorted_between (i + 1) (size arr - 1) a /\
  (forall (k1 k2 : nat) (x1 x2 : Z),
     Z.of_nat k1 <= i -> i < Z.of_nat k2 ->
     a !! k1 = Some x1 -> a !! k2 = Some x2 -> x1 <= x2).

(** ** permutations and subsets *)

(** The loop of [permute_helper nums start result] at counter [i]:
    [nums] is as it was, and [result] has gained the rearrangements of
    [nums] that keep the first [start] positions and have at position
    [start] what [nums] has at one of the positions [start .. i - 1]. *)
Definition permute_inv (nums : list Z) (start : Z) (result : list (list Z))
    (i : Z) (s : list Z * list (list Z)) : Prop :=
  s.1 = nums /\
  exists new : list (list Z),
    s.2 = result ++ new /\
    Z.of_nat (length new)
    = (i - start) * fact (Z.to_nat (size nums - start - 1)) /\
    forall l : list Z,
      l ∈ new <->
      l ≡ₚ nums /\
      take (Z.to_nat start) l = take (Z.to_nat start) nums /\
      exists j : nat, start <= Z.of_nat j < i /\ l !! Z.to_nat start = nums !! j.


(** The loop of [subsets_helper nums index current result] at counter
    [i]: [current] is as it was, and [result] has gained [current]
    itself and [current] followed by every subsequence of [nums] that
    starts at one of the positions [index .. i - 1]. *)
Definition subsets_inv (nums : list Z) (index : Z) (current : list Z)
    (result : list (list Z)) (i : Z) (s : list Z * list (list Z)) : Prop :=
  s.1 = current /\
  exists new : list (list Z),
    s.2 = result ++ new /\
    head new = Some current /\
    Z.of_nat (length new) = 1 + 2 ^ (size nums - index) - 2 ^ (size nums - i) /\
    forall l : list Z,
      l ∈ new <->
      l = current \/
      exists (j : nat) (x : Z) (t : list Z),
        index <= Z.of_nat j < i /\ nums !! j = Some x /\
        t `sublist_of` drop (S j) nums /\ l = current ++ x :: t.

(** ** max_subarray *)

(** The sum of the elements of [a] at the positions [lo .. hi - 1]. *)
Definition seg_sum (a : list Z) (lo hi : Z) : Z :=
  foldr Z.add 0 (segment a lo hi).

(** [m] is the largest sum of a non-empty run of consecutive elements
    among the first [i] of [a]. *)
Definition best_run (a : list Z) (i m : Z) : Prop :=
  (exists lo hi : Z, 0 <= lo < hi /\ hi <= i /\ seg_sum a lo hi = m) /\
  (forall lo hi : Z, 0 <= lo < hi -> hi <= i -> seg_sum a lo hi <= m).

(** [c] is the largest sum of a non-empty run that ends at position
    [i - 1] of [a]. *)
Definition best_run_ending (a : list Z) (i c : Z) : Prop :=
  (exists lo : Z, 0 <= lo < i /\ seg_sum a lo i = c) /\
  (forall lo : Z, 0 <= lo < i -> seg_sum a lo i <= c).

(** The loop of [max_subarray_range] at counter [i]. *)
Definition range_inv (a : list Z) (i : Z) (s : Z * Z * Z * Z * Z) : Prop :=
  let '(max_sum, curr_sum, start, end_, temp_start) := s in
  best_run a i max_sum /\ best_run_ending a i curr_sum /\
  0 <= temp_start < i /\ seg_sum a temp_start i = curr_sum /\
  0 <= start <= end_ /\ end_ < i /\ seg_sum a start (end_ + 1) = max_sum.

(** ** rob and knapsack_01 *)

(** [r] is the most that positions below [i] of [nums], no two of them
    adjacent, can add up to. *)
Definition best_loot (nums : list Z) (i : nat) (r : Z) : Prop :=
  (exists sel, no_adjacent sel /\ sel_sum sel nums i = r) /\
  (forall sel, no_adjacent sel -> sel_sum sel nums i <= r).

(** [r] is the most value that items below [i] of total weight at most
    [w] can have. *)
Definition best_pack (weights values : list Z) (i : nat) (w r : Z) : Prop :=
  (exists sel, sel_sum sel weights i <= w /\ sel_sum sel values i = r) /\
  (forall sel, sel_sum sel weights i <= w -> sel_sum sel values i <= r).

(** The table of [knapsack_01] when the outer loop is at item [i]. *)
Definition knap_table (weights values : list Z) (W : Z) (i : Z)
    (dp : list Z) : Prop :=
  length dp = Z.to_nat (W + 1) /\
  forall c : nat, Z.of_nat c <= W ->
    exists r, dp !! c = Some r /\ best_pack weights values (Z.to_nat i) (Z.of_nat c) r.

(** The table inside the inner loop for item [i] at counter [w]: the
    entries above [w] already count item [i], the others do not yet. *)
Definition knap_row (weights values : list Z) (W : Z) (i : nat) (w : Z)
    (dp : list Z) : Prop :=
  length dp = Z.to_nat (W + 1) /\
  (forall c : nat, w < Z.of_nat c <= W ->
     exists r, dp !! c = Some r /\ best_pack weights values (S i) (Z.of_nat c) r) /\
  (forall c : nat, Z.of_nat c <= w -> Z.of_nat c <= W ->
     exists r, dp !! c = Some r /\ best_pack weights values i (Z.of_nat c) r).

(** ** Tables filled cell by cell: a table of [rows] rows of [cols]
    entries, whose filled cells hold a [good] value and whose other
    cells still hold an [init] one. *)
Definition table_inv (rows cols : nat) (filled : nat -> nat -> Prop)
    (good init : nat -> nat -> Z -> Prop) (dp : list (list Z)) : Prop :=
  length dp = rows /\
  Forall (fun r => length r = cols) dp /\
  forall a b : nat, (a < rows)%nat -> (b < cols)%nat ->
    forall (r : list Z) (v : Z), dp !! a = Some r -> r !! b = Some v ->
      (filled a b -> good a b v) /\ (~ filled a b -> init a b v).

(** The cells filled when the loops are at row [i] and column [j]:
    row 0, column 0, the rows above [i] and row [i] left of [j]. *)
Definition filled_upto (i j : nat) (a b : nat) : Prop :=
  a = 0%nat \/ b = 0%nat \/ (a < i)%nat \/ (a = i /\ (b < j)%nat).

(** ** lcs: the entry for the first [a] characters of [text1] and the
    first [b] of [text2]. *)
Definition lcs_cell (text1 text2 : list Z) (a b : nat) (v : Z) : Prop :=
  exists k : nat,
    v = Z.of_nat k /\ lcs_length (take a text1) (take b text2) k.

(** ** edit_distance: [edits s t k] reads the two strings side by side
    from the left: a character is kept, replaced, deleted from [s] or
    inserted from [t], at a cost of [k] in all. *)
Inductive edits : list Z -> list Z -> nat -> Prop :=
  | edits_nil : edits [] [] 0
  | edits_keep (x : Z) (s t : list Z) (k : nat) :
      edits s t k -> edits (x :: s) (x :: t) k
  | edits_replace (x y : Z) (s t : list Z) (k : nat) :
      edits s t k -> edits (x :: s) (y :: t) (S k)
  | edits_delete (x : Z) (s t : list Z) (k : nat) :
      edits s t k -> edits (x :: s) t (S k)
  | edits_insert (y : Z) (s t : list Z) (k : nat) :
      edits s t k -> edits s (y :: t) (S k).

Definition least_edits (s t : list Z) (k : nat) : Prop :=
  edits s t k /\ forall k' : nat, edits s t k' -> (k <= k')%nat.

(** The entry for the first [a] characters of [word1] and the first
    [b] of [word2]. *)
Definition edit_cell (word1 word2 : list Z) (a b : nat) (v : Z) : Prop :=
  exists k : nat,
    v = Z.of_nat k /\ least_edits (take a word1) (take b word2) k.

(** ** min_path_sum: a cell the loops have not reached holds the
    number the grid came with. *)
Definition grid_cell (grid : list (list Z)) (a b : nat) (v : Z) : Prop :=
  cell_value grid (a, b) = v.

End Inv.

Import Inv.

(** * Proofs *)

(** ** Machine integers *)

Section Wrap.
Variable bits : Z.
Hypothesis bits_pos : 0 < bits.

Lemma wrap_id x : - 2 ^ (bits - 1) <= x < 2 ^ (bits - 1) -> wrap bits x = x.
Proof.
  intros Hx. unfold wrap.
  assert (2 ^ bits = 2 * 2 ^ (bits - 1)) as E.
  { rewrite <- Z.pow_succ_r by lia. f_equal. lia. }
  rewrite Z.mod_small by lia. lia.
Qed.

Lemma wrap_range x : - 2 ^ (bits - 1) <= wrap bits x < 2 ^ (bits - 1).
Proof.
  unfold wrap.
  assert (2 ^ bits = 2 * 2 ^ (bits - 1)) as E.
  { rewrite <- Z.pow_succ_r by lia. f_equal. lia. }
  assert (0 < 2 ^ (bits - 1)) by (apply Z.pow_pos_nonneg; lia).
  pose proof (Z.mod_pos_bound (x + 2 ^ (bits - 1)) (2 ^ bits)). lia.
Qed.

Lemma wrap_congr x y :
  x `mod` 2 ^ bits = y `mod` 2 ^ bits -> wrap bits x = wrap bits y.
Proof.
  intros E. unfold wrap. f_equal.
  rewrite <- (Zplus_mod_idemp_l x), E, Zplus_mod_idemp_l. reflexivity.
Qed.

Lemma wrap_mod x : wrap bits x `mod` 2 ^ bits = x `mod` 2 ^ bits.
Proof.
  unfold wrap. rewrite Zminus_mod_idemp_l. f_equal. lia.
Qed.

Lemma wrap_add_l x y : wrap bits (wrap bits x + y) = wrap bits (x + y).
Proof.
  apply wrap_congr.
  rewrite <- Zplus_mod_idemp_l, wrap_mod, Zplus_mod_idemp_l. reflexivity.
Qed.

Lemma wrap_add_r x y : wrap bits (x + wrap bits y) = wrap bits (x + y).
Proof. rewrite (Z.add_comm x), wrap_add_l. f_equal. lia. Qed.

Lemma wrap_mul_l x y : wrap bits (wrap bits x * y) = wrap bits (x * y).
Proof.
  apply wrap_congr.
  rewrite <- Zmult_mod_idemp_l, wrap_mod, Zmult_mod_idemp_l. reflexivity.
Qed.

Lemma wrap_mul_r x y : wrap bits (x * wrap bits y) = wrap bits (x * y).
Proof. rewrite (Z.mul_comm x), wrap_mul_l. f_equal. lia. Qed.
End Wrap.

Lemma int_id x : INT_MIN <= x <= INT_MAX -> int x = x.
Proof. intros H. apply wrap_id; [lia|]. unfold INT_MIN, INT_MAX in H. simpl. lia. Qed.

Lemma llong_id x : LLONG_MIN <= x <= LLONG_MAX -> llong x = x.
Proof. intros H. apply wrap_id; [lia|]. unfold LLONG_MIN, LLONG_MAX in H. simpl. lia. Qed.

Lemma int_range x : INT_MIN <= int x <= INT_MAX.
Proof. pose proof (wrap_range 32 ltac:(lia) x) as H. unfold int, INT_MIN, INT_MAX. simpl in H. lia. Qed.

Lemma llong_range x : LLONG_MIN <= llong x <= LLONG_MAX.
Proof. pose proof (wrap_range 64 ltac:(lia) x) as H. unfold llong, LLONG_MIN, LLONG_MAX. simpl in H. lia. Qed.

Lemma int_mul_l x y : int (int x * y) = int (x * y).
Proof. apply wrap_mul_l; lia. Qed.
Lemma int_mul_r x y : int (x * int y) = int (x * y).
Proof. apply wrap_mul_r; lia. Qed.
Lemma int_add_l x y : int (int x + y) = int (x + y).
Proof. apply wrap_add_l; lia. Qed.
Lemma int_add_r x y : int (x + int y) = int (x + y).
Proof. apply wrap_add_r; lia. Qed.
Lemma llong_mul_l x y : llong (llong x * y) = llong (x * y).
Proof. apply wrap_mul_l; lia. Qed.
Lemma llong_mul_r x y : llong (x * llong y) = llong (x * y).
Proof. apply wrap_mul_r; lia. Qed.
Lemma llong_add_l x y : llong (llong x + y) = llong (x + y).
Proof. apply wrap_add_l; lia. Qed.
Lemma llong_add_r x y : llong (x + llong y) = llong (x + y).
Proof. apply wrap_add_r; lia. Qed.

Opaque int llong.

(** ** Loops: what an invariant gives *)

Lemma for_loop_inv {St : Type} (P : Z -> St -> Prop) (body : Z -> St -> St) :
  forall (k : nat) (i : Z) (s : St),
    P i s ->
    (forall j s, i <= j < i + Z.of_nat k -> P j s -> P (j + 1) (body j s)) ->
    P (i + Z.of_nat k) (for_loop k i body s).
Proof.
  induction k as [|k IH]; intros i s Hs Hstep; simpl for_loop.
  - replace (i + Z.of_nat 0) with i by lia. exact Hs.
  - replace (i + Z.of_nat (S k)) with ((i + 1) + Z.of_nat k) by lia.
    apply IH.
    + apply Hstep; [lia | exact Hs].
    + intros j s' Hj. apply Hstep. lia.
Qed.

Lemma for_le_inv {St : Type} (P : Z -> St -> Prop) (body : Z -> St -> St)
    (lo hi : Z) (s : St) :
  lo <= hi + 1 ->
  P lo s ->
  (forall j s, lo <= j <= hi -> P j s -> P (j + 1) (body j s)) ->
  P (hi + 1) (for_le lo hi body s).
Proof.
  intros Hle Hs Hstep. unfold for_le, for_lt.
  replace (hi + 1) with (lo + Z.of_nat (Z.to_nat (hi + 1 - lo))) at 1 by lia.
  apply for_loop_inv; [exact Hs|].
  intros j s' Hj. apply Hstep. lia.
Qed.

(** ** The factorial implementations *)

Lemma fact_pos n : 0 < fact n.
Proof. induction n; simpl fact; lia. Qed.

Lemma fact_S n : fact (S n) = Z.of_nat (S n) * fact n.
Proof. reflexivity. Qed.

Lemma fact_mono n m : (n <= m)%nat -> fact n <= fact m.
Proof.
  induction 1; [lia|]. rewrite fact_S. pose proof (fact_pos m). nia.
Qed.

Lemma constexpr_factorial_wraps n :
  0 <= n -> ConstexprDemo.factorial n = int (fact (Z.to_nat n)).
Proof.
  intros Hn. unfold ConstexprDemo.factorial.
  destruct (decide (n <= 1)) as [Hsmall|Hbig].
  - unfold for_le, for_lt. replace (Z.to_nat (n + 1 - 2)) with O by lia.
    simpl for_loop.
    assert (Z.to_nat n = 0 \/ Z.to_nat n = 1)%nat as [-> | ->] by lia;
      vm_compute; reflexivity.
  - pose (P := fun (i : Z) (r : Z) => r = int (fact (Z.to_nat (i - 1)))).
    assert (P (n + 1) (for_le 2 n (fun i result => int (result * i)) 1)) as HP.
    { apply for_le_inv; [lia | |].
      - unfold P. vm_compute. reflexivity.
      - intros j r Hj ->. unfold P.
        replace (Z.to_nat (j + 1 - 1)) with (S (Z.to_nat (j - 1))) by lia.
        rewrite fact_S, int_mul_l. f_equal.
        rewrite Z.mul_comm. f_equal. lia. }
    unfold P in HP. rewrite HP. do 2 f_equal. lia.
Qed.

Lemma basic_factorial_wraps n :
  BasicDemo.factorial n = int (fact (Z.to_nat n)).
Proof.
  funelim (BasicDemo.factorial n).
  - assert (Z.to_nat n = 0 \/ Z.to_nat n = 1)%nat as [-> | ->] by lia;
      vm_compute; reflexivity.
  - rewrite H. replace (Z.to_nat n) with (S (Z.to_nat (n - 1))) by lia.
    rewrite fact_S, int_mul_r. f_equal. f_equal. lia.
Qed.

Ltac small_nat n :=
  assert (Z.to_nat n = 0 \/ Z.to_nat n = 1)%nat as [-> | ->] by lia.

Lemma recursion_factorial_wraps n :
  RecursionDemo.factorial n = llong (fact (Z.to_nat n)).
Proof.
  funelim (RecursionDemo.factorial n).
  - small_nat n; vm_compute; reflexivity.
  - rewrite H. replace (Z.to_nat n) with (S (Z.to_nat (n - 1))) by lia.
    rewrite fact_S, llong_mul_r. f_equal. f_equal. lia.
Qed.

Lemma factorial_normal_wraps n :
  RecursionDemo.factorial_normal n = llong (fact (Z.to_nat n)).
Proof.
  funelim (RecursionDemo.factorial_normal n).
  - small_nat n; vm_compute; reflexivity.
  - rewrite H. replace (Z.to_nat n) with (S (Z.to_nat (n - 1))) by lia.
    rewrite fact_S, llong_mul_r. f_equal. f_equal. lia.
Qed.

Lemma factorial_tail_wraps n acc :
  llong (RecursionDemo.factorial_tail n acc) = llong (acc * fact (Z.to_nat n)).
Proof.
  funelim (RecursionDemo.factorial_tail n acc).
  - small_nat n; simpl fact; f_equal; lia.
  - rewrite H. replace (Z.to_nat n) with (S (Z.to_nat (n - 1))) by lia.
    rewrite fact_S, llong_mul_l. f_equal. lia.
Qed.

Lemma factorial_tail_range n acc :
  LLONG_MIN <= acc <= LLONG_MAX ->
  LLONG_MIN <= RecursionDemo.factorial_tail n acc <= LLONG_MAX.
Proof.
  funelim (RecursionDemo.factorial_tail n acc); intros Hacc.
  - exact Hacc.
  - apply H, llong_range.
Qed.

Lemma fact_12 : fact 12 = 479001600. Proof. reflexivity. Qed.
Lemma fact_20 : fact 20 = 2432902008176640000. Proof. reflexivity. Qed.

(** Claim C3, as amended: each factorial implementation returns n! for
    every n >= 0 whose factorial fits the return type, that is n <= 12
    for the two [int] versions and n <= 20 for the three [long long]
    versions; factorial(0) = factorial(1) = 1, and factorial(5) = 120
    for the constexpr iterative and for the recursive factorial, as the
    in-source [static_assert] states. *)
Theorem factorial_in_range (n : Z) :
  (0 <= n <= 12 ->
     ConstexprDemo.factorial n = fact (Z.to_nat n) /\
     BasicDemo.factorial n = fact (Z.to_nat n)) /\
  (0 <= n <= 20 ->
     RecursionDemo.factorial n = fact (Z.to_nat n) /\
     RecursionDemo.factorial_normal n = fact (Z.to_nat n) /\
     RecursionDemo.factorial_tail n 1 = fact (Z.to_nat n)) /\
  ConstexprDemo.factorial 0 = 1 /\ ConstexprDemo.factorial 1 = 1 /\
  RecursionDemo.factorial 0 = 1 /\ RecursionDemo.factorial 1 = 1 /\
  ConstexprDemo.factorial 5 = 120 /\ RecursionDemo.factorial 5 = 120.
Proof.
  split; [|split].
  - intros Hn.
    assert (int (fact (Z.to_nat n)) = fact (Z.to_nat n)) as E.
    { apply int_id. pose proof (fact_pos (Z.to_nat n)).
      pose proof (fact_mono (Z.to_nat n) 12 ltac:(lia)) as Hm.
      rewrite fact_12 in Hm. unfold INT_MIN, INT_MAX. lia. }
    rewrite constexpr_factorial_wraps, basic_factorial_wraps, E by lia. done.
  - intros Hn.
    assert (llong (fact (Z.to_nat n)) = fact (Z.to_nat n)) as E.
    { apply llong_id. pose proof (fact_pos (Z.to_nat n)).
      pose proof (fact_mono (Z.to_nat n) 20 ltac:(lia)) as Hm.
      rewrite fact_20 in Hm. unfold LLONG_MIN, LLONG_MAX. lia. }
    rewrite recursion_factorial_wraps, factorial_normal_wraps, E.
    split; [done|]. split; [done|].
    rewrite <- (llong_id (RecursionDemo.factorial_tail n 1)).
    + rewrite factorial_tail_wraps, Z.mul_1_l. exact E.
    + apply factorial_tail_range. unfold LLONG_MIN, LLONG_MAX. lia.
  - rewrite !recursion_factorial_wraps. vm_compute. done.
Qed.

Lemma factorial_in_range_witness :
  ConstexprDemo.factorial 12 = 479001600 /\
  RecursionDemo.factorial 20 = 2432902008176640000.
Proof.
  pose proof (factorial_in_range 12) as [H12 _].
  pose proof (factorial_in_range 20) as [_ [H20 _]].
  split.
  - apply (proj1 (H12 ltac:(lia))).
  - apply (proj1 (H20 ltac:(lia))).
Defined.

(** Claim C3 as stated fails at n = 13: 13! is larger than [INT_MAX],
    and the [int] factorial yields another number.  The [long long]
    versions fail in the same way at n = 21. *)
Lemma factorial_13_overflows :
  ConstexprDemo.factorial 13 <> fact 13 /\
  ConstexprDemo.factorial 13 = 1932053504 /\
  BasicDemo.factorial 13 = 1932053504 /\
  RecursionDemo.factorial 21 = -4249290049419214848 /\
  fact 13 = 6227020800 /\ fact 21 = 51090942171709440000 /\
  INT_MAX < fact 13 /\ LLONG_MAX < fact 21.
Proof.
  rewrite basic_factorial_wraps, recursion_factorial_wraps.
  vm_compute. split; [discriminate|]. done.
Qed.

Lemma fib_SS n : fib (S (S n)) = fib (S n) + fib n.
Proof. reflexivity. Qed.

Lemma fib_nonneg n : 0 <= fib n /\ 0 <= fib (S n).
Proof.
  induction n as [|n [IH1 IH2]]; [simpl; lia|].
  split; [exact IH2|]. rewrite fib_SS. lia.
Qed.

Lemma fib_mono n m : (n <= m)%nat -> fib n <= fib m.
Proof.
  induction 1 as [|m _ IH]; [lia|].
  destruct m as [|m]; [simpl in *; lia|].
  rewrite fib_SS. pose proof (fib_nonneg m). lia.
Qed.

Lemma fib_naive_wraps n :
  0 <= n -> RecursionDemo.fib_naive n = llong (fib (Z.to_nat n)).
Proof.
  funelim (RecursionDemo.fib_naive n); intros Hn.
  - assert (n = 0 \/ n = 1) as [-> | ->] by lia; vm_compute; reflexivity.
  - rewrite H, H0 by lia.
    replace (Z.to_nat n) with (S (S (Z.to_nat (n - 2)))) by lia.
    replace (Z.to_nat (n - 1)) with (S (Z.to_nat (n - 2))) by lia.
    rewrite fib_SS, llong_add_l, llong_add_r. reflexivity.
Qed.

Lemma constexpr_fibonacci_wraps n :
  0 <= n -> ConstexprDemo.fibonacci n = int (fib (Z.to_nat n)).
Proof.
  intros Hn. unfold ConstexprDemo.fibonacci.
  destruct (decide (n <= 1)) as [Hsmall|Hbig].
  - assert (n = 0 \/ n = 1) as [-> | ->] by lia; vm_compute; reflexivity.
  - pose (P := fun (i : Z) (s : Z * Z) =>
        s.1 = int (fib (Z.to_nat (i - 2))) /\
        s.2 = int (fib (Z.to_nat (i - 1)))).
    match goal with |- (let '(_, _) := ?loop in _) = _ =>
      assert (P (n + 1) loop) as HP; [|destruct loop as [a b]] end.
    { apply for_le_inv; [lia | |].
      - unfold P. vm_compute. done.
      - intros j [a b] Hj [Ha Hb]. simpl in Ha, Hb. subst a b.
        unfold P; simpl. split.
        + do 2 f_equal. lia.
        + replace (Z.to_nat (j + 1 - 1)) with (S (S (Z.to_nat (j - 2)))) by lia.
          replace (Z.to_nat (j - 1)) with (S (Z.to_nat (j - 2))) by lia.
          rewrite fib_SS, int_add_l, int_add_r. f_equal. lia. }
    destruct HP as [_ Hb]. simpl in Hb. rewrite Hb. do 2 f_equal. lia.
Qed.

Lemma fib_optimized_wraps n :
  0 <= n -> DpDemo.fib_optimized n = llong (fib (Z.to_nat n)).
Proof.
  intros Hn. unfold DpDemo.fib_optimized.
  destruct (decide (n <= 1)) as [Hsmall|Hbig].
  - assert (n = 0 \/ n = 1) as [-> | ->] by lia; vm_compute; reflexivity.
  - pose (P := fun (i : Z) (s : Z * Z) =>
        s.1 = llong (fib (Z.to_nat (i - 2))) /\
        s.2 = llong (fib (Z.to_nat (i - 1)))).
    match goal with |- (let '(_, _) := ?loop in _) = _ =>
      assert (P (n + 1) loop) as HP; [|destruct loop as [a b]] end.
    { apply for_le_inv; [lia | |].
      - unfold P. vm_compute. done.
      - intros j [a b] Hj [Ha Hb]. simpl in Ha, Hb. subst a b.
        unfold P; simpl. split.
        + do 2 f_equal. lia.
        + replace (Z.to_nat (j + 1 - 1)) with (S (S (Z.to_nat (j - 2)))) by lia.
          replace (Z.to_nat (j - 1)) with (S (Z.to_nat (j - 2))) by lia.
          rewrite fib_SS, llong_add_l, llong_add_r. f_equal. }
    destruct HP as [_ Hb]. simpl in Hb. rewrite Hb. do 2 f_equal. lia.
Qed.

Lemma fib_tail_wraps fuel : forall n k,
  0 <= n <= INT_MAX -> (Z.to_nat n <= S fuel)%nat ->
  RecursionDemo.fib_tail fuel n (llong (fib k)) (llong (fib (S k)))
  = Ret (llong (fib (k + Z.to_nat n))).
Proof.
  induction fuel as [|fuel IH]; intros n k Hn Hfuel; cbn [RecursionDemo.fib_tail].
  - destruct (decide (n = 0)) as [->|]; [do 3 f_equal; lia|].
    destruct (decide (n = 1)) as [->|]; [do 3 f_equal; lia|]. exfalso; lia.
  - destruct (decide (n = 0)) as [->|]; [do 3 f_equal; lia|].
    destruct (decide (n = 1)) as [->|]; [do 3 f_equal; lia|].
    rewrite int_id by (unfold INT_MIN, INT_MAX in *; lia).
    rewrite llong_add_l, llong_add_r, Z.add_comm, <- fib_SS.
    rewrite IH by (unfold INT_MAX in *; lia). do 3 f_equal. lia.
Qed.

Lemma for_loop_M_inv {St : Type} (P : Z -> St -> Prop)
    (body : Z -> St -> outcome St) :
  forall (k : nat) (i : Z) (s : St),
    P i s ->
    (forall j s, i <= j < i + Z.of_nat k -> P j s ->
       exists s', body j s = Ret s' /\ P (j + 1) s') ->
    exists s', for_loop_M k i body s = Ret s' /\ P (i + Z.of_nat k) s'.
Proof.
  induction k as [|k IH]; intros i s Hs Hstep; cbn [for_loop_M].
  - exists s. split; [reflexivity|]. replace (i + Z.of_nat 0) with i by lia. exact Hs.
  - destruct (Hstep i s ltac:(lia) Hs) as (s1 & E1 & H1).
    rewrite E1. cbn [bind].
    replace (i + Z.of_nat (S k)) with ((i + 1) + Z.of_nat k) by lia.
    apply IH; [exact H1|].
    intros j s' Hj. apply Hstep. lia.
Qed.

Lemma for_lt_M_inv {St : Type} (P : Z -> St -> Prop)
    (body : Z -> St -> outcome St) (lo hi : Z) (s : St) :
  lo <= hi ->
  P lo s ->
  (forall j s, lo <= j < hi -> P j s ->
     exists s', body j s = Ret s' /\ P (j + 1) s') ->
  exists s', for_lt_M lo hi body s = Ret s' /\ P hi s'.
Proof.
  intros Hle Hs Hstep. unfold for_lt_M.
  destruct (for_loop_M_inv P body (Z.to_nat (hi - lo)) lo s Hs) as (s' & E & H').
  { intros j s' Hj. apply Hstep. lia. }
  exists s'. split; [exact E|].
  replace hi with (lo + Z.of_nat (Z.to_nat (hi - lo))) by lia. exact H'.
Qed.

Lemma for_le_M_inv {St : Type} (P : Z -> St -> Prop)
    (body : Z -> St -> outcome St) (lo hi : Z) (s : St) :
  lo <= hi + 1 ->
  P lo s ->
  (forall j s, lo <= j <= hi -> P j s ->
     exists s', body j s = Ret s' /\ P (j + 1) s') ->
  exists s', for_le_M lo hi body s = Ret s' /\ P (hi + 1) s'.
Proof.
  intros Hle Hs Hstep. unfold for_le_M.
  apply for_lt_M_inv; [lia | exact Hs |].
  intros j s' Hj. apply Hstep. lia.
Qed.

Lemma at_lookup (v : list Z) (i : Z) (x : Z) :
  0 <= i -> v !! Z.to_nat i = Some x -> at_ v i = Ret x.
Proof.
  intros Hi E. unfold at_. destruct (decide (0 <= i)); [|lia]. rewrite E. reflexivity.
Qed.

Lemma at_Ret (v : list Z) (i : Z) (x : Z) :
  at_ v i = Ret x -> 0 <= i /\ v !! Z.to_nat i = Some x.
Proof.
  unfold at_. destruct (decide (0 <= i)); [|discriminate].
  destruct (v !! Z.to_nat i) eqn:E; [|discriminate].
  intros [= ->]. done.
Qed.

Lemma set_at_Ret (v : list Z) (i : Z) (x : Z) :
  0 <= i < Z.of_nat (length v) ->
  set_at v i x = Ret (<[Z.to_nat i := x]> v).
Proof.
  intros Hi. unfold set_at. destruct (decide _); [reflexivity|lia].
Qed.

Lemma vector_fill_Ret (elt_bytes n x : Z) :
  0 < elt_bytes ->
  0 <= n <= vector_max_size elt_bytes ->
  vector_fill elt_bytes n x = Ret (replicate (Z.to_nat n) x).
Proof.
  intros Hp Hn. unfold vector_fill.
  assert (vector_max_size elt_bytes < 2 ^ 64) as Hm.
  { unfold vector_max_size.
    assert (9223372036854775807 `div` elt_bytes <= 9223372036854775807).
    { apply Z.div_le_upper_bound; [lia|]. nia. }
    lia. }
  assert (size_t n = n) as ->.
  { unfold size_t. apply Z.mod_small. lia. }
  destruct (decide _); [reflexivity|lia].
Qed.

Lemma fib_dp_wraps n :
  0 <= n < INT_MAX -> DpDemo.fib_dp n = Ret (llong (fib (Z.to_nat n))).
Proof.
  intros Hn. unfold DpDemo.fib_dp.
  destruct (decide (n <= 1)) as [Hsmall|Hbig].
  - assert (n = 0 \/ n = 1) as [-> | ->] by lia; vm_compute; reflexivity.
  - rewrite int_id by (unfold INT_MIN, INT_MAX in *; lia).
    rewrite vector_fill_Ret
      by (unfold INT_MAX in *; change (vector_max_size 8) with 1152921504606846975; lia).
    cbn [bind].
    rewrite set_at_Ret by (rewrite length_replicate; lia). cbn [bind].
    rewrite set_at_Ret by (rewrite length_insert, length_replicate; lia). cbn [bind].
    pose (P := fun (i : Z) (dp : list Z) =>
      length dp = Z.to_nat (n + 1) /\
      forall j : nat, (j < Z.to_nat i)%nat -> dp !! j = Some (llong (fib j))).
    match goal with |- context [for_le_M 2 n ?body ?s] =>
      destruct (for_le_M_inv P body 2 n s) as (dp & E & Hlen & Hdp) end.
    + lia.
    + split; [rewrite !length_insert, length_replicate; lia|].
      intros j Hj. assert (j = 0 \/ j = 1)%nat as [-> | ->] by lia.
      * rewrite list_lookup_insert_ne by lia.
        rewrite list_lookup_insert_eq by (rewrite length_replicate; lia).
        vm_compute. reflexivity.
      * rewrite list_lookup_insert_eq by (rewrite length_insert, length_replicate; lia).
        vm_compute. reflexivity.
    + intros j dp Hj [Hlen Hdp].
      rewrite (at_lookup dp (j - 1) (llong (fib (Z.to_nat (j - 1)))))
        by (try apply Hdp; lia).
      cbn [bind].
      rewrite (at_lookup dp (j - 2) (llong (fib (Z.to_nat (j - 2)))))
        by (try apply Hdp; lia).
      cbn [bind].
      rewrite set_at_Ret by lia.
      eexists; split; [reflexivity|]. split; [rewrite length_insert; exact Hlen|].
      intros i Hi. destruct (decide (i = Z.to_nat j)) as [->|Hne].
      * rewrite list_lookup_insert_eq by lia. f_equal.
        replace (Z.to_nat j) with (S (S (Z.to_nat (j - 2)))) by lia.
        replace (Z.to_nat (j - 1)) with (S (Z.to_nat (j - 2))) by lia.
        rewrite fib_SS, llong_add_l, llong_add_r. reflexivity.
      * rewrite list_lookup_insert_ne by lia. apply Hdp. lia.
    + rewrite E. cbn [bind]. apply at_lookup; [lia|]. apply Hdp. lia.
Qed.

Lemma create_fibonacci_table_value :
  ConstexprDemo.create_fibonacci_table = Ret [0; 1; 1; 2; 3; 5; 8; 13; 21; 34].
Proof. vm_compute. reflexivity. Qed.

Lemma fib_step n :
  ~ n <= 1 ->
  llong (llong (fib (Z.to_nat (n - 1))) + llong (fib (Z.to_nat (n - 2))))
  = llong (fib (Z.to_nat n)).
Proof.
  intros Hn.
  replace (Z.to_nat n) with (S (S (Z.to_nat (n - 2)))) by lia.
  replace (Z.to_nat (n - 1)) with (S (Z.to_nat (n - 2))) by lia.
  rewrite fib_SS, llong_add_l, llong_add_r. reflexivity.
Qed.

Lemma fib_small n : 0 <= n -> n <= 1 -> n = llong (fib (Z.to_nat n)).
Proof.
  intros H0 H1. assert (n = 0 \/ n = 1) as [-> | ->] by lia; vm_compute; reflexivity.
Qed.

Lemma fib_memoized_wraps n memo :
  0 <= n -> memo_ok memo ->
  (RecursionDemo.fib_memoized n memo).1 = llong (fib (Z.to_nat n)) /\
  memo_ok (RecursionDemo.fib_memoized n memo).2.
Proof.
  funelim (RecursionDemo.fib_memoized n memo); intros Hn Hok.
  - split; [apply fib_small; assumption | exact Hok].
  - split; [exact (Hok _ _ Heq) | exact Hok].
  - clear Heqcall.
    destruct (H ltac:(lia) Hok) as [E1 Hok1].
    destruct (RecursionDemo.fib_memoized (n - 1) fib_memo) as [r1 m1].
    simpl in E1, Hok1.
    destruct (H0 r1 m1 ltac:(lia) Hok1) as [E2 Hok2].
    destruct (RecursionDemo.fib_memoized (n - 2) m1) as [r2 m2].
    simpl in E2, Hok2. subst r1 r2. simpl.
    rewrite fib_step by assumption. split; [reflexivity|].
    intros k x. destruct (decide (k = n)) as [->|Hne].
    + rewrite lookup_insert_eq. congruence.
    + rewrite lookup_insert_ne by congruence. apply Hok2.
Qed.

Lemma at_in_range (v : list Z) (i : Z) :
  0 <= i < Z.of_nat (length v) -> exists x, at_ v i = Ret x.
Proof.
  intros Hi. destruct (lookup_lt_is_Some_2 v (Z.to_nat i) ltac:(lia)) as [x E].
  exists x. apply at_lookup; [lia | exact E].
Qed.

Lemma memo_vec_ok_insert memo n :
  0 <= n -> memo_vec_ok memo ->
  memo_vec_ok (<[Z.to_nat n := llong (fib (Z.to_nat n))]> memo).
Proof.
  intros Hn Hok k x. destruct (decide (k = Z.to_nat n)) as [->|Hne].
  - intros E. apply list_lookup_insert_Some in E. right. destruct E as [[_ [E _]]|[? _]]; congruence.
  - rewrite list_lookup_insert_ne by congruence. apply Hok.
Qed.

Ltac memo_vec_ih :=
  repeat match goal with
  | Hind : _ -> _ -> exists memo', ?call = _ /\ _, Heq : ?call = _ |- _ =>
      let m := fresh "m" in let E := fresh "E" in
      let L := fresh "L" in let O := fresh "O" in
      destruct Hind as (m & E & L & O); [lia | assumption | ];
      rewrite E in Heq; try discriminate Heq;
      injection Heq as <- <-
  end.

Ltac memo_vec_cases :=
  match goal with
  | Hs : ?n <= 1 |- exists _, Ret (?n, ?memo) = _ /\ _ =>
      exists memo; rewrite <- fib_small by lia; done
  | Heq : at_ ?memo ?n = _, Hn : 0 <= ?n < _ |- _ =>
      destruct (at_in_range memo n Hn) as [? ?]; congruence
  | Heq : at_ ?memo ?n = Ret ?x, Hx : ?x <> -1, Hok : memo_vec_ok ?memo |- _ =>
      apply at_Ret in Heq; destruct Heq as [_ Heq];
      destruct (Hok _ _ Heq) as [?| ->]; [done|]; exists memo; done
  | _ => idtac
  end.

Lemma fib_memo_vec_wraps n memo :
  0 <= n < Z.of_nat (length memo) -> memo_vec_ok memo ->
  exists memo',
    RecursionDemo.fib_memo_vec n memo = Ret (llong (fib (Z.to_nat n)), memo') /\
    length memo' = length memo /\ memo_vec_ok memo'.
Proof.
  funelim (RecursionDemo.fib_memo_vec n memo); intros Hn Hok.
  all: try clear Heqcall.
  all: memo_vec_cases.
  all: memo_vec_ih.
  rewrite fib_step by assumption.
  rewrite set_at_Ret by lia. cbn [bind].
  eexists; split; [reflexivity|]. split; [rewrite length_insert; lia|].
  apply memo_vec_ok_insert; [lia | assumption].
Qed.

Lemma fib_memo_wraps n memo :
  0 <= n < Z.of_nat (length memo) -> memo_vec_ok memo ->
  exists memo',
    DpDemo.fib_memo n memo = Ret (llong (fib (Z.to_nat n)), memo') /\
    length memo' = length memo /\ memo_vec_ok memo'.
Proof.
  funelim (DpDemo.fib_memo n memo); intros Hn Hok.
  all: try clear Heqcall.
  all: memo_vec_cases.
  all: memo_vec_ih.
  rewrite fib_step by assumption.
  rewrite set_at_Ret by lia. cbn [bind].
  eexists; split; [reflexivity|]. split; [rewrite length_insert; lia|].
  apply memo_vec_ok_insert; [lia | assumption].
Qed.

(** ** The Fibonacci implementations together *)

Lemma fib_pair_spec n : fib_pair n = (fib n, fib (S n)).
Proof.
  induction n as [|n IH]; [reflexivity|].
  cbn [fib_pair]. rewrite IH, fib_SS. f_equal. lia.
Qed.

Lemma fib_fast n : fib n = (fib_pair n).1.
Proof. rewrite fib_pair_spec. reflexivity. Qed.

Lemma fib_46 : fib 46 = 1836311903.
Proof. rewrite fib_fast. vm_compute. reflexivity. Qed.
Lemma fib_47 : fib 47 = 2971215073.
Proof. rewrite fib_fast. vm_compute. reflexivity. Qed.
Lemma fib_92 : fib 92 = 7540113804746346429.
Proof. rewrite fib_fast. vm_compute. reflexivity. Qed.
Lemma fib_93 : fib 93 = 12200160415121876738.
Proof. rewrite fib_fast. vm_compute. reflexivity. Qed.

Lemma fib_fits_int n : fib n <= INT_MAX <-> (n <= 46)%nat.
Proof.
  split; intros H.
  - destruct (decide (n <= 46)%nat) as [|Hbig]; [assumption|exfalso].
    pose proof (fib_mono 47 n ltac:(lia)) as Hm. rewrite fib_47 in Hm.
    unfold INT_MAX in H. lia.
  - pose proof (fib_mono n 46 H) as Hm. rewrite fib_46 in Hm.
    unfold INT_MAX. lia.
Qed.

Lemma fib_fits_llong n : fib n <= LLONG_MAX <-> (n <= 92)%nat.
Proof.
  split; intros H.
  - destruct (decide (n <= 92)%nat) as [|Hbig]; [assumption|exfalso].
    pose proof (fib_mono 93 n ltac:(lia)) as Hm. rewrite fib_93 in Hm.
    unfold LLONG_MAX in H. lia.
  - pose proof (fib_mono n 92 H) as Hm. rewrite fib_92 in Hm.
    unfold LLONG_MAX. lia.
Qed.

(** Claim C2: every Fibonacci implementation of the repository returns
    the n-th Fibonacci number (F(0) = 0, F(1) = 1) for every n >= 0 whose
    Fibonacci number fits the return type: [long long] for [fib_naive],
    [fib_memoized], [fib_memo_vec], [fib_memo], [fib_tail], [fib_dp] and
    [fib_optimized], [int] for the constexpr [fibonacci].  The memoised
    versions are run on a memo that holds only sentinels or Fibonacci
    numbers and, for the vector versions, has more than [n] entries;
    [fib_tail] is given a recursion budget of at least [n].  The table
    of [create_fibonacci_table] holds F(0) .. F(9), and [fib_dp],
    [fibonacci] and [fib_tail] return 55 on input 10. *)
Theorem fibonacci_implementations (n : Z) :
  0 <= n ->
  (fib (Z.to_nat n) <= LLONG_MAX ->
     RecursionDemo.fib_naive n = fib (Z.to_nat n) /\
     (forall fib_memo : gmap Z Z, memo_ok fib_memo ->
        (RecursionDemo.fib_memoized n fib_memo).1 = fib (Z.to_nat n) /\
        memo_ok (RecursionDemo.fib_memoized n fib_memo).2) /\
     (forall memo : list Z, n < size memo -> memo_vec_ok memo ->
        exists memo',
          RecursionDemo.fib_memo_vec n memo = Ret (fib (Z.to_nat n), memo') /\
          memo_vec_ok memo') /\
     (forall memo : list Z, n < size memo -> memo_vec_ok memo ->
        exists memo',
          DpDemo.fib_memo n memo = Ret (fib (Z.to_nat n), memo') /\
          memo_vec_ok memo') /\
     (forall fuel : nat, (Z.to_nat n <= fuel)%nat ->
        RecursionDemo.fib_tail fuel n 0 1 = Ret (fib (Z.to_nat n))) /\
     DpDemo.fib_dp n = Ret (fib (Z.to_nat n)) /\
     DpDemo.fib_optimized n = fib (Z.to_nat n)) /\
  (fib (Z.to_nat n) <= INT_MAX ->
     ConstexprDemo.fibonacci n = fib (Z.to_nat n)) /\
  ConstexprDemo.create_fibonacci_table = Ret (map fib (seq 0 10)) /\
  DpDemo.fib_dp 10 = Ret 55 /\
  ConstexprDemo.fibonacci 10 = 55 /\
  RecursionDemo.fib_tail 10 10 0 1 = Ret 55.
Proof.
  intros Hn. split; [|split].
  - intros Hfit.
    assert (llong (fib (Z.to_nat n)) = fib (Z.to_nat n)) as E.
    { apply llong_id. pose proof (fib_nonneg (Z.to_nat n)).
      unfold LLONG_MIN. lia. }
    apply fib_fits_llong in Hfit.
    split; [| split; [| split; [| split; [| split; [| split]]]]].
    + rewrite fib_naive_wraps, E by lia. reflexivity.
    + intros fib_memo Hok. rewrite <- E. apply fib_memoized_wraps; assumption.
    + intros memo Hlen Hok.
      destruct (fib_memo_vec_wraps n memo ltac:(unfold size in Hlen; lia) Hok)
        as (memo' & Ecall & _ & Hok').
      exists memo'. rewrite <- E. done.
    + intros memo Hlen Hok.
      destruct (fib_memo_wraps n memo ltac:(unfold size in Hlen; lia) Hok)
        as (memo' & Ecall & _ & Hok').
      exists memo'. rewrite <- E. done.
    + intros fuel Hfuel. rewrite <- E.
      pose proof (fib_tail_wraps fuel n 0 ltac:(unfold INT_MAX; lia) ltac:(lia))
        as Htail.
      replace (llong (fib 0)) with 0 in Htail by (vm_compute; reflexivity).
      replace (llong (fib 1)) with 1 in Htail by (vm_compute; reflexivity).
      exact Htail.
    + rewrite fib_dp_wraps, E by (unfold INT_MAX; lia). reflexivity.
    + rewrite fib_optimized_wraps, E by lia. reflexivity.
  - intros Hfit. rewrite constexpr_fibonacci_wraps by lia.
    apply int_id. pose proof (fib_nonneg (Z.to_nat n)). unfold INT_MIN. lia.
  - vm_compute. done.
Qed.

Lemma fibonacci_implementations_witness :
  RecursionDemo.fib_naive 10 = 55 /\ ConstexprDemo.fibonacci 10 = 55.
Proof.
  assert (0 <= 10) as H0 by lia.
  assert (fib (Z.to_nat 10) <= LLONG_MAX) as H1 by (vm_compute; discriminate).
  assert (fib (Z.to_nat 10) <= INT_MAX) as H2 by (vm_compute; discriminate).
  destruct (fibonacci_implementations 10 H0) as (Hll & Hint & _).
  split.
  - exact (proj1 (Hll H1)).
  - exact (Hint H2).
Defined.

(** ** error_demo.cpp *)

(** Claim C4: [validate_age(age)] throws [std::invalid_argument] if and
    only if [age < 0] or [age > 150]; for every age in [0, 150] it
    returns normally; in either case it leaves the world as it found
    it. *)
Theorem validate_age_spec (age : Z) (w : world) :
  ((exists what, (ErrorDemo.validate_age age w).1 = Throw (invalid_argument what))
     <-> age < 0 \/ age > 150) /\
  ((ErrorDemo.validate_age age w).1 = Ret tt <-> 0 <= age <= 150) /\
  (ErrorDemo.validate_age age w).2 = w.
Proof.
  unfold ErrorDemo.validate_age.
  destruct (decide (age < 0)) as [Hneg|Hnonneg];
    [|destruct (decide (age > 150)) as [Hbig|Hsmall]];
    cbn [io_throw io_ret fst snd].
  - split; [|split; [|reflexivity]].
    + split; [intros _; lia | intros _; eexists; reflexivity].
    + split; [discriminate | lia].
  - split; [|split; [|reflexivity]].
    + split; [intros _; lia | intros _; eexists; reflexivity].
    + split; [discriminate | lia].
  - split; [|split; [|reflexivity]].
    + split; [intros [what [=]] | lia].
    + split; [intros _; lia | reflexivity].
Qed.

Lemma find_index_loop_absent (v : list Z) (target : Z) :
  forall (k : nat) (i : Z),
    0 <= i -> i + Z.of_nat k <= size v ->
    (forall j : nat, i <= Z.of_nat j < i + Z.of_nat k -> v !! j <> Some target) ->
    ErrorDemo.find_index_loop k i v target = Ret None.
Proof.
  induction k as [|k IH]; intros i Hi Hlen Habs; cbn [ErrorDemo.find_index_loop].
  - reflexivity.
  - unfold size in Hlen.
    destruct (at_in_range v i ltac:(lia)) as [x Ex]. rewrite Ex. cbn [bind].
    apply at_Ret in Ex. destruct Ex as [_ Ex].
    destruct (decide (x = target)) as [->|Hne].
    + exfalso. apply (Habs (Z.to_nat i)); [lia | exact Ex].
    + apply IH; [lia | unfold size; lia |]. intros j Hj. apply Habs. lia.
Qed.

Lemma find_index_loop_first (v : list Z) (target : Z) (p : nat) :
  v !! p = Some target ->
  forall (k : nat) (i : Z),
    0 <= i <= Z.of_nat p -> Z.of_nat p < i + Z.of_nat k ->
    (forall j : nat, i <= Z.of_nat j < Z.of_nat p -> v !! j <> Some target) ->
    ErrorDemo.find_index_loop k i v target = Ret (Some (int (Z.of_nat p))).
Proof.
  intros Hp. pose proof (lookup_lt_Some _ _ _ Hp) as Hlt.
  induction k as [|k IH]; intros i Hi Hk Hfirst; cbn [ErrorDemo.find_index_loop].
  - lia.
  - destruct (at_in_range v i ltac:(lia)) as [x Ex]. rewrite Ex. cbn [bind].
    apply at_Ret in Ex. destruct Ex as [_ Ex].
    destruct (decide (x = target)) as [->|Hne].
    + destruct (decide (i = Z.of_nat p)) as [->|Hip]; [reflexivity|].
      exfalso. apply (Hfirst (Z.to_nat i)); [lia | exact Ex].
    + assert (i <> Z.of_nat p) as Hip.
      { intros ->. rewrite Nat2Z.id in Ex. congruence. }
      apply IH; [lia | lia |]. intros j Hj. apply Hfirst. lia.
Qed.

Lemma first_occurrence (v : list Z) (target : Z) :
  target ∈ v ->
  exists p : nat, v !! p = Some target /\
    forall j : nat, (j < p)%nat -> v !! j <> Some target.
Proof.
  induction v as [|x v IH]; intros Hin.
  - inversion Hin.
  - destruct (decide (x = target)) as [->|Hne].
    + exists O. split; [reflexivity | intros j Hj; lia].
    + apply elem_of_cons in Hin. destruct Hin as [->|Hin]; [done|].
      destruct (IH Hin) as (p & Hp & Hfirst).
      exists (S p). split; [exact Hp|].
      intros [|j] Hj; cbn; [congruence | apply Hfirst; lia].
Qed.

Lemma find_index_first (v : list Z) (target : Z) (p : nat) :
  v !! p = Some target ->
  (forall j : nat, (j < p)%nat -> v !! j <> Some target) ->
  ErrorDemo.find_index v target = Ret (Some (int (Z.of_nat p))).
Proof.
  intros Hp Hfirst. unfold ErrorDemo.find_index.
  pose proof (lookup_lt_Some _ _ _ Hp) as Hlt.
  apply find_index_loop_first; [exact Hp | lia | unfold size; lia |].
  intros j Hj. apply Hfirst. lia.
Qed.

(** Claim C5, as amended: [find_index(v, target)] returns
    [std::nullopt] exactly when [target] does not occur in [v]; when it
    occurs, the result is the smallest index [p] with [v[p] == target]
    converted to [int], which is [p] itself whenever [p <= INT_MAX]. *)
Theorem find_index_spec (v : list Z) (target : Z) :
  (ErrorDemo.find_index v target = Ret None <-> target ∉ v) /\
  (forall p : nat,
     v !! p = Some target ->
     (forall j : nat, (j < p)%nat -> v !! j <> Some target) ->
     ErrorDemo.find_index v target = Ret (Some (int (Z.of_nat p))) /\
     (Z.of_nat p <= INT_MAX ->
      ErrorDemo.find_index v target = Ret (Some (Z.of_nat p)))).
Proof.
  split.
  - split.
    + intros Hnone Hin.
      destruct (first_occurrence v target Hin) as (p & Hp & Hfirst).
      rewrite (find_index_first v target p Hp Hfirst) in Hnone. discriminate.
    + intros Hnotin. unfold ErrorDemo.find_index.
      apply find_index_loop_absent; [lia | unfold size; lia |].
      intros j _ Ej. apply Hnotin. apply list_elem_of_lookup. eauto.
  - intros p Hp Hfirst. split; [exact (find_index_first v target p Hp Hfirst)|].
    intros Hsmall. rewrite (find_index_first v target p Hp Hfirst), int_id;
      [reflexivity|].
    unfold INT_MIN, INT_MAX in *. lia.
Qed.

Lemma find_index_spec_witness :
  ErrorDemo.find_index [10; 20; 30; 20] 20 = Ret (Some 1).
Proof.
  refine (proj2 (proj2 (find_index_spec [10; 20; 30; 20] 20) 1%nat _ _) _).
  - reflexivity.
  - intros j Hj. assert (j = 0)%nat as -> by lia. discriminate.
  - unfold INT_MAX. lia.
Defined.

Lemma find_index_after_zeros (N : nat) :
  (replicate N 0 ++ [1]) !! N = Some 1 /\
  (forall j : nat, (j < N)%nat -> (replicate N 0 ++ [1]) !! j <> Some 1) /\
  ErrorDemo.find_index (replicate N 0 ++ [1]) 1 = Ret (Some (int (Z.of_nat N))).
Proof.
  assert ((replicate N 0 ++ [1]) !! N = Some 1) as Hat.
  { rewrite lookup_app_r by (rewrite length_replicate; lia).
    rewrite length_replicate, Nat.sub_diag. reflexivity. }
  assert (forall j : nat, (j < N)%nat -> (replicate N 0 ++ [1]) !! j <> Some 1) as Hbefore.
  { intros j Hj. rewrite lookup_app_l by (rewrite length_replicate; lia).
    rewrite lookup_replicate_2 by lia. discriminate. }
  split; [exact Hat|]. split; [exact Hbefore|].
  apply find_index_first; assumption.
Qed.

(** Claim C5 as stated fails on a vector whose first occurrence of the
    target lies beyond [INT_MAX]: 2^31 zeros followed by a one.  The
    smallest index of 1 is 2147483648; [static_cast<int>] turns it into
    -2147483648. *)
Lemma find_index_beyond_int :
  (replicate (Z.to_nat 2147483648) 0 ++ [1]) !! Z.to_nat 2147483648 = Some 1 /\
  (forall j : nat, (j < Z.to_nat 2147483648)%nat ->
     (replicate (Z.to_nat 2147483648) 0 ++ [1]) !! j <> Some 1) /\
  ErrorDemo.find_index (replicate (Z.to_nat 2147483648) 0 ++ [1]) 1
    = Ret (Some (-2147483648)).
Proof.
  destruct (find_index_after_zeros (Z.to_nat 2147483648)) as (Hat & Hbefore & Hres).
  split; [exact Hat|]. split; [exact Hbefore|].
  rewrite Hres. rewrite Z2Nat.id by lia.
  replace (int 2147483648) with (-2147483648); [reflexivity|].
  vm_compute. reflexivity.
Qed.

(** ** Vectors that grow *)

Lemma push_back_Ret {A : Type} (elt_bytes : Z) (v : list A) (x : A) :
  Z.of_nat (length v) < vector_max_size elt_bytes ->
  push_back elt_bytes v x = Ret (v ++ [x]).
Proof. intros Hv. unfold push_back. by destruct (decide _). Qed.

Lemma push_back_full {A : Type} (elt_bytes : Z) (v : list A) (x : A) :
  vector_max_size elt_bytes <= Z.of_nat (length v) ->
  push_back elt_bytes v x = Throw (length_error "vector::_M_realloc_insert").
Proof. intros Hv. unfold push_back. destruct (decide _); [lia|reflexivity]. Qed.

Lemma pow2_step (d : Z) : 0 < d -> 2 ^ d = 2 * 2 ^ (d - 1).
Proof. intros Hd. rewrite <- Z.pow_succ_r by lia. f_equal. lia. Qed.

(** ** recursion_demo.cpp: the Tower of Hanoi *)

Lemma hanoi_appends (fuel : nat) :
  forall (n : Z) (from to aux : ascii) (moves : list string),
    1 <= n <= INT_MAX -> (Z.to_nat n <= S fuel)%nat ->
    Z.of_nat (length moves) + 2 ^ n - 1 <= vector_max_size 32 ->
    exists new : list string,
      RecursionDemo.hanoi fuel n from to aux moves = Ret (moves ++ new) /\
      Z.of_nat (length new) = 2 ^ n - 1.
Proof.
  induction fuel as [|fuel IH]; intros n from to aux moves Hn Hfuel Hfit;
    cbn [RecursionDemo.hanoi].
  - destruct (decide (n = 1)) as [->|Hne]; [|exfalso; lia].
    rewrite push_back_Ret by (change (2 ^ 1) with 2 in Hfit; lia).
    eexists; split; [reflexivity|reflexivity].
  - destruct (decide (n = 1)) as [->|Hne].
    { rewrite push_back_Ret by (change (2 ^ 1) with 2 in Hfit; lia).
      eexists; split; [reflexivity|reflexivity]. }
    rewrite int_id by (unfold INT_MIN, INT_MAX in *; lia).
    pose proof (pow2_step n ltac:(lia)) as Hpow.
    assert (0 < 2 ^ (n - 1)) as Hpos by (apply Z.pow_pos_nonneg; lia).
    destruct (IH (n - 1) from aux to moves) as (new1 & E1 & L1);
      [unfold INT_MAX in *; lia | lia | lia |].
    rewrite E1. cbn [bind].
    rewrite push_back_Ret by (rewrite length_app; lia). cbn [bind].
    destruct (IH (n - 1) aux to from
                ((moves ++ new1) ++ [RecursionDemo.move_text n from to]))
      as (new2 & E2 & L2);
      [unfold INT_MAX in *; lia | lia | rewrite !length_app; cbn [length]; lia |].
    rewrite E2.
    exists (new1 ++ [RecursionDemo.move_text n from to] ++ new2).
    split; [by rewrite <- !app_assoc|].
    rewrite !length_app. cbn [length]. lia.
Qed.

Lemma hanoi_overflows (fuel : nat) :
  forall (n : Z) (from to aux : ascii) (moves : list string),
    1 <= n <= INT_MAX -> (Z.to_nat n <= S fuel)%nat ->
    vector_max_size 32 < Z.of_nat (length moves) + 2 ^ n - 1 ->
    RecursionDemo.hanoi fuel n from to aux moves
    = Throw (length_error "vector::_M_realloc_insert").
Proof.
  induction fuel as [|fuel IH]; intros n from to aux moves Hn Hfuel Hbig;
    cbn [RecursionDemo.hanoi].
  - destruct (decide (n = 1)) as [->|Hne]; [|exfalso; lia].
    apply push_back_full. change (2 ^ 1) with 2 in Hbig. lia.
  - destruct (decide (n = 1)) as [->|Hne].
    { apply push_back_full. change (2 ^ 1) with 2 in Hbig. lia. }
    rewrite int_id by (unfold INT_MIN, INT_MAX in *; lia).
    pose proof (pow2_step n ltac:(lia)) as Hpow.
    destruct (decide (vector_max_size 32
                      < Z.of_nat (length moves) + 2 ^ (n - 1) - 1)) as [Hfirst|Hfirst].
    { rewrite (IH (n - 1) from aux to moves)
        by (unfold INT_MAX in *; lia). reflexivity. }
    destruct (hanoi_appends fuel (n - 1) from aux to moves)
      as (new1 & E1 & L1); [unfold INT_MAX in *; lia | lia | lia |].
    rewrite E1. cbn [bind].
    destruct (decide (vector_max_size 32 <= Z.of_nat (length (moves ++ new1))))
      as [Hfull|Hroom].
    { rewrite push_back_full by exact Hfull. reflexivity. }
    rewrite push_back_Ret by lia. cbn [bind].
    apply IH; [unfold INT_MAX in *; lia | lia |].
    rewrite !length_app. cbn [length]. lia.
Qed.

Lemma hanoi_fuel_mono (fuel : nat) :
  forall (n : Z) (from to aux : ascii) (moves result : list string),
    RecursionDemo.hanoi fuel n from to aux moves = Ret result ->
    forall fuel' : nat, (fuel <= fuel')%nat ->
      RecursionDemo.hanoi fuel' n from to aux moves = Ret result.
Proof.
  induction fuel as [|fuel IH]; intros n from to aux moves result E fuel' Hle.
  - cbn [RecursionDemo.hanoi] in E.
    destruct fuel'; cbn [RecursionDemo.hanoi];
      destruct (decide (n = 1)); congruence.
  - destruct fuel' as [|fuel']; [lia|].
    cbn [RecursionDemo.hanoi] in E |- *.
    destruct (decide (n = 1)); [exact E|].
    destruct (RecursionDemo.hanoi fuel (int (n - 1)) from aux to moves)
      as [moves1| | |] eqn:E1; try discriminate E.
    rewrite (IH _ _ _ _ _ _ E1 fuel') by lia.
    cbn [bind] in E |- *.
    destruct (push_back 32 moves1 (RecursionDemo.move_text n from to))
      as [moves2| | |]; try discriminate E.
    cbn [bind] in E |- *.
    apply (IH _ _ _ _ _ _ E). lia.
Qed.

(** Claim C7, as amended: for every n >= 1 whose 2^n - 1 moves the
    vector [moves] can take in, [hanoi(n, from, to, aux, moves)]
    appends exactly 2^n - 1 move strings to [moves]; the call of [main]
    with n = 3 produces the 7 moves it prints.  The recursion is as
    deep as [n], which is the budget the model is given. *)
Theorem hanoi_move_count (n : Z) (from to aux : ascii) (moves : list string)
    (fuel : nat) :
  1 <= n <= INT_MAX -> (Z.to_nat n <= fuel)%nat ->
  Z.of_nat (length moves) + 2 ^ n - 1 <= vector_max_size 32 ->
  (exists new : list string,
     RecursionDemo.hanoi fuel n from to aux moves = Ret (moves ++ new) /\
     Z.of_nat (length new) = 2 ^ n - 1) /\
  RecursionDemo.main_hanoi (3 + fuel) =
    Ret (["Move disk 1 from A to C"; "Move disk 2 from A to B";
          "Move disk 1 from C to B"; "Move disk 3 from A to C";
          "Move disk 1 from B to A"; "Move disk 2 from B to C";
          "Move disk 1 from A to C"], 7).
Proof.
  intros Hn Hfuel Hfit. split.
  - apply hanoi_appends; [exact Hn | lia | exact Hfit].
  - unfold RecursionDemo.main_hanoi.
    rewrite (hanoi_fuel_mono 3 3 "A" "C" "B" []
               ["Move disk 1 from A to C"; "Move disk 2 from A to B";
                "Move disk 1 from C to B"; "Move disk 3 from A to C";
                "Move disk 1 from B to A"; "Move disk 2 from B to C";
                "Move disk 1 from A to C"]);
      [reflexivity | vm_compute; reflexivity | lia].
Qed.

Lemma hanoi_move_count_witness :
  exists new : list string,
    RecursionDemo.hanoi 4 4 "A" "C" "B" [] = Ret ([] ++ new) /\
    Z.of_nat (length new) = 2 ^ 4 - 1.
Proof.
  refine (proj1 (hanoi_move_count 4 "A" "C" "B" [] 4 _ _ _)).
  - unfold INT_MAX. lia.
  - lia.
  - vm_compute. discriminate.
Defined.

(** Claim C7 as stated fails for n = 59: a [std::vector<std::string>]
    holds at most 2^58 - 1 strings, fewer than the 2^59 - 1 moves, and
    the [push_back] that would go past that limit throws
    [std::length_error]. *)
Lemma hanoi_59_moves :
  vector_max_size 32 = 2 ^ 58 - 1 /\
  exists text : string,
    RecursionDemo.hanoi 58 59 "A" "C" "B" [] = Throw (length_error text).
Proof.
  split; [reflexivity|]. eexists.
  apply hanoi_overflows; [unfold INT_MAX; lia | lia |].
  vm_compute. reflexivity.
Qed.

(** ** dp_demo.cpp: unique paths *)

Lemma binom_0_r n : binom n 0 = 1.
Proof. destruct n; reflexivity. Qed.

Lemma binom_pascal n k : binom (S n) (S k) = binom n k + binom n (S k).
Proof. reflexivity. Qed.

Lemma binom_gt n : forall k, (n < k)%nat -> binom n k = 0.
Proof.
  induction n as [|n IH]; intros [|k] Hk; try lia; [reflexivity|].
  rewrite binom_pascal, !IH by lia. reflexivity.
Qed.

Lemma binom_diag n : binom n n = 1.
Proof.
  induction n as [|n IH]; [reflexivity|].
  rewrite binom_pascal, IH, binom_gt by lia. reflexivity.
Qed.

Lemma binom_nonneg n : forall k, 0 <= binom n k.
Proof.
  induction n as [|n IH]; intros [|k]; cbn [binom]; try lia.
  pose proof (IH k). pose proof (IH (S k)). lia.
Qed.

(** [binom] is the quotient of factorials. *)
Lemma binom_fact n : forall k, (k <= n)%nat ->
  binom n k * fact k * fact (n - k) = fact n.
Proof.
  induction n as [|n IH]; intros [|k] Hk.
  - reflexivity.
  - lia.
  - rewrite binom_0_r. cbn [fact]. rewrite Nat.sub_0_r. cbn [fact]. lia.
  - rewrite binom_pascal.
    destruct (decide (k = n)) as [->|Hne].
    + rewrite binom_diag, binom_gt by lia. rewrite Nat.sub_diag. cbn [fact]. lia.
    + pose proof (IH k ltac:(lia)) as H1.
      pose proof (IH (S k) ltac:(lia)) as H2.
      replace (S n - S k)%nat with (n - k)%nat by lia.
      replace (n - k)%nat with (S (n - S k)) in * by lia.
      rewrite !fact_S in *. 
      replace (fact (S n)) with (Z.of_nat (S n) * fact n) by reflexivity.
      replace (Z.of_nat (S n)) with (Z.of_nat (S k) + Z.of_nat (S (n - S k))) by lia.
      nia.
Qed.

(** Paths through a grid: [binom (a + b) a] by its own recurrence. *)
Lemma binom_grid_step a b :
  binom (S a + S b) (S b) = binom (S a + b) b + binom (a + S b) (S b).
Proof.
  replace (S a + S b)%nat with (S (S a + b)) by lia.
  rewrite binom_pascal. f_equal. f_equal. lia.
Qed.

Lemma binom_sym_sum : forall s a b, (a + b = s)%nat ->
  binom (a + b) a = binom (a + b) b.
Proof.
  induction s as [s IH] using lt_wf_ind. intros a b Hs.
  destruct a as [|a]; [rewrite binom_0_r, Nat.add_0_l, binom_diag; reflexivity|].
  destruct b as [|b]; [rewrite binom_0_r, Nat.add_0_r, binom_diag; reflexivity|].
  rewrite binom_grid_step.
  replace (S a + S b)%nat with (S b + S a)%nat by lia.
  rewrite binom_grid_step.
  replace (S b + a)%nat with (a + S b)%nat by lia.
  replace (b + S a)%nat with (S a + b)%nat by lia.
  rewrite (IH (S a + b)%nat ltac:(lia) (S a) b eq_refl).
  rewrite (IH (a + S b)%nat ltac:(lia) a (S b) eq_refl). lia.
Qed.

Lemma binom_sym a b : binom (a + b) a = binom (a + b) b.
Proof. exact (binom_sym_sum (a + b) a b eq_refl). Qed.

Lemma int_small x : 0 <= x <= INT_MAX -> int x = x.
Proof. intros H. apply int_id. unfold INT_MIN, INT_MAX in *. lia. Qed.

Lemma unique_paths_row (n i : Z) (dp : list Z) :
  1 <= n <= INT_MAX -> 1 <= i ->
  row_ok n (i - 1) dp ->
  exists dp',
    for_lt_M 1 n (fun j dp =>
      do x <- at_ dp j;
      do y <- at_ dp (int (j - 1));
      set_at dp j (int (x + y))) dp = Ret dp' /\
    row_ok n i dp'.
Proof.
  intros Hn Hi [Hlen Hrow].
  pose (P := fun (j : Z) (dp : list Z) =>
    length dp = Z.to_nat n /\
    (forall c : nat, (c < Z.to_nat j)%nat ->
       dp !! c = Some (int (binom (Z.to_nat i + c) c))) /\
    (forall c : nat, (Z.to_nat j <= c < Z.to_nat n)%nat ->
       dp !! c = Some (int (binom (Z.to_nat (i - 1) + c) c)))).
  match goal with |- context [for_lt_M 1 n ?body dp] =>
    destruct (for_lt_M_inv P body 1 n dp) as (dp' & E & Hlen' & Hnew & _) end.
  - lia.
  - split; [exact Hlen|]. split.
    + intros c Hc. assert (c = 0)%nat as -> by lia.
      rewrite (Hrow 0%nat) by lia. rewrite !binom_0_r. reflexivity.
    + intros c Hc. apply Hrow. lia.
  - intros j d Hj (Hl & Hnew & Hold).
    rewrite (at_lookup d j _ ltac:(lia) (Hold (Z.to_nat j) ltac:(lia))).
    cbn [bind].
    rewrite int_small by (unfold INT_MAX in *; lia).
    rewrite (at_lookup d (j - 1) _ ltac:(lia) (Hnew (Z.to_nat (j - 1)) ltac:(lia))).
    cbn [bind].
    rewrite set_at_Ret by lia.
    eexists; split; [reflexivity|].
    split; [rewrite length_insert; exact Hl|]. split.
    + intros c Hc. destruct (decide (c = Z.to_nat j)) as [->|Hne].
      * rewrite list_lookup_insert_eq by lia. f_equal.
        rewrite int_add_l, int_add_r. f_equal.
        replace (Z.to_nat i) with (S (Z.to_nat (i - 1))) by lia.
        replace (Z.to_nat j) with (S (Z.to_nat (j - 1))) by lia.
        rewrite binom_grid_step. lia.
      * rewrite list_lookup_insert_ne by lia. apply Hnew. lia.
    + intros c Hc. rewrite list_lookup_insert_ne by lia. apply Hold. lia.
  - exists dp'. split; [exact E|]. split; [exact Hlen'|exact Hnew].
Qed.

Lemma unique_paths_wraps (m n : Z) :
  1 <= m -> 1 <= n <= INT_MAX ->
  DpDemo.unique_paths m n
  = Ret (int (binom (Z.to_nat (m - 1) + Z.to_nat (n - 1)) (Z.to_nat (n - 1)))).
Proof.
  intros Hm Hn. unfold DpDemo.unique_paths.
  rewrite vector_fill_Ret
    by (unfold INT_MAX in *; change (vector_max_size 4) with 2305843009213693951; lia).
  cbn [bind].
  match goal with |- context [for_lt_M 1 m ?body ?s] =>
    destruct (for_lt_M_inv (fun i dp => row_ok n (i - 1) dp) body 1 m s)
      as (dp & E & Hlen & Hrow) end.
  - lia.
  - split; [apply length_replicate|].
    intros c Hc. rewrite lookup_replicate_2 by lia.
    change (Z.to_nat (1 - 1)) with 0%nat. rewrite Nat.add_0_l, binom_diag.
    rewrite int_small by (unfold INT_MAX; lia). reflexivity.
  - intros i dp Hi Hrow.
    replace (i + 1 - 1) with i by lia.
    apply unique_paths_row; [exact Hn | lia | exact Hrow].
  - rewrite E. cbn [bind].
    rewrite int_small by (unfold INT_MAX in *; lia).
    apply at_lookup; [lia|]. apply Hrow. lia.
Qed.

(** Claim C10, as amended: for all m >= 1 and n >= 1,
    [unique_paths(m, n)] and [unique_paths(n, m)] are equal: both are
    the number of monotone lattice paths C(m+n-2, m-1) reduced to
    [int], which is that binomial coefficient itself whenever it is at
    most [INT_MAX]. *)
Theorem unique_paths_symmetric (m n : Z) :
  1 <= m <= INT_MAX -> 1 <= n <= INT_MAX ->
  DpDemo.unique_paths n m = DpDemo.unique_paths m n /\
  DpDemo.unique_paths m n
    = Ret (int (binom (Z.to_nat (m + n - 2)) (Z.to_nat (m - 1)))) /\
  (binom (Z.to_nat (m + n - 2)) (Z.to_nat (m - 1)) <= INT_MAX ->
   DpDemo.unique_paths m n
     = Ret (binom (Z.to_nat (m + n - 2)) (Z.to_nat (m - 1)))).
Proof.
  intros Hm Hn.
  rewrite !unique_paths_wraps by lia.
  replace (Z.to_nat (m + n - 2)) with (Z.to_nat (m - 1) + Z.to_nat (n - 1))%nat
    by lia.
  assert (binom (Z.to_nat (n - 1) + Z.to_nat (m - 1)) (Z.to_nat (m - 1))
          = binom (Z.to_nat (m - 1) + Z.to_nat (n - 1)) (Z.to_nat (n - 1))) as Esym.
  { rewrite (Nat.add_comm (Z.to_nat (n - 1))). apply binom_sym. }
  assert (binom (Z.to_nat (m - 1) + Z.to_nat (n - 1)) (Z.to_nat (n - 1))
          = binom (Z.to_nat (m - 1) + Z.to_nat (n - 1)) (Z.to_nat (m - 1))) as Eflip.
  { symmetry. apply binom_sym. }
  split; [by rewrite Esym|]. split; [by rewrite Eflip|].
  intros Hfit. rewrite Eflip.
  pose proof (binom_nonneg (Z.to_nat (m - 1) + Z.to_nat (n - 1)) (Z.to_nat (m - 1))).
  by rewrite int_small by lia.
Qed.

Lemma unique_paths_symmetric_witness :
  DpDemo.unique_paths 7 3 = DpDemo.unique_paths 3 7 /\
  DpDemo.unique_paths 3 7
    = Ret (int (binom (Z.to_nat (3 + 7 - 2)) (Z.to_nat (3 - 1)))) /\
  (binom (Z.to_nat (3 + 7 - 2)) (Z.to_nat (3 - 1)) <= INT_MAX ->
   DpDemo.unique_paths 3 7
     = Ret (binom (Z.to_nat (3 + 7 - 2)) (Z.to_nat (3 - 1)))).
Proof.
  refine (unique_paths_symmetric 3 7 _ _).
  - unfold INT_MAX. lia.
  - unfold INT_MAX. lia.
Defined.

(** Claim C10 as stated fails for an 18-by-18 grid: the path count
    C(34, 17) = 2333606220 is larger than [INT_MAX], and the sum kept
    in an [int] comes out as another number. *)
Lemma unique_paths_18_18 :
  binom (Z.to_nat (18 + 18 - 2)) (Z.to_nat (18 - 1)) = 2333606220 /\
  DpDemo.unique_paths 18 18 = Ret (-1961361076) /\
  DpDemo.unique_paths 18 18
    <> Ret (binom (Z.to_nat (18 + 18 - 2)) (Z.to_nat (18 - 1))).
Proof.
  assert (binom (Z.to_nat (18 + 18 - 2)) (Z.to_nat (18 - 1)) = 2333606220) as E.
  { pose proof (binom_fact 34 17 ltac:(lia)) as Hq.
    change (Z.to_nat (18 + 18 - 2)) with 34%nat.
    change (Z.to_nat (18 - 1)) with 17%nat.
    change (34 - 17)%nat with 17%nat in Hq.
    assert (fact 17 = 355687428096000) as E17 by (vm_compute; reflexivity).
    assert (fact 34 = 295232799039604140847618609643520000000) as E34
      by (vm_compute; reflexivity).
    rewrite E17, E34 in Hq. lia. }
  rewrite E. split; [reflexivity|]. split; [vm_compute; reflexivity|].
  vm_compute. discriminate.
Qed.

(** ** dp_demo.cpp: coin change *)

Lemma for_each_M_inv {St : Type} (P : list Z -> St -> Prop)
    (body : Z -> St -> outcome St) (v : list Z) :
  forall (done : list Z) (rest : list Z) (s : St),
    v = done ++ rest ->
    P done s ->
    (forall done c rest s, v = done ++ c :: rest -> P done s ->
       exists s', body c s = Ret s' /\ P (done ++ [c]) s') ->
    exists s', for_each_M rest body s = Ret s' /\ P v s'.
Proof.
  intros done rest. revert done.
  induction rest as [|c rest IH]; intros done s Hv Hs Hstep; cbn [for_each_M].
  - exists s. split; [reflexivity|]. rewrite Hv, app_nil_r. exact Hs.
  - destruct (Hstep done c rest s Hv Hs) as (s1 & E1 & H1).
    rewrite E1. cbn [bind].
    apply (IH (done ++ [c])); [by rewrite <- app_assoc | exact H1 | exact Hstep].
Qed.

Section CoinChange.
Variable coins : list Z.
Variable amount : Z.
Hypothesis coins_pos : Forall (fun c => 1 <= c <= INT_MAX) coins.
Hypothesis amount_range : 0 <= amount < INT_MAX.

Local Abbreviation best := (Inv.best coins amount).
Local Abbreviation partial := (Inv.partial coins amount).
Local Abbreviation table_ok := (Inv.table_ok coins amount).
Local Abbreviation row_inv := (Inv.row_inv coins amount).

Lemma pays_le k a : pays coins k a -> Z.of_nat k <= a.
Proof.
  intros (used & Hlen & Hin & Hsum). subst k a.
  induction used as [|c used IH]; [cbn; lia|].
  apply Forall_cons in Hin. destruct Hin as [Hc Hin].
  pose proof (proj1 (Forall_forall _ _) coins_pos c Hc) as Hpos.
  cbn beta in Hpos.
  specialize (IH Hin). cbn [length foldr]. lia.
Qed.

Lemma pays_zero a : pays coins 0 a <-> a = 0.
Proof.
  split.
  - intros (used & Hlen & _ & Hsum). apply nil_length_inv in Hlen.
    subst used. cbn in Hsum. lia.
  - intros ->. exists []. split; [reflexivity|]. split; [constructor|reflexivity].
Qed.

Lemma pays_succ k a :
  pays coins (S k) a <-> exists c, c ∈ coins /\ pays coins k (a - c).
Proof.
  split.
  - intros (used & Hlen & Hin & Hsum).
    destruct used as [|c used]; [discriminate|].
    apply Forall_cons in Hin. destruct Hin as [Hc Hin].
    exists c. split; [exact Hc|]. exists used.
    split; [cbn in Hlen; lia|]. split; [exact Hin|]. cbn in Hsum. lia.
  - intros (c & Hc & used & Hlen & Hin & Hsum).
    exists (c :: used). split; [cbn; lia|].
    split; [by constructor|]. cbn. lia.
Qed.

Lemma partial_best i x : 1 <= i -> partial i coins x -> best i x.
Proof.
  intros Hi [[Hx Hno]|(Hx & Hpay & Hmin)]; [left|right].
  - split; [exact Hx|]. intros [|k] Hk.
    + apply pays_zero in Hk. lia.
    + apply pays_succ in Hk. destruct Hk as (c & Hc & Hk). exact (Hno c k Hc Hk).
  - split; [exact Hx|]. split; [exact Hpay|]. intros [|k] Hk.
    + apply pays_zero in Hk. lia.
    + apply pays_succ in Hk. destruct Hk as (c & Hc & Hk).
      specialize (Hmin c k Hc Hk). lia.
Qed.

Lemma best_sentinel a x : best a x -> a <= amount ->
  (x = amount + 1 -> forall k, ~ pays coins k a) /\
  (x <> amount + 1 -> 0 <= x <= a /\ pays coins (Z.to_nat x) a /\
     forall k, pays coins k a -> x <= Z.of_nat k).
Proof.
  intros [[Hx Hno]|(Hx & Hpay & Hmin)] Ha; split; intros Hs; try lia; auto.
Qed.

Lemma sentinel_int : int (amount + 1) = amount + 1.
Proof. apply int_id. unfold INT_MIN, INT_MAX in *. lia. Qed.

Lemma coin_change_coin (i : Z) (done : list Z) (c : Z) (dp : list Z) :
  1 <= i <= amount -> c ∈ coins ->
  row_inv i done dp ->
  exists dp',
    (if decide (c <= i) then
       do y <- at_ dp (int (i - c));
       if decide (y <> amount + 1) then
         do x <- at_ dp i;
         set_at dp i (Z.min x (int (y + 1)))
       else Ret dp
     else Ret dp) = Ret dp' /\
    row_inv i (done ++ [c]) dp'.
Proof.
  intros Hi Hc (Hlen & Hlow & Hhigh & x & Ex & Hx).
  pose proof (proj1 (Forall_forall _ _) coins_pos c Hc) as Hpos.
  cbn beta in Hpos.
  assert ((forall k, ~ pays coins k (i - c)) ->
          partial i done x -> partial i (done ++ [c]) x) as Hskip.
  { intros Hno [[Hs Hn]|(Hb & Hp & Hm)]; [left|right].
    - split; [exact Hs|]. intros c' k Hc'. apply elem_of_app in Hc'.
      destruct Hc' as [Hc'|Hc']; [exact (Hn c' k Hc')|].
      apply list_elem_of_singleton in Hc'. subst c'. apply Hno.
    - split; [exact Hb|]. split; [exact Hp|]. intros c' k Hc' Hk.
      apply elem_of_app in Hc'.
      destruct Hc' as [Hc'|Hc']; [exact (Hm c' k Hc' Hk)|].
      apply list_elem_of_singleton in Hc'. subst c'. exfalso. exact (Hno k Hk). }
  destruct (decide (c <= i)) as [Hle|Hgt].
  - rewrite int_id by (unfold INT_MIN, INT_MAX in *; lia).
    destruct (Hlow (Z.to_nat (i - c)) ltac:(lia)) as (y & Ey & Hy).
    rewrite Z2Nat.id in Hy by lia.
    rewrite (at_lookup dp (i - c) y ltac:(lia) Ey). cbn [bind].
    destruct (best_sentinel _ _ Hy ltac:(lia)) as [Hsent Hreal].
    destruct (decide (y <> amount + 1)) as [Hne|Heq].
    + destruct (Hreal Hne) as (Hyb & Hyp & Hym).
      rewrite (at_lookup dp i x ltac:(lia) Ex). cbn [bind].
      rewrite int_id by (unfold INT_MIN, INT_MAX in *; lia).
      rewrite set_at_Ret by lia.
      eexists; split; [reflexivity|].
      split; [rewrite length_insert; exact Hlen|].
      split; [intros a Ha; rewrite list_lookup_insert_ne by lia; by apply Hlow|].
      split; [intros a Ha; rewrite list_lookup_insert_ne by lia; by apply Hhigh|].
      exists (Z.min x (y + 1)).
      split; [apply list_lookup_insert_eq; lia|].
      assert (pays coins (Z.to_nat (y + 1)) i) as Hpay.
      { replace (Z.to_nat (y + 1)) with (S (Z.to_nat y)) by lia.
        apply pays_succ. exists c. split; [exact Hc | exact Hyp]. }
      right. destruct Hx as [[Hs Hn]|(Hb & Hp & Hm)].
      * rewrite Z.min_r by lia.
        split; [lia|]. split; [exact Hpay|].
        intros c' k Hc' Hk. apply elem_of_app in Hc'.
        destruct Hc' as [Hc'|Hc']; [exfalso; exact (Hn c' k Hc' Hk)|].
        apply list_elem_of_singleton in Hc'. subst c'.
        specialize (Hym k Hk). lia.
      * split; [lia|]. split.
        { destruct (Z.min_spec x (y + 1)) as [[_ ->]|[_ ->]]; assumption. }
        intros c' k Hc' Hk. apply elem_of_app in Hc'.
        destruct Hc' as [Hc'|Hc']; [specialize (Hm c' k Hc' Hk); lia|].
        apply list_elem_of_singleton in Hc'. subst c'.
        specialize (Hym k Hk). lia.
    + exists dp. split; [reflexivity|].
      split; [exact Hlen|]. split; [exact Hlow|]. split; [exact Hhigh|].
      exists x. split; [exact Ex|]. apply Hskip; [|exact Hx].
      apply Hsent. lia.
  - exists dp. split; [reflexivity|].
    split; [exact Hlen|]. split; [exact Hlow|]. split; [exact Hhigh|].
    exists x. split; [exact Ex|]. apply Hskip; [|exact Hx].
    intros k Hk. apply pays_le in Hk. lia.
Qed.

Lemma coin_change_row (i : Z) (dp : list Z) :
  1 <= i <= amount -> table_ok i dp ->
  exists dp',
    for_each_M coins (fun coin dp =>
      if decide (coin <= i) then
        do y <- at_ dp (int (i - coin));
        if decide (y <> amount + 1) then
          do x <- at_ dp i;
          set_at dp i (Z.min x (int (y + 1)))
        else Ret dp
      else Ret dp) dp = Ret dp' /\
    table_ok (i + 1) dp'.
Proof.
  intros Hi (Hlen & Hlow & Hhigh).
  match goal with |- context [for_each_M coins ?body dp] =>
    destruct (for_each_M_inv (row_inv i) body coins [] coins dp)
      as (dp' & E & Hlen' & Hlow' & Hhigh' & x & Ex & Hx) end.
  - reflexivity.
  - split; [exact Hlen|]. split; [exact Hlow|].
    split; [intros a Ha; apply Hhigh; lia|].
    exists (amount + 1). split; [apply Hhigh; lia|].
    left. split; [reflexivity|]. intros c k Hc. inversion Hc.
  - intros done c rest d Hsplit Hinv.
    apply coin_change_coin; [exact Hi | | exact Hinv].
    rewrite Hsplit. apply elem_of_app. right. apply elem_of_cons. by left.
  - exists dp'. split; [exact E|]. split; [exact Hlen'|]. split.
    + intros a Ha. destruct (decide (Z.of_nat a = i)) as [Hai|Hai].
      * exists x. replace a with (Z.to_nat i) by lia.
        split; [exact Ex|]. rewrite Z2Nat.id by lia.
        apply partial_best; [lia | exact Hx].
      * apply Hlow'. lia.
    + intros a Ha. apply Hhigh'. lia.
Qed.

Lemma coin_change_table :
  exists r,
    DpDemo.coin_change coins amount = Ret (if decide (r > amount) then -1 else r)
    /\ best amount r.
Proof.
  unfold DpDemo.coin_change. rewrite sentinel_int.
  rewrite vector_fill_Ret
    by (unfold INT_MAX in *;
        change (vector_max_size 4) with 2305843009213693951; lia).
  cbn [bind]. rewrite set_at_Ret by (rewrite length_replicate; lia).
  cbn [bind].
  match goal with |- context [for_le_M 1 amount ?body ?s] =>
    destruct (for_le_M_inv table_ok body 1 amount s)
      as (dp & E & Hlen & Hlow & _) end.
  - lia.
  - split; [rewrite length_insert, length_replicate; reflexivity|]. split.
    + intros a Ha. assert (a = 0)%nat as -> by lia.
      exists 0. split; [apply list_lookup_insert_eq; rewrite length_replicate; lia|].
      right. split; [lia|]. split; [by apply pays_zero|]. intros k _. lia.
    + intros a Ha. rewrite list_lookup_insert_ne by lia.
      apply lookup_replicate_2. lia.
  - intros i dp Hi Hok. apply coin_change_row; assumption.
  - rewrite E. cbn [bind].
    destruct (Hlow (Z.to_nat amount) ltac:(lia)) as (r & Er & Hr).
    rewrite Z2Nat.id in Hr by lia.
    rewrite (at_lookup dp amount r ltac:(lia) Er). cbn [bind].
    exists r. split; [reflexivity | exact Hr].
Qed.
End CoinChange.

(** Claim C9, as amended: for every list of strictly positive coin
    denominations and every amount with [0 <= amount < INT_MAX],
    [coin_change(coins, amount)] returns the minimum number of coins
    (with repetition) whose values sum to [amount], and returns -1
    exactly when no multiset of the given coins sums to [amount]; in
    particular [coin_change(coins, 0) = 0]. *)
Theorem coin_change_spec (coins : list Z) (amount : Z) :
  Forall (fun c => 1 <= c <= INT_MAX) coins ->
  0 <= amount < INT_MAX ->
  exists r : Z,
    DpDemo.coin_change coins amount = Ret r /\
    ((r = -1 /\ forall k, ~ pays coins k amount) \/
     (0 <= r /\ pays coins (Z.to_nat r) amount /\
      forall k, pays coins k amount -> r <= Z.of_nat k)) /\
    (amount = 0 -> r = 0).
Proof.
  intros Hcoins Hamount.
  destruct (coin_change_table coins amount Hcoins Hamount) as (r0 & E & Hbest).
  eexists. split; [exact E|].
  destruct Hbest as [[Hs Hno]|(Hb & Hp & Hm)].
  - destruct (decide (r0 > amount)) as [_|Hle]; [|lia].
    split; [left; done|].
    intros ->. exfalso. apply (Hno 0%nat). exists []. done.
  - destruct (decide (r0 > amount)) as [Hgt|_]; [lia|].
    split; [right; split; [lia|done]|]. lia.
Qed.

Lemma coin_change_spec_witness :
  exists r : Z,
    DpDemo.coin_change [1; 2; 5] 11 = Ret r /\
    ((r = -1 /\ forall k, ~ pays [1; 2; 5] k 11) \/
     (0 <= r /\ pays [1; 2; 5] (Z.to_nat r) 11 /\
      forall k, pays [1; 2; 5] k 11 -> r <= Z.of_nat k)) /\
    (11 = 0 -> r = 0).
Proof.
  apply (coin_change_spec [1; 2; 5] 11).
  - repeat constructor; unfold INT_MAX; lia.
  - unfold INT_MAX. lia.
Defined.

(** Claim C9 as stated fails for [amount = INT_MAX]: the table size
    [amount + 1] is not an [int], the vector constructor is asked for
    more than [max_size()] elements and throws, although 2147483647
    coins of value 1 pay the amount. *)
Lemma coin_change_int_max :
  DpDemo.coin_change [1] 2147483647
    = Throw (length_error "cannot create std::vector larger than max_size()") /\
  (forall r : Z, DpDemo.coin_change [1] 2147483647 <> Ret r) /\
  pays [1] (Z.to_nat 2147483647) 2147483647.
Proof.
  assert (DpDemo.coin_change [1] 2147483647
    = Throw (length_error "cannot create std::vector larger than max_size()")) as E.
  { unfold DpDemo.coin_change.
    replace (int (2147483647 + 1)) with (-2147483648) by (vm_compute; reflexivity).
    replace (vector_fill 4 (-2147483648) (-2147483648))
      with (@Throw (list Z) (length_error "cannot create std::vector larger than max_size()"))
      by (vm_compute; reflexivity).
    reflexivity. }
  split; [exact E|]. split; [intros r; rewrite E; discriminate|].
  exists (replicate (Z.to_nat 2147483647) 1).
  split; [apply length_replicate|]. split.
  - apply Forall_replicate. apply list_elem_of_singleton. reflexivity.
  - assert (forall n : nat, foldr Z.add 0 (replicate n 1) = Z.of_nat n) as Hsum.
    { induction n as [|n IH]; [reflexivity|].
      cbn [replicate foldr]. rewrite IH. lia. }
    rewrite Hsum. apply Z2Nat.id. lia.
Qed.

(** ** raii_demo.cpp *)

Lemma same_but_refl w : same_but w w.
Proof. split; [reflexivity | intros; reflexivity]. Qed.

Lemma same_but_trans w1 w2 w3 :
  same_but w1 w2 -> same_but w2 w3 -> same_but w1 w3.
Proof.
  intros [Hs1 Hf1] [Hs2 Hf2]. split; [congruence|].
  intros name Hne. rewrite Hf2, Hf1 by exact Hne. reflexivity.
Qed.

Lemma tidy_ret {A} (a : A) : tidy (io_ret a).
Proof. intros w. exists a, w. done. Qed.

Lemma tidy_print text : tidy (print text).
Proof. intros w. eexists tt, _. done. Qed.

Lemma tidy_print_err text : tidy (print_err text).
Proof. intros w. eexists tt, _. done. Qed.

Lemma tidy_bind {A B} (m : io A) (k : A -> io B) :
  tidy m -> (forall a, tidy (k a)) -> tidy (io_bind m k).
Proof.
  intros Hm Hk w. destruct (Hm w) as (a & w1 & E1 & Hs1 & Hf1).
  destruct (Hk a w1) as (b & w2 & E2 & Hs2 & Hf2).
  exists b, w2. unfold io_bind. rewrite E1, E2. split; [reflexivity|].
  split; congruence.
Qed.

Lemma tidy_at_scope_exit {A} (body : io A) (destructor : io unit) :
  tidy body -> tidy destructor -> tidy (at_scope_exit body destructor).
Proof.
  intros Hb Hd w. destruct (Hb w) as (a & w1 & E1 & Hs1 & Hf1).
  destruct (Hd w1) as ([] & w2 & E2 & Hs2 & Hf2).
  exists a, w2. unfold at_scope_exit. rewrite E1, E2. split; [reflexivity|].
  split; cbn [snd]; congruence.
Qed.

Create HintDb tidy.
#[local] Hint Resolve tidy_ret tidy_print tidy_print_err : tidy.
#[local] Hint Extern 2 (tidy (io_bind _ _)) => apply tidy_bind; [|intros ?] : tidy.
#[local] Hint Extern 2 (tidy (at_scope_exit _ _)) => apply tidy_at_scope_exit : tidy.

Lemma tidy_demo_scope_guard : tidy RaiiDemo.demo_scope_guard.
Proof.
  unfold RaiiDemo.demo_scope_guard, RaiiDemo.ScopeGuard_dtor, RaiiDemo.dismiss,
    RaiiDemo.ScopeGuard_ctor.
  cbn [RaiiDemo.active_ RaiiDemo.cleanup_]. auto 20 with tidy.
Qed.

Lemma tidy_demo_timer el es : tidy (RaiiDemo.demo_timer el es).
Proof.
  unfold RaiiDemo.demo_timer, RaiiDemo.Timer_ctor, RaiiDemo.Timer_dtor.
  auto 20 with tidy.
Qed.

Lemma tidy_demo_smart_pointers : tidy RaiiDemo.demo_smart_pointers.
Proof.
  unfold RaiiDemo.demo_smart_pointers, RaiiDemo.Resource_ctor,
    RaiiDemo.Resource_dtor, RaiiDemo.use.
  auto 30 with tidy.
Qed.

Lemma tidy_try_catch {A} (body : io A) (handler : exception -> io A) :
  (forall w, exists w', streams w' = streams w /\ files w' = files w /\
     ((exists a, body w = (Ret a, w')) \/ (exists e, body w = (Throw e, w')))) ->
  (forall e, tidy (handler e)) ->
  tidy (try_catch body handler).
Proof.
  intros Hb Hh w. destruct (Hb w) as (w1 & Hs1 & Hf1 & [[a E]|[e E]]).
  - exists a, w1. unfold try_catch. rewrite E. done.
  - destruct (Hh e w1) as (a & w2 & E2 & Hs2 & Hf2).
    exists a, w2. unfold try_catch. rewrite E, E2. split; [reflexivity|].
    split; congruence.
Qed.

Lemma tidy_demo_exception_safety : tidy RaiiDemo.demo_exception_safety.
Proof.
  unfold RaiiDemo.demo_exception_safety.
  apply tidy_bind; [auto with tidy|intros _].
  apply tidy_bind; [|intros _; auto with tidy].
  apply tidy_try_catch; [|intros e; auto 10 with tidy].
  intros w. eexists. split; [|split; [|right; eexists; reflexivity]]; reflexivity.
Qed.

Section RaiiProofs.
Variable may_open : world -> string -> string -> bool.

Ltac io_step :=
  cbv beta iota zeta delta
    [io_bind io_ret io_throw try_catch at_scope_exit print print_err io_fail
     RaiiDemo.FileHandle_ctor RaiiDemo.FileHandle_dtor RaiiDemo.write
     RaiiDemo.read_line RaiiDemo.fopen RaiiDemo.fclose RaiiDemo.fprintf
     RaiiDemo.fgets RaiiDemo.file_ RaiiDemo.filename_
     files streams cout cerr stream_name stream_mode stream_rest fst snd].

Lemma fresh_stream (w : world) : streams w !! fresh (dom (streams w)) = None.
Proof. apply not_elem_of_dom, is_fresh. Qed.

Lemma write_block (w : world) :
  exists w',
    try_catch
      (io_do file <- RaiiDemo.FileHandle_ctor may_open "raii_test.txt" "w";
       at_scope_exit
         (RaiiDemo.write file ("Hello, RAII!" +:+ nl) ;;
          RaiiDemo.write file ("This is a test." +:+ nl))
         (RaiiDemo.FileHandle_dtor file))
      (fun e => print_err "Error: " ;; print_err (what e) ;; print_err nl) w
    = (Ret tt, w') /\ same_but w w'.
Proof.
  pose proof (fresh_stream w) as Hfresh.
  destruct w as [fs ss co ce]. cbn [streams] in Hfresh. io_step.
  destruct (may_open _ "raii_test.txt" "w") eqn:Hopen.
  - destruct (decide ("w" = "w")) as [_|Hne]; [|done].
    io_step. rewrite lookup_insert_eq. io_step.
    destruct (decide ("w" = "w")) as [_|Hne]; [|done].
    io_step. rewrite lookup_insert_eq. io_step.
    destruct (decide ("w" = "w")) as [_|Hne]; [|done].
    io_step.
    eexists. split; [reflexivity|]. split; cbn [streams files].
    + apply delete_insert_id, Hfresh.
    + intros name Hne. rewrite !lookup_alter_ne, lookup_insert_ne by done. reflexivity.
  - io_step. eexists. split; [reflexivity|]. split; intros; reflexivity.
Qed.

Lemma take_line_progress (limit : nat) : forall rest : string,
  limit <> O -> rest <> EmptyString ->
  (RaiiDemo.take_line limit rest).1 <> EmptyString /\
  (String.length (RaiiDemo.take_line limit rest).2 < String.length rest)%nat.
Proof.
  induction limit as [|limit IH]; intros rest Hlimit Hrest; [done|].
  destruct rest as [|c rest]; [done|]. cbn [RaiiDemo.take_line].
  destruct (decide (c = ascii_of_nat 10)) as [_|_].
  - cbn. split; [done|lia].
  - destruct (RaiiDemo.take_line limit rest) as [line rest'] eqn:E.
    cbn [fst snd String.length]. split; [done|].
    destruct limit as [|limit'].
    + cbn in E. injection E as <- <-. lia.
    + destruct rest as [|c' rest0].
      * cbn in E. injection E as <- <-. cbn. lia.
      * specialize (IH (String c' rest0) ltac:(done) ltac:(done)).
        rewrite E in IH. cbn [snd] in IH. lia.
Qed.

Lemma read_all_returns (fuel : nat) :
  forall (fs : gmap string string) (ss : gmap nat stream) (co ce : list string)
         (fd : nat) (st : stream) (name : string),
    ss !! fd = Some st ->
    (String.length (stream_rest st) < fuel)%nat ->
    exists (ss' : gmap nat stream) (co' : list string),
      RaiiDemo.read_all fuel {| RaiiDemo.file_ := Some fd; RaiiDemo.filename_ := name |}
        (World fs ss co ce) = (Ret tt, World fs ss' co' ce) /\
      delete fd ss' = delete fd ss.
Proof.
  induction fuel as [|fuel IH]; intros fs ss co ce fd st name Hfd Hlen; [lia|].
  destruct st as [sname smode srest]. cbn [stream_rest] in Hlen.
  cbn [RaiiDemo.read_all]. io_step. rewrite Hfd. io_step.
  destruct (decide (smode = "r" /\ srest <> EmptyString))
    as [[Hmode Hrest]|Hend].
  - destruct (take_line_progress 255 srest ltac:(done) Hrest)
      as [Hline Hshorter].
    destruct (RaiiDemo.take_line 255 srest) as [line rest] eqn:E.
    cbn [fst snd] in Hline, Hshorter. io_step.
    destruct (decide (line = EmptyString)) as [|_]; [done|].
    io_step.
    destruct (IH fs (<[fd := Stream sname smode rest]> ss)
                 ((co ++ ["Read: "]) ++ [line]) ce fd
                 (Stream sname smode rest) name)
      as (ss' & co' & Eloop & Hdel).
    + apply lookup_insert_eq.
    + cbn [stream_rest]. lia.
    + exists ss', co'. split; [exact Eloop|].
      rewrite Hdel. apply delete_insert_eq.
  - io_step. destruct (decide (EmptyString = EmptyString)) as [_|]; [|done].
    io_step. exists ss, co. done.
Qed.

Lemma read_block (w : world) :
  exists fuel0 : nat, forall fuel : nat, (fuel0 <= fuel)%nat ->
  exists w',
    try_catch
      (io_do file <- RaiiDemo.FileHandle_ctor may_open "raii_test.txt" "r";
       at_scope_exit (RaiiDemo.read_all fuel file) (RaiiDemo.FileHandle_dtor file))
      (fun e => print_err "Error: " ;; print_err (what e) ;; print_err nl) w
    = (Ret tt, w') /\ same_but w w'.
Proof.
  pose proof (fresh_stream w) as Hfresh.
  destruct w as [fs ss co ce]. cbn [streams] in Hfresh.
  destruct (may_open (World fs ss co ce) "raii_test.txt" "r") eqn:Hopen;
    [destruct (fs !! "raii_test.txt") as [content|] eqn:Hfile|].
  - exists (S (String.length content)). intros fuel Hfuel.
    io_step. rewrite Hopen.
    destruct (decide ("r" = "w")) as [|_]; [done|].
    destruct (decide ("r" = "r")) as [_|]; [|done].
    rewrite Hfile. io_step.
    destruct (read_all_returns fuel fs
                 (<[fresh (dom ss) := Stream "raii_test.txt" "r" content]> ss)
                 (co ++ ["[FileHandle] 打开文件: " +:+ "raii_test.txt" +:+ nl]) ce
                 (fresh (dom ss)) (Stream "raii_test.txt" "r" content)
                 "raii_test.txt")
      as (ss' & co' & Eloop & Hdel).
    + apply lookup_insert_eq.
    + cbn [stream_rest]. lia.
    + rewrite Eloop. io_step.
      eexists. split; [reflexivity|]. split; cbn [streams files].
      * rewrite Hdel. apply delete_insert_id, Hfresh.
      * intros; reflexivity.
  - exists O. intros fuel _. io_step. rewrite Hopen.
    destruct (decide ("r" = "w")) as [|_]; [done|].
    destruct (decide ("r" = "r")) as [_|]; [|done].
    rewrite Hfile. io_step.
    eexists. split; [reflexivity|]. split; intros; reflexivity.
  - exists O. intros fuel _. io_step. rewrite Hopen. io_step.
    eexists. split; [reflexivity|]. split; intros; reflexivity.
Qed.

Lemma demo_file_handle_effect (w : world) :
  exists fuel0 : nat, forall fuel : nat, (fuel0 <= fuel)%nat ->
  exists w',
    RaiiDemo.demo_file_handle may_open fuel w = (Ret tt, w') /\ same_but w w'.
Proof.
  unfold RaiiDemo.demo_file_handle.
  destruct (tidy_print (nl +:+ "=== RAII 文件包装器 ===" +:+ nl) w)
    as ([] & w1 & E1 & Hs1 & Hf1).
  destruct (write_block w1) as (w2 & E2 & Hsame2).
  destruct (read_block w2) as (fuel0 & Hread).
  exists fuel0. intros fuel Hfuel.
  destruct (Hread fuel Hfuel) as (w3 & E3 & Hsame3).
  destruct (tidy_print ("文件已自动关闭" +:+ nl) w3) as ([] & w4 & E4 & Hs4 & Hf4).
  exists w4. split.
  - unfold io_bind at 1. rewrite E1.
    unfold io_bind at 1. rewrite E2.
    unfold io_bind at 1. rewrite E3. exact E4.
  - apply (same_but_trans w w1); [split; [exact Hs1 | intros; by rewrite Hf1]|].
    apply (same_but_trans w1 w2); [exact Hsame2|].
    apply (same_but_trans w2 w3); [exact Hsame3|].
    split; [exact Hs4 | intros; by rewrite Hf4].
Qed.

Lemma read_line_some (fs : gmap string string) (ss : gmap nat stream)
    (co ce : list string) (fd : nat) (name rest line rest' : string) :
  ss !! fd = Some (Stream name "r" rest) ->
  rest <> EmptyString ->
  RaiiDemo.take_line 255 rest = (line, rest') ->
  RaiiDemo.read_line {| RaiiDemo.file_ := Some fd; RaiiDemo.filename_ := name |}
    (World fs ss co ce)
  = (Ret line, World fs (<[fd := Stream name "r" rest']> ss) co ce).
Proof.
  intros Hfd Hrest Htake. io_step. rewrite Hfd. io_step.
  destruct (decide ("r" = "r" /\ rest <> EmptyString)) as [_|Hn];
    [|exfalso; apply Hn; done].
  rewrite Htake. reflexivity.
Qed.

Lemma read_line_eof (fs : gmap string string) (ss : gmap nat stream)
    (co ce : list string) (fd : nat) (name mode : string) :
  ss !! fd = Some (Stream name mode EmptyString) ->
  RaiiDemo.read_line {| RaiiDemo.file_ := Some fd; RaiiDemo.filename_ := name |}
    (World fs ss co ce)
  = (Ret EmptyString, World fs ss co ce).
Proof.
  intros Hfd. io_step. rewrite Hfd. io_step.
  destruct (decide (mode = "r" /\ EmptyString <> EmptyString)) as [[_ Hn]|_];
    [done|reflexivity].
Qed.

Lemma read_all_line (fuel : nat) (file : RaiiDemo.FileHandle) (w w' : world)
    (line : string) :
  RaiiDemo.read_line file w = (Ret line, w') ->
  line <> EmptyString ->
  RaiiDemo.read_all (S fuel) file w
  = RaiiDemo.read_all fuel file
      (World (files w') (streams w') ((cout w' ++ ["Read: "]) ++ [line]) (cerr w')).
Proof.
  intros Hread Hline. cbn [RaiiDemo.read_all].
  unfold io_bind at 1. rewrite Hread.
  destruct (decide (line = EmptyString)) as [|_]; [done|].
  destruct w' as [fs ss co ce]. reflexivity.
Qed.

Lemma read_all_eof (fuel : nat) (file : RaiiDemo.FileHandle) (w w' : world) :
  RaiiDemo.read_line file w = (Ret EmptyString, w') ->
  RaiiDemo.read_all (S fuel) file w = (Ret tt, w').
Proof.
  intros Hread. cbn [RaiiDemo.read_all].
  unfold io_bind at 1. rewrite Hread.
  destruct (decide (EmptyString = EmptyString)) as [_|]; [reflexivity|done].
Qed.

Lemma read_all_two_lines (fuel : nat) (fs : gmap string string)
    (ss : gmap nat stream) (co ce : list string) (fd : nat) (name : string) :
  ss !! fd = Some (Stream name "r"
                     (("" +:+ "Hello, RAII!" +:+ nl) +:+ "This is a test." +:+ nl)) ->
  RaiiDemo.read_all (S (S (S fuel)))
    {| RaiiDemo.file_ := Some fd; RaiiDemo.filename_ := name |}
    (World fs ss co ce)
  = (Ret tt,
     World fs (<[fd := Stream name "r" ""]> ss)
       ((((co ++ ["Read: "]) ++ ["Hello, RAII!" +:+ nl]) ++ ["Read: "])
          ++ ["This is a test." +:+ nl]) ce).
Proof.
  intros Hfd.
  erewrite read_all_line;
    [ | eapply read_line_some;
          [exact Hfd | vm_compute; discriminate | vm_compute; reflexivity]
      | vm_compute; discriminate ].
  cbn [files streams cout cerr].
  erewrite read_all_line;
    [ | eapply read_line_some;
          [apply lookup_insert_eq | vm_compute; discriminate
          | vm_compute; reflexivity]
      | vm_compute; discriminate ].
  cbn [files streams cout cerr].
  erewrite read_all_eof; [|eapply read_line_eof; apply lookup_insert_eq].
  rewrite !insert_insert_eq. reflexivity.
Qed.

Lemma write_block_granted (fs : gmap string string) (ss : gmap nat stream)
    (co ce : list string) :
  may_open (World fs ss co ce) "raii_test.txt" "w" = true ->
  try_catch
    (io_do file <- RaiiDemo.FileHandle_ctor may_open "raii_test.txt" "w";
     at_scope_exit
       (RaiiDemo.write file ("Hello, RAII!" +:+ nl) ;;
        RaiiDemo.write file ("This is a test." +:+ nl))
       (RaiiDemo.FileHandle_dtor file))
    (fun e => print_err "Error: " ;; print_err (what e) ;; print_err nl)
    (World fs ss co ce)
  = (Ret tt,
     World (<["raii_test.txt" :=
              ("" +:+ "Hello, RAII!" +:+ nl) +:+ "This is a test." +:+ nl]> fs)
       ss
       ((co ++ ["[FileHandle] 打开文件: " +:+ "raii_test.txt" +:+ nl])
           ++ ["[FileHandle] 关闭文件: " +:+ "raii_test.txt" +:+ nl]) ce).
Proof.
  intros Hopen.
  pose proof (fresh_stream (World fs ss co ce)) as Hfresh. cbn [streams] in Hfresh.
  io_step. rewrite Hopen.
  destruct (decide ("w" = "w")) as [_|Hne]; [|done].
  io_step. rewrite lookup_insert_eq. io_step.
  destruct (decide ("w" = "w")) as [_|Hne]; [|done].
  io_step. rewrite lookup_insert_eq. io_step.
  destruct (decide ("w" = "w")) as [_|Hne]; [|done].
  io_step.
  rewrite !alter_insert_eq, delete_insert_id by exact Hfresh. reflexivity.
Qed.

Lemma read_block_granted (fuel : nat) (fs : gmap string string)
    (ss : gmap nat stream) (co ce : list string) :
  may_open (World fs ss co ce) "raii_test.txt" "r" = true ->
  fs !! "raii_test.txt"
    = Some (("" +:+ "Hello, RAII!" +:+ nl) +:+ "This is a test." +:+ nl) ->
  try_catch
    (io_do file <- RaiiDemo.FileHandle_ctor may_open "raii_test.txt" "r";
     at_scope_exit (RaiiDemo.read_all (S (S (S fuel))) file)
       (RaiiDemo.FileHandle_dtor file))
    (fun e => print_err "Error: " ;; print_err (what e) ;; print_err nl)
    (World fs ss co ce)
  = (Ret tt,
     World fs ss
       ((((((co ++ ["[FileHandle] 打开文件: " +:+ "raii_test.txt" +:+ nl])
             ++ ["Read: "]) ++ ["Hello, RAII!" +:+ nl]) ++ ["Read: "])
          ++ ["This is a test." +:+ nl])
          ++ ["[FileHandle] 关闭文件: " +:+ "raii_test.txt" +:+ nl]) ce).
Proof.
  intros Hopen Hfile.
  pose proof (fresh_stream (World fs ss co ce)) as Hfresh. cbn [streams] in Hfresh.
  unfold try_catch, io_bind at 1, RaiiDemo.FileHandle_ctor, io_bind at 1,
    RaiiDemo.fopen.
  rewrite Hopen. cbn [files streams cout cerr].
  destruct (decide ("r" = "w")) as [|_]; [done|].
  destruct (decide ("r" = "r")) as [_|]; [|done].
  rewrite Hfile.
  unfold io_bind, print, io_ret, at_scope_exit. cbn [files streams cout cerr].
  rewrite read_all_two_lines by apply lookup_insert_eq.
  unfold RaiiDemo.FileHandle_dtor, RaiiDemo.fclose. 
  cbn [RaiiDemo.file_ RaiiDemo.filename_ files streams cout cerr snd].
  unfold io_bind, print. cbn [files streams cout cerr snd].
  rewrite insert_insert_eq, delete_insert_id by exact Hfresh. reflexivity.
Qed.

Lemma demo_file_handle_granted (w : world) (fuel : nat) :
  (forall w0 mode, may_open w0 "raii_test.txt" mode = true) ->
  (3 <= fuel)%nat ->
  exists w',
    RaiiDemo.demo_file_handle may_open fuel w = (Ret tt, w') /\
    files w' = <["raii_test.txt" := "Hello, RAII!" +:+ nl +:+ "This is a test." +:+ nl]>
                 (files w) /\
    streams w' = streams w /\
    cout w' = cout w ++
      [nl +:+ "=== RAII 文件包装器 ===" +:+ nl;
       "[FileHandle] 打开文件: raii_test.txt" +:+ nl;
       "[FileHandle] 关闭文件: raii_test.txt" +:+ nl;
       "[FileHandle] 打开文件: raii_test.txt" +:+ nl;
       "Read: "; "Hello, RAII!" +:+ nl;
       "Read: "; "This is a test." +:+ nl;
       "[FileHandle] 关闭文件: raii_test.txt" +:+ nl;
       "文件已自动关闭" +:+ nl].
Proof.
  intros Hgrant Hfuel.
  destruct fuel as [|[|[|fuel]]]; [lia | lia | lia |].
  destruct w as [fs ss co ce]. cbn [files streams cout].
  unfold RaiiDemo.demo_file_handle.
  unfold io_bind at 1, print at 1. cbn [files streams cout cerr].
  unfold io_bind at 1. rewrite write_block_granted by apply Hgrant.
  unfold io_bind at 1.
  rewrite read_block_granted by (try apply Hgrant; apply lookup_insert_eq).
  eexists. split; [reflexivity|]. cbn [files streams cout].
  split; [reflexivity|]. split; [reflexivity|].
  rewrite <- !app_assoc. reflexivity.
Qed.
End RaiiProofs.

Lemma io_bind_Ret {A B} (m : io A) (k : A -> io B) (w : world) (a : A)
    (w1 : world) :
  m w = (Ret a, w1) -> io_bind m k w = k a w1.
Proof. intros E. unfold io_bind. rewrite E. reflexivity. Qed.

Lemma tidy_same_but {A} (m : io A) (w : world) :
  tidy m -> exists a w', m w = (Ret a, w') /\ same_but w w'.
Proof.
  intros Hm. destruct (Hm w) as (a & w' & E & Hs & Hf).
  exists a, w'. split; [exact E|]. split; [exact Hs | intros; by rewrite Hf].
Qed.

(** Claim C8: [raii_test.txt], the only file the program touches, is
    written and read during [demo_file_handle] and deleted before
    [main] returns.  Whatever the system answers to the two [fopen]
    calls, a run of [main] with enough budget for the read loop returns
    0 in a world without [raii_test.txt], in which every other file is
    as it was before and no stream is left open; and when the system
    grants both calls, [demo_file_handle] leaves the two lines it wrote
    in the file and prints them as read. *)
Theorem raii_test_file_removed
    (may_open : world -> string -> string -> bool)
    (elapsed_loop elapsed_sleep : Z) (w : world) :
  (exists fuel0 : nat, forall fuel : nat, (fuel0 <= fuel)%nat ->
   exists w' : world,
     RaiiDemo.main may_open elapsed_loop elapsed_sleep fuel w = (Ret 0, w') /\
     files w' !! "raii_test.txt" = None /\
     (forall name : string, name <> "raii_test.txt" ->
        files w' !! name = files w !! name) /\
     streams w' = streams w) /\
  ((forall w0 mode, may_open w0 "raii_test.txt" mode = true) ->
   forall fuel : nat, (3 <= fuel)%nat ->
   exists w' : world,
     RaiiDemo.demo_file_handle may_open fuel w = (Ret tt, w') /\
     files w' = <["raii_test.txt" :=
                  "Hello, RAII!" +:+ nl +:+ "This is a test." +:+ nl]> (files w) /\
     streams w' = streams w /\
     cout w' = cout w ++
       [nl +:+ "=== RAII 文件包装器 ===" +:+ nl;
        "[FileHandle] 打开文件: raii_test.txt" +:+ nl;
        "[FileHandle] 关闭文件: raii_test.txt" +:+ nl;
        "[FileHandle] 打开文件: raii_test.txt" +:+ nl;
        "Read: "; "Hello, RAII!" +:+ nl;
        "Read: "; "This is a test." +:+ nl;
        "[FileHandle] 关闭文件: raii_test.txt" +:+ nl;
        "文件已自动关闭" +:+ nl]).
Proof.
  split; [|intros Hgrant fuel Hfuel; by apply demo_file_handle_granted].
  unfold RaiiDemo.main.
  destruct (tidy_print ("========================================" +:+ nl) w)
    as ([] & w1 & E1 & Hs1 & Hf1).
  destruct (tidy_print ("      RAII 与资源管理示例" +:+ nl) w1)
    as ([] & w2 & E2 & Hs2 & Hf2).
  destruct (tidy_print ("========================================" +:+ nl) w2)
    as ([] & w3 & E3 & Hs3 & Hf3).
  destruct (demo_file_handle_effect may_open w3) as (fuel0 & Hdemo).
  exists fuel0. intros fuel Hfuel.
  destruct (Hdemo fuel Hfuel) as (w4 & E4 & Hs4 & Hf4).
  destruct (tidy_demo_scope_guard w4) as ([] & w5 & E5 & Hs5 & Hf5).
  destruct (tidy_demo_timer elapsed_loop elapsed_sleep w5)
    as ([] & w6 & E6 & Hs6 & Hf6).
  destruct (tidy_demo_smart_pointers w6) as ([] & w7 & E7 & Hs7 & Hf7).
  destruct (tidy_demo_exception_safety w7) as ([] & w8 & E8 & Hs8 & Hf8).
  assert (tidy (print (nl +:+ "========================================" +:+ nl) ;;
                print ("            示例结束" +:+ nl) ;;
                print ("========================================" +:+ nl) ;;
                io_ret 0)) as Hend.
  { repeat (apply tidy_bind; [apply tidy_print | intros _]). apply tidy_ret. }
  destruct (Hend (World (delete "raii_test.txt" (files w8)) (streams w8)
                    (cout w8) (cerr w8)))
    as (r & w9 & E9 & Hs9 & Hf9).
  assert (r = 0) as ->.
  { revert E9. unfold io_bind, print, io_ret. intros [= <- _]. reflexivity. }
  exists w9. split.
  - rewrite (io_bind_Ret _ _ _ _ _ E1), (io_bind_Ret _ _ _ _ _ E2),
      (io_bind_Ret _ _ _ _ _ E3), (io_bind_Ret _ _ _ _ _ E4),
      (io_bind_Ret _ _ _ _ _ E5), (io_bind_Ret _ _ _ _ _ E6),
      (io_bind_Ret _ _ _ _ _ E7), (io_bind_Ret _ _ _ _ _ E8).
    rewrite (io_bind_Ret (RaiiDemo.remove "raii_test.txt") _ w8
               (match files w8 !! "raii_test.txt" with Some _ => 0 | None => -1 end)
               _ eq_refl).
    exact E9.
  - cbn [files streams] in Hs9, Hf9. rewrite Hf9.
    split; [apply lookup_delete_eq|]. split.
    + intros name Hne. rewrite lookup_delete_ne by done.
      rewrite Hf8, Hf7, Hf6, Hf5, Hf4, Hf3, Hf2, Hf1 by exact Hne. reflexivity.
    + congruence.
Qed.

Lemma raii_test_file_removed_witness :
  exists w' : world,
    RaiiDemo.demo_file_handle (fun _ _ _ => true) 3 (World ∅ ∅ [] []) = (Ret tt, w') /\
    files w' = <["raii_test.txt" :=
                 "Hello, RAII!" +:+ nl +:+ "This is a test." +:+ nl]> ∅ /\
    streams w' = ∅.
Proof.
  destruct (proj2 (raii_test_file_removed (fun _ _ _ => true) 0 0 (World ∅ ∅ [] []))
              (fun _ _ => eq_refl) 3%nat (le_n 3))
    as (w' & E & Hf & Hs & _).
  exists w'. split; [exact E|]. split; [exact Hf | exact Hs].
Defined.

(** ** sort_search_demo.cpp: quick sort *)

Lemma rearranged_refl low high a : rearranged low high a a.
Proof. split; [done|]. split; [done|]. split; [done|]. intros P HP. exact HP. Qed.

Lemma rearranged_trans low high a b c :
  rearranged low high a b -> rearranged low high b c -> rearranged low high a c.
Proof.
  intros (L1 & P1 & F1 & K1) (L2 & P2 & F2 & K2).
  split; [congruence|]. split; [by rewrite P2|]. split.
  - intros k Hk. rewrite F2, F1 by exact Hk. reflexivity.
  - intros P HP. apply K2, K1, HP.
Qed.

Lemma rearranged_widen low high low' high' a b :
  low <= low' -> high' <= high ->
  rearranged low' high' a b -> rearranged low high a b.
Proof.
  intros Hl Hh (L & Pm & F & K).
  split; [exact L|]. split; [exact Pm|]. split.
  - intros k Hk. apply F. lia.
  - intros P HP k x Hk Hx.
    destruct (decide (low' <= Z.of_nat k <= high')) as [Hin|Hout].
    + apply (K P) with k; [|exact Hin|exact Hx].
      intros k0 x0 Hk0. apply HP. lia.
    + rewrite (F k Hout) in Hx. exact (HP k x Hk Hx).
Qed.

Lemma swap_rearranged (low high : Z) (a : list Z) (i j : Z) (x y : Z) :
  low <= i <= high -> low <= j <= high -> 0 <= i -> 0 <= j ->
  a !! Z.to_nat i = Some x -> a !! Z.to_nat j = Some y ->
  exists a',
    SortSearchDemo.swap a i j = Ret a' /\
    rearranged low high a a' /\
    a' !! Z.to_nat i = Some y /\
    a' !! Z.to_nat j = Some x /\
    (forall k : nat, k <> Z.to_nat i -> k <> Z.to_nat j -> a' !! k = a !! k).
Proof.
  intros Hi Hj Hi0 Hj0 Ex Ey.
  pose proof (lookup_lt_Some _ _ _ Ex) as Hli.
  pose proof (lookup_lt_Some _ _ _ Ey) as Hlj.
  unfold SortSearchDemo.swap.
  rewrite (at_lookup a i x Hi0 Ex), (at_lookup a j y Hj0 Ey). cbn [bind].
  rewrite set_at_Ret by lia. cbn [bind].
  rewrite set_at_Ret by (rewrite length_insert; lia).
  eexists. split; [reflexivity|].
  assert (forall k : nat, k <> Z.to_nat i -> k <> Z.to_nat j ->
            <[Z.to_nat j := x]> (<[Z.to_nat i := y]> a) !! k = a !! k) as Hother.
  { intros k Hki Hkj. rewrite !list_lookup_insert_ne by done. reflexivity. }
  assert (<[Z.to_nat j := x]> (<[Z.to_nat i := y]> a) !! Z.to_nat j = Some x) as Hnj.
  { apply list_lookup_insert_eq. rewrite length_insert. lia. }
  assert (<[Z.to_nat j := x]> (<[Z.to_nat i := y]> a) !! Z.to_nat i = Some y) as Hni.
  { destruct (decide (Z.to_nat i = Z.to_nat j)) as [E|Hne].
    - rewrite E in *. rewrite Hnj. congruence.
    - rewrite list_lookup_insert_ne by done. apply list_lookup_insert_eq. lia. }
  split; [|done].
  split; [by rewrite !length_insert|].
  split; [by apply Permutation_insert_swap|].
  split.
  - intros k Hk. apply Hother; lia.
  - intros P HP k z Hk Hz.
    destruct (decide (k = Z.to_nat i)) as [->|Hki].
    { rewrite Hni in Hz. injection Hz as <-. apply (HP (Z.to_nat j)); [lia|done]. }
    destruct (decide (k = Z.to_nat j)) as [->|Hkj].
    { rewrite Hnj in Hz. injection Hz as <-. apply (HP (Z.to_nat i)); [lia|done]. }
    rewrite Hother in Hz by done. exact (HP k z Hk Hz).
Qed.

Section Partition.
Variables (a : list Z) (low high pivot : Z).
Hypothesis bounds : 0 <= low <= high /\ high < Z.of_nat (length a).
Hypothesis small : Z.of_nat (length a) <= INT_MAX.
Hypothesis pivot_at : a !! Z.to_nat high = Some pivot.

Local Abbreviation partition_inv := (Inv.partition_inv a low high pivot).

Lemma partition_step (j : Z) (s : list Z * Z) :
  low <= j < high -> partition_inv j s ->
  exists s',
    (let '(arr, i) := s in
     do x <- at_ arr j;
     if decide (x < pivot) then
       let i := int (i + 1) in
       do arr <- SortSearchDemo.swap arr i j;
       Ret (arr, i)
     else Ret (arr, i)) = Ret s' /\
    partition_inv (j + 1) s'.
Proof.
  intros Hj. destruct s as [b i]. intros (Hre & Hi & Hpiv & Hlt & Hge).
  cbn [fst snd] in *.
  pose proof Hre as (Hlen & _).
  destruct (lookup_lt_is_Some_2 b (Z.to_nat j) ltac:(lia)) as [x Ex].
  rewrite (at_lookup b j x ltac:(lia) Ex). cbn [bind].
  destruct (decide (x < pivot)) as [Hx|Hx].
  - rewrite int_id by (unfold INT_MIN, INT_MAX in *; lia).
    destruct (lookup_lt_is_Some_2 b (Z.to_nat (i + 1)) ltac:(lia)) as [y Ey].
    destruct (swap_rearranged low high b (i + 1) j y x
                ltac:(lia) ltac:(lia) ltac:(lia) ltac:(lia) Ey Ex)
      as (b' & Eswap & Hre' & Hbi & Hbj & Hother).
    rewrite Eswap. cbn [bind]. eexists. split; [reflexivity|].
    split; [exact (rearranged_trans _ _ _ _ _ Hre Hre')|].
    cbn [fst snd]. split; [lia|]. split; [rewrite Hother by lia; exact Hpiv|].
    split.
    + intros k z Hk Hz.
      destruct (decide (k = Z.to_nat (i + 1))) as [->|Hne].
      * rewrite Hbi in Hz. injection Hz as <-. exact Hx.
      * rewrite Hother in Hz by lia. apply (Hlt k z); [lia|exact Hz].
    + intros k z Hk Hz.
      destruct (decide (k = Z.to_nat j)) as [->|Hne].
      * rewrite Hbj in Hz. injection Hz as <-.
        apply (Hge (Z.to_nat (i + 1)) y); [lia|exact Ey].
      * rewrite Hother in Hz by lia. apply (Hge k z); [lia|exact Hz].
  - eexists. split; [reflexivity|].
    split; [exact Hre|]. cbn [fst snd]. split; [lia|]. split; [exact Hpiv|].
    split; [exact Hlt|].
    intros k z Hk Hz. destruct (decide (k = Z.to_nat j)) as [->|Hne].
    + rewrite Ex in Hz. injection Hz as <-. lia.
    + apply (Hge k z); [lia|exact Hz].
Qed.

Lemma partition_spec :
  exists (a' : list Z) (p : Z),
    SortSearchDemo.partition a low high = Ret (a', p) /\
    low <= p <= high /\
    rearranged low high a a' /\
    a' !! Z.to_nat p = Some pivot /\
    (forall (k : nat) (x : Z), low <= Z.of_nat k < p -> a' !! k = Some x -> x < pivot) /\
    (forall (k : nat) (x : Z), p < Z.of_nat k <= high -> a' !! k = Some x -> pivot <= x).
Proof.
  unfold SortSearchDemo.partition.
  rewrite (at_lookup a high pivot ltac:(lia) pivot_at). cbn [bind].
  rewrite int_id by (unfold INT_MIN, INT_MAX in *; lia).
  match goal with |- context [for_lt_M low high ?body ?s] =>
    destruct (for_lt_M_inv partition_inv body low high s)
      as ([b i] & E & Hre & Hi & Hpiv & Hlt & Hge) end.
  - lia.
  - split; [apply rearranged_refl|]. cbn [fst snd].
    split; [lia|]. split; [exact pivot_at|]. split; intros k x Hk; lia.
  - intros j s Hj Hinv. apply (partition_step j s Hj Hinv).
  - cbn [fst snd] in *. rewrite E. cbn [bind].
    rewrite int_id by (unfold INT_MIN, INT_MAX in *; lia).
    pose proof Hre as (Hlen & _).
    destruct (lookup_lt_is_Some_2 b (Z.to_nat (i + 1)) ltac:(lia)) as [y Ey].
    destruct (swap_rearranged low high b (i + 1) high y pivot
                ltac:(lia) ltac:(lia) ltac:(lia) ltac:(lia) Ey Hpiv)
      as (b' & Eswap & Hre' & Hbi & Hbh & Hother).
    rewrite Eswap. cbn [bind]. exists b', (i + 1).
    split; [reflexivity|]. split; [lia|].
    split; [exact (rearranged_trans _ _ _ _ _ Hre Hre')|].
    split; [exact Hbi|]. split.
    + intros k z Hk Hz. rewrite Hother in Hz by lia.
      apply (Hlt k z); [lia|exact Hz].
    + intros k z Hk Hz. destruct (decide (k = Z.to_nat high)) as [->|Hne].
      * rewrite Hbh in Hz. injection Hz as <-.
        apply (Hge (Z.to_nat (i + 1)) y); [lia|exact Ey].
      * rewrite Hother in Hz by lia. apply (Hge k z); [lia|exact Hz].
Qed.
End Partition.

Lemma quick_sort_impl_spec (fuel : nat) :
  forall (a : list Z) (low high : Z),
    0 <= low -> high < Z.of_nat (length a) -> low <= high + 1 ->
    Z.of_nat (length a) <= INT_MAX ->
    high - low <= Z.of_nat fuel ->
    exists a',
      SortSearchDemo.quick_sort_impl fuel a low high = Ret a' /\
      rearranged low high a a' /\
      sorted_between low high a'.
Proof.
  induction fuel as [|fuel IH]; intros a low high Hlow Hhigh Hle Hsmall Hfuel;
    cbn [SortSearchDemo.quick_sort_impl].
  - destruct (decide (low < high)) as [Hlt|Hge]; [lia|].
    exists a. split; [reflexivity|]. split; [apply rearranged_refl|].
    intros k1 k2 x1 x2 H1 H12 H2 E1 E2.
    assert (k1 = k2) as -> by lia. assert (x1 = x2) by congruence. lia.
  - destruct (decide (low < high)) as [Hlt|Hge].
    2: { exists a. split; [reflexivity|]. split; [apply rearranged_refl|].
         intros k1 k2 x1 x2 H1 H12 H2 E1 E2.
         assert (k1 = k2) as -> by lia. assert (x1 = x2) by congruence. lia. }
    destruct (lookup_lt_is_Some_2 a (Z.to_nat high) ltac:(lia)) as [pivot Epiv].
    destruct (partition_spec a low high pivot ltac:(lia) Hsmall Epiv)
      as (a1 & p & Epart & Hp & Hre1 & Hap & Hlt1 & Hge1).
    rewrite Epart. cbn [bind].
    pose proof Hre1 as (Hlen1 & _).
    rewrite int_id by (unfold INT_MIN, INT_MAX in *; lia).
    destruct (IH a1 low (p - 1)) as (a2 & E2 & Hre2 & Hs2); try lia.
    rewrite E2. cbn [bind].
    pose proof Hre2 as (Hlen2 & _ & Hframe2 & Hkeep2).
    rewrite int_id by (unfold INT_MIN, INT_MAX in *; lia).
    destruct (IH a2 (p + 1) high) as (a3 & E3 & Hre3 & Hs3); try lia.
    rewrite E3.
    pose proof Hre3 as (Hlen3 & _ & Hframe3 & Hkeep3).
    exists a3. split; [reflexivity|]. split.
    { apply (rearranged_trans _ _ _ a1); [exact Hre1|].
      apply (rearranged_trans _ _ _ a2).
      - apply (rearranged_widen low high low (p - 1)); [lia | lia | exact Hre2].
      - apply (rearranged_widen low high (p + 1) high); [lia | lia | exact Hre3]. }
    (* the three parts of the final vector *)
    assert (a3 !! Z.to_nat p = Some pivot) as Hpivot3.
    { rewrite Hframe3, Hframe2 by lia. exact Hap. }
    assert (forall (k : nat) (x : Z), low <= Z.of_nat k < p ->
              a3 !! k = Some x -> x < pivot) as Hleft.
    { intros k x Hk Hx. rewrite Hframe3 in Hx by lia.
      apply (Hkeep2 (fun x => x < pivot)) with k; [|lia|exact Hx].
      intros k0 x0 Hk0. apply Hlt1. lia. }
    assert (forall (k : nat) (x : Z), p < Z.of_nat k <= high ->
              a3 !! k = Some x -> pivot <= x) as Hright.
    { intros k x Hk Hx.
      apply (Hkeep3 (fun x => pivot <= x)) with k; [|lia|exact Hx].
      intros k0 x0 Hk0 Hx0. rewrite Hframe2 in Hx0 by lia.
      apply (Hge1 k0 x0); [lia|exact Hx0]. }
    intros k1 k2 x1 x2 H1 H12 H2 E1 E2'.
    destruct (Z.lt_trichotomy (Z.of_nat k1) p) as [Hk1|[Hk1|Hk1]];
      destruct (Z.lt_trichotomy (Z.of_nat k2) p) as [Hk2|[Hk2|Hk2]]; try lia.
    + apply (Hs2 k1 k2); try lia; rewrite <- Hframe3 by lia; assumption.
    + replace k2 with (Z.to_nat p) in E2' by lia.
      assert (x2 = pivot) by congruence.
      pose proof (Hleft k1 x1 ltac:(lia) E1). lia.
    + pose proof (Hleft k1 x1 ltac:(lia) E1).
      pose proof (Hright k2 x2 ltac:(lia) E2'). lia.
    + assert (k1 = k2) as -> by lia. assert (x1 = x2) by congruence. lia.
    + replace k1 with (Z.to_nat p) in E1 by lia.
      assert (x1 = pivot) by congruence.
      pose proof (Hright k2 x2 ltac:(lia) E2'). lia.
    + apply (Hs3 k1 k2); try lia; assumption.
Qed.

Lemma sorted_between_Sorted (a : list Z) :
  sorted_between 0 (Z.of_nat (length a) - 1) a -> Sorted Z.le a.
Proof.
  intros Hs. apply StronglySorted_Sorted.
  induction a as [|x a IH]; [constructor|].
  constructor.
  - apply IH. intros k1 k2 x1 x2 H1 H12 H2 E1 E2.
    apply (Hs (S k1) (S k2)); cbn [length] in *; try lia; assumption.
  - apply Forall_forall. intros y Hy.
    apply list_elem_of_lookup in Hy. destruct Hy as [k Hk].
    pose proof (lookup_lt_Some _ _ _ Hk).
    apply (Hs 0%nat (S k)); cbn [length]; try lia; [reflexivity | exact Hk].
Qed.

(** Claim C1, as amended: for every vector [v] of at most [INT_MAX]
    elements, [quick_sort(v)] leaves in [v] the same multiset of
    elements, in non-decreasing order; [quick_sort] of the empty vector
    leaves it empty.  The recursion is never deeper than the vector is
    long, which is the budget the model is given. *)
Theorem quick_sort_sorts (v : list Z) (fuel : nat) :
  size v <= INT_MAX -> (length v <= fuel)%nat ->
  (exists v' : list Z,
     SortSearchDemo.quick_sort fuel v = Ret v' /\
     v' ≡ₚ v /\ Sorted Z.le v') /\
  SortSearchDemo.quick_sort fuel [] = Ret [].
Proof.
  intros Hsmall Hfuel. split; [|reflexivity].
  unfold SortSearchDemo.quick_sort, size in *.
  destruct (decide (v = [])) as [->|Hne].
  { exists []. split; [reflexivity|]. split; [done|constructor]. }
  assert (0 < Z.of_nat (length v)) as Hpos.
  { destruct v; [done|cbn [length]; lia]. }
  assert (size_t (Z.of_nat (length v) - 1) = Z.of_nat (length v) - 1) as ->.
  { unfold size_t. apply Z.mod_small. unfold INT_MAX in *. lia. }
  rewrite int_id by (unfold INT_MIN, INT_MAX in *; lia).
  destruct (quick_sort_impl_spec fuel v 0 (Z.of_nat (length v) - 1))
    as (v' & E & (Hlen & Hperm & _) & Hsorted); try lia.
  exists v'. split; [exact E|]. split; [exact Hperm|].
  apply sorted_between_Sorted. rewrite Hlen. exact Hsorted.
Qed.

Lemma quick_sort_sorts_witness :
  exists v' : list Z,
    SortSearchDemo.quick_sort 7 [64; 34; 25; 12; 22; 11; 90] = Ret v' /\
    v' ≡ₚ [64; 34; 25; 12; 22; 11; 90] /\ Sorted Z.le v'.
Proof.
  refine (proj1 (quick_sort_sorts [64; 34; 25; 12; 22; 11; 90] 7 _ _)).
  - unfold size, INT_MAX. cbn [length]. lia.
  - cbn [length]. lia.
Defined.

(** Claim C1 as stated fails on a vector of 2^31 + 1 elements, here
    2^31 ones followed by a zero: [arr.size() - 1] is 2^31, which the
    [int] parameter [high] receives as -2^31, so that [low < high] is
    false at once and the vector is returned as it came, unsorted. *)
Lemma quick_sort_beyond_int :
  (forall fuel : nat,
     SortSearchDemo.quick_sort fuel (replicate (Z.to_nat 2147483648) 1 ++ [0])
     = Ret (replicate (Z.to_nat 2147483648) 1 ++ [0])) /\
  ~ Sorted Z.le (replicate (Z.to_nat 2147483648) 1 ++ [0]).
Proof.
  assert (exists n : nat, Z.to_nat 2147483648 = S n) as [n En].
  { exists (Z.to_nat 2147483647). rewrite <- Z2Nat.inj_succ by lia. reflexivity. }
  split.
  - intros fuel. unfold SortSearchDemo.quick_sort.
    destruct (decide (replicate (Z.to_nat 2147483648) 1 ++ [0] = [])) as [E|_].
    { rewrite En in E. discriminate E. }
    assert (size (replicate (Z.to_nat 2147483648) 1 ++ [0]) - 1 = 2147483648) as ->.
    { unfold size. rewrite length_app, length_replicate. cbn [length]. lia. }
    replace (int (size_t 2147483648)) with (-2147483648)
      by (vm_compute; reflexivity).
    destruct fuel; cbn [SortSearchDemo.quick_sort_impl];
      destruct (decide (0 < -2147483648)); (lia || reflexivity).
  - intros Hsorted. apply Sorted_StronglySorted in Hsorted; [|apply _].
    rewrite En in Hsorted. cbn [replicate app] in Hsorted.
    apply StronglySorted_cons in Hsorted. destruct Hsorted as [Hall _].
    apply Forall_app in Hall. destruct Hall as [_ Hlast].
    apply Forall_inv in Hlast. lia.
Qed.

(** ** dp_demo.cpp: longest increasing subsequence *)

(** Strictly increasing lists, by positions. *)
Lemma increasing_lookup (t : list Z) :
  StronglySorted Z.lt t <->
  forall (j k : nat) (a b : Z),
    (j < k)%nat -> t !! j = Some a -> t !! k = Some b -> a < b.
Proof.
  split.
  - induction 1 as [|x t Hsorted IH Hall]; intros j k a b Hjk Ej Ek.
    + rewrite lookup_nil in Ej. discriminate.
    + destruct k as [|k]; [lia|]. cbn in Ek.
      destruct j as [|j]; cbn in Ej.
      * injection Ej as <-. rewrite Forall_forall in Hall.
        apply Hall. apply list_elem_of_lookup. eauto.
      * apply (IH j k); [lia | exact Ej | exact Ek].
  - induction t as [|x t IH]; intros Hlt; [constructor|].
    constructor.
    + apply IH. intros j k a b Hjk Ej Ek. apply (Hlt (S j) (S k)); [lia|done|done].
    + apply Forall_forall. intros y Hy. apply list_elem_of_lookup in Hy.
      destruct Hy as [k Ek]. apply (Hlt 0%nat (S k)); [lia|done|done].
Qed.

Lemma increasing_snoc (s : list Z) (x : Z) :
  StronglySorted Z.lt (s ++ [x]) <->
  StronglySorted Z.lt s /\ forall z, z ∈ s -> z < x.
Proof.
  rewrite StronglySorted_app. split.
  - intros (Hlt & Hs & _). split; [exact Hs|].
    intros z Hz. apply Hlt; [exact Hz|]. apply list_elem_of_singleton. reflexivity.
  - intros (Hs & Hlt). split; [|split; [exact Hs|]].
    + intros z1 z2 Hz1 Hz2. apply list_elem_of_singleton in Hz2. subst z2. by apply Hlt.
    + repeat constructor.
Qed.

Lemma sublist_snoc_split (s p : list Z) (y x : Z) :
  (s ++ [y]) `sublist_of` (p ++ [x]) ->
  (s ++ [y]) `sublist_of` p \/ (y = x /\ s `sublist_of` p).
Proof.
  intros Hsub. apply sublist_app_r in Hsub.
  destruct Hsub as (k1 & k2 & E & H1 & H2).
  apply sublist_cons_r in H2. destruct H2 as [H2|(k2' & -> & H2)].
  - apply sublist_nil_r in H2. subst k2. rewrite app_nil_r in E. subst k1. by left.
  - apply sublist_nil_r in H2. subst k2'.
    apply app_inj_tail in E. destruct E as [-> ->]. by right.
Qed.

Lemma lower_bound_spec (t : list Z) (x : Z) :
  (DpDemo.lower_bound t x <= length t)%nat /\
  (forall (j : nat) (y : Z),
     (j < DpDemo.lower_bound t x)%nat -> t !! j = Some y -> y < x) /\
  (forall y : Z, t !! DpDemo.lower_bound t x = Some y -> x <= y).
Proof.
  induction t as [|z t (IH1 & IH2 & IH3)]; cbn [DpDemo.lower_bound length].
  - split; [lia|]. split; [intros j y Hj; lia|]. intros y Ey. discriminate.
  - destruct (decide (z < x)) as [Hz|Hz].
    + split; [lia|]. split.
      * intros [|j] y Hj Ey; cbn in Ey; [congruence|]. apply (IH2 j); [lia|exact Ey].
      * intros y Ey. cbn in Ey. by apply IH3.
    + split; [lia|]. split; [intros j y Hj; lia|].
      intros y Ey. cbn in Ey. injection Ey as <-. lia.
Qed.

Lemma tails_step_lookup (x : Z) (t : list Z) :
  let it := DpDemo.lower_bound t x in
  tails_step x t !! it = Some x /\
  (forall k : nat, k <> it -> tails_step x t !! k = t !! k) /\
  (it <= length t)%nat.
Proof.
  intros it. unfold tails_step. fold it.
  destruct (lower_bound_spec t x) as (Hle & _). fold it in Hle.
  destruct (decide (it = length t)) as [E|Hne].
  - split; [rewrite E; apply list_lookup_middle; reflexivity|].
    split; [|exact Hle]. intros k Hk.
    destruct (decide (k < length t)%nat).
    + apply lookup_app_l. lia.
    + rewrite lookup_ge_None_2 by (rewrite length_app; cbn; lia).
      symmetry. apply lookup_ge_None_2. lia.
  - split; [apply list_lookup_insert_eq; lia|]. split; [|exact Hle].
    intros k Hk. apply list_lookup_insert_ne. lia.
Qed.

Lemma tails_inv_step (p t : list Z) (x : Z) :
  tails_inv p t -> tails_inv (p ++ [x]) (tails_step x t).
Proof.
  intros (Hsorted & Hwit & Hmin).
  pose proof (proj1 (increasing_lookup t) Hsorted) as Hlt.
  destruct (lower_bound_spec t x) as (Hle & Hbefore & Hat).
  destruct (tails_step_lookup x t) as (Enew & Eold & _).
  set (it := DpDemo.lower_bound t x) in *.
  (* every entry from [it] on is at least [x] *)
  assert (forall (k : nat) (y : Z), (it <= k)%nat -> t !! k = Some y -> x <= y)
    as Hafter.
  { intros k y Hk Ey. destruct (decide (k = it)) as [->|Hne]; [by apply Hat|].
    destruct (lookup_lt_is_Some_2 t it) as [z Ez].
    { apply lookup_lt_Some in Ey. lia. }
    specialize (Hat z Ez). specialize (Hlt it k z y ltac:(lia) Ez Ey). lia. }
  split; [|split].
  - apply increasing_lookup. intros j k a b Hjk Ej Ek.
    destruct (decide (j = it)) as [->|Hj]; destruct (decide (k = it)) as [->|Hk];
      try lia.
    + rewrite Enew in Ej. injection Ej as <-. rewrite Eold in Ek by done.
      destruct (lookup_lt_is_Some_2 t it) as [z Ez].
      { apply lookup_lt_Some in Ek. lia. }
      specialize (Hat z Ez). specialize (Hlt it k z b ltac:(lia) Ez Ek). lia.
    + rewrite Enew in Ek. injection Ek as <-. rewrite Eold in Ej by done.
      apply (Hbefore j a); [lia | exact Ej].
    + rewrite Eold in Ej, Ek by done. exact (Hlt j k a b Hjk Ej Ek).
  - intros k y Ey. destruct (decide (k = it)) as [->|Hk].
    + rewrite Enew in Ey. injection Ey as <-.
      destruct it as [|it'] eqn:Eit.
      * exists []. split; [|split; [|reflexivity]].
        -- apply sublist_inserts_l. reflexivity.
        -- repeat constructor.
      * destruct (lookup_lt_is_Some_2 t it' ltac:(lia)) as [z Ez].
        destruct (Hwit it' z Ez) as (s & Hsub & Hinc & Hlen).
        exists (s ++ [z]). split; [|split].
        -- apply sublist_app; [exact Hsub | reflexivity].
        -- apply increasing_snoc. split; [exact Hinc|].
           intros w Hw. apply elem_of_app in Hw. destruct Hw as [Hw|Hw].
           ++ apply increasing_snoc in Hinc. destruct Hinc as [_ Hinc].
              specialize (Hinc w Hw). specialize (Hbefore it' z ltac:(lia) Ez). lia.
           ++ apply list_elem_of_singleton in Hw. subst w.
              apply (Hbefore it' z); [lia | exact Ez].
        -- rewrite length_app. cbn. lia.
    + rewrite Eold in Ey by done.
      destruct (Hwit k y Ey) as (s & Hsub & Hinc & Hlen).
      exists s. split; [by apply sublist_inserts_r|]. split; [exact Hinc|exact Hlen].
  - intros s y Hsub Hinc.
    apply sublist_snoc_split in Hsub. destruct Hsub as [Hsub|[-> Hsub]].
    + destruct (Hmin s y Hsub Hinc) as (z & Ez & Hz).
      destruct (decide (length s = it)) as [E|Hne].
      * exists x. rewrite E. split; [exact Enew|].
        rewrite E in Ez. specialize (Hat z Ez). lia.
      * exists z. rewrite Eold by done. split; [exact Ez|exact Hz].
    + (* the subsequence ends in the new element *)
      assert (length s <= it)%nat as Hpos.
      { destruct s as [|w s0 _] using rev_ind; [cbn; lia|].
        apply increasing_snoc in Hinc. destruct Hinc as [Hinc Hlast].
        destruct (Hmin s0 w Hsub Hinc) as (z & Ez & Hz).
        assert (w < x) by (apply Hlast, elem_of_app; right; by apply list_elem_of_singleton).
        rewrite length_app. cbn.
        destruct (decide (it <= length s0)%nat) as [Hge|]; [|lia].
        specialize (Hafter (length s0) z Hge Ez). lia. }
      destruct (decide (length s = it)) as [E|Hne].
      * exists x. rewrite E. split; [exact Enew|lia].
      * destruct (lookup_lt_is_Some_2 t (length s) ltac:(lia)) as [z Ez].
        exists z. rewrite Eold by done. split; [exact Ez|].
        specialize (Hbefore (length s) z ltac:(lia) Ez). lia.
Qed.

Lemma tails_inv_loop (nums : list Z) : forall (p t : list Z),
  tails_inv p t ->
  tails_inv (p ++ nums)
    (for_each nums (fun num tails =>
       let it := DpDemo.lower_bound tails num in
       if decide (it = length tails) then tails ++ [num]
       else <[it := num]> tails) t).
Proof.
  induction nums as [|x nums IH]; intros p t Hinv; cbn.
  - rewrite app_nil_r. exact Hinv.
  - replace (p ++ x :: nums) with ((p ++ [x]) ++ nums) by (by rewrite <- app_assoc).
    apply IH. apply (tails_inv_step p t x Hinv).
Qed.

Lemma tails_inv_lis (nums t : list Z) :
  tails_inv nums t -> is_lis_length nums (length t).
Proof.
  intros (Hsorted & Hwit & Hmin). split.
  - destruct t as [|y t0 _] using rev_ind.
    + exists []. split; [apply sublist_nil_l|]. split; [constructor|reflexivity].
    + destruct (Hwit (length t0) y) as (s & Hsub & Hinc & Hlen).
      { apply list_lookup_middle. reflexivity. }
      exists (s ++ [y]). split; [exact Hsub|]. split; [exact Hinc|].
      rewrite !length_app. cbn. lia.
  - intros s Hsub Hinc.
    destruct s as [|x s0 _] using rev_ind; [cbn; lia|].
    destruct (Hmin s0 x Hsub Hinc) as (y & Ey & _).
    apply lookup_lt_Some in Ey. rewrite length_app. cbn. lia.
Qed.

Lemma length_of_lis_tails (nums : list Z) :
  exists t : list Z,
    DpDemo.length_of_lis nums = int (size_t (size t)) /\
    is_lis_length nums (length t).
Proof.
  eexists. split; [reflexivity|].
  apply tails_inv_lis.
  apply (tails_inv_loop nums [] []).
  split; [constructor|]. split.
  - intros k x Ex. rewrite lookup_nil in Ex. discriminate.
  - intros s x Hsub. apply sublist_nil_r in Hsub. by destruct s.
Qed.

Lemma sublist_snoc_inv (s : list Z) (x : Z) (l : list Z) :
  (s ++ [x]) `sublist_of` l ->
  exists k : nat, l !! k = Some x /\ s `sublist_of` take k l.
Proof.
  induction l as [|y l IH] using rev_ind; intros Hsub.
  - apply sublist_nil_r in Hsub. by destruct s.
  - apply sublist_snoc_split in Hsub. destruct Hsub as [Hsub|[-> Hsub]].
    + destruct (IH Hsub) as (k & Ek & Hk).
      pose proof (lookup_lt_Some _ _ _ Ek) as Hlt.
      exists k. split; [by apply lookup_app_l_Some|].
      rewrite take_app_le by lia. exact Hk.
    + exists (length l). split; [apply list_lookup_middle; reflexivity|].
      rewrite take_app_le by lia. rewrite take_ge by lia. exact Hsub.
Qed.

Lemma is_lis_length_unique (nums : list Z) (k1 k2 : nat) :
  is_lis_length nums k1 -> is_lis_length nums k2 -> k1 = k2.
Proof.
  intros [(s1 & Hs1 & Hi1 & <-) Hmax1] [(s2 & Hs2 & Hi2 & <-) Hmax2].
  specialize (Hmax1 s2 Hs2 Hi2). specialize (Hmax2 s1 Hs1 Hi1). lia.
Qed.

Lemma best_end_pos (p : list Z) (x d : Z) : best_end p x d -> 1 <= d.
Proof. intros [(s & _ & _ & <-) _]. lia. Qed.

Lemma best_end_nil (x : Z) : best_end [] x 1.
Proof.
  split.
  - exists []. split; [reflexivity|]. split; [repeat constructor|reflexivity].
  - intros s Hs _. apply sublist_nil_r in Hs. subst s. cbn. lia.
Qed.

(** How the best length for [x] changes when one more element [y]
    becomes available. *)
Lemma best_end_extend (p : list Z) (y x d dy : Z) :
  best_end p x d -> best_end p y dy ->
  (y < x -> best_end (p ++ [y]) x (Z.max d (dy + 1))) /\
  (~ y < x -> best_end (p ++ [y]) x d).
Proof.
  intros Hx Hy. pose proof (best_end_pos _ _ _ Hx) as Hd.
  destruct Hx as [(s0 & Hs0 & Hinc0 & Hd0) Hmax].
  destruct Hy as [(sy & Hsy & Hincy & Hdy) Hmaxy].
  split; intros Hyx.
  - split.
    + destruct (Z.max_spec d (dy + 1)) as [[_ ->]|[_ ->]].
      * exists (sy ++ [y]). split; [apply sublist_app; [exact Hsy|reflexivity]|].
        split; [|rewrite length_app; cbn; lia].
        apply increasing_snoc. split; [exact Hincy|].
        intros z Hz. apply elem_of_app in Hz. destruct Hz as [Hz|Hz].
        -- apply increasing_snoc in Hincy. destruct Hincy as [_ Hincy].
           specialize (Hincy z Hz). lia.
        -- apply list_elem_of_singleton in Hz. subst z. exact Hyx.
      * exists s0. split; [by apply sublist_inserts_r|]. split; [exact Hinc0|exact Hd0].
    + intros s Hs Hinc.
      destruct s as [|w s1 _] using rev_ind; [cbn; lia|].
      apply sublist_snoc_split in Hs. destruct Hs as [Hs|[-> Hs]].
      * specialize (Hmax _ Hs Hinc). lia.
      * apply increasing_snoc in Hinc. destruct Hinc as [Hinc _].
        specialize (Hmaxy _ Hs Hinc). rewrite length_app. cbn. lia.
  - split.
    + exists s0. split; [by apply sublist_inserts_r|]. split; [exact Hinc0|exact Hd0].
    + intros s Hs Hinc.
      destruct s as [|w s1 _] using rev_ind; [cbn; lia|].
      apply sublist_snoc_split in Hs. destruct Hs as [Hs|[-> Hs]].
      * exact (Hmax _ Hs Hinc).
      * exfalso. apply Hyx. apply increasing_snoc in Hinc.
        destruct Hinc as [_ Hinc]. apply Hinc.
        apply elem_of_app. right. by apply list_elem_of_singleton.
Qed.

Section LisQuadratic.
Variable nums : list Z.
Hypothesis fits : forall s : list Z,
  s `sublist_of` nums -> StronglySorted Z.lt s -> Z.of_nat (length s) <= INT_MAX.

Local Abbreviation dp_done := (Inv.dp_done nums).
Local Abbreviation lis_outer_inv := (Inv.lis_outer_inv nums).

Lemma take_sublist_take (j k : nat) :
  (j <= k)%nat -> take j nums `sublist_of` take k nums.
Proof.
  intros Hjk. replace (take j nums) with (take j (take k nums)).
  - apply sublist_take.
  - rewrite take_take. f_equal. lia.
Qed.

Lemma best_end_fits (j k : nat) (y d : Z) :
  (j <= k)%nat -> nums !! k = Some y -> best_end (take j nums) y d ->
  1 <= d <= INT_MAX.
Proof.
  intros Hjk Ey Hbest. split; [exact (best_end_pos _ _ _ Hbest)|].
  destruct Hbest as [(s & Hs & Hinc & <-) _].
  assert ((s ++ [y]) `sublist_of` nums) as Hsub.
  { transitivity (take (S k) nums); [|apply sublist_take].
    rewrite (take_S_r _ _ _ Ey). apply sublist_app; [|reflexivity].
    transitivity (take j nums); [exact Hs | by apply take_sublist_take]. }
  specialize (fits _ Hsub Hinc). rewrite length_app in fits. cbn in fits. lia.
Qed.

Lemma lis_inner (i : Z) (x : Z) (dp : list Z) :
  0 <= i -> nums !! Z.to_nat i = Some x ->
  length dp = length nums -> dp_done i dp -> dp !! Z.to_nat i = Some 1 ->
  exists dp',
    for_lt_M 0 i (fun j dp =>
      do nj <- at_ nums j;
      do ni <- at_ nums i;
      if decide (nj < ni) then
        do di <- at_ dp i;
        do dj <- at_ dp j;
        set_at dp i (Z.max di (int (dj + 1)))
      else Ret dp) dp = Ret dp' /\
    length dp' = length nums /\
    (forall k : nat, k <> Z.to_nat i -> dp' !! k = dp !! k) /\
    exists d, dp' !! Z.to_nat i = Some d /\ best_end (take (Z.to_nat i) nums) x d.
Proof.
  intros Hi Ex Hlen Hdone Hone.
  pose proof (lookup_lt_Some _ _ _ Ex) as Hilt.
  pose (P := fun (j : Z) (dp' : list Z) =>
    length dp' = length nums /\
    (forall k : nat, k <> Z.to_nat i -> dp' !! k = dp !! k) /\
    exists d, dp' !! Z.to_nat i = Some d /\ best_end (take (Z.to_nat j) nums) x d).
  match goal with |- context [for_lt_M 0 i ?body dp] =>
    destruct (for_lt_M_inv P body 0 i dp) as (dp' & E & HP) end.
  - exact Hi.
  - split; [exact Hlen|]. split; [done|]. exists 1. split; [exact Hone|].
    apply best_end_nil.
  - intros j dp1 Hj (Hlen1 & Hsame & d & Ed & Hbest).
    destruct (Hdone (Z.to_nat j) ltac:(lia) ltac:(unfold size; lia))
      as (dj & nj & Enj & Edj & Hbestj).
    rewrite (at_lookup nums j nj ltac:(lia) Enj). cbn [bind].
    rewrite (at_lookup nums i x Hi Ex). cbn [bind].
    assert (take (Z.to_nat (j + 1)) nums = take (Z.to_nat j) nums ++ [nj]) as Etake.
    { replace (Z.to_nat (j + 1)) with (S (Z.to_nat j)) by lia.
      apply take_S_r. exact Enj. }
    destruct (best_end_extend _ nj x d dj Hbest Hbestj) as [Hyes Hno].
    destruct (decide (nj < x)) as [Hlt|Hge].
    + rewrite (at_lookup dp1 i d Hi Ed). cbn [bind].
      rewrite (at_lookup dp1 j dj ltac:(lia)) by (rewrite Hsame by lia; exact Edj).
      cbn [bind].
      specialize (Hyes Hlt). rewrite <- Etake in Hyes.
      (* [dj + 1] is the length of a subsequence, hence an [int] *)
      pose proof (best_end_fits (Z.to_nat (j + 1)) (Z.to_nat i) x _
                    ltac:(lia) Ex Hyes) as Hfit.
      pose proof (best_end_pos _ _ _ Hbestj) as Hdj.
      rewrite int_id by (unfold INT_MIN, INT_MAX in *; lia).
      rewrite set_at_Ret by lia.
      eexists. split; [reflexivity|].
      split; [rewrite length_insert; exact Hlen1|]. split.
      * intros k Hk. rewrite list_lookup_insert_ne by done. by apply Hsame.
      * eexists. split; [apply list_lookup_insert_eq; lia | exact Hyes].
    + exists dp1. split; [reflexivity|]. split; [exact Hlen1|].
      split; [exact Hsame|]. exists d. split; [exact Ed|].
      rewrite Etake. by apply Hno.
  - exists dp'. split; [exact E|]. exact HP.
Qed.

Lemma lis_outer_step (i : Z) (s : list Z * Z) :
  1 <= i < size nums -> lis_outer_inv i s ->
  exists s',
    (let '(dp, max_len) := s in
     do dp <- for_lt_M 0 i (fun j dp =>
                do nj <- at_ nums j;
                do ni <- at_ nums i;
                if decide (nj < ni) then
                  do di <- at_ dp i;
                  do dj <- at_ dp j;
                  set_at dp i (Z.max di (int (dj + 1)))
                else Ret dp) dp;
     do di <- at_ dp i;
     Ret (dp, Z.max max_len di)) = Ret s' /\
    lis_outer_inv (i + 1) s'.
Proof.
  intros Hi. destruct s as [dp m]. intros (Hlen & Hdone & Hones & Hmax & Hbound).
  cbn [fst snd] in *. unfold size in *.
  destruct (lookup_lt_is_Some_2 nums (Z.to_nat i) ltac:(lia)) as [x Ex].
  destruct (lis_inner i x dp ltac:(lia) Ex Hlen Hdone (Hones (Z.to_nat i) ltac:(lia)))
    as (dp' & E & Hlen' & Hsame & d & Ed & Hbest).
  rewrite E. cbn [bind]. rewrite (at_lookup dp' i d ltac:(lia) Ed). cbn [bind].
  eexists. split; [reflexivity|]. unfold lis_outer_inv. cbn [fst snd].
  split; [exact Hlen'|]. split; [|split; [|split]].
  - intros k Hk Hk'. destruct (decide (k = Z.to_nat i)) as [->|Hne].
    + exists d, x. done.
    + rewrite Hsame by done. apply Hdone; [lia|exact Hk'].
  - intros k Hk. unfold size in *. rewrite Hsame by lia. apply Hones. lia.
  - destruct (Z.max_spec m d) as [[_ ->]|[_ ->]].
    + exists (Z.to_nat i). split; [lia|exact Ed].
    + destruct Hmax as (k & Hk & Ek). exists k. split; [lia|].
      rewrite Hsame by lia. exact Ek.
  - intros k d' Hk Ed'. destruct (decide (k = Z.to_nat i)) as [->|Hne].
    + assert (d' = d) by congruence. lia.
    + rewrite Hsame in Ed' by done. specialize (Hbound k d' ltac:(lia) Ed'). lia.
Qed.

Lemma length_of_lis_n2_spec :
  size nums <= vector_max_size 4 ->
  exists m : nat,
    DpDemo.length_of_lis_n2 nums = Ret (Z.of_nat m) /\ is_lis_length nums m.
Proof.
  intros Hsize. unfold DpDemo.length_of_lis_n2.
  destruct (decide (nums = [])) as [->|Hne].
  { exists 0%nat. split; [reflexivity|]. split.
    - exists []. split; [reflexivity|]. split; [constructor|reflexivity].
    - intros s Hs _. apply sublist_nil_r in Hs. subst s. cbn. lia. }
  assert (0 < size nums) as Hpos.
  { unfold size. destruct nums; [done|cbn [length]; lia]. }
  rewrite vector_fill_Ret by (unfold size in *; lia). cbn [bind].
  destruct (lookup_lt_is_Some_2 nums 0 ltac:(unfold size in *; lia)) as [x0 E0].
  match goal with |- context [for_lt_M 1 (size nums) ?body ?s] =>
    destruct (for_lt_M_inv lis_outer_inv body 1 (size nums) s)
      as ([dp m] & E & Hlen & Hdone & _ & (kmax & Hkmax & Ekmax) & Hbound) end.
  - lia.
  - unfold lis_outer_inv, dp_done. cbn [fst snd]. unfold size in *.
    assert (forall k : nat, Z.of_nat k < Z.of_nat (length nums) ->
              replicate (Z.to_nat (Z.of_nat (length nums))) 1 !! k = Some 1) as Hrep.
    { intros k Hk. apply lookup_replicate_2. lia. }
    split; [rewrite length_replicate; lia|].
    split; [|split; [|split]].
    + intros k Hk Hk'. assert (k = 0)%nat as -> by lia.
      exists 1, x0. split; [exact E0|].
      split; [apply Hrep; lia | apply best_end_nil].
    + intros k Hk. apply Hrep. lia.
    + exists 0%nat. split; [lia|]. apply Hrep. lia.
    + intros k d Hk Ed. apply lookup_replicate in Ed. lia.
  - intros i s Hi Hinv. apply (lis_outer_step i s Hi Hinv).
  - cbn [fst snd] in *. rewrite E. cbn [bind].
    destruct (Hdone kmax Hkmax Hkmax) as (d & y & Ey & Ed & Hbest).
    assert (d = m) as -> by congruence.
    pose proof (best_end_fits kmax kmax y m ltac:(lia) Ey Hbest) as Hm.
    exists (Z.to_nat m). split; [f_equal; lia|]. split.
    + destruct Hbest as [(s & Hs & Hinc & Hd) _].
      exists (s ++ [y]). split; [|split; [exact Hinc|]].
      * transitivity (take (S kmax) nums); [|apply sublist_take].
        rewrite (take_S_r _ _ _ Ey). apply sublist_app; [exact Hs|reflexivity].
      * rewrite length_app. cbn. lia.
    + intros s Hs Hinc.
      destruct s as [|x s0 _] using rev_ind; [cbn; lia|].
      apply sublist_snoc_inv in Hs. destruct Hs as (k & Ek & Hs0).
      pose proof (lookup_lt_Some _ _ _ Ek) as Hk.
      destruct (Hdone k ltac:(unfold size; lia) ltac:(unfold size; lia))
        as (d' & y' & Ey' & Ed' & [_ Hmaxd]).
      assert (y' = x) as -> by congruence.
      specialize (Hmaxd s0 Hs0 Hinc).
      specialize (Hbound k d' ltac:(unfold size; lia) Ed').
      rewrite length_app. cbn. lia.
Qed.
End LisQuadratic.

(** Claim C6, as amended: for every vector of ints whose longest
    strictly increasing subsequence has at most [INT_MAX] elements, the
    quadratic [length_of_lis_n2] and the [lower_bound]-based
    [length_of_lis] return the same value, the length of a longest
    strictly increasing subsequence; both return 0 on the empty vector.
    (A [std::vector<int>] never has more than [max_size()] elements.) *)
Theorem lis_implementations_agree (nums : list Z) :
  size nums <= vector_max_size 4 ->
  (forall s : list Z, s `sublist_of` nums -> StronglySorted Z.lt s ->
     Z.of_nat (length s) <= INT_MAX) ->
  (exists k : nat,
     DpDemo.length_of_lis_n2 nums = Ret (Z.of_nat k) /\
     DpDemo.length_of_lis nums = Z.of_nat k /\
     is_lis_length nums k) /\
  DpDemo.length_of_lis_n2 [] = Ret 0 /\ DpDemo.length_of_lis [] = 0.
Proof.
  intros Hsize Hfits. split; [|split; [reflexivity | vm_compute; reflexivity]].
  destruct (length_of_lis_n2_spec nums Hfits Hsize) as (k & En2 & Hk).
  destruct (length_of_lis_tails nums) as (t & Et & Ht).
  pose proof (is_lis_length_unique nums _ _ Ht Hk) as Elen.
  exists k. split; [exact En2|]. split; [|exact Hk].
  rewrite Et. unfold size. rewrite Elen.
  destruct Hk as [(s & Hs & Hinc & <-) _]. specialize (Hfits s Hs Hinc).
  assert (size_t (Z.of_nat (length s)) = Z.of_nat (length s)) as ->.
  { unfold size_t. apply Z.mod_small. unfold INT_MAX in *. lia. }
  apply int_id. unfold INT_MIN, INT_MAX in *. lia.
Qed.

Lemma lis_implementations_agree_witness :
  exists k : nat,
    DpDemo.length_of_lis_n2 [10; 9; 2; 5; 3; 7; 101; 18] = Ret (Z.of_nat k) /\
    DpDemo.length_of_lis [10; 9; 2; 5; 3; 7; 101; 18] = Z.of_nat k /\
    is_lis_length [10; 9; 2; 5; 3; 7; 101; 18] k.
Proof.
  refine (proj1 (lis_implementations_agree [10; 9; 2; 5; 3; 7; 101; 18] _ _)).
  - vm_compute. discriminate.
  - intros s Hs _. apply sublist_length in Hs. cbn [length] in Hs.
    unfold INT_MAX. lia.
Defined.

Lemma increasing_seqZ (m n : Z) : StronglySorted Z.lt (seqZ m n).
Proof.
  apply increasing_lookup. intros j k a b Hjk Ej Ek.
  apply lookup_seqZ in Ej, Ek. lia.
Qed.

Lemma is_lis_length_increasing (nums : list Z) :
  StronglySorted Z.lt nums -> is_lis_length nums (length nums).
Proof.
  intros Hinc. split.
  - exists nums. done.
  - intros s Hs _. by apply sublist_length.
Qed.

(** Claim C6 as stated fails on a strictly increasing vector of 2^31
    elements, here the [int]s from [INT_MIN] to -1: its longest
    increasing subsequence is the vector itself, of length 2147483648,
    and [length_of_lis] returns [tails.size()] converted to [int], which
    is -2147483648. *)
Lemma length_of_lis_beyond_int :
  Forall (fun x => INT_MIN <= x <= INT_MAX) (seqZ (-2147483648) 2147483648) /\
  is_lis_length (seqZ (-2147483648) 2147483648) (Z.to_nat 2147483648) /\
  DpDemo.length_of_lis (seqZ (-2147483648) 2147483648) = -2147483648.
Proof.
  pose proof (is_lis_length_increasing _ (increasing_seqZ (-2147483648) 2147483648))
    as Hlis.
  rewrite length_seqZ in Hlis.
  split; [|split; [exact Hlis|]].
  - apply Forall_forall. intros x Hx. apply list_elem_of_lookup in Hx.
    destruct Hx as [k Hk]. apply lookup_seqZ in Hk. unfold INT_MIN, INT_MAX. lia.
  - destruct (length_of_lis_tails (seqZ (-2147483648) 2147483648)) as (t & Et & Ht).
    rewrite Et. unfold size.
    rewrite (is_lis_length_unique _ _ _ Ht Hlis), Z2Nat.id by lia.
    vm_compute. reflexivity.
Qed.

(** ** sort_search_demo.cpp: binary search *)

Lemma Sorted_lookup_le (a : list Z) :
  Sorted Z.le a ->
  forall (i j : nat) (x y : Z),
    (i <= j)%nat -> a !! i = Some x -> a !! j = Some y -> x <= y.
Proof.
  intros Hs. apply Sorted_StronglySorted in Hs; [|intros ? ? ?; lia].
  induction Hs as [|z a Hs IH Hall]; intros i j x y Hij Ei Ej.
  - rewrite lookup_nil in Ei. discriminate.
  - destruct i as [|i], j as [|j]; cbn in Ei, Ej.
    + injection Ei as <-. injection Ej as <-. lia.
    + injection Ei as <-. rewrite Forall_forall in Hall.
      apply Hall. eapply list_elem_of_lookup_2, Ej.
    + lia.
    + apply (IH i j); [lia|done|done].
Qed.

Lemma mid_eq (left right : Z) :
  0 <= left <= right -> right <= INT_MAX ->
  int (left + int (int (right - left) `quot` 2)) = left + (right - left) `div` 2 /\
  left <= left + (right - left) `div` 2 <= right.
Proof.
  intros Hl Hr. unfold INT_MAX in Hr.
  assert (0 <= (right - left) `div` 2 <= right - left) as Hd.
  { split; [apply Z.div_pos; lia|]. apply Z.div_le_upper_bound; lia. }
  rewrite (int_small (right - left)) by (unfold INT_MAX; lia).
  rewrite Z.quot_div_nonneg by lia.
  rewrite (int_small ((right - left) `div` 2)) by (unfold INT_MAX; lia).
  rewrite int_small by (unfold INT_MAX; lia). lia.
Qed.

Lemma half_pow (d : Z) (fuel : nat) :
  0 <= d -> d + 1 < 2 ^ Z.of_nat (S fuel) ->
  d `div` 2 < 2 ^ Z.of_nat fuel /\ d - d `div` 2 < 2 ^ Z.of_nat fuel.
Proof.
  intros Hd Hlt. rewrite Nat2Z.inj_succ, Z.pow_succ_r in Hlt by lia.
  pose proof (Z.div_mod d 2 ltac:(lia)) as E.
  pose proof (Z.mod_pos_bound d 2 ltac:(lia)) as Hm. lia.
Qed.

Lemma size_minus_one (arr : list Z) :
  size arr <= INT_MAX -> int (size_t (size arr - 1)) = size arr - 1.
Proof.
  intros Hs. unfold size in *. unfold INT_MAX in Hs.
  destruct arr as [|x arr].
  - cbn [length Z.of_nat Z.sub Z.add Z.opp]. 
    vm_compute. reflexivity.
  - assert (size_t (Z.of_nat (length (x :: arr)) - 1)
            = Z.of_nat (length (x :: arr)) - 1) as ->.
    { unfold size_t. apply Z.mod_small. cbn [length] in *. lia. }
    apply int_id. unfold INT_MIN, INT_MAX. cbn [length] in *. lia.
Qed.

(** The loop of [binary_search] on the range [left .. right], inside
    the range [lo .. hi] it started from. *)
Lemma binary_search_loop_spec (arr : list Z) (target : Z) (fuel : nat) :
  forall left right : Z,
    0 <= left -> right < size arr -> left <= right + 1 ->
    size arr <= INT_MAX ->
    right - left + 1 < 2 ^ Z.of_nat fuel ->
    exists r : Z,
      SortSearchDemo.binary_search_loop fuel arr target left right = Ret r /\
      (r = -1 \/ (left <= r <= right /\ arr !! Z.to_nat r = Some target)) /\
      (Sorted Z.le arr ->
       forall lo hi : Z,
       (forall (k : nat) (x : Z),
          lo <= Z.of_nat k < left -> arr !! k = Some x -> x < target) ->
       (forall (k : nat) (x : Z),
          right < Z.of_nat k <= hi -> arr !! k = Some x -> target < x) ->
       r = -1 ->
       forall k : nat, lo <= Z.of_nat k <= hi -> arr !! k <> Some target).
Proof.
  assert (forall left right lo hi : Z, ~ left <= right -> left <= right + 1 ->
            (forall (k : nat) (x : Z),
               lo <= Z.of_nat k < left -> arr !! k = Some x -> x < target) ->
            (forall (k : nat) (x : Z),
               right < Z.of_nat k <= hi -> arr !! k = Some x -> target < x) ->
            forall k : nat, lo <= Z.of_nat k <= hi -> arr !! k <> Some target)
    as Hdone.
  { intros left right lo hi Hout Hle Hlo Hhi k Hk Ek.
    destruct (decide (Z.of_nat k < left)) as [Hk1|Hk1].
    - specialize (Hlo k target ltac:(lia) Ek). lia.
    - specialize (Hhi k target ltac:(lia) Ek). lia. }
  induction fuel as [|fuel IH]; intros left right Hl Hr Hle Hsmall Hfuel;
    cbn [SortSearchDemo.binary_search_loop].
  - destruct (decide (left <= right)) as [Hin|Hout]; [cbn in Hfuel; lia|].
    exists (-1). split; [reflexivity|]. split; [by left|].
    intros _ lo hi Hlo Hhi _. by apply (Hdone left right).
  - destruct (decide (left <= right)) as [Hin|Hout].
    2:{ exists (-1). split; [reflexivity|]. split; [by left|].
        intros _ lo hi Hlo Hhi _. by apply (Hdone left right). }
    unfold size in *.
    destruct (mid_eq left right ltac:(lia) ltac:(lia)) as [Emid Hmid].
    rewrite Emid. set (mid := left + (right - left) `div` 2) in *.
    destruct (lookup_lt_is_Some_2 arr (Z.to_nat mid) ltac:(lia)) as [x Ex].
    rewrite (at_lookup arr mid x ltac:(lia) Ex). cbn [bind].
    destruct (half_pow (right - left) fuel ltac:(lia) ltac:(lia)) as [Hh1 Hh2].
    assert (mid - left = (right - left) `div` 2) as Hml by (unfold mid; lia).
    destruct (decide (x = target)) as [->|Hne].
    { exists mid. split; [reflexivity|]. split; [right; done|].
      intros _ lo hi _ _ ->. lia. }
    destruct (decide (x < target)) as [Hlt|Hge].
    + rewrite (int_small (mid + 1)) by (unfold INT_MAX in *; lia).
      destruct (IH (mid + 1) right ltac:(lia) ltac:(unfold size; lia) ltac:(lia)
                  ltac:(unfold size; lia) ltac:(lia)) as (r & E & Hr1 & Hr2).
      exists r. split; [exact E|]. split.
      * destruct Hr1 as [->|[? ?]]; [by left|right; split; [lia|done]].
      * intros Hs lo hi Hlo Hhi Hneg. apply (Hr2 Hs lo hi); [|exact Hhi|exact Hneg].
        intros k y Hk Ey.
        pose proof (Sorted_lookup_le arr Hs k (Z.to_nat mid) y x ltac:(lia) Ey Ex). lia.
    + rewrite (int_id (mid - 1)) by (unfold INT_MIN, INT_MAX in *; lia).
      destruct (IH left (mid - 1) ltac:(lia) ltac:(unfold size; lia) ltac:(lia)
                  ltac:(unfold size; lia) ltac:(lia)) as (r & E & Hr1 & Hr2).
      exists r. split; [exact E|]. split.
      * destruct Hr1 as [->|[? ?]]; [by left|right; split; [lia|done]].
      * intros Hs lo hi Hlo Hhi Hneg. apply (Hr2 Hs lo hi); [exact Hlo| |exact Hneg].
        intros k y Hk Ey.
        pose proof (Sorted_lookup_le arr Hs (Z.to_nat mid) k x y ltac:(lia) Ex Ey). lia.
Qed.

Lemma not_elem_of_lookup (arr : list Z) (target : Z) :
  (forall k : nat, 0 <= Z.of_nat k <= size arr - 1 -> arr !! k <> Some target) ->
  target ∉ arr.
Proof.
  intros H [k Ek]%list_elem_of_lookup.
  pose proof (lookup_lt_Some _ _ _ Ek). apply (H k); [unfold size; lia|exact Ek].
Qed.

Lemma binary_search_returns (arr : list Z) (target : Z) (fuel : nat) :
  size arr <= INT_MAX -> size arr < 2 ^ Z.of_nat fuel ->
  exists r : Z,
    SortSearchDemo.binary_search fuel arr target = Ret r /\
    (r = -1 \/ (0 <= r < size arr /\ arr !! Z.to_nat r = Some target)) /\
    (Sorted Z.le arr -> (r = -1 <-> target ∉ arr)).
Proof.
  intros Hsmall Hfuel. unfold SortSearchDemo.binary_search.
  rewrite size_minus_one by exact Hsmall.
  destruct (binary_search_loop_spec arr target fuel 0 (size arr - 1)
              ltac:(lia) ltac:(lia) ltac:(unfold size; lia) Hsmall ltac:(lia))
    as (r & E & Hr1 & Hr2).
  exists r. split; [exact E|]. split.
  - destruct Hr1 as [->|[? ?]]; [by left|right; split; [lia|done]].
  - intros Hs. split.
    + intros Hneg. apply not_elem_of_lookup.
      apply (Hr2 Hs 0 (size arr - 1)); [intros; lia|intros; lia|exact Hneg].
    + intros Hnot. destruct Hr1 as [->|[_ Er]]; [done|].
      exfalso. apply Hnot. eapply list_elem_of_lookup_2, Er.
Qed.

(** Property X1: [binary_search(arr, target)] on
    a vector of at most [INT_MAX] elements stays inside the vector and
    ends within [fuel] rounds once [size < 2^fuel], that is after at
    most [log2(size) + 1] probes; it returns -1 or an index that holds
    [target]; and on a vector in non-decreasing order it returns -1
    exactly when [target] does not occur. *)
Theorem binary_search_spec (arr : list Z) (target : Z) (fuel : nat) :
  size arr <= INT_MAX -> size arr < 2 ^ Z.of_nat fuel ->
  exists r : Z,
    SortSearchDemo.binary_search fuel arr target = Ret r /\
    (r = -1 \/ (0 <= r < size arr /\ arr !! Z.to_nat r = Some target)) /\
    (Sorted Z.le arr -> (r = -1 <-> target ∉ arr)).
Proof. apply binary_search_returns. Qed.

Lemma binary_search_spec_witness :
  exists r : Z,
    SortSearchDemo.binary_search 4 [1; 2; 3; 4; 5; 5; 5; 6; 7; 8; 9; 10] 5 = Ret r /\
    (r = -1 \/ (0 <= r < 12 /\
                [1; 2; 3; 4; 5; 5; 5; 6; 7; 8; 9; 10] !! Z.to_nat r = Some 5)) /\
    (Sorted Z.le [1; 2; 3; 4; 5; 5; 5; 6; 7; 8; 9; 10] ->
     (r = -1 <-> 5 ∉ [1; 2; 3; 4; 5; 5; 5; 6; 7; 8; 9; 10])).
Proof.
  apply (binary_search_spec [1; 2; 3; 4; 5; 5; 5; 6; 7; 8; 9; 10] 5 4).
  - unfold size, INT_MAX. cbn [length]. lia.
  - unfold size. cbn [length]. lia.
Defined.

(** The recursive search runs as the loop does. *)
Lemma binary_search_recursive_loop (arr : list Z) (target : Z) (fuel : nat) :
  forall left right : Z,
    RecursionDemo.binary_search_recursive fuel arr target left right
    = SortSearchDemo.binary_search_loop fuel arr target left right.
Proof.
  induction fuel as [|fuel IH]; intros left right;
    cbn [RecursionDemo.binary_search_recursive SortSearchDemo.binary_search_loop];
    destruct (decide (left > right)), (decide (left <= right)); try lia; try reflexivity.
  destruct (at_ arr _); cbn [bind]; try reflexivity.
  repeat destruct (decide _); try reflexivity; apply IH.
Qed.

(** Property X2: [binary_search_recursive(arr, target, left, right)]
    on a range inside a vector in non-decreasing order of at most
    [INT_MAX] elements returns, with a recursion depth of at most
    [log2(right - left + 1) + 1], an index of the range that holds
    [target], or -1 exactly when no index of the range holds it; and it
    returns what the loop of [binary_search] returns on the same range,
    for every vector and every range. *)
Theorem binary_search_recursive_spec (arr : list Z) (target : Z)
    (left right : Z) (fuel : nat) :
  Sorted Z.le arr -> size arr <= INT_MAX ->
  0 <= left -> right < size arr -> left <= right + 1 ->
  right - left + 1 < 2 ^ Z.of_nat fuel ->
  (exists r : Z,
     RecursionDemo.binary_search_recursive fuel arr target left right = Ret r /\
     ((r = -1 /\
       forall k : nat, left <= Z.of_nat k <= right -> arr !! k <> Some target) \/
      (left <= r <= right /\ arr !! Z.to_nat r = Some target))) /\
  (forall (arr' : list Z) (left' right' : Z) (fuel' : nat),
     RecursionDemo.binary_search_recursive fuel' arr' target left' right'
     = SortSearchDemo.binary_search_loop fuel' arr' target left' right').
Proof.
  intros Hs Hsmall Hl Hr Hle Hfuel. split; [|intros; apply binary_search_recursive_loop].
  rewrite binary_search_recursive_loop.
  destruct (binary_search_loop_spec arr target fuel left right Hl Hr Hle Hsmall Hfuel)
    as (r & E & Hr1 & Hr2).
  exists r. split; [exact E|].
  destruct Hr1 as [->|Hin]; [left|by right].
  split; [reflexivity|].
  apply (Hr2 Hs left right); [intros; lia|intros; lia|reflexivity].
Qed.

Lemma binary_search_recursive_spec_witness :
  exists r : Z,
    RecursionDemo.binary_search_recursive 4 [1; 3; 5; 7; 9; 11; 13; 15] 6 0 7 = Ret r /\
    ((r = -1 /\
      forall k : nat, 0 <= Z.of_nat k <= 7 ->
        [1; 3; 5; 7; 9; 11; 13; 15] !! k <> Some 6) \/
     (0 <= r <= 7 /\ [1; 3; 5; 7; 9; 11; 13; 15] !! Z.to_nat r = Some 6)).
Proof.
  refine (proj1 (binary_search_recursive_spec [1; 3; 5; 7; 9; 11; 13; 15] 6 0 7 4
                   _ _ _ _ _ _)).
  - repeat constructor; lia.
  - unfold size, INT_MAX. cbn [length]. lia.
  - lia.
  - unfold size. cbn [length]. lia.
  - lia.
  - lia.
Defined.

(** The loop of [find_first]: [result] is -1 as long as nothing was
    found, and the position next to [right] afterwards. *)
Lemma find_first_loop_spec (arr : list Z) (target : Z) (fuel : nat) :
  Sorted Z.le arr -> size arr <= INT_MAX ->
  forall left right result : Z,
    0 <= left -> right < size arr -> left <= right + 1 ->
    right - left + 1 < 2 ^ Z.of_nat fuel ->
    (forall (k : nat) (x : Z), Z.of_nat k < left -> arr !! k = Some x -> x < target) ->
    (forall (k : nat) (x : Z), right < Z.of_nat k -> arr !! k = Some x -> target <= x) ->
    (result = -1 /\
     (forall (k : nat) (x : Z), right < Z.of_nat k -> arr !! k = Some x -> target < x)) \/
    (result = right + 1 /\ arr !! Z.to_nat result = Some target) ->
    exists r : Z,
      SortSearchDemo.find_first_loop fuel arr target left right result = Ret r /\
      ((r = -1 /\ target ∉ arr) \/
       (0 <= r < size arr /\ arr !! Z.to_nat r = Some target /\
        forall k : nat, Z.of_nat k < r -> arr !! k <> Some target)).
Proof.
  intros Hs Hsmall.
  assert (forall left right result : Z, 0 <= left -> right < size arr ->
            ~ left <= right -> left <= right + 1 ->
            (forall (k : nat) (x : Z), Z.of_nat k < left -> arr !! k = Some x -> x < target) ->
            (forall (k : nat) (x : Z), right < Z.of_nat k -> arr !! k = Some x -> target <= x) ->
            (result = -1 /\
             (forall (k : nat) (x : Z), right < Z.of_nat k -> arr !! k = Some x -> target < x)) \/
            (result = right + 1 /\ arr !! Z.to_nat result = Some target) ->
            (result = -1 /\ target ∉ arr) \/
            (0 <= result < size arr /\ arr !! Z.to_nat result = Some target /\
             forall k : nat, Z.of_nat k < result -> arr !! k <> Some target)) as Hdone.
  { intros left right result Hl Hr Hout Hle Hlo Hhi [[-> Hnone]|[-> Efound]].
    - left. split; [reflexivity|].
      intros [k Ek]%list_elem_of_lookup.
      destruct (decide (Z.of_nat k < left)) as [Hk|Hk].
      + specialize (Hlo k target Hk Ek). lia.
      + specialize (Hnone k target ltac:(lia) Ek). lia.
    - right. pose proof (lookup_lt_Some _ _ _ Efound). unfold size.
      split; [lia|]. split; [exact Efound|].
      intros k Hk Ek. specialize (Hlo k target ltac:(lia) Ek). lia. }
  induction fuel as [|fuel IH]; intros left right result Hl Hr Hle Hfuel Hlo Hhi Hres;
    cbn [SortSearchDemo.find_first_loop].
  - destruct (decide (left <= right)) as [Hin|Hout]; [cbn in Hfuel; lia|].
    exists result. split; [reflexivity|]. by apply (Hdone left right).
  - destruct (decide (left <= right)) as [Hin|Hout].
    2:{ exists result. split; [reflexivity|]. by apply (Hdone left right). }
    unfold size in *.
    destruct (mid_eq left right ltac:(lia) ltac:(lia)) as [Emid Hmid].
    rewrite Emid. set (mid := left + (right - left) `div` 2) in *.
    destruct (lookup_lt_is_Some_2 arr (Z.to_nat mid) ltac:(lia)) as [x Ex].
    rewrite (at_lookup arr mid x ltac:(lia) Ex). cbn [bind].
    destruct (half_pow (right - left) fuel ltac:(lia) ltac:(lia)) as [Hh1 Hh2].
    assert (mid - left = (right - left) `div` 2) as Hml by (unfold mid; lia).
    assert (forall (k : nat) (y : Z), Z.of_nat k <= mid -> arr !! k = Some y -> y <= x)
      as Hbelow.
    { intros k y Hk Ey.
      exact (Sorted_lookup_le arr Hs k (Z.to_nat mid) y x ltac:(lia) Ey Ex). }
    assert (forall (k : nat) (y : Z), mid <= Z.of_nat k -> arr !! k = Some y -> x <= y)
      as Habove.
    { intros k y Hk Ey.
      exact (Sorted_lookup_le arr Hs (Z.to_nat mid) k x y ltac:(lia) Ex Ey). }
    destruct (decide (x = target)) as [->|Hne].
    { rewrite (int_id (mid - 1)) by (unfold INT_MIN, INT_MAX in *; lia).
      apply IH; [lia|unfold size; lia|lia|lia|exact Hlo| |].
      - intros k y Hk Ey. apply (Habove k y); [lia|exact Ey].
      - right. split; [lia|]. replace (mid - 1 + 1) with mid by lia. exact Ex. }
    destruct (decide (x < target)) as [Hlt|Hge].
    + rewrite (int_small (mid + 1)) by (unfold INT_MAX in *; lia).
      apply IH; [lia|unfold size; lia|lia|lia| |exact Hhi|exact Hres].
      intros k y Hk Ey. specialize (Hbelow k y ltac:(lia) Ey). lia.
    + rewrite (int_id (mid - 1)) by (unfold INT_MIN, INT_MAX in *; lia).
      apply IH; [lia|unfold size; lia|lia|lia|exact Hlo| |].
      * intros k y Hk Ey. specialize (Habove k y ltac:(lia) Ey). lia.
      * left. destruct Hres as [[-> _]|[-> Efound]].
        -- split; [reflexivity|]. intros k y Hk Ey.
           specialize (Habove k y ltac:(lia) Ey). lia.
        -- specialize (Habove (Z.to_nat (right + 1)) target ltac:(lia) Efound). lia.
Qed.

(** The loop of [find_last], the mirror image. *)
Lemma find_last_loop_spec (arr : list Z) (target : Z) (fuel : nat) :
  Sorted Z.le arr -> size arr <= INT_MAX ->
  forall left right result : Z,
    0 <= left -> right < size arr -> left <= right + 1 ->
    right - left + 1 < 2 ^ Z.of_nat fuel ->
    (forall (k : nat) (x : Z), Z.of_nat k < left -> arr !! k = Some x -> x <= target) ->
    (forall (k : nat) (x : Z), right < Z.of_nat k -> arr !! k = Some x -> target < x) ->
    (result = -1 /\
     (forall (k : nat) (x : Z), Z.of_nat k < left -> arr !! k = Some x -> x < target)) \/
    (result = left - 1 /\ 0 <= result /\ arr !! Z.to_nat result = Some target) ->
    exists r : Z,
      SortSearchDemo.find_last_loop fuel arr target left right result = Ret r /\
      ((r = -1 /\ target ∉ arr) \/
       (0 <= r < size arr /\ arr !! Z.to_nat r = Some target /\
        forall k : nat, r < Z.of_nat k -> arr !! k <> Some target)).
Proof.
  intros Hs Hsmall.
  assert (forall left right result : Z, 0 <= left -> right < size arr ->
            ~ left <= right -> left <= right + 1 ->
            (forall (k : nat) (x : Z), Z.of_nat k < left -> arr !! k = Some x -> x <= target) ->
            (forall (k : nat) (x : Z), right < Z.of_nat k -> arr !! k = Some x -> target < x) ->
            (result = -1 /\
             (forall (k : nat) (x : Z), Z.of_nat k < left -> arr !! k = Some x -> x < target)) \/
            (result = left - 1 /\ 0 <= result /\ arr !! Z.to_nat result = Some target) ->
            (result = -1 /\ target ∉ arr) \/
            (0 <= result < size arr /\ arr !! Z.to_nat result = Some target /\
             forall k : nat, result < Z.of_nat k -> arr !! k <> Some target)) as Hdone.
  { intros left right result Hl Hr Hout Hle Hlo Hhi [[-> Hnone]|(-> & H0 & Efound)].
    - left. split; [reflexivity|].
      intros [k Ek]%list_elem_of_lookup.
      destruct (decide (Z.of_nat k < left)) as [Hk|Hk].
      + specialize (Hnone k target Hk Ek). lia.
      + specialize (Hhi k target ltac:(lia) Ek). lia.
    - right. pose proof (lookup_lt_Some _ _ _ Efound). unfold size.
      split; [lia|]. split; [exact Efound|].
      intros k Hk Ek. specialize (Hhi k target ltac:(lia) Ek). lia. }
  induction fuel as [|fuel IH]; intros left right result Hl Hr Hle Hfuel Hlo Hhi Hres;
    cbn [SortSearchDemo.find_last_loop].
  - destruct (decide (left <= right)) as [Hin|Hout]; [cbn in Hfuel; lia|].
    exists result. split; [reflexivity|]. by apply (Hdone left right).
  - destruct (decide (left <= right)) as [Hin|Hout].
    2:{ exists result. split; [reflexivity|]. by apply (Hdone left right). }
    unfold size in *.
    destruct (mid_eq left right ltac:(lia) ltac:(lia)) as [Emid Hmid].
    rewrite Emid. set (mid := left + (right - left) `div` 2) in *.
    destruct (lookup_lt_is_Some_2 arr (Z.to_nat mid) ltac:(lia)) as [x Ex].
    rewrite (at_lookup arr mid x ltac:(lia) Ex). cbn [bind].
    destruct (half_pow (right - left) fuel ltac:(lia) ltac:(lia)) as [Hh1 Hh2].
    assert (mid - left = (right - left) `div` 2) as Hml by (unfold mid; lia).
    assert (forall (k : nat) (y : Z), Z.of_nat k <= mid -> arr !! k = Some y -> y <= x)
      as Hbelow.
    { intros k y Hk Ey.
      exact (Sorted_lookup_le arr Hs k (Z.to_nat mid) y x ltac:(lia) Ey Ex). }
    assert (forall (k : nat) (y : Z), mid <= Z.of_nat k -> arr !! k = Some y -> x <= y)
      as Habove.
    { intros k y Hk Ey.
      exact (Sorted_lookup_le arr Hs (Z.to_nat mid) k x y ltac:(lia) Ex Ey). }
    destruct (decide (x = target)) as [->|Hne].
    { rewrite (int_small (mid + 1)) by (unfold INT_MAX in *; lia).
      apply IH; [lia|unfold size; lia|lia|lia| |exact Hhi|].
      - intros k y Hk Ey. apply (Hbelow k y); [lia|exact Ey].
      - right. split; [lia|]. replace (mid + 1 - 1) with mid by lia.
        split; [lia|exact Ex]. }
    destruct (decide (x < target)) as [Hlt|Hge].
    + rewrite (int_small (mid + 1)) by (unfold INT_MAX in *; lia).
      apply IH; [lia|unfold size; lia|lia|lia| |exact Hhi|].
      * intros k y Hk Ey. specialize (Hbelow k y ltac:(lia) Ey). lia.
      * left. destruct Hres as [[-> _]|(-> & H0 & Efound)].
        -- split; [reflexivity|]. intros k y Hk Ey.
           specialize (Hbelow k y ltac:(lia) Ey). lia.
        -- specialize (Hbelow (Z.to_nat (left - 1)) target ltac:(lia) Efound). lia.
    + rewrite (int_id (mid - 1)) by (unfold INT_MIN, INT_MAX in *; lia).
      apply IH; [lia|unfold size; lia|lia|lia|exact Hlo| |exact Hres].
      intros k y Hk Ey. specialize (Habove k y ltac:(lia) Ey). lia.
Qed.

(** Property X3: on a vector in non-decreasing
    order of at most [INT_MAX] elements, [find_first] returns the
    smallest and [find_last] the largest index that holds [target], and
    both return -1 when [target] does not occur; the indices that hold
    [target] are exactly those from the one to the other, and the index
    [binary_search] returns lies between them. *)
Theorem find_first_last_spec (arr : list Z) (target : Z) (fuel : nat) :
  Sorted Z.le arr -> size arr <= INT_MAX -> size arr < 2 ^ Z.of_nat fuel ->
  exists first last found : Z,
    SortSearchDemo.find_first fuel arr target = Ret first /\
    SortSearchDemo.find_last fuel arr target = Ret last /\
    SortSearchDemo.binary_search fuel arr target = Ret found /\
    ((first = -1 /\ last = -1 /\ found = -1 /\ target ∉ arr) \/
     (0 <= first <= found /\ found <= last < size arr /\
      forall k : nat, arr !! k = Some target <-> first <= Z.of_nat k <= last)).
Proof.
  intros Hs Hsmall Hfuel.
  unfold SortSearchDemo.find_first, SortSearchDemo.find_last.
  rewrite size_minus_one by exact Hsmall.
  destruct (find_first_loop_spec arr target fuel Hs Hsmall 0 (size arr - 1) (-1))
    as (first & Efirst & Hfirst); [lia|lia|unfold size; lia|lia| | | |].
  { intros k x Hk. lia. }
  { intros k x Hk Ex. pose proof (lookup_lt_Some _ _ _ Ex). unfold size in Hk. lia. }
  { left. split; [reflexivity|].
    intros k x Hk Ex. pose proof (lookup_lt_Some _ _ _ Ex). unfold size in Hk. lia. }
  destruct (find_last_loop_spec arr target fuel Hs Hsmall 0 (size arr - 1) (-1))
    as (last & Elast & Hlast); [lia|lia|unfold size; lia|lia| | | |].
  { intros k x Hk. lia. }
  { intros k x Hk Ex. pose proof (lookup_lt_Some _ _ _ Ex). unfold size in Hk. lia. }
  { left. split; [reflexivity|]. intros k x Hk. lia. }
  destruct (binary_search_returns arr target fuel Hsmall Hfuel)
    as (found & Efound & Hfound & Hiff).
  exists first, last, found.
  split; [exact Efirst|]. split; [exact Elast|]. split; [exact Efound|].
  destruct Hfirst as [[-> Hnot]|(Hf0 & Ef & Hfmin)].
  - left. split; [reflexivity|].
    destruct Hlast as [[-> _]|(_ & El & _)].
    2:{ exfalso. apply Hnot. eapply list_elem_of_lookup_2, El. }
    split; [reflexivity|]. split; [|exact Hnot]. by apply Hiff.
  - right.
    destruct Hlast as [[-> Hnot]|(Hl0 & El & Hlmax)].
    { exfalso. apply Hnot. eapply list_elem_of_lookup_2, Ef. }
    destruct Hfound as [->|[Hr0 Er]].
    { exfalso. apply (proj1 (Hiff Hs) eq_refl). eapply list_elem_of_lookup_2, Ef. }
    assert (forall k : nat, arr !! k = Some target -> first <= Z.of_nat k <= last) as Hin.
    { intros k Ek. split.
      - destruct (decide (first <= Z.of_nat k)) as [|Hlt]; [done|].
        exfalso. apply (Hfmin k); [lia|exact Ek].
      - destruct (decide (Z.of_nat k <= last)) as [|Hlt]; [done|].
        exfalso. apply (Hlmax k); [lia|exact Ek]. }
    pose proof (Hin (Z.to_nat found) Er) as Hfnd.
    split; [lia|]. split; [lia|].
    intros k. split; [apply Hin|].
    intros Hk.
    destruct (lookup_lt_is_Some_2 arr k ltac:(unfold size in *; lia)) as [y Ey].
    pose proof (Sorted_lookup_le arr Hs (Z.to_nat first) k target y ltac:(lia) Ef Ey).
    pose proof (Sorted_lookup_le arr Hs k (Z.to_nat last) y target ltac:(lia) Ey El).
    rewrite Ey. f_equal. lia.
Qed.

Lemma find_first_last_spec_witness :
  exists first last found : Z,
    SortSearchDemo.find_first 4 [1; 2; 3; 4; 5; 5; 5; 6; 7; 8; 9; 10] 5 = Ret first /\
    SortSearchDemo.find_last 4 [1; 2; 3; 4; 5; 5; 5; 6; 7; 8; 9; 10] 5 = Ret last /\
    SortSearchDemo.binary_search 4 [1; 2; 3; 4; 5; 5; 5; 6; 7; 8; 9; 10] 5 = Ret found /\
    ((first = -1 /\ last = -1 /\ found = -1 /\
      5 ∉ [1; 2; 3; 4; 5; 5; 5; 6; 7; 8; 9; 10]) \/
     (0 <= first <= found /\ found <= last < 12 /\
      forall k : nat,
        [1; 2; 3; 4; 5; 5; 5; 6; 7; 8; 9; 10] !! k = Some 5
        <-> first <= Z.of_nat k <= last)).
Proof.
  apply (find_first_last_spec [1; 2; 3; 4; 5; 5; 5; 6; 7; 8; 9; 10] 5 4).
  - repeat constructor; lia.
  - unfold size, INT_MAX. cbn [length]. lia.
  - unfold size. cbn [length]. lia.
Defined.

(** ** sort_search_demo.cpp: the quadratic sorts *)

Lemma size_int (arr : list Z) :
  size arr <= INT_MAX -> int (size_t (size arr)) = size arr.
Proof.
  intros Hs. unfold size in *. unfold INT_MAX in Hs.
  assert (size_t (Z.of_nat (length arr)) = Z.of_nat (length arr)) as ->.
  { unfold size_t. apply Z.mod_small. lia. }
  apply int_id. unfold INT_MIN, INT_MAX. lia.
Qed.

Lemma rearranged_length low high a a' :
  rearranged low high a a' -> length a' = length a.
Proof. by intros [? _]. Qed.

Lemma rearranged_perm low high a a' : rearranged low high a a' -> a' ≡ₚ a.
Proof. by intros (_ & ? & _). Qed.

Lemma rearranged_outside low high a a' (k : nat) :
  rearranged low high a a' -> ~ low <= Z.of_nat k <= high -> a' !! k = a !! k.
Proof. intros (_ & _ & H & _). apply H. Qed.

Lemma rearranged_all low high a a' (P : Z -> Prop) :
  rearranged low high a a' ->
  (forall (k : nat) (x : Z), low <= Z.of_nat k <= high -> a !! k = Some x -> P x) ->
  forall (k : nat) (x : Z), low <= Z.of_nat k <= high -> a' !! k = Some x -> P x.
Proof. intros (_ & _ & _ & H). apply H. Qed.

Section SelectionSort.
Variable arr : list Z.
Hypothesis small : size arr <= INT_MAX.

Lemma selection_inner (a : list Z) (i : Z) :
  length a = length arr -> 0 <= i < size arr ->
  exists m : Z,
    for_lt_M (int (i + 1)) (size arr) (fun j min_idx =>
      do x <- at_ a j;
      do y <- at_ a min_idx;
      if decide (x < y) then Ret j else Ret min_idx) i = Ret m /\
    smallest_at a i (size arr) m.
Proof.
  intros Hlen Hi. unfold size in *.
  rewrite int_small by (unfold INT_MAX in *; lia).
  match goal with |- context [for_lt_M ?lo ?hi ?body ?s] =>
    destruct (for_lt_M_inv (fun j m => smallest_at a i j m) body lo hi s)
      as (m & E & Hm) end.
  - lia.
  - destruct (lookup_lt_is_Some_2 a (Z.to_nat i) ltac:(lia)) as [y Ey].
    split; [lia|]. exists y. split; [exact Ey|].
    intros k x Hk Ex. replace k with (Z.to_nat i) in Ex by lia.
    rewrite Ey in Ex. injection Ex as <-. lia.
  - intros j m Hj (Hm & y & Ey & Hmin).
    destruct (lookup_lt_is_Some_2 a (Z.to_nat j) ltac:(lia)) as [x Ex].
    rewrite (at_lookup a j x ltac:(lia) Ex). cbn [bind].
    rewrite (at_lookup a m y ltac:(lia) Ey). cbn [bind].
    destruct (decide (x < y)) as [Hlt|Hge]; eexists; (split; [reflexivity|]).
    + split; [lia|]. exists x. split; [exact Ex|].
      intros k z Hk Ez. destruct (decide (Z.of_nat k = j)) as [Hkj|Hkj].
      * replace k with (Z.to_nat j) in Ez by lia. rewrite Ex in Ez.
        injection Ez as <-. lia.
      * specialize (Hmin k z ltac:(lia) Ez). lia.
    + split; [lia|]. exists y. split; [exact Ey|].
      intros k z Hk Ez. destruct (decide (Z.of_nat k = j)) as [Hkj|Hkj].
      * replace k with (Z.to_nat j) in Ez by lia. rewrite Ex in Ez.
        injection Ez as <-. lia.
      * apply (Hmin k z); [lia|exact Ez].
  - exists m. split; [exact E|exact Hm].
Qed.

Lemma selection_step (i : Z) (a : list Z) :
  0 <= i < size arr - 1 -> sorted_upto arr i a ->
  exists a',
    (let min_idx := i in
     do min_idx <- for_lt_M (int (i + 1)) (size arr) (fun j min_idx =>
                     do x <- at_ a j;
                     do y <- at_ a min_idx;
                     if decide (x < y) then Ret j else Ret min_idx) min_idx;
     if decide (min_idx <> i) then SortSearchDemo.swap a i min_idx
     else Ret a) = Ret a' /\
    sorted_upto arr (i + 1) a'.
Proof.
  intros Hi (Hlen & Hperm & Hsorted & Hsplit).
  destruct (selection_inner a i Hlen ltac:(lia)) as (m & E & Hm & y & Ey & Hmin).
  cbn zeta. rewrite E. cbn [bind]. unfold size in *.
  assert (exists a', (if decide (m <> i) then SortSearchDemo.swap a i m else Ret a)
                     = Ret a' /\
                     rearranged i (Z.of_nat (length arr) - 1) a a' /\
                     a' !! Z.to_nat i = Some y) as (a' & E' & Hre & Ei).
  { destruct (decide (m <> i)) as [Hne|Heq].
    - destruct (lookup_lt_is_Some_2 a (Z.to_nat i) ltac:(lia)) as [x Ex].
      destruct (swap_rearranged i (Z.of_nat (length arr) - 1) a i m x y
                  ltac:(lia) ltac:(lia) ltac:(lia) ltac:(lia) Ex Ey)
        as (a' & Eswap & Hre & Hai & _).
      exists a'. done.
    - exists a. split; [reflexivity|]. split; [apply rearranged_refl|].
      replace i with m by lia. exact Ey. }
  exists a'. split; [exact E'|].
  pose proof (rearranged_length _ _ _ _ Hre) as Hlen'.
  split; [congruence|]. split; [by rewrite (rearranged_perm _ _ _ _ Hre)|].
  assert (forall (k : nat) (x : Z), i <= Z.of_nat k -> a' !! k = Some x -> y <= x)
    as Hmin'.
  { intros k x Hk Ex. pose proof (lookup_lt_Some _ _ _ Ex).
    apply (rearranged_all _ _ _ _ (fun x => y <= x) Hre) with k; [|lia|exact Ex].
    intros k0 x0 Hk0 Ex0. apply (Hmin k0 x0); [lia|exact Ex0]. }
  split.
  - intros k1 k2 x1 x2 H1 H12 H2 E1 E2.
    destruct (decide (Z.of_nat k2 < i)) as [Hk2|Hk2].
    + rewrite (rearranged_outside _ _ _ _ k1 Hre) in E1 by lia.
      rewrite (rearranged_outside _ _ _ _ k2 Hre) in E2 by lia.
      apply (Hsorted k1 k2 x1 x2); [lia|lia|lia|exact E1|exact E2].
    + replace k2 with (Z.to_nat i) in E2 by lia. rewrite Ei in E2. injection E2 as <-.
      destruct (decide (Z.of_nat k1 < i)) as [Hk1|Hk1].
      * rewrite (rearranged_outside _ _ _ _ _ Hre) in E1 by lia.
        apply (Hsplit k1 (Z.to_nat m) x1 y); [lia|lia|exact E1|exact Ey].
      * replace k1 with (Z.to_nat i) in E1 by lia. rewrite Ei in E1.
        injection E1 as <-. lia.
  - intros k1 k2 x1 x2 H1 H2 E1 E2.
    destruct (decide (Z.of_nat k1 < i)) as [Hk1|Hk1].
    + rewrite (rearranged_outside _ _ _ _ _ Hre) in E1 by lia.
      pose proof (lookup_lt_Some _ _ _ E2).
      apply (rearranged_all _ _ _ _ (fun x => x1 <= x) Hre) with k2; [|lia|exact E2].
      intros k0 x0 Hk0 Ex0. apply (Hsplit k1 k0 x1 x0); [lia|lia|exact E1|exact Ex0].
    + replace k1 with (Z.to_nat i) in E1 by lia. rewrite Ei in E1. injection E1 as <-.
      apply (Hmin' k2 x2); [lia|exact E2].
Qed.

Lemma selection_sort_sorts :
  exists a',
    SortSearchDemo.selection_sort arr = Ret a' /\ a' ≡ₚ arr /\ Sorted Z.le a'.
Proof.
  unfold SortSearchDemo.selection_sort. cbn zeta.
  rewrite size_int by exact small.
  assert (int (size arr - 1) = size arr - 1) as ->.
  { apply int_id. unfold size, INT_MIN, INT_MAX in *. lia. }
  destruct (decide (size arr <= 1)) as [Hshort|Hlong].
  - unfold for_lt_M. replace (Z.to_nat (size arr - 1 - 0)) with O by lia.
    cbn [for_loop_M]. exists arr. split; [reflexivity|]. split; [done|].
    unfold size in Hshort.
    destruct arr as [|x [|y l]]; [constructor|repeat constructor|cbn [length] in Hshort; lia].
  - match goal with |- context [for_lt_M ?lo ?hi ?body ?s] =>
      destruct (for_lt_M_inv (sorted_upto arr) body lo hi s)
        as (a' & E & Hlen & Hperm & Hsorted & Hsplit) end.
    + lia.
    + split; [done|]. split; [done|]. split.
      * intros k1 k2 x1 x2 H1 H12 H2. lia.
      * intros k1 k2 x1 x2 H1. lia.
    + intros j s Hj Hs. apply (selection_step j s ltac:(lia) Hs).
    + exists a'. split; [exact E|]. split; [exact Hperm|].
      apply sorted_between_Sorted. rewrite Hlen. fold (size arr).
      intros k1 k2 x1 x2 H1 H12 H2 E1 E2.
      destruct (decide (Z.of_nat k2 <= size arr - 1 - 1)) as [Hk2|Hk2].
      * apply (Hsorted k1 k2 x1 x2); [lia|lia|lia|exact E1|exact E2].
      * destruct (decide (k1 = k2)) as [->|Hne]; [rewrite E1 in E2; injection E2; lia|].
        apply (Hsplit k1 k2 x1 x2); [lia|lia|exact E1|exact E2].
Qed.
End SelectionSort.

(** Property X4: [selection_sort] leaves a
    vector of at most [INT_MAX] elements as a rearrangement of what it
    was, in non-decreasing order, and never reads or writes outside
    it. *)
Theorem selection_sort_spec (arr : list Z) :
  size arr <= INT_MAX ->
  exists arr' : list Z,
    SortSearchDemo.selection_sort arr = Ret arr' /\
    arr' ≡ₚ arr /\ Sorted Z.le arr'.
Proof. apply selection_sort_sorts. Qed.

Lemma selection_sort_spec_witness :
  exists arr' : list Z,
    SortSearchDemo.selection_sort [64; 34; 25; 12; 22; 11; 90] = Ret arr' /\
    arr' ≡ₚ [64; 34; 25; 12; 22; 11; 90] /\ Sorted Z.le arr'.
Proof.
  apply (selection_sort_spec [64; 34; 25; 12; 22; 11; 90]).
  unfold size, INT_MAX. cbn [length]. lia.
Defined.

Section BubbleSort.
Variable arr : list Z.
Hypothesis small : size arr <= INT_MAX.

Lemma bubble_inner_step (a : list Z) (p : Z) (j : Z) (s : list Z * bool) :
  length a = length arr -> p <= size arr ->
  0 <= j < p - 1 -> bubble_inner_inv a p j s ->
  exists s',
    (let '(arr, swapped) := s in
     do x <- at_ arr j;
     do y <- at_ arr (int (j + 1));
     if decide (x > y) then
       do arr <- SortSearchDemo.swap arr j (int (j + 1));
       Ret (arr, true)
     else Ret (arr, swapped)) = Ret s' /\
    bubble_inner_inv a p (j + 1) s'.
Proof.
  intros Hlen Hp Hj. destruct s as [b swapped]. intros (Hre & Hmax & Hsorted).
  cbn [fst snd] in *. unfold size in *.
  pose proof (rearranged_length _ _ _ _ Hre) as Hlenb.
  rewrite int_small by (unfold INT_MAX in *; lia).
  destruct (lookup_lt_is_Some_2 b (Z.to_nat j) ltac:(lia)) as [x Ex].
  destruct (lookup_lt_is_Some_2 b (Z.to_nat (j + 1)) ltac:(lia)) as [y Ey].
  rewrite (at_lookup b j x ltac:(lia) Ex). cbn [bind].
  rewrite (at_lookup b (j + 1) y ltac:(lia) Ey). cbn [bind].
  destruct (decide (x > y)) as [Hgt|Hle].
  - destruct (swap_rearranged 0 (p - 1) b j (j + 1) x y
                ltac:(lia) ltac:(lia) ltac:(lia) ltac:(lia) Ex Ey)
      as (b' & Eswap & Hre' & Hbj & Hbj1 & Hother).
    rewrite Eswap. cbn [bind]. eexists. split; [reflexivity|].
    split; [exact (rearranged_trans _ _ _ _ _ Hre Hre')|]. cbn [fst snd].
    split; [|discriminate].
    intros k z z' Hk Ez Ez'. rewrite Hbj1 in Ez'. injection Ez' as <-.
    destruct (decide (k = Z.to_nat (j + 1))) as [->|Hk1].
    { rewrite Hbj1 in Ez. injection Ez as <-. lia. }
    destruct (decide (k = Z.to_nat j)) as [->|Hk2].
    { rewrite Hbj in Ez. injection Ez as <-. lia. }
    rewrite Hother in Ez by lia. apply (Hmax k z x); [lia|exact Ez|exact Ex].
  - eexists. split; [reflexivity|]. split; [exact Hre|]. cbn [fst snd].
    assert (forall (k : nat) (z : Z), Z.of_nat k <= j + 1 -> b !! k = Some z -> z <= y)
      as Hmax'.
    { intros k z Hk Ez.
      destruct (decide (k = Z.to_nat (j + 1))) as [->|Hk1].
      - rewrite Ey in Ez. injection Ez as <-. lia.
      - specialize (Hmax k z x ltac:(lia) Ez Ex). lia. }
    split.
    + intros k z z' Hk Ez Ez'. rewrite Ey in Ez'. injection Ez' as <-.
      apply (Hmax' k z Hk Ez).
    + intros Hsw k1 k2 x1 x2 H1 H12 H2 E1 E2.
      destruct (decide (k2 = Z.to_nat (j + 1))) as [->|Hk2].
      * rewrite Ey in E2. injection E2 as <-. apply (Hmax' k1 x1); [lia|exact E1].
      * apply (Hsorted Hsw k1 k2 x1 x2); [lia|lia|lia|exact E1|exact E2].
Qed.

Lemma bubble_inner (a : list Z) (p : Z) :
  1 <= p <= size arr -> sorted_from arr p a ->
  exists (b : list Z) (swapped : bool),
    for_lt_M 0 (p - 1) (fun j '(arr, swapped) =>
      do x <- at_ arr j;
      do y <- at_ arr (int (j + 1));
      if decide (x > y) then
        do arr <- SortSearchDemo.swap arr j (int (j + 1));
        Ret (arr, true)
      else Ret (arr, swapped)) (a, false) = Ret (b, swapped) /\
    sorted_from arr (p - 1) b /\
    (swapped = false -> sorted_between 0 (size arr - 1) b).
Proof.
  intros Hp (Hlen & Hperm & Hsorted & Hsplit).
  match goal with |- context [for_lt_M ?lo ?hi ?body ?s] =>
    destruct (for_lt_M_inv (bubble_inner_inv a p) body lo hi s)
      as ([b swapped] & E & Hre & Hmax & Hsw) end.
  - lia.
  - split; [apply rearranged_refl|]. cbn [fst snd]. split.
    + intros k x y Hk Ex Ey. replace k with (Z.to_nat 0) in Ex by lia.
      rewrite Ex in Ey. injection Ey as <-. lia.
    + intros _ k1 k2 x1 x2 H1 H12 H2 E1 E2. replace k2 with k1 in E2 by lia.
      rewrite E1 in E2. injection E2 as <-. lia.
  - intros j s Hj Hs. apply (bubble_inner_step a p j s Hlen ltac:(lia) ltac:(lia) Hs).
  - cbn [fst snd] in *. exists b, swapped. split; [exact E|].
    pose proof (rearranged_length _ _ _ _ Hre) as Hlenb. unfold size in *.
    assert (forall (k1 k2 : nat) (x1 x2 : Z),
              Z.of_nat k1 <= p - 1 -> p <= Z.of_nat k2 ->
              b !! k1 = Some x1 -> b !! k2 = Some x2 -> x1 <= x2) as Hcross.
    { intros k1 k2 x1 x2 H1 H2 E1 E2.
      rewrite (rearranged_outside _ _ _ _ k2 Hre) in E2 by lia.
      apply (rearranged_all _ _ _ _ (fun x => x <= x2) Hre) with k1; [|lia|exact E1].
      intros k0 x0 Hk0 E0. apply (Hsplit k0 k2 x0 x2); [lia|lia|exact E0|exact E2]. }
    assert (sorted_between (p - 1) (Z.of_nat (length arr) - 1) b) as Hsorted'.
    { intros k1 k2 x1 x2 H1 H12 H2 E1 E2.
      destruct (decide (p <= Z.of_nat k1)) as [Hk1|Hk1].
      - rewrite (rearranged_outside _ _ _ _ k1 Hre) in E1 by lia.
        rewrite (rearranged_outside _ _ _ _ k2 Hre) in E2 by lia.
        apply (Hsorted k1 k2 x1 x2); [lia|lia|lia|exact E1|exact E2].
      - destruct (decide (k1 = k2)) as [->|Hne].
        + rewrite E1 in E2. injection E2 as <-. lia.
        + apply (Hcross k1 k2 x1 x2); [lia|lia|exact E1|exact E2]. }
    assert (forall (k1 k2 : nat) (x1 x2 : Z),
              Z.of_nat k1 < p - 1 -> p - 1 <= Z.of_nat k2 ->
              b !! k1 = Some x1 -> b !! k2 = Some x2 -> x1 <= x2) as Hsplit'.
    { intros k1 k2 x1 x2 H1 H2 E1 E2.
      destruct (decide (p <= Z.of_nat k2)) as [Hk2|Hk2].
      - apply (Hcross k1 k2 x1 x2); [lia|lia|exact E1|exact E2].
      - replace k2 with (Z.to_nat (p - 1)) in E2 by lia.
        apply (Hmax k1 x1 x2); [lia|exact E1|exact E2]. }
    split.
    + split; [congruence|]. split; [by rewrite (rearranged_perm _ _ _ _ Hre)|].
      split; [exact Hsorted'|exact Hsplit'].
    + intros Hfalse k1 k2 x1 x2 H1 H12 H2 E1 E2.
      destruct (decide (Z.of_nat k2 <= p - 1)) as [Hk2|Hk2].
      * apply (Hsw Hfalse k1 k2 x1 x2); [lia|lia|lia|exact E1|exact E2].
      * destruct (decide (Z.of_nat k1 < p - 1)) as [Hk1|Hk1].
        -- apply (Hsplit' k1 k2 x1 x2); [lia|lia|exact E1|exact E2].
        -- apply (Hsorted' k1 k2 x1 x2); [lia|lia|lia|exact E1|exact E2].
Qed.

Lemma bubble_sort_loop_sorts (k : nat) :
  forall (i : Z) (a : list Z),
    Z.of_nat k = size arr - 1 - i -> 0 <= i ->
    sorted_from arr (size arr - i) a ->
    exists a',
      SortSearchDemo.bubble_sort_loop k i (size arr) a = Ret a' /\
      a' ≡ₚ arr /\ length a' = length arr /\
      sorted_between 0 (size arr - 1) a'.
Proof.
  induction k as [|k IH]; intros i a Hk Hi Hinv;
    cbn [SortSearchDemo.bubble_sort_loop].
  - exists a. split; [reflexivity|].
    destruct Hinv as (Hlen & Hperm & Hsorted & Hsplit).
    split; [exact Hperm|]. split; [exact Hlen|].
    intros k1 k2 x1 x2 H1 H12 H2 E1 E2.
    destruct (decide (k1 = k2)) as [->|Hne].
    { rewrite E1 in E2. injection E2 as <-. lia. }
    destruct (decide (Z.of_nat k1 < size arr - i)) as [Hk1|Hk1].
    + apply (Hsplit k1 k2 x1 x2); [lia|lia|exact E1|exact E2].
    + apply (Hsorted k1 k2 x1 x2); [lia|lia|lia|exact E1|exact E2].
  - cbn zeta.
    assert (int (int (size arr - i) - 1) = size arr - i - 1) as ->.
    { unfold size in *.
      rewrite (int_small (Z.of_nat (length arr) - i)) by (unfold INT_MAX in *; lia).
      apply int_small. unfold INT_MAX in *. lia. }
    destruct (bubble_inner a (size arr - i) ltac:(lia) Hinv)
      as (b & swapped & E & Hb & Hsw).
    rewrite E. cbn [bind].
    destruct swapped; cbn [negb].
    + apply IH; [lia|lia|].
      replace (size arr - (i + 1)) with (size arr - i - 1) by lia. exact Hb.
    + exists b. split; [reflexivity|].
      destruct Hb as (Hlen & Hperm & _). split; [exact Hperm|]. split; [exact Hlen|].
      by apply Hsw.
Qed.

Lemma bubble_sort_sorts :
  exists a',
    SortSearchDemo.bubble_sort arr = Ret a' /\ a' ≡ₚ arr /\ Sorted Z.le a'.
Proof.
  unfold SortSearchDemo.bubble_sort. cbn zeta.
  rewrite size_int by exact small.
  assert (int (size arr - 1) = size arr - 1) as ->.
  { apply int_id. unfold size, INT_MIN, INT_MAX in *. lia. }
  destruct (decide (size arr = 0)) as [Hempty|Hne].
  - rewrite Hempty. cbn [Z.sub Z.add Z.opp Z.to_nat SortSearchDemo.bubble_sort_loop].
    exists arr. split; [reflexivity|]. split; [done|].
    destruct arr; [constructor|unfold size in Hempty; cbn [length] in Hempty; lia].
  - destruct (bubble_sort_loop_sorts (Z.to_nat (size arr - 1 - 0)) 0 arr)
      as (a' & E & Hperm & Hlen & Hsorted).
    + unfold size in *. lia.
    + lia.
    + split; [done|]. split; [done|]. split.
      * intros k1 k2 x1 x2 H1 H12 H2. lia.
      * intros k1 k2 x1 x2 H1 H2 E1 E2.
        pose proof (lookup_lt_Some _ _ _ E2). unfold size in *. lia.
    + exists a'. split; [exact E|]. split; [exact Hperm|].
      apply sorted_between_Sorted. rewrite Hlen. exact Hsorted.
Qed.
End BubbleSort.

(** Property X5: [bubble_sort], with its early exit
    after a round without a swap, leaves a vector of at most [INT_MAX]
    elements as a rearrangement of what it was, in non-decreasing
    order, and never reads or writes outside it. *)
Theorem bubble_sort_spec (arr : list Z) :
  size arr <= INT_MAX ->
  exists arr' : list Z,
    SortSearchDemo.bubble_sort arr = Ret arr' /\
    arr' ≡ₚ arr /\ Sorted Z.le arr'.
Proof. apply bubble_sort_sorts. Qed.

Lemma bubble_sort_spec_witness :
  exists arr' : list Z,
    SortSearchDemo.bubble_sort [64; 34; 25; 12; 22; 11; 90] = Ret arr' /\
    arr' ≡ₚ [64; 34; 25; 12; 22; 11; 90] /\ Sorted Z.le arr'.
Proof.
  apply (bubble_sort_spec [64; 34; 25; 12; 22; 11; 90]).
  unfold size, INT_MAX. cbn [length]. lia.
Defined.

Section InsertionSort.
Variable arr : list Z.
Hypothesis small : size arr <= INT_MAX.

Lemma insertion_sort_shift_spec (a : list Z) (i key : Z) (fuel : nat) :
  length a = length arr -> 0 <= i < size arr ->
  forall (j : Z) (b : list Z),
    j + 1 <= Z.of_nat fuel -> shift_inv a i key j b ->
    exists (b' : list Z) (j' : Z),
      SortSearchDemo.insertion_sort_shift fuel b j key = Ret (b', j') /\
      shift_inv a i key j' b' /\
      (j' = -1 \/ exists x, b' !! Z.to_nat j' = Some x /\ x <= key).
Proof.
  intros Hlen Hi. unfold size in *.
  induction fuel as [|fuel IH]; intros j b Hfuel Hinv;
    pose proof Hinv as (Hlenb & Hj & Hperm & Hsame & Hshift & Hgt);
    cbn [SortSearchDemo.insertion_sort_shift].
  - destruct (decide (j >= 0)) as [Hj0|Hj0]; [lia|].
    exists b, j. split; [reflexivity|]. split; [exact Hinv|]. left. lia.
  - destruct (decide (j >= 0)) as [Hj0|Hj0].
    2:{ exists b, j. split; [reflexivity|]. split; [exact Hinv|]. left. lia. }
    destruct (lookup_lt_is_Some_2 b (Z.to_nat j) ltac:(lia)) as [x Ex].
    rewrite (at_lookup b j x ltac:(lia) Ex). cbn [bind].
    destruct (decide (x > key)) as [Hx|Hx].
    2:{ exists b, j. split; [reflexivity|]. split; [exact Hinv|].
        right. exists x. split; [exact Ex|lia]. }
    rewrite (int_small (j + 1)) by (unfold INT_MAX in *; lia).
    rewrite set_at_Ret by lia. cbn [bind].
    rewrite (int_id (j - 1)) by (unfold INT_MIN, INT_MAX in *; lia).
    apply IH; [lia|].
    split; [by rewrite length_insert|]. split; [lia|].
    replace (Z.to_nat (j - 1 + 1)) with (Z.to_nat j) by lia.
    split; [|split; [|split]].
    + rewrite <- Hperm.
      rewrite <- (list_insert_insert_eq b (Z.to_nat (j + 1)) x key).
      rewrite list_insert_insert_ne by lia.
      apply Permutation_insert_swap.
      * rewrite list_lookup_insert_ne by lia. exact Ex.
      * apply list_lookup_insert_eq. lia.
    + intros k Hk. rewrite list_lookup_insert_ne by lia. apply Hsame. lia.
    + intros k Hk. destruct (decide (k = Z.to_nat (j + 1))) as [->|Hne].
      * rewrite list_lookup_insert_eq by lia.
        replace (Z.to_nat (j + 1) - 1)%nat with (Z.to_nat j) by lia.
        rewrite <- Hsame by lia. by rewrite Ex.
      * rewrite list_lookup_insert_ne by lia. apply Hshift. lia.
    + intros k y Hk. destruct (decide (k = Z.to_nat (j + 1))) as [->|Hne].
      * rewrite list_lookup_insert_eq by lia. intros [= <-]. lia.
      * rewrite list_lookup_insert_ne by lia. apply Hgt. lia.
Qed.

Lemma insertion_sort_step (fuel : nat) (i : Z) (a : list Z) :
  size arr <= Z.of_nat fuel ->
  1 <= i < size arr -> prefix_sorted arr i a ->
  exists a',
    (do key <- at_ a i;
     let j := int (i - 1) in
     do (arr, j) <- SortSearchDemo.insertion_sort_shift fuel a j key;
     set_at arr (int (j + 1)) key) = Ret a' /\
    prefix_sorted arr (i + 1) a'.
Proof.
  intros Hfuel Hi (Hlen & Hperm & Hsorted). unfold size in *.
  destruct (lookup_lt_is_Some_2 a (Z.to_nat i) ltac:(lia)) as [key Ekey].
  rewrite (at_lookup a i key ltac:(lia) Ekey). cbn [bind]. cbn zeta.
  rewrite (int_small (i - 1)) by (unfold INT_MAX in *; lia).
  destruct (insertion_sort_shift_spec a i key fuel Hlen ltac:(unfold size; lia)
              (i - 1) a ltac:(lia))
    as (b & j & E & (Hlenb & Hj & Hpermb & Hsame & Hshift & Hgt) & Hstop).
  { split; [done|]. split; [lia|].
    replace (i - 1 + 1) with i by lia.
    split; [by rewrite list_insert_id|].
    split; [done|]. split; intros k; lia. }
  rewrite E. cbn [bind].
  rewrite (int_small (j + 1)) by (unfold INT_MAX in *; lia).
  rewrite set_at_Ret by lia.
  eexists. split; [reflexivity|].
  split; [rewrite length_insert; congruence|].
  split; [by rewrite Hpermb|].
  replace (i + 1 - 1) with i by lia.
  assert (forall (k : nat) (x : Z), Z.of_nat k <= j -> a !! k = Some x -> x <= key)
    as Hbelow.
  { intros k x Hk Ex. destruct Hstop as [->|(y & Ey & Hy)]; [lia|].
    rewrite Hsame in Ey by lia.
    pose proof (Hsorted k (Z.to_nat j) x y ltac:(lia) ltac:(lia) ltac:(lia) Ex Ey). lia. }
  intros k1 k2 x1 x2 H1 H12 H2.
  destruct (decide (k2 = Z.to_nat (j + 1))) as [->|Hk2].
  - rewrite list_lookup_insert_eq by lia. intros E1 [= <-].
    destruct (decide (k1 = Z.to_nat (j + 1))) as [->|Hk1].
    + rewrite list_lookup_insert_eq in E1 by lia. injection E1 as <-. lia.
    + rewrite list_lookup_insert_ne in E1 by lia.
      rewrite Hsame in E1 by lia. apply (Hbelow k1 x1); [lia|exact E1].
  - rewrite (list_lookup_insert_ne _ _ k2) by lia.
    destruct (decide (Z.of_nat k2 <= j)) as [Hlow|Hhigh].
    + rewrite list_lookup_insert_ne by lia.
      rewrite !Hsame by lia. intros E1 E2.
      apply (Hsorted k1 k2 x1 x2); [lia|lia|lia|exact E1|exact E2].
    + intros E1 E2. pose proof (Hgt k2 x2 ltac:(lia) E2) as Hx2.
      rewrite Hshift in E2 by lia.
      destruct (decide (k1 = Z.to_nat (j + 1))) as [->|Hk1].
      * rewrite list_lookup_insert_eq in E1 by lia. injection E1 as <-. lia.
      * rewrite list_lookup_insert_ne in E1 by lia.
        destruct (decide (Z.of_nat k1 <= j)) as [Hlow1|Hhigh1].
        -- rewrite Hsame in E1 by lia.
           apply (Hsorted k1 (k2 - 1)%nat x1 x2); [lia|lia|lia|exact E1|exact E2].
        -- rewrite Hshift in E1 by lia.
           apply (Hsorted (k1 - 1)%nat (k2 - 1)%nat x1 x2); [lia|lia|lia|exact E1|exact E2].
Qed.

Lemma insertion_sort_sorts (fuel : nat) :
  size arr <= Z.of_nat fuel ->
  exists a',
    SortSearchDemo.insertion_sort fuel arr = Ret a' /\ a' ≡ₚ arr /\ Sorted Z.le a'.
Proof.
  intros Hfuel. unfold SortSearchDemo.insertion_sort. cbn zeta.
  rewrite size_int by exact small.
  destruct (decide (size arr = 0)) as [Hempty|Hne].
  - rewrite Hempty. unfold for_lt_M. cbn [Z.sub Z.add Z.opp Z.to_nat for_loop_M].
    exists arr. split; [reflexivity|]. split; [done|].
    destruct arr; [constructor|unfold size in Hempty; cbn [length] in Hempty; lia].
  - match goal with |- context [for_lt_M ?lo ?hi ?body ?s] =>
      destruct (for_lt_M_inv (prefix_sorted arr) body lo hi s)
        as (a' & E & Hlen & Hperm & Hsorted) end.
    + unfold size in *. lia.
    + split; [done|]. split; [done|].
      intros k1 k2 x1 x2 H1 H12 H2 E1 E2. replace k2 with k1 in E2 by lia.
      rewrite E1 in E2. injection E2 as <-. lia.
    + intros j s Hj Hs. apply (insertion_sort_step fuel j s Hfuel Hj Hs).
    + exists a'. split; [exact E|]. split; [exact Hperm|].
      apply sorted_between_Sorted. rewrite Hlen. exact Hsorted.
Qed.
End InsertionSort.

(** Property X6: [insertion_sort] leaves a
    vector of at most [INT_MAX] elements as a rearrangement of what it
    was, in non-decreasing order; its inner loop never runs more rounds
    than the vector has elements, and stays inside the vector although
    its counter reaches -1. *)
Theorem insertion_sort_spec (arr : list Z) (fuel : nat) :
  size arr <= INT_MAX -> (length arr <= fuel)%nat ->
  exists arr' : list Z,
    SortSearchDemo.insertion_sort fuel arr = Ret arr' /\
    arr' ≡ₚ arr /\ Sorted Z.le arr'.
Proof.
  intros Hsmall Hfuel. apply insertion_sort_sorts; [exact Hsmall|].
  unfold size. lia.
Qed.

Lemma insertion_sort_spec_witness :
  exists arr' : list Z,
    SortSearchDemo.insertion_sort 7 [64; 34; 25; 12; 22; 11; 90] = Ret arr' /\
    arr' ≡ₚ [64; 34; 25; 12; 22; 11; 90] /\ Sorted Z.le arr'.
Proof.
  apply (insertion_sort_spec [64; 34; 25; 12; 22; 11; 90] 7).
  - unfold size, INT_MAX. cbn [length]. lia.
  - cbn [length]. lia.
Defined.

(** ** sort_search_demo.cpp: merge sort *)

Lemma segment_nil (a : list Z) (lo : Z) : segment a lo lo = [].
Proof. unfold segment. by rewrite Z.sub_diag. Qed.

Lemma segment_snoc (a : list Z) (lo hi x : Z) :
  0 <= lo <= hi -> a !! Z.to_nat hi = Some x ->
  segment a lo (hi + 1) = segment a lo hi ++ [x].
Proof.
  intros H E. unfold segment.
  replace (Z.to_nat (hi + 1 - lo)) with (S (Z.to_nat (hi - lo))) by lia.
  apply take_S_r. rewrite lookup_drop.
  replace (Z.to_nat lo + Z.to_nat (hi - lo))%nat with (Z.to_nat hi) by lia. exact E.
Qed.

Lemma segment_app (a : list Z) (lo m hi : Z) :
  0 <= lo <= m -> m <= hi ->
  segment a lo hi = segment a lo m ++ segment a m hi.
Proof.
  intros H1 H2. unfold segment.
  replace (Z.to_nat (hi - lo)) with (Z.to_nat (m - lo) + Z.to_nat (hi - m))%nat by lia.
  rewrite <- take_take_drop, drop_drop.
  by replace (Z.to_nat lo + Z.to_nat (m - lo))%nat with (Z.to_nat m) by lia.
Qed.

Lemma segment_lookup (a : list Z) (lo hi : Z) (x : Z) :
  0 <= lo -> x ∈ segment a lo hi ->
  exists k : nat, lo <= Z.of_nat k < hi /\ a !! k = Some x.
Proof.
  intros Hlo [p Ep]%list_elem_of_lookup. unfold segment in Ep.
  apply lookup_take_Some in Ep as [Ep Hp]. rewrite lookup_drop in Ep.
  exists (Z.to_nat lo + p)%nat. split; [lia|exact Ep].
Qed.

Lemma lookup_segment (a : list Z) (lo hi : Z) (k : nat) (x : Z) :
  lo <= Z.of_nat k < hi -> 0 <= lo -> a !! k = Some x -> x ∈ segment a lo hi.
Proof.
  intros Hk Hlo E. apply list_elem_of_lookup.
  exists (k - Z.to_nat lo)%nat. unfold segment.
  apply lookup_take_Some. split; [|lia]. rewrite lookup_drop.
  by replace (Z.to_nat lo + (k - Z.to_nat lo))%nat with k by lia.
Qed.

Lemma segment_split (a : list Z) (lo hi : Z) :
  0 <= lo <= hi -> hi <= Z.of_nat (length a) ->
  a = take (Z.to_nat lo) a ++ segment a lo hi ++ drop (Z.to_nat hi) a.
Proof.
  intros H1 H2. unfold segment.
  rewrite <- (take_drop (Z.to_nat lo) a) at 1. f_equal.
  rewrite <- (take_drop (Z.to_nat (hi - lo)) (drop (Z.to_nat lo) a)) at 1. f_equal.
  rewrite drop_drop. f_equal. lia.
Qed.

(** A vector that holds [t] from position [lo] on and is [a] elsewhere. *)
Lemma splice_eq (a a' t : list Z) (lo : nat) :
  length a' = length a -> (lo + length t <= length a)%nat ->
  (forall p : nat, (p < length t)%nat -> a' !! (lo + p)%nat = t !! p) ->
  (forall q : nat, (q < lo)%nat \/ (lo + length t <= q)%nat -> a' !! q = a !! q) ->
  a' = take lo a ++ t ++ drop (lo + length t) a.
Proof.
  intros Hlen Hfit Hin Hout. apply list_eq. intros q.
  destruct (decide (q < lo)%nat) as [H1|H1].
  { rewrite lookup_app_l by (rewrite length_take; lia).
    rewrite lookup_take_lt by lia. apply Hout. lia. }
  rewrite lookup_app_r by (rewrite length_take; lia).
  rewrite length_take_le by lia.
  destruct (decide (q < lo + length t)%nat) as [H2|H2].
  { rewrite lookup_app_l by lia.
    replace q with (lo + (q - lo))%nat at 1 by lia. apply Hin. lia. }
  rewrite lookup_app_r by lia. rewrite lookup_drop.
  replace (lo + length t + (q - lo - length t))%nat with q by lia. apply Hout. lia.
Qed.

Lemma take_insert_snoc (t : list Z) (k : nat) (x : Z) :
  (k < length t)%nat -> take (S k) (<[k := x]> t) = take k t ++ [x].
Proof.
  intros Hk. rewrite (take_S_r _ _ x) by (by apply list_lookup_insert_eq).
  by rewrite take_insert_ge by lia.
Qed.

Lemma vector_fill_int (n x : Z) :
  0 <= n <= INT_MAX -> vector_fill 4 n x = Ret (replicate (Z.to_nat n) x).
Proof.
  intros Hn. apply vector_fill_Ret; [lia|].
  assert (vector_max_size 4 = 2305843009213693951) as -> by reflexivity.
  unfold INT_MAX in Hn. lia.
Qed.

Section Merge.
Variables (arr : list Z) (left mid right : Z).
Hypothesis bounds : 0 <= left <= mid /\ mid < right /\ right < size arr.
Hypothesis small : size arr <= INT_MAX.
Hypothesis left_run : sorted_between left mid arr.
Hypothesis right_run : sorted_between (mid + 1) right arr.

Local Abbreviation merging := (merge_inv arr left mid right).

Lemma merge_take_left (temp : list Z) (i j k x : Z) :
  merging (temp, i, j, k) -> i <= mid ->
  arr !! Z.to_nat i = Some x ->
  (forall y, j <= right -> arr !! Z.to_nat j = Some y -> x <= y) ->
  merging (<[Z.to_nat k := x]> temp, i + 1, j, k + 1).
Proof.
  intros (Hi & Hj & Hk & Hlen & Hperm & Hsorted & Hli & Hlj) Him Ex Hxy.
  unfold size in *.
  split; [lia|]. split; [lia|]. split; [lia|].
  split; [by rewrite length_insert|].
  split; [|split; [|split]].
  - replace (Z.to_nat (k + 1)) with (S (Z.to_nat k)) by lia.
    rewrite take_insert_snoc by lia.
    rewrite (segment_snoc arr left i x) by (done || lia).
    rewrite Hperm. solve_Permutation.
  - intros k1 k2 x1 x2 H1 H12 H2.
    destruct (decide (k2 = Z.to_nat k)) as [->|Hk2].
    + rewrite list_lookup_insert_eq by lia. intros E1 [= <-].
      destruct (decide (k1 = Z.to_nat k)) as [->|Hk1].
      * rewrite list_lookup_insert_eq in E1 by lia. injection E1 as <-. lia.
      * rewrite list_lookup_insert_ne in E1 by lia.
        apply (Hli k1 x1 x); [lia|exact E1|exact Him|exact Ex].
    + rewrite !list_lookup_insert_ne by lia. intros E1 E2.
      apply (Hsorted k1 k2 x1 x2); [lia|lia|lia|exact E1|exact E2].
  - intros p z y Hp Ez Him' Ey.
    replace (Z.to_nat (i + 1)) with (S (Z.to_nat i)) in Ey by lia.
    pose proof (left_run (Z.to_nat i) (S (Z.to_nat i)) x y
                  ltac:(lia) ltac:(lia) ltac:(lia) Ex Ey) as Hxy'.
    destruct (decide (p = Z.to_nat k)) as [->|Hne].
    + rewrite list_lookup_insert_eq in Ez by lia. injection Ez as <-. exact Hxy'.
    + rewrite list_lookup_insert_ne in Ez by lia.
      pose proof (Hli p z x ltac:(lia) Ez Him Ex). lia.
  - intros p z y Hp Ez Hjr Ey.
    destruct (decide (p = Z.to_nat k)) as [->|Hne].
    + rewrite list_lookup_insert_eq in Ez by lia. injection Ez as <-.
      apply (Hxy y Hjr Ey).
    + rewrite list_lookup_insert_ne in Ez by lia.
      apply (Hlj p z y); [lia|exact Ez|exact Hjr|exact Ey].
Qed.

Lemma merge_take_right (temp : list Z) (i j k y : Z) :
  merging (temp, i, j, k) -> j <= right ->
  arr !! Z.to_nat j = Some y ->
  (forall x, i <= mid -> arr !! Z.to_nat i = Some x -> y <= x) ->
  merging (<[Z.to_nat k := y]> temp, i, j + 1, k + 1).
Proof.
  intros (Hi & Hj & Hk & Hlen & Hperm & Hsorted & Hli & Hlj) Hjr Ey Hyx.
  unfold size in *.
  split; [lia|]. split; [lia|]. split; [lia|].
  split; [by rewrite length_insert|].
  split; [|split; [|split]].
  - replace (Z.to_nat (k + 1)) with (S (Z.to_nat k)) by lia.
    rewrite take_insert_snoc by lia.
    rewrite (segment_snoc arr (mid + 1) j y) by (done || lia).
    rewrite Hperm. solve_Permutation.
  - intros k1 k2 x1 x2 H1 H12 H2.
    destruct (decide (k2 = Z.to_nat k)) as [->|Hk2].
    + rewrite list_lookup_insert_eq by lia. intros E1 [= <-].
      destruct (decide (k1 = Z.to_nat k)) as [->|Hk1].
      * rewrite list_lookup_insert_eq in E1 by lia. injection E1 as <-. lia.
      * rewrite list_lookup_insert_ne in E1 by lia.
        apply (Hlj k1 x1 y); [lia|exact E1|exact Hjr|exact Ey].
    + rewrite !list_lookup_insert_ne by lia. intros E1 E2.
      apply (Hsorted k1 k2 x1 x2); [lia|lia|lia|exact E1|exact E2].
  - intros p z x Hp Ez Him Ex.
    destruct (decide (p = Z.to_nat k)) as [->|Hne].
    + rewrite list_lookup_insert_eq in Ez by lia. injection Ez as <-.
      apply (Hyx x Him Ex).
    + rewrite list_lookup_insert_ne in Ez by lia.
      apply (Hli p z x); [lia|exact Ez|exact Him|exact Ex].
  - intros p z y' Hp Ez Hjr' Ey'.
    replace (Z.to_nat (j + 1)) with (S (Z.to_nat j)) in Ey' by lia.
    pose proof (right_run (Z.to_nat j) (S (Z.to_nat j)) y y'
                  ltac:(lia) ltac:(lia) ltac:(lia) Ey Ey') as Hyy.
    destruct (decide (p = Z.to_nat k)) as [->|Hne].
    + rewrite list_lookup_insert_eq in Ez by lia. injection Ez as <-. exact Hyy.
    + rewrite list_lookup_insert_ne in Ez by lia.
      pose proof (Hlj p z y ltac:(lia) Ez Hjr Ey). lia.
Qed.

Lemma merge_both_spec (fuel : nat) :
  forall (temp : list Z) (i j k : Z),
    merging (temp, i, j, k) ->
    (mid + 1 - i) + (right + 1 - j) <= Z.of_nat fuel ->
    exists (temp' : list Z) (i' j' k' : Z),
      SortSearchDemo.merge_both fuel arr temp mid right i j k
      = Ret (temp', i', j', k') /\
      merging (temp', i', j', k') /\ (i' = mid + 1 \/ j' = right + 1).
Proof.
  unfold size in *.
  induction fuel as [|fuel IH]; intros temp i j k Hinv Hfuel;
    pose proof Hinv as (Hi & Hj & Hk & Hlen & _);
    cbn [SortSearchDemo.merge_both].
  - destruct (decide (i <= mid /\ j <= right)) as [Hin|Hout]; [lia|].
    exists temp, i, j, k. split; [reflexivity|]. split; [exact Hinv|]. lia.
  - destruct (decide (i <= mid /\ j <= right)) as [[Him Hjr]|Hout].
    2:{ exists temp, i, j, k. split; [reflexivity|]. split; [exact Hinv|]. lia. }
    destruct (lookup_lt_is_Some_2 arr (Z.to_nat i) ltac:(lia)) as [x Ex].
    destruct (lookup_lt_is_Some_2 arr (Z.to_nat j) ltac:(lia)) as [y Ey].
    rewrite (at_lookup arr i x ltac:(lia) Ex). cbn [bind].
    rewrite (at_lookup arr j y ltac:(lia) Ey). cbn [bind].
    rewrite (int_small (k + 1)) by (unfold INT_MAX in *; lia).
    destruct (decide (x <= y)) as [Hxy|Hxy].
    + rewrite set_at_Ret by lia. cbn [bind].
      rewrite (int_small (i + 1)) by (unfold INT_MAX in *; lia).
      apply IH; [|lia].
      apply merge_take_left; [exact Hinv|exact Him|exact Ex|].
      intros y' _ Ey'. rewrite Ey in Ey'. injection Ey' as <-. exact Hxy.
    + rewrite set_at_Ret by lia. cbn [bind].
      rewrite (int_small (j + 1)) by (unfold INT_MAX in *; lia).
      apply IH; [|lia].
      apply merge_take_right; [exact Hinv|exact Hjr|exact Ey|].
      intros x' _ Ex'. rewrite Ex in Ex'. injection Ex' as <-. lia.
Qed.

Lemma merge_rest_left (fuel : nat) :
  forall (temp : list Z) (i k : Z),
    merging (temp, i, right + 1, k) ->
    mid + 1 - i <= Z.of_nat fuel ->
    exists (temp' : list Z) (k' : Z),
      SortSearchDemo.merge_rest fuel arr temp mid i k = Ret (temp', mid + 1, k') /\
      merging (temp', mid + 1, right + 1, k').
Proof.
  unfold size in *.
  induction fuel as [|fuel IH]; intros temp i k Hinv Hfuel;
    pose proof Hinv as (Hi & Hj & Hk & Hlen & _);
    cbn [SortSearchDemo.merge_rest].
  - destruct (decide (i <= mid)) as [Hin|Hout]; [lia|].
    exists temp, k. replace (mid + 1) with i by lia. done.
  - destruct (decide (i <= mid)) as [Him|Hout].
    2:{ exists temp, k. replace (mid + 1) with i by lia. done. }
    destruct (lookup_lt_is_Some_2 arr (Z.to_nat i) ltac:(lia)) as [x Ex].
    rewrite (at_lookup arr i x ltac:(lia) Ex). cbn [bind].
    rewrite set_at_Ret by lia. cbn [bind].
    rewrite (int_small (k + 1)) by (unfold INT_MAX in *; lia).
    rewrite (int_small (i + 1)) by (unfold INT_MAX in *; lia).
    apply IH; [|lia].
    apply merge_take_left; [exact Hinv|exact Him|exact Ex|]. intros y Hy. lia.
Qed.

Lemma merge_rest_right (fuel : nat) :
  forall (temp : list Z) (j k : Z),
    merging (temp, mid + 1, j, k) ->
    right + 1 - j <= Z.of_nat fuel ->
    exists (temp' : list Z) (k' : Z),
      SortSearchDemo.merge_rest fuel arr temp right j k = Ret (temp', right + 1, k') /\
      merging (temp', mid + 1, right + 1, k').
Proof.
  unfold size in *.
  induction fuel as [|fuel IH]; intros temp j k Hinv Hfuel;
    pose proof Hinv as (Hi & Hj & Hk & Hlen & _);
    cbn [SortSearchDemo.merge_rest].
  - destruct (decide (j <= right)) as [Hin|Hout]; [lia|].
    exists temp, k. replace (right + 1) with j by lia. done.
  - destruct (decide (j <= right)) as [Hjr|Hout].
    2:{ exists temp, k. replace (right + 1) with j by lia. done. }
    destruct (lookup_lt_is_Some_2 arr (Z.to_nat j) ltac:(lia)) as [y Ey].
    rewrite (at_lookup arr j y ltac:(lia) Ey). cbn [bind].
    rewrite set_at_Ret by lia. cbn [bind].
    rewrite (int_small (k + 1)) by (unfold INT_MAX in *; lia).
    rewrite (int_small (j + 1)) by (unfold INT_MAX in *; lia).
    apply IH; [|lia].
    apply merge_take_right; [exact Hinv|exact Hjr|exact Ey|]. intros x Hx. lia.
Qed.

Lemma merge_copy (temp : list Z) :
  length temp = Z.to_nat (right - left + 1) ->
  exists a',
    for_lt_M 0 (right - left + 1) (fun i arr =>
      do x <- at_ temp i;
      set_at arr (int (left + i)) x) arr = Ret a' /\
    a' = take (Z.to_nat left) arr ++ temp ++ drop (Z.to_nat (right + 1)) arr.
Proof.
  intros Hlen. unfold size in *.
  match goal with |- context [for_lt_M ?lo ?hi ?body ?s] =>
    destruct (for_lt_M_inv (copy_inv arr left temp) body lo hi s)
      as (a' & E & Hlen' & Hin & Hout) end.
  - lia.
  - split; [done|]. split; [intros p; lia|done].
  - intros c a Hc (Hlena & Hin & Hout).
    destruct (lookup_lt_is_Some_2 temp (Z.to_nat c) ltac:(lia)) as [x Ex].
    rewrite (at_lookup temp c x ltac:(lia) Ex). cbn [bind].
    rewrite (int_small (left + c)) by (unfold INT_MAX in *; lia).
    rewrite set_at_Ret by lia.
    eexists. split; [reflexivity|].
    split; [by rewrite length_insert|]. split.
    + intros p Hp. destruct (decide (p = Z.to_nat c)) as [->|Hne].
      * replace (Z.to_nat left + Z.to_nat c)%nat with (Z.to_nat (left + c)) by lia.
        rewrite list_lookup_insert_eq by lia. by rewrite Ex.
      * rewrite list_lookup_insert_ne by lia. apply Hin. lia.
    + intros q Hq. rewrite list_lookup_insert_ne by lia. apply Hout. lia.
  - exists a'. split; [exact E|].
    replace (Z.to_nat (right + 1)) with (Z.to_nat left + length temp)%nat by lia.
    apply splice_eq; [exact Hlen'|lia| |].
    + intros p Hp. apply Hin. lia.
    + intros q Hq. apply Hout. lia.
Qed.

Lemma merge_spec (fuel : nat) :
  right - left + 1 <= Z.of_nat fuel ->
  exists a',
    SortSearchDemo.merge fuel arr left mid right = Ret a' /\
    rearranged left right arr a' /\ sorted_between left right a'.
Proof.
  intros Hfuel. unfold SortSearchDemo.merge. unfold size in *.
  rewrite (int_small (right - left)) by (unfold INT_MAX in *; lia).
  rewrite (int_small (right - left + 1)) by (unfold INT_MAX in *; lia).
  rewrite vector_fill_int by (unfold INT_MAX in *; lia).
  cbn [bind]. cbn zeta.
  rewrite (int_small (mid + 1)) by (unfold INT_MAX in *; lia).
  destruct (merge_both_spec fuel (replicate (Z.to_nat (right - left + 1)) 0)
              left (mid + 1) 0)
    as (t1 & i1 & j1 & k1 & E1 & Hinv1 & Hexit); [|lia|].
  { split; [lia|]. split; [lia|]. split; [lia|].
    split; [by rewrite length_replicate|].
    split; [by rewrite !segment_nil|].
    split; [|split]; intros p; intros; lia. }
  rewrite E1. cbn [bind].
  pose proof Hinv1 as (Hi1 & Hj1 & _).
  assert (exists t2 k2,
            SortSearchDemo.merge_rest fuel arr t1 mid i1 k1 = Ret (t2, mid + 1, k2) /\
            merging (t2, mid + 1, j1, k2)) as (t2 & k2 & E2 & Hinv2).
  { destruct Hexit as [->| ->].
    - exists t1, k1. split; [|exact Hinv1].
      destruct fuel; cbn [SortSearchDemo.merge_rest];
        destruct (decide (mid + 1 <= mid)); (lia || reflexivity).
    - apply merge_rest_left; [exact Hinv1|lia]. }
  rewrite E2. cbn [bind].
  pose proof Hinv2 as (_ & Hj2 & _).
  destruct (merge_rest_right fuel t2 j1 k2 Hinv2 ltac:(lia))
    as (t3 & k3 & E3 & Hinv3).
  rewrite E3. cbn [bind].
  destruct Hinv3 as (_ & _ & Hk3 & Hlen3 & Hperm3 & Hsorted3 & _).
  replace k3 with (right - left + 1) by lia.
  destruct (merge_copy t3 Hlen3) as (a' & E4 & Ha').
  exists a'. split; [exact E4|].
  rewrite take_ge in Hperm3 by lia.
  rewrite <- (segment_app arr left (mid + 1) (right + 1)) in Hperm3 by lia.
  pose proof (segment_split arr left (right + 1) ltac:(lia) ltac:(lia)) as Harr.
  assert (length a' = length arr) as Hlen'.
  { rewrite Ha'. rewrite !length_app, length_take, length_drop. lia. }
  assert (forall (p : nat), (p < length t3)%nat ->
            a' !! (Z.to_nat left + p)%nat = t3 !! p) as Hin.
  { intros p Hp. rewrite Ha'.
    rewrite lookup_app_r by (rewrite length_take; lia).
    rewrite length_take_le by lia.
    rewrite lookup_app_l by lia. f_equal. lia. }
  assert (forall q : nat, ~ left <= Z.of_nat q <= right -> a' !! q = arr !! q) as Hout.
  { intros q Hq. rewrite Ha'.
    destruct (decide (Z.of_nat q < left)) as [H1|H1].
    - rewrite lookup_app_l by (rewrite length_take; lia).
      apply lookup_take_lt. lia.
    - rewrite lookup_app_r by (rewrite length_take; lia).
      rewrite length_take_le by lia.
      rewrite lookup_app_r by lia. rewrite lookup_drop. f_equal. lia. }
  split.
  - split; [exact Hlen'|]. split; [|split; [exact Hout|]].
    + rewrite Ha', Hperm3. by rewrite <- Harr.
    + intros P HP q x Hq Ex.
      replace q with (Z.to_nat left + (q - Z.to_nat left))%nat in Ex by lia.
      rewrite Hin in Ex by lia.
      apply list_elem_of_lookup_2 in Ex. rewrite Hperm3 in Ex.
      destruct (segment_lookup arr left (right + 1) x ltac:(lia) Ex) as (q' & Hq' & Eq').
      apply (HP q' x); [lia|exact Eq'].
  - intros k1' k2' x1 x2 H1 H12 H2 Ex1 Ex2.
    replace k1' with (Z.to_nat left + (k1' - Z.to_nat left))%nat in Ex1 by lia.
    replace k2' with (Z.to_nat left + (k2' - Z.to_nat left))%nat in Ex2 by lia.
    rewrite Hin in Ex1, Ex2 by lia.
    apply (Hsorted3 (k1' - Z.to_nat left)%nat (k2' - Z.to_nat left)%nat x1 x2);
      [lia|lia|lia|exact Ex1|exact Ex2].
Qed.
End Merge.

Lemma sorted_between_single (low high : Z) (a : list Z) :
  high <= low -> sorted_between low high a.
Proof.
  intros H k1 k2 x1 x2 H1 H12 H2 E1 E2. replace k2 with k1 in E2 by lia.
  rewrite E1 in E2. injection E2 as <-. lia.
Qed.

Lemma merge_sort_impl_spec (fuel : nat) :
  forall (a : list Z) (left right : Z),
    0 <= left -> right < size a -> size a <= INT_MAX ->
    right - left + 1 <= Z.of_nat fuel ->
    exists a',
      SortSearchDemo.merge_sort_impl fuel a left right = Ret a' /\
      rearranged left right a a' /\ sorted_between left right a'.
Proof.
  induction fuel as [|fuel IH]; intros a left right Hl Hr Hsmall Hfuel;
    cbn [SortSearchDemo.merge_sort_impl].
  - destruct (decide (left >= right)) as [Hge|Hlt]; [|lia].
    exists a. split; [reflexivity|]. split; [apply rearranged_refl|].
    apply sorted_between_single. lia.
  - destruct (decide (left >= right)) as [Hge|Hlt].
    { exists a. split; [reflexivity|]. split; [apply rearranged_refl|].
      apply sorted_between_single. lia. }
    unfold size in *.
    destruct (mid_eq left right ltac:(lia) ltac:(lia)) as [Emid Hmid].
    cbn zeta. rewrite Emid. set (mid := left + (right - left) `div` 2) in *.
    assert (mid < right) as Hmr.
    { pose proof (Z.div_lt (right - left) 2 ltac:(lia) ltac:(lia)). unfold mid. lia. }
    assert (mid - left + 1 <= right - left) as Hhalf.
    { pose proof (Z.div_lt (right - left) 2 ltac:(lia) ltac:(lia)). unfold mid. lia. }
    destruct (IH a left mid ltac:(lia) ltac:(unfold size; lia) ltac:(unfold size; lia)
                ltac:(lia)) as (a1 & E1 & Hre1 & Hs1).
    rewrite E1. cbn [bind].
    pose proof (rearranged_length _ _ _ _ Hre1) as Hlen1.
    rewrite (int_small (mid + 1)) by (unfold INT_MAX in *; lia).
    destruct (IH a1 (mid + 1) right ltac:(lia) ltac:(unfold size; lia)
                ltac:(unfold size; lia) ltac:(lia)) as (a2 & E2 & Hre2 & Hs2).
    rewrite E2. cbn [bind].
    pose proof (rearranged_length _ _ _ _ Hre2) as Hlen2.
    destruct (merge_spec a2 left mid right) with (fuel := S fuel)
      as (a3 & E3 & Hre3 & Hs3).
    + unfold size. lia.
    + unfold size. lia.
    + intros k1 k2 x1 x2 H1 H12 H2 Ex1 Ex2.
      rewrite (rearranged_outside _ _ _ _ k1 Hre2) in Ex1 by lia.
      rewrite (rearranged_outside _ _ _ _ k2 Hre2) in Ex2 by lia.
      apply (Hs1 k1 k2 x1 x2); [lia|lia|lia|exact Ex1|exact Ex2].
    + exact Hs2.
    + lia.
    + exists a3. split; [exact E3|]. split; [|exact Hs3].
      apply (rearranged_trans _ _ _ a2); [|exact Hre3].
      apply (rearranged_trans _ _ _ a1).
      * apply (rearranged_widen left right left mid); [lia|lia|exact Hre1].
      * apply (rearranged_widen left right (mid + 1) right); [lia|lia|exact Hre2].
Qed.

Lemma merge_sort_sorts (arr : list Z) (fuel : nat) :
  size arr <= INT_MAX -> (length arr <= fuel)%nat ->
  exists arr' : list Z,
    SortSearchDemo.merge_sort fuel arr = Ret arr' /\
    arr' ≡ₚ arr /\ Sorted Z.le arr'.
Proof.
  intros Hsmall Hfuel. unfold SortSearchDemo.merge_sort.
  destruct (decide (arr = [])) as [->|Hne].
  { exists []. split; [reflexivity|]. split; [done|constructor]. }
  rewrite size_minus_one by exact Hsmall.
  destruct (merge_sort_impl_spec fuel arr 0 (size arr - 1))
    as (a' & E & Hre & Hs); [lia|lia|exact Hsmall|unfold size; lia|].
  exists a'. split; [exact E|]. split; [exact (rearranged_perm _ _ _ _ Hre)|].
  apply sorted_between_Sorted. rewrite (rearranged_length _ _ _ _ Hre). exact Hs.
Qed.

(** Property X7: [merge_sort] leaves a vector of at
    most [INT_MAX] elements as a rearrangement of what it was, in
    non-decreasing order; the recursion is never deeper and the loops
    of [merge] never longer than the vector has elements, and the
    temporary vector is filled exactly. *)
Theorem merge_sort_spec (arr : list Z) (fuel : nat) :
  size arr <= INT_MAX -> (length arr <= fuel)%nat ->
  exists arr' : list Z,
    SortSearchDemo.merge_sort fuel arr = Ret arr' /\
    arr' ≡ₚ arr /\ Sorted Z.le arr'.
Proof. apply merge_sort_sorts. Qed.

Lemma merge_sort_spec_witness :
  exists arr' : list Z,
    SortSearchDemo.merge_sort 7 [64; 34; 25; 12; 22; 11; 90] = Ret arr' /\
    arr' ≡ₚ [64; 34; 25; 12; 22; 11; 90] /\ Sorted Z.le arr'.
Proof.
  apply (merge_sort_spec [64; 34; 25; 12; 22; 11; 90] 7).
  - unfold size, INT_MAX. cbn [length]. lia.
  - cbn [length]. lia.
Defined.

(** Property X8: on a vector of at most [INT_MAX] elements,
    [merge(arr, left, mid, right)] on two adjacent runs [left .. mid]
    and [mid + 1 .. right] that are each in non-decreasing order
    rearranges the positions [left .. right] into non-decreasing order
    and leaves every other position as it was. *)
Theorem merge_spec_runs (arr : list Z) (left mid right : Z) (fuel : nat) :
  0 <= left <= mid -> mid < right < size arr -> size arr <= INT_MAX ->
  sorted_between left mid arr -> sorted_between (mid + 1) right arr ->
  right - left + 1 <= Z.of_nat fuel ->
  exists arr' : list Z,
    SortSearchDemo.merge fuel arr left mid right = Ret arr' /\
    arr' ≡ₚ arr /\
    sorted_between left right arr' /\
    (forall k : nat, ~ left <= Z.of_nat k <= right -> arr' !! k = arr !! k).
Proof.
  intros Hl Hr Hsmall Hleft Hright Hfuel.
  destruct (merge_spec arr left mid right ltac:(lia) Hsmall Hleft Hright fuel Hfuel)
    as (a' & E & Hre & Hs).
  exists a'. split; [exact E|]. split; [exact (rearranged_perm _ _ _ _ Hre)|].
  split; [exact Hs|]. intros k Hk. by apply (rearranged_outside _ _ _ _ _ Hre).
Qed.

Lemma merge_spec_runs_witness :
  exists arr' : list Z,
    SortSearchDemo.merge 6 [9; 1; 4; 8; 2; 3; 7; 0] 1 3 6 = Ret arr' /\
    arr' ≡ₚ [9; 1; 4; 8; 2; 3; 7; 0] /\
    sorted_between 1 6 arr' /\
    (forall k : nat, ~ 1 <= Z.of_nat k <= 6 ->
       arr' !! k = [9; 1; 4; 8; 2; 3; 7; 0] !! k).
Proof.
  apply (merge_spec_runs [9; 1; 4; 8; 2; 3; 7; 0] 1 3 6 6).
  - lia.
  - unfold size. cbn [length]. lia.
  - unfold size, INT_MAX. cbn [length]. lia.
  - intros k1 k2 x1 x2 H1 H12 H2.
    destruct k1 as [|[|[|[|k1]]]], k2 as [|[|[|[|k2]]]]; try lia;
      cbn; intros [= <-] [= <-]; lia.
  - intros k1 k2 x1 x2 H1 H12 H2.
    destruct k1 as [|[|[|[|[|[|[|k1]]]]]]], k2 as [|[|[|[|[|[|[|k2]]]]]]]; try lia;
      cbn; intros [= <-] [= <-]; lia.
  - lia.
Defined.

(** ** sort_search_demo.cpp: heap sort *)

Lemma for_down_loop_M_inv {St : Type} (P : Z -> St -> Prop)
    (body : Z -> St -> outcome St) :
  forall (k : nat) (i : Z) (s : St),
    P i s ->
    (forall j s, i - Z.of_nat k < j <= i -> P j s ->
       exists s', body j s = Ret s' /\ P (j - 1) s') ->
    exists s', for_down_loop_M k i body s = Ret s' /\ P (i - Z.of_nat k) s'.
Proof.
  induction k as [|k IH]; intros i s Hs Hstep; cbn [for_down_loop_M].
  - exists s. split; [reflexivity|]. replace (i - Z.of_nat 0) with i by lia. exact Hs.
  - destruct (Hstep i s ltac:(lia) Hs) as (s1 & E1 & H1).
    rewrite E1. cbn [bind].
    replace (i - Z.of_nat (S k)) with ((i - 1) - Z.of_nat k) by lia.
    apply IH; [exact H1|].
    intros j s' Hj. apply Hstep. lia.
Qed.

Lemma for_down_M_inv {St : Type} (P : Z -> St -> Prop)
    (body : Z -> St -> outcome St) (hi lo : Z) (s : St) :
  lo <= hi + 1 ->
  P hi s ->
  (forall j s, lo <= j <= hi -> P j s ->
     exists s', body j s = Ret s' /\ P (j - 1) s') ->
  exists s', for_down_M hi lo body s = Ret s' /\ P (lo - 1) s'.
Proof.
  intros Hle Hs Hstep. unfold for_down_M.
  destruct (for_down_loop_M_inv P body (Z.to_nat (hi - lo + 1)) hi s Hs)
    as (s' & E & H').
  { intros j s' Hj. apply Hstep. lia. }
  exists s'. split; [exact E|].
  replace (lo - 1) with (hi - Z.of_nat (Z.to_nat (hi - lo + 1))) by lia. exact H'.
Qed.

Ltac some_eq :=
  repeat match goal with H : Some _ = Some _ |- _ => injection H as H end.

(** One of the two comparisons of [heapify]: the child [c], when it is
    inside the heap and holds more than position [l], takes its place. *)
Lemma heapify_pick (a : list Z) (n c l : Z) :
  0 <= l < n -> 0 <= c -> n <= size a ->
  exists l' : Z,
    (if decide (c < n) then
       do x <- at_ a c;
       do y <- at_ a l;
       if decide (x > y) then Ret c else Ret l
     else Ret l) = Ret l' /\
    (l' = l \/ (l' = c /\ c < n)) /\
    (forall v v' : Z,
       a !! Z.to_nat l = Some v -> a !! Z.to_nat l' = Some v' -> v <= v') /\
    (c < n -> forall v v' : Z,
       a !! Z.to_nat c = Some v -> a !! Z.to_nat l' = Some v' -> v <= v').
Proof.
  intros Hl Hc Hn. unfold size in Hn.
  destruct (decide (c < n)) as [Hcn|Hcn].
  - destruct (lookup_lt_is_Some_2 a (Z.to_nat c) ltac:(lia)) as [x Ex].
    destruct (lookup_lt_is_Some_2 a (Z.to_nat l) ltac:(lia)) as [y Ey].
    rewrite (at_lookup a c x ltac:(lia) Ex). cbn [bind].
    rewrite (at_lookup a l y ltac:(lia) Ey). cbn [bind].
    destruct (decide (x > y)) as [Hgt|Hle]; eexists; (split; [reflexivity|]).
    + split; [right; done|]. split.
      * intros v v' Ev Ev'. rewrite Ey in Ev. rewrite Ex in Ev'. some_eq. lia.
      * intros _ v v' Ev Ev'. rewrite Ex in Ev, Ev'. some_eq. lia.
    + split; [by left|]. split.
      * intros v v' Ev Ev'. rewrite Ey in Ev, Ev'. some_eq. lia.
      * intros _ v v' Ev Ev'. rewrite Ex in Ev. rewrite Ey in Ev'. some_eq. lia.
  - exists l. split; [reflexivity|]. split; [by left|]. split; [|lia].
    intros v v' Ev Ev'. rewrite Ev in Ev'. some_eq. lia.
Qed.

Lemma heapify_spec (n lo : Z) (fuel : nat) :
  forall (a : list Z) (i : Z),
    0 <= lo <= i -> i < n -> n <= size a -> 2 * n <= INT_MAX ->
    n - i <= Z.of_nat fuel ->
    sift_inv n lo i a ->
    exists a',
      SortSearchDemo.heapify fuel a n i = Ret a' /\
      rearranged i (n - 1) a a' /\
      (forall k : Z, lo <= k < n -> heap_at n a' k).
Proof.
  induction fuel as [|fuel IH]; intros a i Hlo Hi Hn Hsmall Hfuel [Hothers Hgrand];
    [lia|].
  unfold size in Hn. cbn [SortSearchDemo.heapify]. cbn zeta.
  rewrite (int_small (2 * i)) by (unfold INT_MAX in *; lia).
  rewrite (int_small (2 * i + 1)) by (unfold INT_MAX in *; lia).
  rewrite (int_small (2 * i + 2)) by (unfold INT_MAX in *; lia).
  destruct (heapify_pick a n (2 * i + 1) i ltac:(lia) ltac:(lia) ltac:(unfold size; lia))
    as (l1 & E1 & Hl1 & Hmax1 & Hleft).
  rewrite E1. cbn [bind].
  destruct (heapify_pick a n (2 * i + 2) l1 ltac:(lia) ltac:(lia) ltac:(unfold size; lia))
    as (l2 & E2 & Hl2 & Hmax2 & Hright).
  rewrite E2. cbn [bind].
  destruct (lookup_lt_is_Some_2 a (Z.to_nat i) ltac:(lia)) as [xi Exi].
  destruct (lookup_lt_is_Some_2 a (Z.to_nat l1) ltac:(lia)) as [x1 Ex1].
  destruct (lookup_lt_is_Some_2 a (Z.to_nat l2) ltac:(lia)) as [x2 Ex2].
  pose proof (Hmax1 xi x1 Exi Ex1) as H1.
  pose proof (Hmax2 x1 x2 Ex1 Ex2) as H2.
  assert (forall c y : Z, c = 2 * i + 1 \/ c = 2 * i + 2 -> c < n ->
            a !! Z.to_nat c = Some y -> y <= x2) as Hchildren.
  { intros c y [->| ->] Hc Ey.
    - pose proof (Hleft Hc y x1 Ey Ex1). lia.
    - apply (Hright Hc y x2 Ey Ex2). }
  destruct (decide (l2 <> i)) as [Hne|Heq].
  2:{ assert (l2 = i) as -> by lia.
      exists a. split; [reflexivity|]. split; [apply rearranged_refl|].
      intros k Hk. destruct (decide (k = i)) as [->|Hki]; [|by apply Hothers].
      intros c x y Hc Hcn Ex Ey. rewrite Ex2 in Ex. injection Ex as <-.
      apply (Hchildren c y Hc Hcn Ey). }
  assert ((l2 = 2 * i + 1 \/ l2 = 2 * i + 2) /\ l2 < n) as [Hchild Hl2n] by lia.
  destruct (swap_rearranged i (n - 1) a i l2 xi x2
              ltac:(lia) ltac:(lia) ltac:(lia) ltac:(lia) Exi Ex2)
    as (b & Eswap & Hre & Hbi & Hbl & Hother).
  rewrite Eswap. cbn [bind].
  pose proof (rearranged_length _ _ _ _ Hre) as Hlenb.
  destruct (IH b l2) as (a' & E' & Hre' & Hheap');
    [lia|lia|unfold size; lia|lia|lia| |].
  - split.
    + intros k Hk Hkl c x y Hc Hcn Ex Ey.
      destruct (decide (k = i)) as [->|Hki].
      * rewrite Hbi in Ex. injection Ex as <-.
        destruct (decide (c = l2)) as [->|Hcl].
        -- rewrite Hbl in Ey. injection Ey as <-. lia.
        -- rewrite Hother in Ey by lia. apply (Hchildren c y Hc Hcn Ey).
      * rewrite Hother in Ex by lia.
        destruct (decide (c = i)) as [->|Hci].
        -- rewrite Hbi in Ey. injection Ey as <-.
           apply (Hgrand k l2 x x2); [lia|lia|lia|lia|exact Ex|exact Ex2].
        -- rewrite Hother in Ey by lia.
           apply (Hothers k ltac:(lia) Hki c x y Hc Hcn Ex Ey).
    + intros p c x y Hp Hpl Hc Hcn Ex Ey.
      assert (p = i) as -> by lia.
      rewrite Hbi in Ex. injection Ex as <-.
      rewrite Hother in Ey by lia.
      apply (Hothers l2 ltac:(lia) Hne c x2 y Hc Hcn Ex2 Ey).
  - exists a'. split; [exact E'|]. split; [|exact Hheap'].
    apply (rearranged_trans _ _ _ b); [exact Hre|].
    apply (rearranged_widen i (n - 1) l2 (n - 1)); [lia|lia|exact Hre'].
Qed.

(** In a heap the first position holds the largest element. *)
Lemma heap_top (m : Z) (a : list Z) (top : Z) :
  m <= size a ->
  (forall k : Z, 0 <= k < m -> heap_at m a k) ->
  a !! 0%nat = Some top ->
  forall (k : nat) (x : Z), Z.of_nat k < m -> a !! k = Some x -> x <= top.
Proof.
  intros Hm Hheap Etop k. unfold size in Hm.
  induction (lt_wf k) as [k _ IH]. intros x Hk Ex.
  destruct (decide (k = 0)%nat) as [->|Hpos].
  { rewrite Etop in Ex. injection Ex as <-. lia. }
  set (p := ((k - 1) / 2)%nat).
  assert (p < k)%nat as Hp by (unfold p; apply Nat.Div0.div_lt_upper_bound; lia).
  assert (Z.of_nat k = 2 * Z.of_nat p + 1 \/ Z.of_nat k = 2 * Z.of_nat p + 2) as Hc.
  { pose proof (Nat.div_mod (k - 1) 2 ltac:(lia)) as Hdm.
    pose proof (Nat.mod_upper_bound (k - 1) 2 ltac:(lia)). fold p in Hdm. lia. }
  destruct (lookup_lt_is_Some_2 a p ltac:(lia)) as [y Ey].
  pose proof (IH p Hp y ltac:(lia) Ey) as Hy.
  pose proof (Hheap (Z.of_nat p) ltac:(lia) (Z.of_nat k) y x Hc Hk) as Hxy.
  rewrite !Nat2Z.id in Hxy. specialize (Hxy Ey Ex). lia.
Qed.

Section HeapSort.
Variable arr : list Z.
Hypothesis small : 2 * size arr <= INT_MAX.
Variable fuel : nat.
Hypothesis enough : size arr <= Z.of_nat fuel.

Lemma heap_build_step (j : Z) (a : list Z) :
  0 <= j < size arr -> heap_build_inv arr j a ->
  exists a',
    SortSearchDemo.heapify fuel a (size arr) j = Ret a' /\
    heap_build_inv arr (j - 1) a'.
Proof.
  intros Hj [Hre Hheap].
  pose proof (rearranged_length _ _ _ _ Hre) as Hlen.
  destruct (heapify_spec (size arr) j fuel a j) as (a' & E & Hre' & Hheap');
    [lia|lia|unfold size; lia|exact small|lia| |].
  - split.
    + intros k Hk Hkj. apply Hheap. lia.
    + intros p c x y Hp Hpj. lia.
  - exists a'. split; [exact E|]. split.
    + apply (rearranged_trans _ _ _ a); [exact Hre|].
      apply (rearranged_widen 0 (size arr - 1) j (size arr - 1)); [lia|lia|exact Hre'].
    + intros k Hk. apply Hheap'. lia.
Qed.

Lemma heap_sort_step (i : Z) (a : list Z) :
  1 <= i < size arr -> heap_sort_inv arr i a ->
  exists a',
    (do arr <- SortSearchDemo.swap a 0 i;
     SortSearchDemo.heapify fuel arr i 0) = Ret a' /\
    heap_sort_inv arr (i - 1) a'.
Proof.
  intros Hi (Hre & Hheap & Hsorted & Hcross).
  pose proof (rearranged_length _ _ _ _ Hre) as Hlen. unfold size in *.
  destruct (lookup_lt_is_Some_2 a (Z.to_nat 0) ltac:(lia)) as [top Etop].
  destruct (lookup_lt_is_Some_2 a (Z.to_nat i) ltac:(lia)) as [last Elast].
  pose proof (heap_top (i + 1) a top ltac:(unfold size; lia) Hheap Etop) as Htop.
  destruct (swap_rearranged 0 i a 0 i top last
              ltac:(lia) ltac:(lia) ltac:(lia) ltac:(lia) Etop Elast)
    as (b & Eswap & Hreb & Hb0 & Hbi & Hother).
  rewrite Eswap. cbn [bind].
  pose proof (rearranged_length _ _ _ _ Hreb) as Hlenb.
  destruct (heapify_spec i 0 fuel b 0) as (a' & E & Hre' & Hheap');
    [lia|lia|unfold size; lia|lia|lia| |].
  - split; [|intros p c x y Hp Hpc; lia].
    intros k Hk Hk0 c x y Hc Hcn Ex Ey.
    rewrite Hother in Ex by lia. rewrite Hother in Ey by lia.
    apply (Hheap k ltac:(lia) c x y Hc ltac:(lia) Ex Ey).
  - exists a'. split; [exact E|].
    pose proof (rearranged_length _ _ _ _ Hre') as Hlen'.
    assert (a' !! Z.to_nat i = Some top) as Ei'.
    { rewrite (rearranged_outside _ _ _ _ _ Hre') by lia. exact Hbi. }
    assert (forall (k : nat), i < Z.of_nat k -> a' !! k = a !! k) as Htail.
    { intros k Hk. rewrite (rearranged_outside _ _ _ _ _ Hre') by lia.
      apply Hother; lia. }
    assert (forall (P : Z -> Prop),
              (forall (k : nat) (x : Z), Z.of_nat k <= i -> a !! k = Some x -> P x) ->
              forall (k : nat) (x : Z), Z.of_nat k <= i - 1 -> a' !! k = Some x -> P x)
      as Hfront.
    { intros P HP k x Hk Ex.
      apply (rearranged_all _ _ _ _ P Hre') with k; [|lia|exact Ex].
      intros k0 x0 Hk0 Ex0.
      apply (rearranged_all _ _ _ _ P Hreb) with k0; [|lia|exact Ex0].
      intros k1 x1 Hk1 Ex1. apply (HP k1 x1); [lia|exact Ex1]. }
    unfold heap_sort_inv, size. replace (i - 1 + 1) with i by lia.
    split; [|split; [|split]].
    + apply (rearranged_trans _ _ _ a); [exact Hre|].
      apply (rearranged_trans _ _ _ b).
      * apply (rearranged_widen 0 (Z.of_nat (length arr) - 1) 0 i); [lia|lia|exact Hreb].
      * apply (rearranged_widen 0 (Z.of_nat (length arr) - 1) 0 (i - 1));
          [lia|lia|exact Hre'].
    + exact Hheap'.
    + intros k1 k2 x1 x2 H1 H12 H2 E1 E2.
      destruct (decide (k1 = k2)) as [->|Hne12].
      { rewrite E1 in E2. injection E2 as <-. lia. }
      rewrite Htail in E2 by lia.
      destruct (decide (k1 = Z.to_nat i)) as [->|Hk1].
      * rewrite Ei' in E1. injection E1 as <-.
        apply (Hcross (Z.to_nat 0) k2 top x2); [lia|lia|exact Etop|exact E2].
      * rewrite Htail in E1 by lia.
        apply (Hsorted k1 k2 x1 x2); [lia|lia|lia|exact E1|exact E2].
    + intros k1 k2 x1 x2 H1 H2 E1 E2.
      destruct (decide (k2 = Z.to_nat i)) as [->|Hk2].
      * rewrite Ei' in E2. injection E2 as <-.
        apply (Hfront (fun x => x <= top)) with k1; [|lia|exact E1].
        intros k x Hk Ex. apply (Htop k x); [lia|exact Ex].
      * rewrite Htail in E2 by lia.
        apply (Hfront (fun x => x <= x2)) with k1; [|lia|exact E1].
        intros k x Hk Ex. apply (Hcross k k2 x x2); [lia|lia|exact Ex|exact E2].
Qed.

Lemma heap_sort_sorts :
  exists a',
    SortSearchDemo.heap_sort fuel arr = Ret a' /\ a' ≡ₚ arr /\ Sorted Z.le a'.
Proof.
  unfold SortSearchDemo.heap_sort. cbn zeta.
  assert (size arr <= INT_MAX) as Hsmall by (unfold size, INT_MAX in *; lia).
  rewrite size_int by exact Hsmall.
  assert (0 <= size arr `div` 2 <= size arr) as Hhalf.
  { unfold size. split; [apply Z.div_pos; lia|].
    apply Z.div_le_upper_bound; lia. }
  rewrite Z.quot_div_nonneg by (unfold size; lia).
  rewrite (int_small (size arr `div` 2)) by (unfold INT_MAX in *; lia).
  rewrite (int_id (size arr `div` 2 - 1)) by (unfold INT_MIN, INT_MAX in *; lia).
  rewrite (int_id (size arr - 1)) by (unfold size, INT_MIN, INT_MAX in *; lia).
  match goal with |- context [for_down_M ?hi ?lo ?body arr] =>
    destruct (for_down_M_inv (heap_build_inv arr) body hi lo arr)
      as (a1 & E1 & Hre1 & Hheap1) end.
  - lia.
  - split; [apply rearranged_refl|].
    intros k Hk c x y Hc Hcn.
    pose proof (Z.div_mod (size arr) 2 ltac:(lia)).
    pose proof (Z.mod_pos_bound (size arr) 2 ltac:(lia)). lia.
  - intros j s Hj Hs. apply (heap_build_step j s); [lia|exact Hs].
  - rewrite E1. cbn [bind].
    destruct (decide (size arr <= 1)) as [Hshort|Hlong].
    { unfold for_down_M. replace (Z.to_nat (size arr - 1 - 1 + 1)) with O by lia.
      cbn [for_down_loop_M]. exists a1. split; [reflexivity|].
      split; [exact (rearranged_perm _ _ _ _ Hre1)|].
      pose proof (rearranged_length _ _ _ _ Hre1) as Hlen1.
      unfold size in Hshort.
      destruct a1 as [|x [|y l]]; [constructor|repeat constructor|].
      cbn [length] in Hlen1. lia. }
    match goal with |- context [for_down_M ?hi ?lo ?body a1] =>
      destruct (for_down_M_inv (heap_sort_inv arr) body hi lo a1)
        as (a2 & E2 & Hre2 & _ & Hsorted2 & Hcross2) end.
    + lia.
    + split; [exact Hre1|]. replace (size arr - 1 + 1) with (size arr) by lia.
      split; [intros k Hk; apply Hheap1; lia|]. split.
      * apply sorted_between_single. lia.
      * intros k1 k2 x1 x2 H1 H2 Ex1 Ex2.
        pose proof (lookup_lt_Some _ _ _ Ex2).
        pose proof (rearranged_length _ _ _ _ Hre1). unfold size in *. lia.
    + intros j s Hj Hs. apply (heap_sort_step j s); [lia|exact Hs].
    + exists a2. split; [exact E2|].
      split; [exact (rearranged_perm _ _ _ _ Hre2)|].
      apply sorted_between_Sorted. rewrite (rearranged_length _ _ _ _ Hre2).
      fold (size arr).
      intros k1 k2 x1 x2 H1 H12 H2 Ex1 Ex2.
      destruct (decide (k1 = k2)) as [->|Hne].
      { rewrite Ex1 in Ex2. injection Ex2 as <-. lia. }
      destruct (decide (k1 = 0)%nat) as [->|Hpos].
      * apply (Hcross2 0%nat k2 x1 x2); [lia|lia|exact Ex1|exact Ex2].
      * apply (Hsorted2 k1 k2 x1 x2); [lia|lia|lia|exact Ex1|exact Ex2].
Qed.
End HeapSort.

(** Property X9: [heap_sort] leaves a vector of fewer
    than [2^30] elements as a rearrangement of what it was, in
    non-decreasing order; [heapify] never recurses deeper than the
    vector has elements and never reads or writes outside the heap.
    The bound on the size keeps the child positions [2 * i + 1] and
    [2 * i + 2] within [int]. *)
Theorem heap_sort_spec (arr : list Z) (fuel : nat) :
  2 * size arr <= INT_MAX -> (length arr <= fuel)%nat ->
  exists arr' : list Z,
    SortSearchDemo.heap_sort fuel arr = Ret arr' /\
    arr' ≡ₚ arr /\ Sorted Z.le arr'.
Proof.
  intros Hsmall Hfuel. apply heap_sort_sorts; [exact Hsmall|]. unfold size. lia.
Qed.

Lemma heap_sort_spec_witness :
  exists arr' : list Z,
    SortSearchDemo.heap_sort 7 [64; 34; 25; 12; 22; 11; 90] = Ret arr' /\
    arr' ≡ₚ [64; 34; 25; 12; 22; 11; 90] /\ Sorted Z.le arr'.
Proof.
  apply (heap_sort_spec [64; 34; 25; 12; 22; 11; 90] 7).
  - unfold size, INT_MAX. cbn [length]. lia.
  - cbn [length]. lia.
Defined.

(** ** sort_search_demo.cpp: the six sorts together *)

Lemma quick_sort_returns (v : list Z) (fuel : nat) :
  size v <= INT_MAX -> (length v <= fuel)%nat ->
  exists v' : list Z,
    SortSearchDemo.quick_sort fuel v = Ret v' /\ v' ≡ₚ v /\ Sorted Z.le v'.
Proof.
  intros Hsmall Hfuel. unfold SortSearchDemo.quick_sort.
  destruct (decide (v = [])) as [->|Hne].
  { exists []. split; [reflexivity|]. split; [done|constructor]. }
  rewrite size_minus_one by exact Hsmall.
  assert (0 < size v) as Hpos.
  { unfold size. destruct v; [done|cbn [length]; lia]. }
  unfold size in *.
  destruct (quick_sort_impl_spec fuel v 0 (Z.of_nat (length v) - 1))
    as (v' & E & (Hlen & Hperm & _) & Hsorted); try lia.
  exists v'. split; [exact E|]. split; [exact Hperm|].
  apply sorted_between_Sorted. rewrite Hlen. exact Hsorted.
Qed.

Lemma sorted_perm_eq (a b c : list Z) :
  a ≡ₚ c -> Sorted Z.le a -> b ≡ₚ c -> Sorted Z.le b -> a = b.
Proof.
  intros Ha Hsa Hb Hsb. apply (Sorted_unique Z.le); [exact Hsa|exact Hsb|].
  by rewrite Ha, Hb.
Qed.

(** Property X10: on every vector of fewer than [2^30]
    elements the six sorting functions of the file, [bubble_sort],
    [selection_sort], [insertion_sort], [merge_sort], [quick_sort] and
    [heap_sort], return one and the same vector. *)
Theorem sorts_agree (arr : list Z) (fuel : nat) :
  2 * size arr <= INT_MAX -> (length arr <= fuel)%nat ->
  exists sorted : list Z,
    sorted ≡ₚ arr /\ Sorted Z.le sorted /\
    SortSearchDemo.bubble_sort arr = Ret sorted /\
    SortSearchDemo.selection_sort arr = Ret sorted /\
    SortSearchDemo.insertion_sort fuel arr = Ret sorted /\
    SortSearchDemo.merge_sort fuel arr = Ret sorted /\
    SortSearchDemo.quick_sort fuel arr = Ret sorted /\
    SortSearchDemo.heap_sort fuel arr = Ret sorted.
Proof.
  intros Hsmall Hfuel.
  assert (size arr <= INT_MAX) as Hsmall' by (unfold size, INT_MAX in *; lia).
  assert (size arr <= Z.of_nat fuel) as Hfuel' by (unfold size; lia).
  destruct (bubble_sort_sorts arr Hsmall') as (s1 & E1 & P1 & S1).
  destruct (selection_sort_sorts arr Hsmall') as (s2 & E2 & P2 & S2).
  destruct (insertion_sort_sorts arr Hsmall' fuel Hfuel') as (s3 & E3 & P3 & S3).
  destruct (merge_sort_sorts arr fuel Hsmall' Hfuel) as (s4 & E4 & P4 & S4).
  destruct (quick_sort_returns arr fuel Hsmall' Hfuel) as (s5 & E5 & P5 & S5).
  destruct (heap_sort_sorts arr Hsmall fuel Hfuel') as (s6 & E6 & P6 & S6).
  exists s1. split; [exact P1|]. split; [exact S1|]. split; [exact E1|].
  rewrite (sorted_perm_eq s1 s2 arr P1 S1 P2 S2) at 1. split; [exact E2|].
  rewrite (sorted_perm_eq s1 s3 arr P1 S1 P3 S3) at 1. split; [exact E3|].
  rewrite (sorted_perm_eq s1 s4 arr P1 S1 P4 S4) at 1. split; [exact E4|].
  rewrite (sorted_perm_eq s1 s5 arr P1 S1 P5 S5) at 1. split; [exact E5|].
  rewrite (sorted_perm_eq s1 s6 arr P1 S1 P6 S6). exact E6.
Qed.

Lemma sorts_agree_witness :
  exists sorted : list Z,
    sorted ≡ₚ [64; 34; 25; 12; 22; 11; 90] /\ Sorted Z.le sorted /\
    SortSearchDemo.bubble_sort [64; 34; 25; 12; 22; 11; 90] = Ret sorted /\
    SortSearchDemo.selection_sort [64; 34; 25; 12; 22; 11; 90] = Ret sorted /\
    SortSearchDemo.insertion_sort 7 [64; 34; 25; 12; 22; 11; 90] = Ret sorted /\
    SortSearchDemo.merge_sort 7 [64; 34; 25; 12; 22; 11; 90] = Ret sorted /\
    SortSearchDemo.quick_sort 7 [64; 34; 25; 12; 22; 11; 90] = Ret sorted /\
    SortSearchDemo.heap_sort 7 [64; 34; 25; 12; 22; 11; 90] = Ret sorted.
Proof.
  apply (sorts_agree [64; 34; 25; 12; 22; 11; 90] 7).
  - unfold size, INT_MAX. cbn [length]. lia.
  - cbn [length]. lia.
Defined.

(** Property X11: [partition(arr, low, high)]
    on a range inside a vector of at most [INT_MAX] elements returns a
    position [p] of the range; afterwards [p] holds the pivot, the
    element that was at [high], every position of the range before [p]
    holds a smaller element and every position after [p] one that is
    not smaller; the vector is rearranged within the range only. *)
Theorem partition_places_pivot (arr : list Z) (low high pivot : Z) :
  0 <= low <= high -> high < size arr -> size arr <= INT_MAX ->
  arr !! Z.to_nat high = Some pivot ->
  exists (arr' : list Z) (p : Z),
    SortSearchDemo.partition arr low high = Ret (arr', p) /\
    low <= p <= high /\
    arr' ≡ₚ arr /\
    arr' !! Z.to_nat p = Some pivot /\
    (forall (k : nat) (x : Z),
       low <= Z.of_nat k < p -> arr' !! k = Some x -> x < pivot) /\
    (forall (k : nat) (x : Z),
       p < Z.of_nat k <= high -> arr' !! k = Some x -> pivot <= x) /\
    (forall k : nat, ~ low <= Z.of_nat k <= high -> arr' !! k = arr !! k).
Proof.
  intros Hlow Hhigh Hsmall Hpivot.
  destruct (partition_spec arr low high pivot ltac:(unfold size in *; lia)
              Hsmall Hpivot) as (a' & p & E & Hp & Hre & Ep & Hlt & Hge).
  exists a', p. split; [exact E|]. split; [exact Hp|].
  split; [exact (rearranged_perm _ _ _ _ Hre)|]. split; [exact Ep|].
  split; [exact Hlt|]. split; [exact Hge|].
  intros k Hk. by apply (rearranged_outside _ _ _ _ _ Hre).
Qed.

Lemma partition_places_pivot_witness :
  exists (arr' : list Z) (p : Z),
    SortSearchDemo.partition [64; 34; 25; 12; 22; 11; 90] 1 4 = Ret (arr', p) /\
    1 <= p <= 4 /\
    arr' ≡ₚ [64; 34; 25; 12; 22; 11; 90] /\
    arr' !! Z.to_nat p = Some 22 /\
    (forall (k : nat) (x : Z),
       1 <= Z.of_nat k < p -> arr' !! k = Some x -> x < 22) /\
    (forall (k : nat) (x : Z),
       p < Z.of_nat k <= 4 -> arr' !! k = Some x -> 22 <= x) /\
    (forall k : nat, ~ 1 <= Z.of_nat k <= 4 ->
       arr' !! k = [64; 34; 25; 12; 22; 11; 90] !! k).
Proof.
  apply (partition_places_pivot [64; 34; 25; 12; 22; 11; 90] 1 4 22).
  - lia.
  - unfold size. cbn [length]. lia.
  - unfold size, INT_MAX. cbn [length]. lia.
  - reflexivity.
Defined.

(** ** recursion_demo.cpp: sums and strings *)

Lemma triangle_step (n : Z) :
  n + ((n - 1) * n) `div` 2 = (n * (n + 1)) `div` 2.
Proof.
  replace (n * (n + 1)) with ((n - 1) * n + n * 2) by lia.
  rewrite Z.div_add by lia. lia.
Qed.

Lemma sum_recursive_wraps (fuel : nat) :
  forall n : Z,
    0 <= n <= INT_MAX -> n <= Z.of_nat fuel ->
    RecursionDemo.sum_recursive fuel n = Ret (int ((n * (n + 1)) `div` 2)).
Proof.
  induction fuel as [|fuel IH]; intros n Hn Hfuel;
    cbn [RecursionDemo.sum_recursive];
    destruct (decide (n = 0)) as [->|Hne]; try (by rewrite int_small); try lia.
  rewrite (int_small (n - 1)) by lia.
  rewrite IH by lia. cbn [bind].
  rewrite int_add_r. replace (n - 1 + 1) with n by lia.
  rewrite triangle_step. reflexivity.
Qed.

Lemma sum_recursive_negative (fuel : nat) :
  forall n : Z,
    n < 0 -> Z.of_nat fuel <= n - INT_MIN ->
    RecursionDemo.sum_recursive fuel n = OutOfFuel.
Proof.
  induction fuel as [|fuel IH]; intros n Hn Hfuel;
    cbn [RecursionDemo.sum_recursive];
    destruct (decide (n = 0)) as [->|Hne]; try lia; [reflexivity|].
  rewrite (int_id (n - 1)) by (unfold INT_MAX, INT_MIN in *; lia).
  rewrite IH by lia. reflexivity.
Qed.

Lemma sum_recursive_wraps_negative (fuel : nat) :
  forall n : Z,
    INT_MIN <= n < 0 -> n + 2 ^ 32 <= Z.of_nat fuel ->
    RecursionDemo.sum_recursive fuel n
    = Ret (int ((n * (n + 1)) `div` 2 - 2 ^ 31)).
Proof.
  induction fuel as [|fuel IH]; intros n Hn Hfuel;
    [unfold INT_MIN in Hn; lia|].
  cbn [RecursionDemo.sum_recursive].
  destruct (decide (n = 0)) as [->|_]; [lia|].
  destruct (decide (n = INT_MIN)) as [->|Hne].
  - assert (int (INT_MIN - 1) = INT_MAX) as -> by (vm_compute; reflexivity).
    rewrite sum_recursive_wraps by (unfold INT_MIN, INT_MAX in *; lia).
    cbn [bind]. vm_compute. reflexivity.
  - rewrite (int_id (n - 1)) by (unfold INT_MIN, INT_MAX in *; lia).
    rewrite IH by lia. cbn [bind]. rewrite int_add_r. f_equal. f_equal.
    replace (n - 1 + 1) with n by lia. pose proof (triangle_step n). lia.
Qed.

(** Property X12: [sum_recursive(n)] returns [n (n + 1) / 2] for every
    [n] from 0 to 65535, the largest [n] whose sum fits [int], with a
    recursion [n] deep.  For a negative [n] the recursion gets to
    [n == 0] only after [n - 1] has overflowed at [INT_MIN]: it is
    still running after [n - INT_MIN] calls, and with the overflow
    wrapping to [INT_MAX] it returns after [2^32 + n] calls, with
    [n (n + 1) / 2 - 2^31] reduced to [int]. *)
Theorem sum_recursive_spec (n : Z) (fuel : nat) :
  (0 <= n <= 65535 -> n <= Z.of_nat fuel ->
   RecursionDemo.sum_recursive fuel n = Ret ((n * (n + 1)) `div` 2)) /\
  (n < 0 -> Z.of_nat fuel <= n - INT_MIN ->
   RecursionDemo.sum_recursive fuel n = OutOfFuel) /\
  (INT_MIN <= n < 0 -> n + 2 ^ 32 <= Z.of_nat fuel ->
   RecursionDemo.sum_recursive fuel n
   = Ret (int ((n * (n + 1)) `div` 2 - 2 ^ 31))).
Proof.
  split; [|split; [apply sum_recursive_negative|apply sum_recursive_wraps_negative]].
  intros Hn Hfuel. rewrite sum_recursive_wraps by (unfold INT_MAX; lia).
  f_equal. apply int_small.
  split; [apply Z.div_pos; lia|].
  apply Z.div_le_upper_bound; [lia|]. unfold INT_MAX. nia.
Qed.

Lemma sum_recursive_spec_witness :
  RecursionDemo.sum_recursive 10 10 = Ret 55 /\
  RecursionDemo.sum_recursive 1000 (-1) = OutOfFuel.
Proof.
  split.
  - apply (proj1 (sum_recursive_spec 10 10)); lia.
  - apply (proj1 (proj2 (sum_recursive_spec (-1) 1000))); unfold INT_MIN; lia.
Defined.

Lemma array_sum_wraps (arr : list Z) (fuel : nat) :
  size arr <= INT_MAX ->
  forall index : Z,
    0 <= index -> size arr - index <= Z.of_nat fuel ->
    RecursionDemo.array_sum fuel arr index
    = Ret (int (foldr Z.add 0 (drop (Z.to_nat index) arr))).
Proof.
  intros Hsmall.
  induction fuel as [|fuel IH]; intros index Hindex Hfuel;
    cbn [RecursionDemo.array_sum]; rewrite size_int by exact Hsmall;
    unfold size in *;
    (destruct (decide (index >= Z.of_nat (length arr))) as [Hout|Hin];
     [rewrite drop_ge by lia; cbn [foldr]; by rewrite int_small|]); [lia|].
  destruct (lookup_lt_is_Some_2 arr (Z.to_nat index) ltac:(lia)) as [x Ex].
  rewrite (at_lookup arr index x ltac:(lia) Ex). cbn [bind].
  rewrite (int_small (index + 1)) by (unfold INT_MAX in *; lia).
  rewrite IH by lia. cbn [bind].
  rewrite (drop_S arr x (Z.to_nat index) Ex). cbn [foldr].
  rewrite int_add_r.
  replace (Z.to_nat (index + 1)) with (S (Z.to_nat index)) by lia. reflexivity.
Qed.

(** Property X13: [array_sum(arr)] returns the sum of
    the elements of a vector of at most [INT_MAX] elements, reduced to
    [int], so the sum itself when it fits; the recursion is as deep as
    the vector is long; and a negative [index] reads outside the
    vector. *)
Theorem array_sum_spec (arr : list Z) (fuel : nat) :
  size arr <= INT_MAX -> (length arr <= fuel)%nat ->
  RecursionDemo.array_sum fuel arr 0 = Ret (int (foldr Z.add 0 arr)) /\
  (INT_MIN <= foldr Z.add 0 arr <= INT_MAX ->
   RecursionDemo.array_sum fuel arr 0 = Ret (foldr Z.add 0 arr)) /\
  (forall index : Z, index < 0 ->
     RecursionDemo.array_sum (S fuel) arr index = Undefined).
Proof.
  intros Hsmall Hfuel.
  assert (RecursionDemo.array_sum fuel arr 0 = Ret (int (foldr Z.add 0 arr))) as E.
  { rewrite array_sum_wraps; [reflexivity|exact Hsmall|lia|unfold size; lia]. }
  split; [exact E|]. split.
  - intros Hfit. rewrite E, int_id by exact Hfit. reflexivity.
  - intros index Hneg. cbn [RecursionDemo.array_sum].
    rewrite size_int by exact Hsmall. unfold size.
    destruct (decide (index >= Z.of_nat (length arr))) as [Hout|Hin]; [lia|].
    unfold at_. destruct (decide (0 <= index)); [lia|reflexivity].
Qed.

Lemma array_sum_spec_witness :
  RecursionDemo.array_sum 5 [1; 2; 3; 4; 5] 0 = Ret 15.
Proof.
  refine (proj1 (proj2 (array_sum_spec [1; 2; 3; 4; 5] 5 _ _)) _).
  - unfold size, INT_MAX. cbn [length]. lia.
  - cbn [length]. lia.
  - unfold INT_MIN, INT_MAX. cbn [foldr]. lia.
Defined.

Lemma list_ascii_of_string_app (s1 s2 : string) :
  String.list_ascii_of_string (s1 +:+ s2)
  = String.list_ascii_of_string s1 ++ String.list_ascii_of_string s2.
Proof.
  induction s1 as [|c s1 IH]; [reflexivity|].
  change (c :: String.list_ascii_of_string (s1 +:+ s2)
          = c :: (String.list_ascii_of_string s1 ++ String.list_ascii_of_string s2)).
  by rewrite IH.
Qed.

Lemma reverse_string_list (s : string) :
  String.list_ascii_of_string (RecursionDemo.reverse_string s)
  = reverse (String.list_ascii_of_string s).
Proof.
  induction s as [|c s IH]; [reflexivity|].
  cbn [RecursionDemo.reverse_string].
  destruct (decide (String.length (String c s) <= 1)%nat) as [Hshort|Hlong].
  - destruct s; [reflexivity|cbn in Hshort; lia].
  - rewrite list_ascii_of_string_app, IH. cbn [String.list_ascii_of_string].
    rewrite reverse_cons. reflexivity.
Qed.

(** Property X14: [reverse_string(s)] holds the
    characters of [s] in reverse order; it has the length of [s], and
    reversing twice gives [s] back. *)
Theorem reverse_string_spec (s : string) :
  String.list_ascii_of_string (RecursionDemo.reverse_string s)
  = reverse (String.list_ascii_of_string s) /\
  String.length (RecursionDemo.reverse_string s) = String.length s /\
  RecursionDemo.reverse_string (RecursionDemo.reverse_string s) = s.
Proof.
  split; [apply reverse_string_list|]. split.
  - rewrite <- (String.string_of_list_ascii_of_string (RecursionDemo.reverse_string s)).
    rewrite <- (String.string_of_list_ascii_of_string s) at 2.
    rewrite reverse_string_list.
    generalize (String.list_ascii_of_string s). intros l.
    assert (forall l', String.length (String.string_of_list_ascii l') = length l') as Hlen.
    { induction l' as [|c l' IH]; cbn; [reflexivity|by rewrite IH]. }
    by rewrite !Hlen, length_reverse.
  - rewrite <- (String.string_of_list_ascii_of_string
                  (RecursionDemo.reverse_string (RecursionDemo.reverse_string s))).
    rewrite !reverse_string_list, reverse_involutive.
    apply String.string_of_list_ascii_of_string.
Qed.

(** ** recursion_demo.cpp: permutations *)

Lemma swap_back (a : list Z) (i j : Z) :
  0 <= i < size a -> 0 <= j < size a ->
  exists a' x y,
    a !! Z.to_nat i = Some x /\ a !! Z.to_nat j = Some y /\
    RecursionDemo.swap a i j = Ret a' /\
    RecursionDemo.swap a' i j = Ret a /\
    a' ≡ₚ a /\
    a' !! Z.to_nat i = Some y /\ a' !! Z.to_nat j = Some x /\
    (forall k : nat, k <> Z.to_nat i -> k <> Z.to_nat j -> a' !! k = a !! k).
Proof.
  intros Hi Hj. unfold size in *.
  destruct (lookup_lt_is_Some_2 a (Z.to_nat i) ltac:(lia)) as [x Ex].
  destruct (lookup_lt_is_Some_2 a (Z.to_nat j) ltac:(lia)) as [y Ey].
  destruct (swap_rearranged 0 (Z.of_nat (length a)) a i j x y
              ltac:(lia) ltac:(lia) ltac:(lia) ltac:(lia) Ex Ey)
    as (a' & E1 & Hre1 & Hi1 & Hj1 & Ho1).
  destruct (swap_rearranged 0 (Z.of_nat (length a)) a' i j y x
              ltac:(lia) ltac:(lia) ltac:(lia) ltac:(lia) Hi1 Hj1)
    as (a'' & E2 & Hre2 & Hi2 & Hj2 & Ho2).
  exists a', x, y. split; [exact Ex|]. split; [exact Ey|]. split; [exact E1|].
  split; [|split; [exact (rearranged_perm _ _ _ _ Hre1)|done]].
  change (RecursionDemo.swap a' i j) with (SortSearchDemo.swap a' i j).
  rewrite E2. f_equal. apply list_eq. intros k.
  destruct (decide (k = Z.to_nat i)) as [->|Hki]; [congruence|].
  destruct (decide (k = Z.to_nat j)) as [->|Hkj]; [congruence|].
  rewrite Ho2, Ho1 by done. reflexivity.
Qed.

Lemma take_ext (s : nat) (a b : list Z) :
  (forall k : nat, (k < s)%nat -> a !! k = b !! k) -> take s a = take s b.
Proof.
  intros H. apply list_eq. intros k. rewrite !lookup_take.
  destruct (decide (k < s)%nat); [by apply H|reflexivity].
Qed.

Lemma perm_next_position (l nums : list Z) (s : nat) :
  l ≡ₚ nums -> take s l = take s nums -> (s < length nums)%nat ->
  exists j : nat, (s <= j)%nat /\ is_Some (nums !! j) /\ l !! s = nums !! j.
Proof.
  intros Hperm Htake Hs.
  assert (drop s l ≡ₚ drop s nums) as Hdrop.
  { apply (Permutation_app_inv_l (take s l)).
    rewrite take_drop, Htake, take_drop. exact Hperm. }
  assert (length l = length nums) as Hlen by (by rewrite Hperm).
  destruct (lookup_lt_is_Some_2 l s ltac:(lia)) as [v Ev].
  assert (v ∈ drop s nums) as Hin.
  { rewrite <- Hdrop. apply list_elem_of_lookup. exists O.
    rewrite lookup_drop. by replace (s + 0)%nat with s by lia. }
  apply list_elem_of_lookup in Hin as [p Ep]. rewrite lookup_drop in Ep.
  exists (s + p)%nat. split; [lia|]. split; [by exists v|congruence].
Qed.

Lemma permute_helper_spec (fuel : nat) :
  forall (nums : list Z) (start : Z) (result : list (list Z)),
    size nums <= INT_MAX -> 0 <= start <= size nums ->
    size nums - start <= Z.of_nat fuel ->
    Z.of_nat (length result) + fact (Z.to_nat (size nums - start))
    <= vector_max_size 24 ->
    exists new : list (list Z),
      RecursionDemo.permute_helper fuel nums start result
      = Ret (nums, result ++ new) /\
      Z.of_nat (length new) = fact (Z.to_nat (size nums - start)) /\
      forall l : list Z,
        l ∈ new <->
        l ≡ₚ nums /\ take (Z.to_nat start) l = take (Z.to_nat start) nums.
Proof.
  assert (forall (nums : list Z) (start : Z) (result : list (list Z)),
            size nums <= INT_MAX -> start = size nums ->
            Z.of_nat (length result) + fact (Z.to_nat (size nums - start))
            <= vector_max_size 24 ->
            exists new : list (list Z),
              (do result <- push_back 24 result nums; Ret (nums, result))
              = Ret (nums, result ++ new) /\
              Z.of_nat (length new) = fact (Z.to_nat (size nums - start)) /\
              forall l : list Z,
                l ∈ new <->
                l ≡ₚ nums /\ take (Z.to_nat start) l = take (Z.to_nat start) nums)
    as Hleaf.
  { intros nums start result Hsmall -> Hfit. exists [nums].
    rewrite Z.sub_diag in Hfit. change (fact (Z.to_nat 0)) with 1 in Hfit.
    rewrite push_back_Ret by lia. split; [reflexivity|].
    split; [by rewrite Z.sub_diag|].
    intros l. rewrite list_elem_of_singleton. unfold size. rewrite Nat2Z.id.
    split.
    - intros ->. done.
    - intros [Hperm Htake]. rewrite !take_ge in Htake; [done|lia|].
      rewrite Hperm. lia. }
  induction fuel as [|fuel IH]; intros nums start result Hsmall Hstart Hfuel Hfit;
    cbn [RecursionDemo.permute_helper]; rewrite size_int by exact Hsmall;
    (destruct (decide (start = size nums)) as [Heq|Hne];
     [by apply Hleaf|]); [lia|].
  assert (fact (Z.to_nat (size nums - start))
          = (size nums - start) * fact (Z.to_nat (size nums - start - 1)))
    as Hfact.
  { replace (Z.to_nat (size nums - start))
      with (S (Z.to_nat (size nums - start - 1))) by lia.
    rewrite fact_S. f_equal. lia. }
  pose proof (fact_pos (Z.to_nat (size nums - start - 1))) as Hpos.
  match goal with |- context [for_lt_M ?lo ?hi ?body ?s] =>
    destruct (for_lt_M_inv (permute_inv nums start result) body lo hi s)
      as ([nums' result'] & E & Hnums & new & Hres & Hlen & Hmem) end.
  - lia.
  - split; [reflexivity|]. exists []. cbn [fst snd].
    split; [by rewrite app_nil_r|]. split; [cbn [length]; lia|].
    intros l. split; [by intros ?%elem_of_nil|].
    intros (_ & _ & j & Hj & _). lia.
  - intros i [nums0 result0] Hi (Hnums & new & Hres & Hlen & Hmem).
    cbn [fst snd] in *. subst nums0 result0.
    destruct (swap_back nums start i ltac:(lia) ltac:(lia))
      as (nums1 & x & y & Ex & Ey & E1 & E2 & Hperm1 & Hs1 & Hi1 & Ho1).
    rewrite E1. cbn [bind].
    rewrite (int_small (start + 1)) by (unfold size, INT_MAX in *; lia).
    assert (size nums1 = size nums) as Hsize1 by (unfold size; by rewrite Hperm1).
    destruct (IH nums1 (start + 1) (result ++ new))
      as (new1 & E3 & Hlen1 & Hmem1); [lia|lia|lia| |].
    { rewrite length_app, Nat2Z.inj_add, Hlen, Hsize1.
      replace (size nums - (start + 1)) with (size nums - start - 1) by lia.
      assert ((i - start + 1) * fact (Z.to_nat (size nums - start - 1))
              <= (size nums - start) * fact (Z.to_nat (size nums - start - 1)))
        by (apply Z.mul_le_mono_nonneg_r; lia).
      lia. }
    rewrite E3. cbn [bind]. rewrite E2. cbn [bind].
    eexists. split; [reflexivity|]. split; [reflexivity|].
    exists (new ++ new1). cbn [fst snd].
    split; [by rewrite (assoc_L (++))|]. split.
    { rewrite length_app, Nat2Z.inj_add, Hlen, Hlen1, Hsize1.
      replace (size nums - (start + 1)) with (size nums - start - 1) by lia. lia. }
    assert (take (Z.to_nat start) nums1 = take (Z.to_nat start) nums) as Htake1.
    { apply take_ext. intros k Hk. apply Ho1; lia. }
    intros l. rewrite elem_of_app, Hmem, Hmem1. split.
    + intros [(Hp & Ht & j & Hj & Ej)|[Hp Ht]].
      * split; [exact Hp|]. split; [exact Ht|]. exists j. split; [lia|exact Ej].
      * split; [by rewrite Hp|].
        assert (length l = length nums1) as Hlenl by (by rewrite Hp).
        assert (l !! Z.to_nat start = Some y) as El.
        { rewrite <- Hs1.
          rewrite <- (lookup_take_lt l (Z.to_nat (start + 1))) by lia.
          rewrite Ht. apply lookup_take_lt. lia. }
        split.
        -- rewrite <- Htake1. apply take_ext. intros k Hk.
           rewrite <- (lookup_take_lt l (Z.to_nat (start + 1))) by lia.
           rewrite Ht. apply lookup_take_lt. lia.
        -- exists (Z.to_nat i). split; [lia|congruence].
    + intros (Hp & Ht & j & Hj & Ej).
      destruct (decide (Z.of_nat j < i)) as [Hlt|Hge].
      * left. split; [exact Hp|]. split; [exact Ht|]. exists j.
        split; [lia|exact Ej].
      * right. split; [by rewrite Hperm1|].
        replace j with (Z.to_nat i) in Ej by lia.
        replace (Z.to_nat (start + 1)) with (S (Z.to_nat start)) by lia.
        rewrite (take_S_r l _ y) by congruence.
        rewrite (take_S_r nums1 _ y) by exact Hs1.
        by rewrite Ht, Htake1.
  - cbn [fst snd] in *. subst nums' result'. rewrite E.
    exists new. split; [reflexivity|]. split.
    { rewrite Hlen.
      replace (Z.to_nat (size nums - start))
        with (S (Z.to_nat (size nums - start - 1))) by lia.
      rewrite fact_S.
      replace (Z.of_nat (S (Z.to_nat (size nums - start - 1))))
        with (size nums - start) by lia.
      reflexivity. }
    intros l. rewrite Hmem. split; [by intros (? & ? & _)|].
    intros [Hp Ht]. split; [exact Hp|]. split; [exact Ht|].
    destruct (perm_next_position l nums (Z.to_nat start) Hp Ht
                ltac:(unfold size in *; lia)) as (j & Hj & [v Ev] & Ej).
    pose proof (lookup_lt_Some _ _ _ Ev). exists j. unfold size. split; [lia|exact Ej].
Qed.

(** Property X15: on a vector whose [size!] rearrangements fit the
    result vector, that is a vector of at most 19 elements,
    [permutations(nums)] returns exactly the rearrangements of [nums]:
    a vector is in the result if and only if it is a rearrangement of
    [nums]; the result has [size!] entries; and [permute_helper] hands
    [nums] back as it got it, every swap undone. *)
Theorem permutations_spec (nums : list Z) (fuel : nat) :
  fact (length nums) <= vector_max_size 24 -> (length nums <= fuel)%nat ->
  exists result : list (list Z),
    RecursionDemo.permutations fuel nums = Ret result /\
    RecursionDemo.permute_helper fuel nums 0 [] = Ret (nums, result) /\
    Z.of_nat (length result) = fact (length nums) /\
    forall l : list Z, l ∈ result <-> l ≡ₚ nums.
Proof.
  intros Hfit Hfuel.
  assert (length nums <= 19)%nat as Hshort.
  { destruct (decide (length nums <= 19)%nat) as [|Hlong]; [done|].
    pose proof (fact_mono 20 (length nums) ltac:(lia)) as Hm.
    assert (vector_max_size 24 < fact 20) by (vm_compute; reflexivity). lia. }
  assert (size nums <= INT_MAX) as Hsmall by (unfold size, INT_MAX; lia).
  destruct (permute_helper_spec fuel nums 0 [] Hsmall)
    as (new & E & Hlen & Hmem); [unfold size; lia|unfold size; lia| |].
  { cbn [length]. unfold size. by rewrite Z.sub_0_r, Nat2Z.id. }
  cbn [app] in E. exists new. unfold RecursionDemo.permutations. cbn zeta.
  rewrite E. cbn [bind]. split; [reflexivity|]. split; [reflexivity|]. split.
  - rewrite Hlen. f_equal. unfold size. lia.
  - intros l. rewrite Hmem. cbn [Z.to_nat take]. split; [by intros [? _]|done].
Qed.

Lemma permutations_spec_witness :
  exists result : list (list Z),
    RecursionDemo.permutations 3 [1; 2; 3] = Ret result /\
    RecursionDemo.permute_helper 3 [1; 2; 3] 0 [] = Ret ([1; 2; 3], result) /\
    Z.of_nat (length result) = fact 3 /\
    forall l : list Z, l ∈ result <-> l ≡ₚ [1; 2; 3].
Proof.
  apply (permutations_spec [1; 2; 3] 3).
  - vm_compute. discriminate.
  - cbn [length]. lia.
Defined.

(** ** recursion_demo.cpp: subsets *)

Lemma sublist_first (m t : list Z) :
  t `sublist_of` m <->
  t = [] \/
  exists (p : nat) (x : Z) (t' : list Z),
    m !! p = Some x /\ t' `sublist_of` drop (S p) m /\ t = x :: t'.
Proof.
  revert t. induction m as [|a m IH]; intros t.
  - rewrite sublist_nil_r. split; [by left|].
    intros [->|(p & x & t' & E & _)]; [done|]. by rewrite lookup_nil in E.
  - rewrite sublist_cons_r, IH. split.
    + intros [[->|(p & x & t' & E & Hs & ->)]|(t' & -> & Ht')].
      * by left.
      * right. exists (S p), x, t'. done.
      * right. exists O, a, t'. done.
    + intros [->|(p & x & t' & E & Hs & ->)]; [left; by left|].
      destruct p as [|p].
      * right. cbn in E. injection E as ->. exists t'. done.
      * left. right. exists p, x, t'. done.
Qed.

Lemma subsets_helper_spec (fuel : nat) :
  forall (nums : list Z) (index : Z) (current : list Z) (result : list (list Z)),
    size nums <= INT_MAX -> 0 <= index <= size nums ->
    size nums - index + 1 <= Z.of_nat fuel ->
    size current <= index ->
    Z.of_nat (length result) + 2 ^ (size nums - index) <= vector_max_size 24 ->
    exists new : list (list Z),
      RecursionDemo.subsets_helper fuel nums index current result
      = Ret (current, result ++ new) /\
      head new = Some current /\
      Z.of_nat (length new) = 2 ^ (size nums - index) /\
      forall l : list Z,
        l ∈ new <->
        exists t : list Z,
          t `sublist_of` drop (Z.to_nat index) nums /\ l = current ++ t.
Proof.
  induction fuel as [|fuel IH];
    intros nums index current result Hsmall Hindex Hfuel Hcurrent Hfit; [lia|].
  cbn [RecursionDemo.subsets_helper]. rewrite size_int by exact Hsmall.
  assert (0 < 2 ^ (size nums - index)) as Hpos by (apply Z.pow_pos_nonneg; lia).
  rewrite push_back_Ret by lia. cbn [bind].
  match goal with |- context [for_lt_M ?lo ?hi ?body ?s] =>
    destruct (for_lt_M_inv (subsets_inv nums index current result) body lo hi s)
      as ([current' result'] & E & Hcur & new & Hres & Hhead & Hlen & Hmem) end.
  - lia.
  - split; [reflexivity|]. exists [current]. cbn [fst snd].
    split; [reflexivity|]. split; [reflexivity|]. split; [cbn [length]; lia|].
    intros l. rewrite list_elem_of_singleton. split; [by left|].
    intros [->|(j & x & t & Hj & _)]; [reflexivity|lia].
  - intros i [current0 result0] Hi (Hcur & new & Hres & Hhead & Hlen & Hmem).
    cbn [fst snd] in *. subst current0 result0. unfold size in *.
    destruct (lookup_lt_is_Some_2 nums (Z.to_nat i) ltac:(lia)) as [x Ex].
    rewrite (at_lookup nums i x ltac:(lia) Ex). cbn [bind].
    rewrite push_back_Ret
      by (change (vector_max_size 4) with 2305843009213693951;
          unfold INT_MAX in *; lia).
    cbn [bind].
    rewrite (int_small (i + 1)) by (unfold INT_MAX in *; lia).
    destruct (IH nums (i + 1) (current ++ [x]) (result ++ new))
      as (new1 & E1 & _ & Hlen1 & Hmem1);
      [unfold size; lia|unfold size; lia|unfold size; lia| | |].
    { unfold size. rewrite length_app. cbn [length]. lia. }
    { rewrite length_app, Nat2Z.inj_add, Hlen. unfold size.
      pose proof (pow2_step (Z.of_nat (length nums) - i) ltac:(lia)) as Hstep.
      assert (0 < 2 ^ (Z.of_nat (length nums) - i - 1))
        by (apply Z.pow_pos_nonneg; lia).
      replace (Z.of_nat (length nums) - (i + 1))
        with (Z.of_nat (length nums) - i - 1) by lia. lia. }
    rewrite E1. cbn [bind].
    assert (RecursionDemo.pop_back (current ++ [x]) = Ret current) as ->.
    { unfold RecursionDemo.pop_back. rewrite removelast_last.
      by destruct current. }
    cbn [bind]. eexists. split; [reflexivity|]. split; [reflexivity|].
    exists (new ++ new1). cbn [fst snd].
    split; [by rewrite (assoc_L (++))|]. split.
    { destruct new; [discriminate|exact Hhead]. }
    split.
    { rewrite length_app, Nat2Z.inj_add, Hlen, Hlen1. unfold size.
      rewrite (pow2_step (Z.of_nat (length nums) - i)) by lia.
      replace (Z.of_nat (length nums) - (i + 1))
        with (Z.of_nat (length nums) - i - 1) by lia. lia. }
    intros l. rewrite elem_of_app, Hmem, Hmem1. split.
    + intros [[->|(j & y & t & Hj & Ey & Ht & ->)]|(t & Ht & ->)].
      * by left.
      * right. exists j, y, t. split; [lia|done].
      * right. exists (Z.to_nat i), x, t. split; [lia|]. split; [exact Ex|].
        replace (S (Z.to_nat i)) with (Z.to_nat (i + 1)) by lia.
        split; [exact Ht|]. by rewrite <- (assoc_L (++)).
    + intros [->|(j & y & t & Hj & Ey & Ht & ->)]; [left; by left|].
      destruct (decide (Z.of_nat j < i)) as [Hlt|Hge].
      * left. right. exists j, y, t. split; [lia|done].
      * right. replace j with (Z.to_nat i) in * by lia.
        rewrite Ex in Ey. injection Ey as <-. exists t.
        replace (Z.to_nat (i + 1)) with (S (Z.to_nat i)) by lia.
        split; [exact Ht|]. by rewrite <- (assoc_L (++)).
  - cbn [fst snd] in *. subst current' result'. rewrite E.
    exists new. split; [reflexivity|]. split; [exact Hhead|]. split.
    { rewrite Hlen, Z.sub_diag. cbn. lia. }
    intros l. rewrite Hmem. split.
    + intros [->|(j & x & t & Hj & Ex & Ht & ->)].
      * exists []. split; [apply sublist_nil_l|by rewrite app_nil_r].
      * exists (x :: t). split; [|reflexivity].
        apply sublist_first. right.
        exists (j - Z.to_nat index)%nat, x, t. rewrite lookup_drop, drop_drop.
        replace (Z.to_nat index + (j - Z.to_nat index))%nat with j by lia.
        replace (Z.to_nat index + S (j - Z.to_nat index))%nat with (S j) by lia.
        done.
    + intros (t & Ht & ->). apply sublist_first in Ht as [->|(p & x & t' & E' & Ht' & ->)].
      * left. by rewrite app_nil_r.
      * right. rewrite lookup_drop in E'. rewrite drop_drop in Ht'.
        pose proof (lookup_lt_Some _ _ _ E').
        exists (Z.to_nat index + p)%nat, x, t'. unfold size.
        split; [lia|]. split; [exact E'|].
        replace (S (Z.to_nat index + p)) with (Z.to_nat index + S p)%nat by lia.
        done.
Qed.

(** Property X16: on a vector whose [2^size] subsequences fit the
    result vector, that is a vector of at most 58 elements,
    [subsets(nums)] returns exactly the subsequences of [nums]: a
    vector is in the result if and only if it is [nums] with some
    elements left out; the result has [2^size] entries, the empty
    vector first; and [subsets_helper] hands [current] back as it got
    it, every [push_back] undone. *)
Theorem subsets_spec (nums : list Z) (fuel : nat) :
  2 ^ size nums <= vector_max_size 24 -> (length nums < fuel)%nat ->
  exists result : list (list Z),
    RecursionDemo.subsets fuel nums = Ret result /\
    RecursionDemo.subsets_helper fuel nums 0 [] [] = Ret ([], result) /\
    Z.of_nat (length result) = 2 ^ size nums /\
    head result = Some [] /\
    forall l : list Z, l ∈ result <-> l `sublist_of` nums.
Proof.
  intros Hfit Hfuel.
  assert (size nums <= 58) as Hshort.
  { destruct (decide (size nums <= 58)) as [|Hlong]; [done|].
    pose proof (Z.pow_le_mono_r 2 59 (size nums) ltac:(lia) ltac:(lia)) as Hm.
    assert (vector_max_size 24 < 2 ^ 59) by (vm_compute; reflexivity). lia. }
  assert (size nums <= INT_MAX) as Hsmall by (unfold INT_MAX; lia).
  destruct (subsets_helper_spec fuel nums 0 [] [] Hsmall)
    as (new & E & Hhead & Hlen & Hmem);
    [unfold size; lia|unfold size; lia|unfold size; cbn [length]; lia| |].
  { cbn [length]. by rewrite Z.sub_0_r. }
  cbn [app] in E. exists new. unfold RecursionDemo.subsets. cbn zeta.
  rewrite E. cbn [bind]. split; [reflexivity|]. split; [reflexivity|]. split.
  - rewrite Hlen. by rewrite Z.sub_0_r.
  - split; [exact Hhead|].
    intros l. rewrite Hmem. cbn [Z.to_nat drop app]. split.
    + by intros (t & Ht & ->).
    + intros Hl. by exists l.
Qed.

Lemma subsets_spec_witness :
  exists result : list (list Z),
    RecursionDemo.subsets 4 [1; 2; 3] = Ret result /\
    RecursionDemo.subsets_helper 4 [1; 2; 3] 0 [] [] = Ret ([], result) /\
    Z.of_nat (length result) = 2 ^ 3 /\
    head result = Some [] /\
    forall l : list Z, l ∈ result <-> l `sublist_of` [1; 2; 3].
Proof.
  apply (subsets_spec [1; 2; 3] 4).
  - vm_compute. discriminate.
  - cbn [length]. lia.
Defined.

(** ** dp_demo.cpp: climbing stairs *)

Lemma climbs_SS (n : nat) :
  climbs (S (S n)) = map (cons 1) (climbs (S n)) ++ map (cons 2) (climbs n).
Proof. reflexivity. Qed.

Lemma climbs_length (n : nat) :
  Z.of_nat (length (climbs n)) = fib (S n) /\
  Z.of_nat (length (climbs (S n))) = fib (S (S n)).
Proof.
  induction n as [|n [IH1 IH2]]; [split; reflexivity|].
  split; [exact IH2|].
  rewrite climbs_SS, length_app, !length_map, Nat2Z.inj_add, IH1, IH2.
  rewrite (fib_SS (S n)). lia.
Qed.

Lemma climbs_elem (n : nat) :
  (forall l : list Z,
     l ∈ climbs n <->
     Forall (fun s => s = 1 \/ s = 2) l /\ foldr Z.add 0 l = Z.of_nat n) /\
  (forall l : list Z,
     l ∈ climbs (S n) <->
     Forall (fun s => s = 1 \/ s = 2) l /\ foldr Z.add 0 l = Z.of_nat (S n)).
Proof.
  assert (forall l : list Z, Forall (fun s => s = 1 \/ s = 2) l ->
            0 <= foldr Z.add 0 l) as Hpos.
  { induction 1 as [|s l Hs _ IH]; cbn [foldr]; lia. }
  induction n as [|n [IH1 IH2]].
  - split; intros l; cbn [climbs]; rewrite list_elem_of_singleton.
    + split; [by intros ->|]. intros [Hall Hsum].
      destruct Hall as [|s l Hs Hall]; [done|].
      pose proof (Hpos l Hall). cbn [foldr] in Hsum. lia.
    + split; [intros ->; split; [repeat constructor; lia|reflexivity]|].
      intros [Hall Hsum].
      destruct Hall as [|s l Hs Hall]; [cbn in Hsum; lia|].
      pose proof (Hpos l Hall) as Hl. cbn [foldr] in Hsum.
      destruct Hall as [|s' l' Hs' Hall']; [f_equal; cbn in Hsum; lia|].
      pose proof (Hpos l' Hall'). cbn [foldr] in Hsum, Hl. lia.
  - split; [exact IH2|]. intros l.
    rewrite climbs_SS, elem_of_app, !list_elem_of_fmap. split.
    + intros [(t & -> & Ht)|(t & -> & Ht)].
      * apply IH2 in Ht as [Hall Hsum]. split; [constructor; [by left|done]|].
        cbn [foldr]. lia.
      * apply IH1 in Ht as [Hall Hsum]. split; [constructor; [by right|done]|].
        cbn [foldr]. lia.
    + intros [Hall Hsum].
      destruct Hall as [|s t Hs Hall]; [cbn in Hsum; lia|].
      cbn [foldr] in Hsum. destruct Hs as [-> | ->].
      * left. exists t. split; [reflexivity|]. apply IH2. split; [done|lia].
      * right. exists t. split; [reflexivity|]. apply IH1. split; [done|lia].
Qed.

Lemma climbs_NoDup (n : nat) : NoDup (climbs n) /\ NoDup (climbs (S n)).
Proof.
  induction n as [|n [IH1 IH2]].
  - split; cbn [climbs]; apply NoDup_singleton.
  - split; [exact IH2|]. rewrite climbs_SS. apply NoDup_app.
    split; [|split].
    + apply NoDup_fmap_2; [|exact IH2]. by intros ? ? [= ->].
    + intros l (t & -> & _)%list_elem_of_fmap (t' & [=] & _)%list_elem_of_fmap.
    + apply NoDup_fmap_2; [|exact IH1]. by intros ? ? [= ->].
Qed.

Lemma climb_stairs_wraps (n : Z) :
  1 <= n -> DpDemo.climb_stairs n = int (fib (Z.to_nat (n + 1))).
Proof.
  intros Hn. unfold DpDemo.climb_stairs.
  destruct (decide (n <= 2)) as [Hsmall|Hbig].
  - assert (n = 1 \/ n = 2) as [-> | ->] by lia; vm_compute; reflexivity.
  - pose (P := fun (i : Z) (s : Z * Z) =>
        s.1 = int (fib (Z.to_nat (i - 1))) /\
        s.2 = int (fib (Z.to_nat i))).
    match goal with |- (let '(_, _) := ?loop in _) = _ =>
      assert (P (n + 1) loop) as HP; [|destruct loop as [a b]] end.
    { apply for_le_inv; [lia | |].
      - unfold P. vm_compute. done.
      - intros j [a b] Hj [Ha Hb]. simpl in Ha, Hb. subst a b.
        unfold P; simpl. split.
        + do 2 f_equal. lia.
        + replace (Z.to_nat (j + 1)) with (S (S (Z.to_nat (j - 1)))) by lia.
          replace (Z.to_nat j) with (S (Z.to_nat (j - 1))) by lia.
          rewrite fib_SS, int_add_l, int_add_r. f_equal. }
    destruct HP as [_ Hb]. simpl in Hb. exact Hb.
Qed.

(** Property X17: for every [n] from 1 to 45,
    [climb_stairs(n)] is the number of ways to climb [n] stairs taking
    one or two at a time, which is the Fibonacci number F(n + 1); 45
    is the last [n] whose count fits [int].  For [n <= 2] the function
    returns [n] itself, so 0 for no stairs and a negative number as it
    is. *)
Theorem climb_stairs_spec (n : Z) :
  (n <= 2 -> DpDemo.climb_stairs n = n) /\
  (1 <= n <= 45 ->
   DpDemo.climb_stairs n = fib (Z.to_nat (n + 1)) /\
   exists ways : list (list Z),
     NoDup ways /\
     (forall l : list Z,
        l ∈ ways <->
        Forall (fun s => s = 1 \/ s = 2) l /\ foldr Z.add 0 l = n) /\
     DpDemo.climb_stairs n = Z.of_nat (length ways)).
Proof.
  split.
  - intros Hn. unfold DpDemo.climb_stairs. by destruct (decide (n <= 2)).
  - intros Hn.
    assert (DpDemo.climb_stairs n = fib (Z.to_nat (n + 1))) as E.
    { rewrite climb_stairs_wraps by lia. apply int_small.
      split; [apply fib_nonneg|]. apply fib_fits_int. lia. }
    split; [exact E|].
    exists (climbs (Z.to_nat n)).
    split; [apply climbs_NoDup|]. split.
    + intros l. rewrite (proj1 (climbs_elem (Z.to_nat n)) l).
      by rewrite Z2Nat.id by lia.
    + rewrite E, (proj1 (climbs_length (Z.to_nat n))). f_equal. lia.
Qed.

Lemma climb_stairs_spec_witness :
  DpDemo.climb_stairs 10 = 89 /\ DpDemo.climb_stairs 0 = 0.
Proof.
  split.
  - apply (proj1 (proj2 (climb_stairs_spec 10) ltac:(lia))).
  - apply (proj1 (climb_stairs_spec 0)). lia.
Defined.

(** ** dp_demo.cpp: maximum subarray *)

Lemma foldr_add_snoc (l : list Z) (x : Z) :
  foldr Z.add 0 (l ++ [x]) = foldr Z.add 0 l + x.
Proof. induction l as [|y l IH]; cbn [foldr app]; lia. Qed.

Lemma seg_sum_nil (a : list Z) (lo : Z) : seg_sum a lo lo = 0.
Proof. unfold seg_sum. by rewrite segment_nil. Qed.

Lemma seg_sum_snoc (a : list Z) (lo hi x : Z) :
  0 <= lo <= hi -> a !! Z.to_nat hi = Some x ->
  seg_sum a lo (hi + 1) = seg_sum a lo hi + x.
Proof.
  intros H E. unfold seg_sum. rewrite (segment_snoc a lo hi x H E).
  apply foldr_add_snoc.
Qed.

Section Kadane.
Variable nums : list Z.
Hypothesis fits : forall lo hi : Z,
  0 <= lo < hi -> hi <= size nums -> INT_MIN <= seg_sum nums lo hi <= INT_MAX.

Lemma kadane_step (i x m c : Z) :
  1 <= i < size nums -> nums !! Z.to_nat i = Some x ->
  best_run nums i m -> best_run_ending nums i c ->
  int (c + x) = c + x /\
  best_run_ending nums (i + 1) (Z.max x (c + x)) /\
  best_run nums (i + 1) (Z.max m (Z.max x (c + x))).
Proof.
  intros Hi Ex [(lo & hi & Hlh & Hhi & Em) Hm] [(lo' & Hlo' & Ec) Hc].
  assert (seg_sum nums i (i + 1) = x) as Ei.
  { rewrite (seg_sum_snoc nums i i x) by (done || lia). rewrite seg_sum_nil. lia. }
  assert (forall l : Z, 0 <= l < i ->
            seg_sum nums l (i + 1) = seg_sum nums l i + x) as Estep.
  { intros l Hl. apply seg_sum_snoc; [lia|exact Ex]. }
  assert (best_run_ending nums (i + 1) (Z.max x (c + x))) as Hc'.
  { split.
    - destruct (Z.max_spec x (c + x)) as [[_ ->]|[_ ->]].
      + exists lo'. split; [lia|]. rewrite Estep by lia. lia.
      + exists i. split; [lia|exact Ei].
    - intros l Hl. destruct (decide (l = i)) as [->|Hne]; [lia|].
      rewrite Estep by lia. pose proof (Hc l ltac:(lia)). lia. }
  split; [|split; [exact Hc'|]].
  - apply int_id. rewrite <- Ec, <- Estep by lia. apply fits; lia.
  - split.
    + destruct (Z.max_spec m (Z.max x (c + x))) as [[_ ->]|[_ ->]].
      * destruct Hc' as [(l & Hl & El) _]. exists l, (i + 1). split; [lia|]. split; [lia|done].
      * exists lo, hi. split; [lia|]. split; [lia|done].
    + intros l h Hl Hh. destruct (decide (h = i + 1)) as [->|Hne].
      * pose proof (proj2 Hc' l ltac:(lia)). lia.
      * pose proof (Hm l h Hl ltac:(lia)). lia.
Qed.

Lemma kadane_start (x : Z) :
  nums !! Z.to_nat 0 = Some x -> best_run nums 1 x /\ best_run_ending nums 1 x.
Proof.
  intros Ex.
  assert (seg_sum nums 0 1 = x) as E.
  { pose proof (seg_sum_snoc nums 0 0 x ltac:(lia) Ex) as E.
    rewrite seg_sum_nil in E. exact E. }
  split; split.
  - exists 0, 1. split; [lia|]. split; [lia|exact E].
  - intros lo hi Hl Hh. replace lo with 0 by lia. replace hi with 1 by lia. lia.
  - exists 0. split; [lia|exact E].
  - intros lo Hl. replace lo with 0 by lia. lia.
Qed.

Lemma max_subarray_best :
  nums <> [] ->
  exists m : Z, DpDemo.max_subarray nums = Ret m /\ best_run nums (size nums) m.
Proof.
  intros Hne. unfold DpDemo.max_subarray.
  assert (0 < size nums) as Hpos.
  { unfold size. destruct nums; [done|cbn [length]; lia]. }
  destruct (lookup_lt_is_Some_2 nums (Z.to_nat 0) ltac:(unfold size in *; lia))
    as [x0 E0].
  rewrite (at_lookup nums 0 x0 ltac:(lia) E0). cbn [bind].
  destruct (kadane_start x0 E0) as [Hm0 Hc0].
  match goal with |- context [for_lt_M ?lo ?hi ?body ?s] =>
    destruct (for_lt_M_inv
                (fun i st => best_run nums i st.1 /\ best_run_ending nums i st.2)
                body lo hi s)
      as ([m c] & E & Hm & Hc) end.
  - lia.
  - done.
  - intros i [m c] Hi [Hm Hc]. cbn [fst snd] in *.
    destruct (lookup_lt_is_Some_2 nums (Z.to_nat i) ltac:(unfold size in *; lia))
      as [x Ex].
    rewrite (at_lookup nums i x ltac:(lia) Ex). cbn [bind]. cbn zeta.
    destruct (kadane_step i x m c Hi Ex Hm Hc) as (Eint & Hc' & Hm').
    rewrite Eint. eexists. split; [reflexivity|]. done.
  - rewrite E. cbn [bind]. exists m. done.
Qed.

Lemma max_subarray_range_best :
  nums <> [] -> size nums <= INT_MAX ->
  exists m s e : Z,
    DpDemo.max_subarray_range nums = Ret (m, s, e) /\
    best_run nums (size nums) m /\
    0 <= s <= e /\ e < size nums /\ seg_sum nums s (e + 1) = m.
Proof.
  intros Hne Hsmall. unfold DpDemo.max_subarray_range.
  assert (0 < size nums) as Hpos.
  { unfold size. destruct nums; [done|cbn [length]; lia]. }
  destruct (lookup_lt_is_Some_2 nums (Z.to_nat 0) ltac:(unfold size in *; lia))
    as [x0 E0].
  rewrite (at_lookup nums 0 x0 ltac:(lia) E0). cbn [bind]. cbn zeta.
  destruct (kadane_start x0 E0) as [Hm0 Hc0].
  match goal with |- context [for_lt_M ?lo ?hi ?body ?s] =>
    destruct (for_lt_M_inv (range_inv nums) body lo hi s)
      as ([[[[m c] st] e] t] & E & Hm & Hc & Ht & Et & Hse & He & Em) end.
  - lia.
  - split; [exact Hm0|]. split; [exact Hc0|]. split; [lia|].
    destruct Hc0 as [(l & Hl & El) _]. replace l with 0 in El by lia.
    split; [exact El|]. split; [lia|]. split; [lia|exact El].
  - intros i [[[[m c] s] e] t] Hi (Hm & Hc & Ht & Et & Hse & He & Em).
    destruct (lookup_lt_is_Some_2 nums (Z.to_nat i) ltac:(unfold size in *; lia))
      as [x Ex].
    rewrite (at_lookup nums i x ltac:(lia) Ex). cbn [bind].
    destruct (kadane_step i x m c Hi Ex Hm Hc) as (Eint & Hc' & Hm').
    rewrite Eint. rewrite (int_small i) by (unfold size, INT_MAX in *; lia).
    assert (seg_sum nums i (i + 1) = x) as Ei.
    { rewrite (seg_sum_snoc nums i i x) by (done || lia). rewrite seg_sum_nil. lia. }
    assert (seg_sum nums t (i + 1) = c + x) as Et'.
    { rewrite (seg_sum_snoc nums t i x) by (done || lia). lia. }
    destruct (decide (x > c + x)) as [Hx|Hx].
    + replace (Z.max x (c + x)) with x in * by lia.
      destruct (decide (x > m)) as [Hxm|Hxm]; (eexists; split; [reflexivity|]).
      * replace (Z.max m x) with x in * by lia.
        split; [exact Hm'|]. split; [exact Hc'|]. split; [lia|]. split; [exact Ei|].
        split; [lia|]. split; [lia|exact Ei].
      * replace (Z.max m x) with m in * by lia.
        split; [exact Hm'|]. split; [exact Hc'|]. split; [lia|]. split; [exact Ei|].
        split; [lia|]. split; [lia|exact Em].
    + replace (Z.max x (c + x)) with (c + x) in * by lia.
      destruct (decide (c + x > m)) as [Hxm|Hxm]; (eexists; split; [reflexivity|]).
      * replace (Z.max m (c + x)) with (c + x) in * by lia.
        split; [exact Hm'|]. split; [exact Hc'|]. split; [lia|]. split; [exact Et'|].
        split; [lia|]. split; [lia|exact Et'].
      * replace (Z.max m (c + x)) with m in * by lia.
        split; [exact Hm'|]. split; [exact Hc'|]. split; [lia|]. split; [exact Et'|].
        split; [lia|]. split; [lia|exact Em].
  - rewrite E. cbn [bind]. exists m, st, e. done.
Qed.
End Kadane.

Lemma best_run_unique (a : list Z) (i m1 m2 : Z) :
  best_run a i m1 -> best_run a i m2 -> m1 = m2.
Proof.
  intros [(l1 & h1 & H1 & H1' & E1) U1] [(l2 & h2 & H2 & H2' & E2) U2].
  pose proof (U1 l2 h2 H2 H2'). pose proof (U2 l1 h1 H1 H1'). lia.
Qed.

(** Property X18: on a non-empty vector whose runs
    of consecutive elements all have a sum that fits [int],
    [max_subarray] returns the largest sum of a non-empty run; on the
    empty vector it reads [nums[0]], which is not there. *)
Theorem max_subarray_spec (nums : list Z) :
  (nums <> [] ->
   (forall lo hi : Z, 0 <= lo < hi -> hi <= size nums ->
      INT_MIN <= seg_sum nums lo hi <= INT_MAX) ->
   exists m : Z,
     DpDemo.max_subarray nums = Ret m /\
     (exists lo hi : Z, 0 <= lo < hi /\ hi <= size nums /\ seg_sum nums lo hi = m) /\
     (forall lo hi : Z, 0 <= lo < hi -> hi <= size nums -> seg_sum nums lo hi <= m)) /\
  DpDemo.max_subarray [] = Undefined.
Proof.
  split; [|reflexivity]. intros Hne Hfits.
  destruct (max_subarray_best nums Hfits Hne) as (m & E & Hex & Hmax).
  exists m. done.
Qed.

Lemma seg_sum_bound (a : list Z) (B lo hi : Z) :
  0 <= B -> Forall (fun x => - B <= x <= B) a -> 0 <= lo <= hi ->
  - B * (hi - lo) <= seg_sum a lo hi <= B * (hi - lo).
Proof.
  intros HB Hall Hlh. unfold seg_sum, segment.
  assert (Forall (fun x => - B <= x <= B)
            (take (Z.to_nat (hi - lo)) (drop (Z.to_nat lo) a))) as Hseg.
  { by apply Forall_take, Forall_drop. }
  assert (Z.of_nat (length (take (Z.to_nat (hi - lo)) (drop (Z.to_nat lo) a)))
          <= hi - lo) as Hlen.
  { rewrite length_take. lia. }
  revert Hseg Hlen. generalize (take (Z.to_nat (hi - lo)) (drop (Z.to_nat lo) a)).
  generalize (hi - lo). intros d l Hl. revert d.
  induction Hl as [|x l Hx _ IH]; intros d Hd; cbn [foldr length] in *.
  - nia.
  - specialize (IH (d - 1) ltac:(lia)). nia.
Qed.

Lemma max_subarray_fits_demo :
  forall lo hi : Z, 0 <= lo < hi -> hi <= size [-2; 1; -3; 4; -1; 2; 1; -5; 4] ->
    INT_MIN <= seg_sum [-2; 1; -3; 4; -1; 2; 1; -5; 4] lo hi <= INT_MAX.
Proof.
  intros lo hi Hlo Hhi. unfold size in Hhi. cbn [length] in Hhi.
  pose proof (seg_sum_bound [-2; 1; -3; 4; -1; 2; 1; -5; 4] 5 lo hi) as H.
  unfold INT_MIN, INT_MAX. 
  assert (Forall (fun x => - 5 <= x <= 5) [-2; 1; -3; 4; -1; 2; 1; -5; 4]) as Hall.
  { repeat constructor; lia. }
  specialize (H ltac:(lia) Hall ltac:(lia)). lia.
Qed.

Lemma max_subarray_spec_witness :
  exists m : Z,
    DpDemo.max_subarray [-2; 1; -3; 4; -1; 2; 1; -5; 4] = Ret m /\
    (exists lo hi : Z,
       0 <= lo < hi /\ hi <= 9 /\ seg_sum [-2; 1; -3; 4; -1; 2; 1; -5; 4] lo hi = m) /\
    (forall lo hi : Z, 0 <= lo < hi -> hi <= 9 ->
       seg_sum [-2; 1; -3; 4; -1; 2; 1; -5; 4] lo hi <= m).
Proof.
  apply (proj1 (max_subarray_spec [-2; 1; -3; 4; -1; 2; 1; -5; 4])).
  - discriminate.
  - apply max_subarray_fits_demo.
Defined.

(** Property X19: on a non-empty vector of at
    most [INT_MAX] elements whose runs all have a sum that fits [int],
    [max_subarray_range] returns the largest sum of a non-empty run
    together with the first and the last position of a run that has
    this sum, and the sum is the one [max_subarray] returns. *)
Theorem max_subarray_range_spec (nums : list Z) :
  nums <> [] -> size nums <= INT_MAX ->
  (forall lo hi : Z, 0 <= lo < hi -> hi <= size nums ->
     INT_MIN <= seg_sum nums lo hi <= INT_MAX) ->
  exists max_sum start end_ : Z,
    DpDemo.max_subarray_range nums = Ret (max_sum, start, end_) /\
    DpDemo.max_subarray nums = Ret max_sum /\
    0 <= start <= end_ /\ end_ < size nums /\
    seg_sum nums start (end_ + 1) = max_sum /\
    (forall lo hi : Z, 0 <= lo < hi -> hi <= size nums ->
       seg_sum nums lo hi <= max_sum).
Proof.
  intros Hne Hsmall Hfits.
  destruct (max_subarray_range_best nums Hfits Hne Hsmall)
    as (m & s & e & E & Hbest & Hse & He & Em).
  destruct (max_subarray_best nums Hfits Hne) as (m' & E' & Hbest').
  exists m, s, e. split; [exact E|].
  split; [by rewrite E', (best_run_unique _ _ _ _ Hbest' Hbest)|].
  split; [exact Hse|]. split; [exact He|]. split; [exact Em|].
  apply Hbest.
Qed.

Lemma max_subarray_range_spec_witness :
  exists max_sum start end_ : Z,
    DpDemo.max_subarray_range [-2; 1; -3; 4; -1; 2; 1; -5; 4]
    = Ret (max_sum, start, end_) /\
    DpDemo.max_subarray [-2; 1; -3; 4; -1; 2; 1; -5; 4] = Ret max_sum /\
    0 <= start <= end_ /\ end_ < 9 /\
    seg_sum [-2; 1; -3; 4; -1; 2; 1; -5; 4] start (end_ + 1) = max_sum /\
    (forall lo hi : Z, 0 <= lo < hi -> hi <= 9 ->
       seg_sum [-2; 1; -3; 4; -1; 2; 1; -5; 4] lo hi <= max_sum).
Proof.
  apply (max_subarray_range_spec [-2; 1; -3; 4; -1; 2; 1; -5; 4]).
  - discriminate.
  - unfold size, INT_MAX. cbn [length]. lia.
  - apply max_subarray_fits_demo.
Defined.

(** ** dp_demo.cpp: house robber *)

Lemma sel_sum_ext (sel sel' : nat -> bool) (xs : list Z) (i : nat) :
  (forall k : nat, (k < i)%nat -> sel k = sel' k) ->
  sel_sum sel xs i = sel_sum sel' xs i.
Proof.
  induction i as [|i IH]; intros H; [reflexivity|].
  cbn [sel_sum]. rewrite IH by (intros; apply H; lia).
  by rewrite (H i) by lia.
Qed.

Lemma sel_sum_all (xs : list Z) (i : nat) :
  sel_sum (fun _ => true) xs i = foldr Z.add 0 (take i xs).
Proof.
  induction i as [|i IH]; [reflexivity|]. cbn [sel_sum]. rewrite IH.
  destruct (xs !! i) as [x|] eqn:E.
  - rewrite (take_S_r xs i x E), foldr_add_snoc. reflexivity.
  - cbn [default from_option id]. apply lookup_ge_None in E.
    rewrite !take_ge by lia. lia.
Qed.

Lemma sel_sum_bounds (sel : nat -> bool) (xs : list Z) (i : nat) :
  Forall (fun x => 0 <= x) xs ->
  0 <= sel_sum sel xs i <= sel_sum (fun _ => true) xs i.
Proof.
  intros Hpos. induction i as [|i IH]; cbn [sel_sum]; [lia|].
  assert (0 <= default 0 (xs !! i)) as Hx.
  { destruct (xs !! i) as [x|] eqn:E; cbn [default from_option id]; [|lia].
    rewrite Forall_forall in Hpos. apply Hpos. eapply list_elem_of_lookup_2, E. }
  destruct (sel i); lia.
Qed.

Lemma sel_sum_all_mono (xs : list Z) (i j : nat) :
  Forall (fun x => 0 <= x) xs -> (i <= j)%nat ->
  sel_sum (fun _ => true) xs i <= sel_sum (fun _ => true) xs j.
Proof.
  intros Hpos Hij. induction Hij as [|j Hij IH]; [lia|].
  cbn [sel_sum].
  assert (0 <= default 0 (xs !! j)) as Hx.
  { destruct (xs !! j) as [x|] eqn:E; cbn [default from_option id]; [|lia].
    rewrite Forall_forall in Hpos. apply Hpos. eapply list_elem_of_lookup_2, E. }
  lia.
Qed.

Lemma sel_sum_total (xs : list Z) :
  sel_sum (fun _ => true) xs (length xs) = foldr Z.add 0 xs.
Proof. by rewrite sel_sum_all, take_ge. Qed.

Section Rob.
Variable nums : list Z.
Hypothesis nonneg : Forall (fun x => 0 <= x) nums.
Hypothesis fits : foldr Z.add 0 nums <= INT_MAX.

Lemma nums_nonneg (k : nat) (x : Z) : nums !! k = Some x -> 0 <= x.
Proof.
  intros E. rewrite Forall_forall in nonneg. apply nonneg.
  eapply list_elem_of_lookup_2, E.
Qed.

Lemma best_loot_0 : best_loot nums 0 0.
Proof. split; [exists (fun _ => false); done|]. intros sel _. cbn. lia. Qed.

Lemma best_loot_1 (x : Z) : nums !! 0%nat = Some x -> best_loot nums 1 x.
Proof.
  intros E. pose proof (nums_nonneg 0 x E). split.
  - exists (fun k => (k =? 0)%nat). split.
    + intros k Hk. apply Nat.eqb_eq in Hk. subst k. reflexivity.
    + cbn [sel_sum]. rewrite E. rewrite Nat.eqb_refl.
      cbn [default from_option id]. lia.
  - intros sel _. cbn [sel_sum]. rewrite E. cbn [default from_option id]. destruct (sel 0%nat); lia.
Qed.

Lemma best_loot_2 (a b : Z) :
  nums !! 0%nat = Some a -> nums !! 1%nat = Some b ->
  best_loot nums 2 (Z.max a b).
Proof.
  intros Ea Eb. pose proof (nums_nonneg 0 a Ea). pose proof (nums_nonneg 1 b Eb).
  split.
  - destruct (Z.max_spec a b) as [[_ ->]|[_ ->]].
    + exists (fun k => (k =? 1)%nat). split.
      * intros k Hk. apply Nat.eqb_eq in Hk. subst k. reflexivity.
      * cbn [sel_sum]. rewrite Ea, Eb. cbn. unfold id. lia.
    + exists (fun k => (k =? 0)%nat). split.
      * intros k Hk. apply Nat.eqb_eq in Hk. subst k. reflexivity.
      * cbn [sel_sum]. rewrite Ea, Eb. cbn. unfold id. lia.
  - intros sel Hadj. cbn [sel_sum]. rewrite Ea, Eb. cbn [default from_option id].
    pose proof (Hadj 0%nat) as Hadj0.
    destruct (sel 0%nat), (sel 1%nat); lia.
Qed.

Lemma best_loot_step (i : nat) (x p2 p1 : Z) :
  (1 <= i)%nat -> nums !! i = Some x ->
  best_loot nums (i - 1) p2 -> best_loot nums i p1 ->
  int (p2 + x) = p2 + x /\ best_loot nums (S i) (Z.max p1 (p2 + x)).
Proof.
  intros Hi Ex [(s2 & Hadj2 & E2) U2] [(s1 & Hadj1 & E1) U1].
  pose proof (nums_nonneg i x Ex) as Hx.
  pose proof (lookup_lt_Some _ _ _ Ex) as Hlt.
  split.
  - apply int_small. rewrite <- E2.
    pose proof (sel_sum_bounds s2 nums (i - 1) nonneg) as Hb.
    pose proof (sel_sum_all_mono nums (i - 1) i nonneg ltac:(lia)) as Hm1.
    pose proof (sel_sum_all_mono nums (S i) (length nums) nonneg ltac:(lia)) as Hm2.
    rewrite sel_sum_total in Hm2. cbn [sel_sum] in Hm2. rewrite Ex in Hm2.
    cbn [default from_option id] in Hm2. lia.
  - split.
    + destruct (Z.max_spec p1 (p2 + x)) as [[_ ->]|[_ ->]].
      * exists (fun k => if decide (k < i - 1)%nat then s2 k else (k =? i)%nat).
        split.
        -- intros k Hk. destruct (decide (k < i - 1)%nat) as [Hlow|Hhigh].
           ++ destruct (decide (S k < i - 1)%nat); [by apply Hadj2|].
              apply Nat.eqb_neq. lia.
           ++ apply Nat.eqb_eq in Hk. subst k.
              destruct (decide (S i < i - 1)%nat); [lia|].
              apply Nat.eqb_neq. lia.
        -- cbn [sel_sum]. destruct (decide (i < i - 1)%nat); [lia|].
           rewrite Nat.eqb_refl. rewrite Ex. cbn [default from_option id].
           f_equal. rewrite <- E2.
           replace i with (S (i - 1)) at 1 by lia. cbn [sel_sum].
           destruct (decide (i - 1 < i - 1)%nat); [lia|].
           rewrite (proj2 (Nat.eqb_neq _ _)) by lia.
           rewrite Z.add_0_r. apply sel_sum_ext.
           intros k Hk. by destruct (decide (k < i - 1)%nat).
      * exists (fun k => if decide (k < i)%nat then s1 k else false). split.
        -- intros k Hk. destruct (decide (k < i)%nat) as [Hlow|Hhigh]; [|done].
           destruct (decide (S k < i)%nat); [by apply Hadj1|reflexivity].
        -- cbn [sel_sum]. destruct (decide (i < i)%nat); [lia|].
           rewrite Z.add_0_r, <- E1. apply sel_sum_ext.
           intros k Hk. by destruct (decide (k < i)%nat).
    + intros sel Hadj. cbn [sel_sum]. rewrite Ex. cbn [default from_option id].
      pose proof (U1 sel Hadj) as H1.
      destruct (sel i) eqn:Ei; [|lia].
      replace i with (S (i - 1)) in H1 |- * at 1 by lia.
      cbn [sel_sum].
      destruct (sel (i - 1)%nat) eqn:Ep.
      * apply Hadj in Ep. replace (S (i - 1)) with i in Ep by lia. congruence.
      * pose proof (U2 sel Hadj). lia.
Qed.

Lemma rob_best :
  exists r : Z, DpDemo.rob nums = Ret r /\ best_loot nums (length nums) r.
Proof.
  unfold DpDemo.rob.
  destruct (decide (nums = [])) as [Hnil|Hne].
  { exists 0. split; [reflexivity|].
    replace (length nums) with 0%nat by (by rewrite Hnil). apply best_loot_0. }
  assert (0 < size nums) as Hpos.
  { unfold size. destruct nums; [done|cbn [length]; lia]. }
  destruct (lookup_lt_is_Some_2 nums 0%nat ltac:(unfold size in *; lia)) as [a Ea].
  rewrite (at_lookup nums 0 a ltac:(lia) Ea).
  destruct (decide (size nums = 1)) as [Hone|Hmore].
  { exists a. split; [reflexivity|].
    replace (length nums) with 1%nat by (unfold size in *; lia).
    by apply best_loot_1. }
  cbn [bind].
  destruct (lookup_lt_is_Some_2 nums 1%nat ltac:(unfold size in *; lia)) as [b Eb].
  rewrite (at_lookup nums 1 b ltac:(lia) Eb). cbn [bind]. cbn zeta.
  match goal with |- context [for_lt_M ?lo ?hi ?body ?s0] =>
    destruct (for_lt_M_inv
                (fun i st => best_loot nums (Z.to_nat i - 1) st.1 /\
                             best_loot nums (Z.to_nat i) st.2)
                body lo hi s0)
      as ([p2 p1] & E & H2 & H1) end.
  - lia.
  - cbn [fst snd]. split; [by apply best_loot_1|by apply best_loot_2].
  - intros i [p2 p1] Hi [H2 H1]. cbn [fst snd] in *.
    destruct (lookup_lt_is_Some_2 nums (Z.to_nat i) ltac:(unfold size in *; lia))
      as [x Ex].
    rewrite (at_lookup nums i x ltac:(lia) Ex). cbn [bind]. cbn zeta.
    destruct (best_loot_step (Z.to_nat i) x p2 p1 ltac:(lia) Ex H2 H1)
      as [Eint Hnext].
    rewrite Eint. eexists. split; [reflexivity|]. cbn [fst snd].
    replace (Z.to_nat (i + 1)) with (S (Z.to_nat i)) by lia.
    split; [|exact Hnext].
    by replace (S (Z.to_nat i) - 1)%nat with (Z.to_nat i) by lia.
  - rewrite E. cbn [bind fst snd] in *. exists p1. split; [reflexivity|].
    unfold size in H1. by rewrite Nat2Z.id in H1.
Qed.
End Rob.

(** Property X20: on a vector of non-negative values whose
    sum fits [int], [rob] returns the largest sum that positions of the
    vector, no two of them adjacent, can add up to; on the empty vector
    that is 0. *)
Theorem rob_spec (nums : list Z) :
  Forall (fun x => 0 <= x) nums -> foldr Z.add 0 nums <= INT_MAX ->
  exists r : Z,
    DpDemo.rob nums = Ret r /\
    (exists sel : nat -> bool,
       no_adjacent sel /\ sel_sum sel nums (length nums) = r) /\
    (forall sel : nat -> bool,
       no_adjacent sel -> sel_sum sel nums (length nums) <= r).
Proof.
  intros Hpos Hfits. destruct (rob_best nums Hpos Hfits) as (r & E & Hex & Hmax).
  exists r. done.
Qed.

Lemma rob_spec_witness :
  exists r : Z,
    DpDemo.rob [2; 7; 9; 3; 1] = Ret r /\
    (exists sel : nat -> bool,
       no_adjacent sel /\ sel_sum sel [2; 7; 9; 3; 1] 5 = r) /\
    (forall sel : nat -> bool,
       no_adjacent sel -> sel_sum sel [2; 7; 9; 3; 1] 5 <= r).
Proof.
  apply (rob_spec [2; 7; 9; 3; 1]).
  - repeat constructor; lia.
  - unfold INT_MAX. cbn [foldr]. lia.
Defined.

(** ** dp_demo.cpp: 0-1 knapsack *)

Section Knapsack.
Variables (weights values : list Z) (W : Z).
Hypothesis weights_nonneg : Forall (fun x => 0 <= x) weights.
Hypothesis values_nonneg : Forall (fun x => 0 <= x) values.
Hypothesis values_enough : (length weights <= length values)%nat.
Hypothesis capacity : 0 <= W < INT_MAX.
Hypothesis fits : foldr Z.add 0 (take (length weights) values) <= INT_MAX.

Local Abbreviation best := (best_pack weights values).

Lemma best_pack_nonneg (i : nat) (w r : Z) :
  (i < length weights)%nat -> best i w r -> 0 <= r /\
  forall v, values !! i = Some v -> r + v <= INT_MAX.
Proof.
  intros Hi [(sel & _ & <-) _].
  pose proof (sel_sum_bounds sel values i values_nonneg) as Hb.
  split; [lia|]. intros v Ev.
  pose proof (sel_sum_all_mono values (S i) (length weights) values_nonneg ltac:(lia))
    as Hm.
  rewrite (sel_sum_all values (length weights)) in Hm.
  cbn [sel_sum] in Hm. rewrite Ev in Hm.
  cbn [default from_option id] in Hm. lia.
Qed.

Lemma best_pack_take (i : nat) (w wi v a b : Z) :
  weights !! i = Some wi -> values !! i = Some v -> wi <= w ->
  best i w a -> best i (w - wi) b ->
  best (S i) w (Z.max a (b + v)).
Proof.
  intros Ewi Ev Hw [(sa & Hwa & Ea) Ua] [(sb & Hwb & Eb) Ub].
  split.
  - destruct (Z.max_spec a (b + v)) as [[_ ->]|[_ ->]].
    + exists (fun k => if decide (k < i)%nat then sb k else true).
      cbn [sel_sum]. destruct (decide (i < i)%nat); [lia|].
      rewrite Ewi, Ev. cbn [default from_option id].
      rewrite (sel_sum_ext _ sb weights), (sel_sum_ext _ sb values)
        by (intros k Hk; by destruct (decide (k < i)%nat)).
      lia.
    + exists (fun k => if decide (k < i)%nat then sa k else false).
      cbn [sel_sum]. destruct (decide (i < i)%nat); [lia|].
      rewrite (sel_sum_ext _ sa weights), (sel_sum_ext _ sa values)
        by (intros k Hk; by destruct (decide (k < i)%nat)).
      lia.
  - intros sel. cbn [sel_sum]. rewrite Ewi, Ev. cbn [default from_option id].
    intros Hsel. destruct (sel i).
    + pose proof (Ub sel ltac:(lia)). lia.
    + pose proof (Ua sel ltac:(lia)). lia.
Qed.

Lemma best_pack_skip (i : nat) (w wi r : Z) :
  weights !! i = Some wi -> w < wi -> best i w r -> best (S i) w r.
Proof.
  intros Ewi Hw [(s & Hws & Es) U]. split.
  - exists (fun k => if decide (k < i)%nat then s k else false).
    cbn [sel_sum]. destruct (decide (i < i)%nat); [lia|].
    rewrite (sel_sum_ext _ s weights), (sel_sum_ext _ s values)
        by (intros k Hk; by destruct (decide (k < i)%nat)).
    lia.
  - intros sel. cbn [sel_sum]. rewrite Ewi. cbn [default from_option id].
    pose proof (sel_sum_bounds sel weights i weights_nonneg).
    intros Hsel. destruct (sel i); [lia|]. pose proof (U sel ltac:(lia)). lia.
Qed.

Lemma knapsack_inner (i : Z) (dp : list Z) (wi v : Z) :
  0 <= i < size weights ->
  weights !! Z.to_nat i = Some wi -> values !! Z.to_nat i = Some v ->
  knap_table weights values W i dp ->
  exists dp',
    for_down_M W wi (fun w dp =>
      do a <- at_ dp w;
      do b <- at_ dp (int (w - wi));
      do v <- at_ values i;
      set_at dp w (Z.max a (int (b + v)))) dp = Ret dp' /\
    knap_table weights values W (i + 1) dp'.
Proof.
  intros Hi Ewi Ev [Hlen Htab].
  assert (0 <= wi) as Hwi.
  { rewrite Forall_forall in weights_nonneg. apply weights_nonneg.
    eapply list_elem_of_lookup_2, Ewi. }
  assert (forall dp', knap_row weights values W (Z.to_nat i) (wi - 1) dp' ->
            knap_table weights values W (i + 1) dp') as Hfinish.
  { intros dp' (Hlen' & Hdone & Hold). split; [exact Hlen'|].
    intros c Hc. replace (Z.to_nat (i + 1)) with (S (Z.to_nat i)) by lia.
    destruct (decide (wi - 1 < Z.of_nat c)) as [Hhigh|Hlow].
    - apply Hdone. lia.
    - destruct (Hold c ltac:(lia) Hc) as (r & Er & Hr). exists r. split; [exact Er|].
      apply (best_pack_skip _ _ wi); [exact Ewi|lia|exact Hr]. }
  destruct (decide (wi <= W + 1)) as [Hfit|Hbig].
  2:{ unfold for_down_M. replace (Z.to_nat (W - wi + 1)) with O by lia.
      cbn [for_down_loop_M]. exists dp. split; [reflexivity|].
      apply Hfinish. split; [exact Hlen|]. split; [intros c Hc; lia|].
      intros c _ Hc. by apply Htab. }
  match goal with |- context [for_down_M ?hi ?lo ?body ?s0] =>
    destruct (for_down_M_inv (knap_row weights values W (Z.to_nat i)) body hi lo s0)
      as (dp' & E & Hrow) end.
  - lia.
  - split; [exact Hlen|]. split; [intros c Hc; lia|]. intros c _ Hc. by apply Htab.
  - intros w row Hw (Hlen' & Hdone & Hold).
    destruct (Hold (Z.to_nat w) ltac:(lia) ltac:(lia)) as (a & Ea & Ha).
    destruct (Hold (Z.to_nat (w - wi)) ltac:(lia) ltac:(lia)) as (b & Eb & Hb).
    rewrite Z2Nat.id in Ha, Hb by lia.
    rewrite (at_lookup row w a ltac:(lia) Ea). cbn [bind].
    rewrite (int_small (w - wi)) by (unfold INT_MAX in *; lia).
    rewrite (at_lookup row (w - wi) b ltac:(lia) Eb). cbn [bind].
    rewrite (at_lookup values i v ltac:(lia) Ev). cbn [bind].
    destruct (best_pack_nonneg (Z.to_nat i) (w - wi) b ltac:(unfold size in *; lia) Hb)
      as [Hb0 Hbv].
    assert (0 <= v) as Hv.
    { rewrite Forall_forall in values_nonneg. apply values_nonneg.
      eapply list_elem_of_lookup_2, Ev. }
    rewrite (int_small (b + v)) by (specialize (Hbv v Ev); lia).
    rewrite set_at_Ret by lia.
    eexists. split; [reflexivity|].
    split; [by rewrite length_insert|]. split.
    + intros c Hc. destruct (decide (c = Z.to_nat w)) as [->|Hne].
      * rewrite list_lookup_insert_eq by lia. eexists. split; [reflexivity|].
        rewrite Z2Nat.id by lia.
        apply (best_pack_take _ _ wi); [exact Ewi|exact Ev|lia|exact Ha|exact Hb].
      * rewrite list_lookup_insert_ne by lia. apply Hdone. lia.
    + intros c Hc HcW. rewrite list_lookup_insert_ne by lia. apply Hold; lia.
  - exists dp'. split; [exact E|]. by apply Hfinish.
Qed.

Lemma knapsack_best :
  exists r : Z,
    DpDemo.knapsack_01 weights values W = Ret r /\
    best (length weights) W r.
Proof.
  unfold DpDemo.knapsack_01.
  rewrite (int_small (W + 1)) by (unfold INT_MAX in *; lia).
  rewrite vector_fill_int by (unfold INT_MAX in *; lia). cbn [bind].
  match goal with |- context [for_lt_M ?lo ?hi ?body ?s0] =>
    destruct (for_lt_M_inv (knap_table weights values W) body lo hi s0)
      as (dp & E & Hlen & Htab) end.
  - unfold size. lia.
  - split; [by rewrite length_replicate|]. intros c Hc. exists 0.
    split; [apply lookup_replicate_2; lia|].
    change (Z.to_nat 0) with 0%nat.
    split; [exists (fun _ => false); cbn [sel_sum]; lia|].
    intros sel _. cbn [sel_sum]. lia.
  - intros i dp Hi Hdp. unfold size in Hi.
    destruct (lookup_lt_is_Some_2 weights (Z.to_nat i) ltac:(lia)) as [wi Ewi].
    destruct (lookup_lt_is_Some_2 values (Z.to_nat i) ltac:(lia)) as [v Ev].
    rewrite (at_lookup weights i wi ltac:(lia) Ewi). cbn [bind].
    apply (knapsack_inner i dp wi v); [unfold size; lia|exact Ewi|exact Ev|exact Hdp].
  - rewrite E. cbn [bind].
    destruct (Htab (Z.to_nat W) ltac:(lia)) as (r & Er & Hr).
    rewrite (at_lookup dp W r ltac:(lia) Er). exists r. split; [reflexivity|].
    unfold size in Hr. rewrite Nat2Z.id, Z2Nat.id in Hr by lia. exact Hr.
Qed.
End Knapsack.

(** Property X21: for non-negative weights and
    values, one value for every weight, a capacity [0 <= W < INT_MAX]
    and values whose sum fits [int], [knapsack_01] returns the largest
    total value of a choice of items, each taken at most once, whose
    total weight is at most [W]. *)
Theorem knapsack_01_spec (weights values : list Z) (W : Z) :
  Forall (fun x => 0 <= x) weights -> Forall (fun x => 0 <= x) values ->
  (length weights <= length values)%nat -> 0 <= W < INT_MAX ->
  foldr Z.add 0 (take (length weights) values) <= INT_MAX ->
  exists r : Z,
    DpDemo.knapsack_01 weights values W = Ret r /\
    (exists sel : nat -> bool,
       sel_sum sel weights (length weights) <= W /\
       sel_sum sel values (length weights) = r) /\
    (forall sel : nat -> bool,
       sel_sum sel weights (length weights) <= W ->
       sel_sum sel values (length weights) <= r).
Proof.
  intros Hw Hv Hlen HW Hfits.
  destruct (knapsack_best weights values W Hw Hv Hlen HW Hfits) as (r & E & Hex & Hmax).
  exists r. done.
Qed.

Lemma knapsack_01_spec_witness :
  exists r : Z,
    DpDemo.knapsack_01 [2; 3; 4; 5] [3; 4; 5; 6] 8 = Ret r /\
    (exists sel : nat -> bool,
       sel_sum sel [2; 3; 4; 5] 4 <= 8 /\ sel_sum sel [3; 4; 5; 6] 4 = r) /\
    (forall sel : nat -> bool,
       sel_sum sel [2; 3; 4; 5] 4 <= 8 -> sel_sum sel [3; 4; 5; 6] 4 <= r).
Proof.
  apply (knapsack_01_spec [2; 3; 4; 5] [3; 4; 5; 6] 8).
  - repeat constructor; lia.
  - repeat constructor; lia.
  - cbn [length]. lia.
  - unfold INT_MAX. lia.
  - unfold INT_MAX. cbn. lia.
Defined.

(** ** constexpr_demo.cpp: primes *)

Lemma rem_divide (n d : Z) : 0 <= n -> 0 < d -> n `rem` d = 0 <-> (d | n).
Proof.
  intros Hn Hd. rewrite Z.rem_mod_nonneg by lia.
  rewrite <- Z.mod_divide by lia. reflexivity.
Qed.

Lemma odd_no_small_divisor (n i : Z) :
  3 <= n -> n `mod` 2 = 1 -> 0 < i -> n < i * i ->
  (forall d : Z, 3 <= d < i -> d `mod` 2 = 1 -> ~ (d | n)) ->
  Z.prime n.
Proof.
  intros Hn Hodd Hi Hsq Hnone. split; [lia|].
  intros d Hd [e He].
  assert (1 < e < n) as Hrange by nia.
  assert (forall m k : Z, 1 < m -> n = k * m -> m * m <= n -> False) as Hsmall.
  { intros m k Hm Hk Hmm.
    assert (m < i) as Hmi.
    { destruct (decide (m < i)) as [|Hge]; [done|].
      assert (i * i <= m * m) by (apply Z.mul_le_mono_nonneg; lia). lia. }
    destruct (decide (m `mod` 2 = 1)) as [Hmo|Hme].
    - assert (m <> 2) by (intros ->; vm_compute in Hmo; discriminate).
      apply (Hnone m); [lia|exact Hmo|]. by exists k.
    - assert (m `mod` 2 = 0) as Hm0.
      { pose proof (Z.mod_pos_bound m 2 ltac:(lia)). lia. }
      apply Z.mod_divide in Hm0 as [q Hq]; [|lia].
      assert (n `mod` 2 = 0) as Hn0.
      { apply Z.mod_divide; [lia|]. exists (k * q). lia. }
      lia. }
  destruct (decide (d <= e)) as [Hde|Hde].
  - apply (Hsmall d e); [lia|exact He|nia].
  - apply (Hsmall e d); [lia|lia|nia].
Qed.

Lemma is_prime_loop_spec (fuel : nat) :
  forall n i : Z,
    3 <= i <= 46339 -> i `mod` 2 = 1 ->
    3 <= n < 2147302921 -> n `mod` 2 = 1 ->
    (forall d : Z, 3 <= d < i -> d `mod` 2 = 1 -> ~ (d | n)) ->
    n < (i + 2 * Z.of_nat fuel) * (i + 2 * Z.of_nat fuel) ->
    exists b : bool,
      ConstexprDemo.is_prime_loop fuel n i = Ret b /\ (b = true <-> Z.prime n).
Proof.
  induction fuel as [|fuel IH]; intros n i Hi Hiodd Hn Hnodd Hnone Hfuel;
    cbn [ConstexprDemo.is_prime_loop];
    rewrite (int_small (i * i)) by (unfold INT_MAX; nia);
    (destruct (decide (i * i <= n)) as [Hle|Hgt];
     [|exists true; split; [reflexivity|]; split; [intros _|done];
       apply (odd_no_small_divisor n i); (lia || done)]).
  - nia.
  - destruct (decide (i = 0)) as [Hz|_]; [lia|].
    destruct (decide (n `rem` i = 0)) as [Hdiv|Hndiv].
    + exists false. split; [reflexivity|]. split; [discriminate|].
      intros Hp. exfalso. apply rem_divide in Hdiv; [|lia|lia].
      destruct Hp as [_ Hp]. apply (Hp i); [nia|exact Hdiv].
    + assert (i <= 46337) as Hi'.
      { assert (i < 46339) by nia.
        destruct (decide (i = 46338)) as [->|]; [vm_compute in Hiodd; discriminate|lia]. }
      rewrite (int_small (i + 2)) by (unfold INT_MAX; lia).
      apply IH; [lia| |lia|exact Hnodd| |].
      * rewrite <- Hiodd. replace (i + 2) with (i + 1 * 2) by lia.
        apply Z.mod_add. lia.
      * intros d Hd Hdodd. destruct (decide (d < i)) as [Hlt|Hge].
        -- apply Hnone; [lia|exact Hdodd].
        -- assert (d = i \/ d = i + 1) as [-> | ->] by lia.
           ++ intros Hdi. apply Hndiv. apply rem_divide; [lia|lia|exact Hdi].
           ++ exfalso. replace (i + 1) with (1 + i) in Hdodd by lia.
              rewrite <- Zplus_mod_idemp_r, Hiodd in Hdodd.
              vm_compute in Hdodd. discriminate.
      * replace (i + 2 + 2 * Z.of_nat fuel) with (i + 2 * Z.of_nat (S fuel)) by lia.
        exact Hfuel.
Qed.

Lemma is_prime_correct (n : Z) (fuel : nat) :
  n < 2147302921 ->
  n < (3 + 2 * Z.of_nat fuel) * (3 + 2 * Z.of_nat fuel) ->
  exists b : bool,
    ConstexprDemo.is_prime fuel n = Ret b /\ (b = true <-> Z.prime n).
Proof.
  intros Hn Hfuel. unfold ConstexprDemo.is_prime.
  destruct (decide (n < 2)) as [Hsmall|Hbig].
  { exists false. split; [reflexivity|]. split; [discriminate|].
    intros Hp. apply Z.prime_ge_2 in Hp. lia. }
  destruct (decide (n = 2)) as [->|Hne].
  { exists true. split; [reflexivity|]. split; [intros _; apply Z.prime_2|done]. }
  destruct (decide (n `rem` 2 = 0)) as [Heven|Hodd].
  { exists false. split; [reflexivity|]. split; [discriminate|].
    intros Hp. exfalso. apply rem_divide in Heven; [|lia|lia].
    destruct Hp as [_ Hp]. apply (Hp 2); [lia|exact Heven]. }
  assert (n `mod` 2 = 1) as Hodd'.
  { rewrite Z.rem_mod_nonneg in Hodd by lia.
    pose proof (Z.mod_pos_bound n 2 ltac:(lia)). lia. }
  apply is_prime_loop_spec; [lia|reflexivity|lia|exact Hodd'| |exact Hfuel].
  intros d Hd. lia.
Qed.

(** Property X22: for every [n] below 2147302921, the
    square of 46339, [is_prime(n)] is true exactly when [n] is a prime
    number (false for every [n < 2], negative numbers included), after
    at most [fuel] rounds of trial division once [n < (3 + 2 fuel)^2].
    Below that bound the square [i * i] of the loop condition stays
    within [int]. *)
Theorem is_prime_spec (n : Z) (fuel : nat) :
  n < 2147302921 ->
  n < (3 + 2 * Z.of_nat fuel) * (3 + 2 * Z.of_nat fuel) ->
  exists b : bool,
    ConstexprDemo.is_prime fuel n = Ret b /\ (b = true <-> Z.prime n).
Proof. apply is_prime_correct. Qed.

Lemma is_prime_spec_witness :
  exists b : bool,
    ConstexprDemo.is_prime 1 7 = Ret b /\ (b = true <-> Z.prime 7).
Proof. apply (is_prime_spec 7 1); lia. Defined.

(** ** constexpr_demo.cpp: the case table *)

Lemma create_lookup_table_value :
  ConstexprDemo.create_lookup_table
  = Ret (map (fun i => if decide (97 <= i <= 122) then i - 32
                       else if decide (65 <= i <= 90) then i + 32 else i)
           (seqZ 0 256)).
Proof. vm_compute. reflexivity. Qed.

Lemma swap_case_all :
  forallb (fun c =>
    match ConstexprDemo.swap_case c with
    | Ret c' =>
        (c' =? swapped_case c) &&
        match ConstexprDemo.swap_case c' with
        | Ret c'' => c'' =? c
        | _ => false
        end
    | _ => false
    end) (seqZ (-128) 256) = true.
Proof. vm_compute. reflexivity. Qed.

(** Property X23: for every [char] [c], [swap_case(c)]
    is the upper-case letter of a lower-case ASCII letter, the
    lower-case letter of an upper-case one, and [c] itself for every
    other character, those above 127, which are negative as [char]s,
    included; applying it twice gives [c] back. *)
Theorem swap_case_spec (c : Z) :
  -128 <= c <= 127 ->
  exists c' : Z,
    ConstexprDemo.swap_case c = Ret c' /\
    ConstexprDemo.swap_case c' = Ret c /\
    (97 <= c <= 122 -> c' = c - 32) /\
    (65 <= c <= 90 -> c' = c + 32) /\
    (~ 97 <= c <= 122 -> ~ 65 <= c <= 90 -> c' = c).
Proof.
  intros Hc.
  assert (c ∈ seqZ (-128) 256) as Hin by (apply elem_of_seqZ; lia).
  pose proof (proj1 (Forall_forall _ _)
    (proj1 (forallb_True _ _) (proj2 (Is_true_true _) swap_case_all)) c Hin)
    as Hall.
  cbv beta in Hall.
  destruct (ConstexprDemo.swap_case c) as [c'| | |]; try (exfalso; exact Hall).
  destruct (Z.eqb_spec c' (swapped_case c)) as [E1|]; [|exfalso; exact Hall].
  cbn [andb] in Hall.
  destruct (ConstexprDemo.swap_case c') as [c''| | |] eqn:E;
    try (exfalso; exact Hall).
  destruct (Z.eqb_spec c'' c) as [E2|]; [|exfalso; exact Hall].
  subst c''. exists c'. split; [reflexivity|]. split; [exact E|].
  unfold swapped_case in E1.
  destruct (decide (97 <= c <= 122)), (decide (65 <= c <= 90)); lia.
Qed.
Lemma swap_case_spec_witness :
  exists c' : Z,
    ConstexprDemo.swap_case 72 = Ret c' /\
    ConstexprDemo.swap_case c' = Ret 72 /\
    (97 <= 72 <= 122 -> c' = 72 - 32) /\
    (65 <= 72 <= 90 -> c' = 72 + 32) /\
    (~ 97 <= 72 <= 122 -> ~ 65 <= 72 <= 90 -> c' = 72).
Proof. apply (swap_case_spec 72). lia. Defined.

(** ** constexpr_demo.cpp: C strings

    A C string is its characters, none of them 0, then the terminator
    and whatever follows it in memory. *)

Lemma string_length_from_spec (cs rest : list Z) :
  forall len : Z,
    Forall (fun c => c <> 0) cs -> 0 <= len -> len + size cs <= SIZE_MAX ->
    ConstexprDemo.string_length_from (cs ++ 0 :: rest) len
    = Ret (len + size cs).
Proof.
  unfold size. induction cs as [|c cs IH]; intros len Hcs Hlen Hfit;
    cbn [app ConstexprDemo.string_length_from length].
  - destruct (decide (0 <> 0)) as [?|_]; [done|]. f_equal. lia.
  - inversion Hcs as [|? ? Hc Hcs']; subst.
    cbn [length] in Hfit. rewrite Nat2Z.inj_succ in Hfit |- *.
    destruct (decide (c <> 0)) as [_|Hz]; [|done].
    assert (size_t (len + 1) = len + 1) as ->.
    { unfold size_t. apply Z.mod_small. unfold SIZE_MAX in Hfit. lia. }
    rewrite IH; [f_equal; lia|exact Hcs'|lia|lia].
Qed.

Lemma string_length_from_unterminated (cs : list Z) :
  forall len : Z,
    Forall (fun c => c <> 0) cs ->
    ConstexprDemo.string_length_from cs len = Undefined.
Proof.
  induction cs as [|c cs IH]; intros len Hcs; cbn; [reflexivity|].
  inversion Hcs as [|? ? Hc Hcs']; subst.
  destruct (decide (c <> 0)) as [_|Hz]; [|done]. by apply IH.
Qed.

(** Property X24: [string_length] returns the
    number of characters before the first terminator, whatever follows
    it; on characters without a terminator it reads past their end,
    which is undefined. *)
Theorem string_length_spec (cs rest : list Z) :
  Forall (fun c => c <> 0) cs -> size cs <= SIZE_MAX ->
  ConstexprDemo.string_length (cs ++ 0 :: rest) = Ret (size cs) /\
  ConstexprDemo.string_length cs = Undefined.
Proof.
  intros Hcs Hfit. unfold ConstexprDemo.string_length. split.
  - rewrite string_length_from_spec; [reflexivity|exact Hcs|lia|lia].
  - by apply string_length_from_unterminated.
Qed.

Lemma string_length_spec_witness :
  ConstexprDemo.string_length ([72; 105] ++ 0 :: [33]) = Ret (size [72; 105]) /\
  ConstexprDemo.string_length [72; 105] = Undefined.
Proof.
  apply (string_length_spec [72; 105] [33]).
  - repeat constructor; lia.
  - vm_compute. discriminate.
Defined.

(** Property X25: on two terminated strings,
    [string_equal] is true exactly when they have the same characters
    before their terminators; what follows the terminators is not
    compared. *)
Theorem string_equal_spec (a b ra rb : list Z) :
  Forall (fun c => c <> 0) a -> Forall (fun c => c <> 0) b ->
  ConstexprDemo.string_equal (a ++ 0 :: ra) (b ++ 0 :: rb)
  = Ret (bool_decide (a = b)).
Proof.
  revert b. induction a as [|ca a IH]; intros b Ha Hb.
  - destruct b as [|cb b]; cbn.
    + destruct (decide (0 <> 0 /\ 0 <> 0)) as [[? _]|_]; [done|]. reflexivity.
    + inversion Hb as [|? ? Hc _]; subst.
      destruct (decide (0 <> 0 /\ cb <> 0)) as [[? _]|_]; [done|].
      f_equal. rewrite !bool_decide_eq_false_2; [reflexivity|done|lia].
  - inversion Ha as [|? ? Hca Ha']; subst. destruct b as [|cb b]; cbn.
    + destruct (decide (ca <> 0 /\ 0 <> 0)) as [[_ ?]|_]; [done|].
      f_equal. rewrite !bool_decide_eq_false_2; [reflexivity|done|lia].
    + inversion Hb as [|? ? Hcb Hb']; subst.
      destruct (decide (ca <> 0 /\ cb <> 0)) as [_|Hn]; [|tauto].
      destruct (decide (ca <> cb)) as [Hne|He].
      * f_equal. symmetry. apply bool_decide_eq_false_2. congruence.
      * assert (ca = cb) as -> by lia. rewrite (IH b Ha' Hb').
        f_equal. apply bool_decide_ext. split; congruence.
Qed.

Lemma string_equal_spec_witness :
  ConstexprDemo.string_equal ([104; 105] ++ 0 :: []) ([104; 105] ++ 0 :: [7])
  = Ret (bool_decide ([104; 105] = [104; 105] :> list Z)).
Proof. apply (string_equal_spec [104; 105] [104; 105] [] [7]); repeat constructor; lia. Defined.

Lemma string_hash_from_spec (cs rest : list Z) :
  forall hash : Z,
    Forall (fun c => c <> 0) cs -> 0 <= hash < 2 ^ 32 ->
    ConstexprDemo.string_hash_from (cs ++ 0 :: rest) hash
    = Ret ((hash * 31 ^ size cs + poly31 cs) `mod` 2 ^ 32).
Proof.
  unfold size. induction cs as [|c cs IH]; intros hash Hcs Hhash;
    cbn [app ConstexprDemo.string_hash_from length poly31].
  - destruct (decide (0 <> 0)) as [?|_]; [done|].
    f_equal. rewrite Z.mod_small; lia.
  - inversion Hcs as [|? ? Hc Hcs']; subst.
    destruct (decide (c <> 0)) as [_|Hz]; [|done].
    assert (ConstexprDemo.uint
              (ConstexprDemo.uint (hash * 31) + ConstexprDemo.uint c)
            = (hash * 31 + c) `mod` 2 ^ 32) as ->.
    { unfold ConstexprDemo.uint. by rewrite <- Zplus_mod. }
    rewrite IH; [|exact Hcs'|apply Z.mod_pos_bound; lia].
    f_equal. rewrite Zplus_mod, Zmult_mod_idemp_l, <- Zplus_mod.
    f_equal. rewrite Nat2Z.inj_succ, Z.pow_succ_r by lia. lia.
Qed.

(** Property X26: the hash of a terminated string of
    characters [c_0 .. c_(n-1)] is [c_0 * 31^(n-1) + ... + c_(n-1)]
    reduced modulo [2^32], with negative [char]s counted as they are;
    the empty string hashes to 0. *)
Theorem string_hash_spec (cs rest : list Z) :
  Forall (fun c => c <> 0) cs ->
  ConstexprDemo.string_hash (cs ++ 0 :: rest) = Ret (poly31 cs `mod` 2 ^ 32).
Proof.
  intros Hcs. unfold ConstexprDemo.string_hash.
  rewrite string_hash_from_spec; [|exact Hcs|lia]. reflexivity.
Qed.

Lemma string_hash_spec_witness :
  ConstexprDemo.string_hash ([116; -61] ++ 0 :: [])
  = Ret (poly31 [116; -61] `mod` 2 ^ 32).
Proof. apply (string_hash_spec [116; -61] []); repeat constructor; lia. Defined.

(** ** Tables of rows *)

Lemma row_at_lookup (m : list (list Z)) (i : Z) (r : list Z) :
  0 <= i -> m !! Z.to_nat i = Some r -> row_at m i = Ret r.
Proof.
  intros Hi E. unfold row_at. destruct (decide (0 <= i)); [|lia].
  rewrite E. reflexivity.
Qed.

Lemma matrix_fill_Ret (rows cols x : Z) :
  0 <= rows <= INT_MAX -> 0 <= cols <= INT_MAX ->
  matrix_fill rows cols x
  = Ret (replicate (Z.to_nat rows) (replicate (Z.to_nat cols) x)).
Proof.
  intros Hr Hc. unfold matrix_fill. rewrite vector_fill_int by exact Hc.
  cbn [bind].
  assert (size_t rows = rows) as ->.
  { unfold size_t. apply Z.mod_small. unfold INT_MAX in Hr. lia. }
  assert (vector_max_size 24 = 384307168202282325) as -> by reflexivity.
  destruct (decide (rows <= 384307168202282325)) as [_|Hbig];
    [reflexivity|unfold INT_MAX in Hr; lia].
Qed.

Section Table.
Variables (rows cols : nat) (good init : nat -> nat -> Z -> Prop).

Lemma table_replicate (filled : nat -> nat -> Prop) (x : Z) :
  (forall a b : nat, (a < rows)%nat -> (b < cols)%nat ->
     (filled a b -> good a b x) /\ (~ filled a b -> init a b x)) ->
  table_inv rows cols filled good init (replicate rows (replicate cols x)).
Proof.
  intros Hx. split; [apply length_replicate|]. split.
  - apply Forall_replicate, length_replicate.
  - intros a b Ha Hb r v Er Ev.
    apply lookup_replicate in Er as [-> _].
    apply lookup_replicate in Ev as [-> _]. by apply Hx.
Qed.

Lemma table_at2 (filled : nat -> nat -> Prop) (dp : list (list Z)) (i j : Z) :
  table_inv rows cols filled good init dp ->
  0 <= i < Z.of_nat rows -> 0 <= j < Z.of_nat cols ->
  exists v : Z,
    at2 dp i j = Ret v /\
    (filled (Z.to_nat i) (Z.to_nat j) -> good (Z.to_nat i) (Z.to_nat j) v) /\
    (~ filled (Z.to_nat i) (Z.to_nat j) -> init (Z.to_nat i) (Z.to_nat j) v).
Proof.
  intros (Hlen & Hrows & Hcells) Hi Hj.
  destruct (lookup_lt_is_Some_2 dp (Z.to_nat i) ltac:(lia)) as [r Er].
  pose proof (Forall_lookup_1 _ _ _ _ Hrows Er) as Hr. cbv beta in Hr.
  destruct (lookup_lt_is_Some_2 r (Z.to_nat j) ltac:(lia)) as [v Ev].
  exists v. split.
  - unfold at2. rewrite (row_at_lookup dp i r) by (lia || done).
    cbn [bind]. apply at_lookup; [lia|done].
  - apply (Hcells (Z.to_nat i) (Z.to_nat j) ltac:(lia) ltac:(lia) r v Er Ev).
Qed.

Lemma table_set_at2 (filled filled' : nat -> nat -> Prop)
    (dp : list (list Z)) (i j x : Z) :
  table_inv rows cols filled good init dp ->
  0 <= i < Z.of_nat rows -> 0 <= j < Z.of_nat cols ->
  good (Z.to_nat i) (Z.to_nat j) x ->
  (forall a b : nat, (a < rows)%nat -> (b < cols)%nat ->
     (filled' a b <-> filled a b \/ (a = Z.to_nat i /\ b = Z.to_nat j))) ->
  exists dp' : list (list Z),
    set_at2 dp i j x = Ret dp' /\
    table_inv rows cols filled' good init dp'.
Proof.
  intros (Hlen & Hrows & Hcells) Hi Hj Hx Hfilled.
  destruct (lookup_lt_is_Some_2 dp (Z.to_nat i) ltac:(lia)) as [r Er].
  pose proof (Forall_lookup_1 _ _ _ _ Hrows Er) as Hr. cbv beta in Hr.
  unfold set_at2. rewrite (row_at_lookup dp i r) by (lia || done).
  cbn [bind]. rewrite set_at_Ret by lia. cbn [bind].
  eexists. split; [reflexivity|].
  split; [by rewrite length_insert|]. split.
  - apply Forall_insert; [exact Hrows|]. by rewrite length_insert.
  - intros a b Ha Hb r0 v0 Er0 Ev0.
    destruct (decide (a = Z.to_nat i)) as [->|Hne].
    + rewrite list_lookup_insert_eq in Er0 by lia. injection Er0 as <-.
      destruct (decide (b = Z.to_nat j)) as [->|Hnej].
      * rewrite list_lookup_insert_eq in Ev0 by lia. injection Ev0 as <-.
        split; [intros _; exact Hx|]. intros Hn. exfalso. apply Hn.
        apply Hfilled; [lia|lia|]. by right.
      * rewrite list_lookup_insert_ne in Ev0 by lia.
        destruct (Hcells _ _ Ha Hb r v0 Er Ev0) as [Hg Hi0].
        pose proof (Hfilled _ _ Ha Hb) as Hf. split.
        -- intros Hd. apply Hg. apply Hf in Hd as [Hd|[_ ?]]; [exact Hd|done].
        -- intros Hd. apply Hi0. intros Hd'. apply Hd, Hf. by left.
    + rewrite list_lookup_insert_ne in Er0 by lia.
      destruct (Hcells _ _ Ha Hb r0 v0 Er0 Ev0) as [Hg Hi0].
      pose proof (Hfilled _ _ Ha Hb) as Hf. split.
      * intros Hd. apply Hg. apply Hf in Hd as [Hd|[? _]]; [exact Hd|done].
      * intros Hd. apply Hi0. intros Hd'. apply Hd, Hf. by left.
Qed.

Lemma table_weaken (filled filled' : nat -> nat -> Prop) (dp : list (list Z)) :
  table_inv rows cols filled good init dp ->
  (forall a b : nat, (a < rows)%nat -> (b < cols)%nat ->
     (filled a b <-> filled' a b)) ->
  table_inv rows cols filled' good init dp.
Proof.
  intros (Hlen & Hrows & Hcells) Hf. split; [exact Hlen|]. split; [exact Hrows|].
  intros a b Ha Hb r v Er Ev.
  destruct (Hcells _ _ Ha Hb r v Er Ev) as [Hg Hi]. specialize (Hf _ _ Ha Hb).
  split; intros Hd; [apply Hg|apply Hi]; tauto.
Qed.

End Table.

(** ** dp_demo.cpp: lcs *)

Lemma sublist_snoc_r (c s : list Z) (x : Z) :
  c `sublist_of` s ++ [x] ->
  c `sublist_of` s \/ exists c', c = c' ++ [x] /\ c' `sublist_of` s.
Proof.
  intros H. apply sublist_app_r in H as (l1 & l2 & -> & H1 & H2).
  apply sublist_cons_r in H2 as [H2|(l' & -> & H2)];
    apply sublist_nil_r in H2 as ->.
  - left. by rewrite app_nil_r.
  - right. by exists l1.
Qed.

Lemma sublist_snoc_init (c s : list Z) (z x : Z) :
  c ++ [z] `sublist_of` s ++ [x] -> c `sublist_of` s.
Proof.
  intros H. apply sublist_snoc_r in H as [H|(c' & E & H)].
  - etransitivity; [|exact H]. by apply sublist_inserts_r.
  - apply app_inj_tail in E as [-> _]. exact H.
Qed.

Lemma sublist_snoc_ne (c s : list Z) (z x : Z) :
  z <> x -> c ++ [z] `sublist_of` s ++ [x] -> c ++ [z] `sublist_of` s.
Proof.
  intros Hne H. apply sublist_snoc_r in H as [H|(c' & E & H)]; [exact H|].
  apply app_inj_tail in E as [_ ?]. done.
Qed.

Lemma lcs_length_nil_l (t : list Z) : lcs_length [] t 0.
Proof.
  split.
  - exists []. split; [done|]. split; [apply sublist_nil_l|done].
  - intros c Hc _. apply sublist_nil_r in Hc as ->. done.
Qed.

Lemma lcs_length_nil_r (s : list Z) : lcs_length s [] 0.
Proof.
  split.
  - exists []. split; [apply sublist_nil_l|]. split; [done|done].
  - intros c _ Hc. apply sublist_nil_r in Hc as ->. done.
Qed.

Lemma lcs_length_bound (s t : list Z) (k : nat) :
  lcs_length s t k -> (k <= length s)%nat /\ (k <= length t)%nat.
Proof.
  intros [(c & Hs & Ht & <-) _].
  split; by apply sublist_length.
Qed.

Lemma lcs_length_snoc_eq (s t : list Z) (x : Z) (k : nat) :
  lcs_length s t k -> lcs_length (s ++ [x]) (t ++ [x]) (S k).
Proof.
  intros [(c & Hs & Ht & <-) Hmax]. split.
  - exists (c ++ [x]). split; [by apply sublist_app|].
    split; [by apply sublist_app|]. rewrite length_app. cbn. lia.
  - intros c' Hs' Ht'. destruct c' as [|z c' _] using rev_ind; [cbn; lia|].
    apply sublist_snoc_init in Hs', Ht'. rewrite length_app. cbn.
    specialize (Hmax c' Hs' Ht'). lia.
Qed.

Lemma lcs_length_snoc_ne (s t : list Z) (x y : Z) (k1 k2 : nat) :
  x <> y ->
  lcs_length s (t ++ [y]) k1 -> lcs_length (s ++ [x]) t k2 ->
  lcs_length (s ++ [x]) (t ++ [y]) (Nat.max k1 k2).
Proof.
  intros Hne [(c1 & Hs1 & Ht1 & <-) Hmax1] [(c2 & Hs2 & Ht2 & <-) Hmax2]. split.
  - destruct (Nat.max_spec (length c1) (length c2)) as [[_ ->]|[_ ->]].
    + exists c2. split; [exact Hs2|]. split; [by apply sublist_inserts_r|done].
    + exists c1. split; [by apply sublist_inserts_r|]. split; [exact Ht1|done].
  - intros c Hs Ht. destruct c as [|z c _] using rev_ind; [cbn; lia|].
    destruct (decide (z = x)) as [->|Hzx].
    + apply sublist_snoc_ne in Ht; [|exact Hne].
      specialize (Hmax2 _ Hs Ht). lia.
    + apply sublist_snoc_ne in Hs; [|exact Hzx].
      specialize (Hmax1 _ Hs Ht). lia.
Qed.

Section Lcs.
Variables text1 text2 : list Z.
Hypothesis Hsize1 : size text1 < INT_MAX.
Hypothesis Hsize2 : size text2 < INT_MAX.

Local Abbreviation lcs_table :=
  (table_inv (S (length text1)) (S (length text2))).
Local Abbreviation cell := (lcs_cell text1 text2).
Local Abbreviation blank := (fun (_ _ : nat) (_ : Z) => True).

Lemma lcs_inner (i j : Z) (dp : list (list Z)) :
  1 <= i <= size text1 -> 1 <= j <= size text2 ->
  lcs_table (filled_upto (Z.to_nat i) (Z.to_nat j)) cell blank dp ->
  exists dp' : list (list Z),
    (do a <- at_ text1 (int (i - 1));
     do b <- at_ text2 (int (j - 1));
     if decide (a = b) then
       do x <- at2 dp (int (i - 1)) (int (j - 1));
       set_at2 dp i j (int (x + 1))
     else
       do x <- at2 dp (int (i - 1)) j;
       do y <- at2 dp i (int (j - 1));
       set_at2 dp i j (Z.max x y)) = Ret dp' /\
    lcs_table (filled_upto (Z.to_nat i) (Z.to_nat (j + 1))) cell blank dp'.
Proof.
  unfold size in *. intros Hi Hj Hdp.
  rewrite (int_small (i - 1)), (int_small (j - 1))
    by (unfold INT_MAX in *; lia).
  destruct (lookup_lt_is_Some_2 text1 (Z.to_nat (i - 1)) ltac:(lia)) as [a Ea].
  destruct (lookup_lt_is_Some_2 text2 (Z.to_nat (j - 1)) ltac:(lia)) as [b Eb].
  rewrite (at_lookup text1 (i - 1) a ltac:(lia) Ea). cbn [bind].
  rewrite (at_lookup text2 (j - 1) b ltac:(lia) Eb). cbn [bind].
  assert (take (Z.to_nat i) text1 = take (Z.to_nat (i - 1)) text1 ++ [a]) as Ei.
  { replace (Z.to_nat i) with (S (Z.to_nat (i - 1))) by lia. by apply take_S_r. }
  assert (take (Z.to_nat j) text2 = take (Z.to_nat (j - 1)) text2 ++ [b]) as Ej.
  { replace (Z.to_nat j) with (S (Z.to_nat (j - 1))) by lia. by apply take_S_r. }
  assert (forall a' b' : nat,
            (a' < S (length text1))%nat -> (b' < S (length text2))%nat ->
            filled_upto (Z.to_nat i) (Z.to_nat (j + 1)) a' b'
            <-> filled_upto (Z.to_nat i) (Z.to_nat j) a' b'
                \/ (a' = Z.to_nat i /\ b' = Z.to_nat j)) as Hnext.
  { intros a' b' _ _. unfold filled_upto. lia. }
  destruct (decide (a = b)) as [<-|Hab].
  - destruct (table_at2 _ _ _ _ _ dp (i - 1) (j - 1) Hdp ltac:(lia) ltac:(lia))
      as (x & Ex & Hx & _).
    rewrite Ex. cbn [bind].
    destruct Hx as (k & -> & Hk); [unfold filled_upto; lia|].
    pose proof (lcs_length_bound _ _ _ Hk) as [Hb _].
    rewrite length_take in Hb.
    rewrite (int_small (Z.of_nat k + 1)) by (unfold INT_MAX in *; lia).
    apply (table_set_at2 _ _ _ _ _ _ dp i j _ Hdp); [lia|lia| |exact Hnext].
    exists (S k). split; [lia|]. rewrite Ei, Ej. by apply lcs_length_snoc_eq.
  - destruct (table_at2 _ _ _ _ _ dp (i - 1) j Hdp ltac:(lia) ltac:(lia))
      as (x & Ex & Hx & _).
    destruct (table_at2 _ _ _ _ _ dp i (j - 1) Hdp ltac:(lia) ltac:(lia))
      as (y & Ey & Hy & _).
    rewrite Ex. cbn [bind]. rewrite Ey. cbn [bind].
    destruct Hx as (k1 & -> & Hk1); [unfold filled_upto; lia|].
    destruct Hy as (k2 & -> & Hk2); [unfold filled_upto; lia|].
    apply (table_set_at2 _ _ _ _ _ _ dp i j _ Hdp); [lia|lia| |exact Hnext].
    exists (Nat.max k1 k2). split; [lia|]. rewrite Ei, Ej.
    apply lcs_length_snoc_ne; [exact Hab| |].
    + by rewrite <- Ej.
    + by rewrite <- Ei.
Qed.

Lemma lcs_longest :
  exists k : nat,
    DpDemo.lcs text1 text2 = Ret (Z.of_nat k) /\ lcs_length text1 text2 k.
Proof.
  unfold DpDemo.lcs. rewrite !size_int by lia. unfold size in *.
  rewrite !(int_small (_ + 1)) by (unfold INT_MAX in *; lia).
  rewrite matrix_fill_Ret by (unfold INT_MAX in *; lia). cbn [bind].
  replace (Z.to_nat (Z.of_nat (length text1) + 1)) with (S (length text1)) by lia.
  replace (Z.to_nat (Z.of_nat (length text2) + 1)) with (S (length text2)) by lia.
  match goal with |- context [for_le_M ?lo ?hi ?body ?s0] =>
    destruct (for_le_M_inv
                (fun i dp => lcs_table (filled_upto (Z.to_nat i) 1) cell blank dp)
                body lo hi s0) as (dp & E & Hdp) end.
  - lia.
  - apply table_replicate. intros a b _ _. split; [|done].
    intros Hf. exists 0%nat. split; [done|].
    assert (a = 0 \/ b = 0)%nat as [-> | ->] by (unfold filled_upto in Hf; lia).
    + apply lcs_length_nil_l.
    + rewrite take_0. apply lcs_length_nil_r.
  - intros i dp Hi Hdp.
    match goal with |- context [for_le_M ?lo ?hi ?body ?s0] =>
      destruct (for_le_M_inv
                  (fun j dp => lcs_table (filled_upto (Z.to_nat i) (Z.to_nat j))
                                 cell blank dp)
                  body lo hi s0) as (dp' & E & Hdp') end.
    + lia.
    + exact Hdp.
    + intros j dp' Hj Hdp'. apply lcs_inner; [unfold size; lia..|exact Hdp'].
    + exists dp'. split; [exact E|].
      apply (table_weaken _ _ _ _ _ _ _ Hdp').
      intros a b _ Hb. unfold filled_upto. lia.
  - rewrite E. cbn [bind].
    destruct (table_at2 _ _ _ _ _ dp (Z.of_nat (length text1))
                (Z.of_nat (length text2)) Hdp ltac:(lia) ltac:(lia))
      as (v & Ev & Hv & _).
    destruct Hv as (k & -> & Hk); [unfold filled_upto; lia|].
    exists k. split; [exact Ev|].
    rewrite !Nat2Z.id, !firstn_all in Hk. exact Hk.
Qed.
End Lcs.

(** Property X27: for two strings shorter than [INT_MAX],
    [lcs] returns the length of a longest common subsequence: some
    sequence of that length is a subsequence of both strings, and no
    common subsequence is longer. *)
Theorem lcs_spec (text1 text2 : list Z) :
  size text1 < INT_MAX -> size text2 < INT_MAX ->
  exists k : nat,
    DpDemo.lcs text1 text2 = Ret (Z.of_nat k) /\ lcs_length text1 text2 k.
Proof. apply lcs_longest. Qed.

Lemma lcs_spec_witness :
  exists k : nat,
    DpDemo.lcs [97; 98; 99] [98; 100; 99] = Ret (Z.of_nat k) /\
    lcs_length [97; 98; 99] [98; 100; 99] k.
Proof. apply (lcs_spec [97; 98; 99] [98; 100; 99]); vm_compute; reflexivity. Defined.

(** ** dp_demo.cpp: edit_distance *)

Lemma edits_refl (s : list Z) : edits s s 0.
Proof. induction s; by constructor. Qed.

Lemma edits_sym (s t : list Z) (k : nat) : edits s t k -> edits t s k.
Proof. induction 1; by constructor. Qed.

Lemma edits_length (s t : list Z) (k : nat) :
  edits s t k ->
  (length s <= length t + k)%nat /\ (length t <= length s + k)%nat.
Proof. induction 1; cbn [length]; lia. Qed.

Lemma edits_max (s : list Z) :
  forall t : list Z, edits s t (Nat.max (length s) (length t)).
Proof.
  induction s as [|x s IH]; intros t.
  - induction t as [|y t IHt]; [constructor|].
    cbn [length Nat.max] in *. by constructor.
  - destruct t as [|y t].
    + specialize (IH []). cbn [length] in *.
      rewrite Nat.max_0_r in *. by constructor.
    + cbn [length]. rewrite <- Nat.succ_max_distr. by constructor.
Qed.

Lemma edits_snoc_keep (s t : list Z) (x : Z) (k : nat) :
  edits s t k -> edits (s ++ [x]) (t ++ [x]) k.
Proof. induction 1; cbn [app]; repeat constructor; done. Qed.

Lemma edits_snoc_replace (s t : list Z) (x y : Z) (k : nat) :
  edits s t k -> edits (s ++ [x]) (t ++ [y]) (S k).
Proof. induction 1; cbn [app]; repeat constructor; done. Qed.

Lemma edits_snoc_delete (s t : list Z) (x : Z) (k : nat) :
  edits s t k -> edits (s ++ [x]) t (S k).
Proof. induction 1; cbn [app]; repeat constructor; done. Qed.

Lemma edits_snoc_insert (s t : list Z) (y : Z) (k : nat) :
  edits s t k -> edits s (t ++ [y]) (S k).
Proof. induction 1; cbn [app]; repeat constructor; done. Qed.

Lemma edits_rev (s t : list Z) (k : nat) :
  edits s t k -> edits (rev s) (rev t) k.
Proof.
  induction 1; cbn [rev].
  - constructor.
  - by apply edits_snoc_keep.
  - by apply edits_snoc_replace.
  - by apply edits_snoc_delete.
  - by apply edits_snoc_insert.
Qed.

Lemma edits_rev_inv (s t : list Z) (k : nat) :
  edits (rev s) (rev t) k -> edits s t k.
Proof. intros H. apply edits_rev in H. by rewrite !rev_involutive in H. Qed.

Lemma edits_snoc_inv (s t : list Z) (x y : Z) (k : nat) :
  edits (s ++ [x]) (t ++ [y]) k ->
  (x = y /\ edits s t k) \/
  exists k' : nat,
    k = S k' /\
    (edits s t k' \/ edits s (t ++ [y]) k' \/ edits (s ++ [x]) t k').
Proof.
  intros H. apply edits_rev in H. rewrite !rev_unit in H.
  inversion H as [|? ? ? ? H'|? ? ? ? ? H'|? ? ? ? H'|? ? ? ? H']; subst.
  - left. split; [done|]. by apply edits_rev_inv.
  - right. eexists. split; [done|]. left. by apply edits_rev_inv.
  - right. eexists. split; [done|]. right. left.
    apply edits_rev_inv. by rewrite rev_unit.
  - right. eexists. split; [done|]. right. right.
    apply edits_rev_inv. by rewrite rev_unit.
Qed.

Lemma edits_target_delete (s t : list Z) (x : Z) (a : nat) :
  edits s (x :: t) a -> exists c : nat, (c <= S a)%nat /\ edits s t c.
Proof.
  intros H. remember (x :: t) as t0 eqn:Et. revert Et.
  induction H as [|x' s' t' k H IH|x' y' s' t' k H IH|x' s' t' k H IH|y' s' t' k H IH];
    intros Et.
  - discriminate.
  - injection Et as -> ->. exists (S k). split; [lia|]. by constructor.
  - injection Et as -> ->. exists (S k). split; [lia|]. by constructor.
  - destruct (IH Et) as (c & Hc & Hed). exists (S c). split; [lia|]. by constructor.
  - injection Et as -> ->. exists k. split; [lia|done].
Qed.

Lemma edits_target_replace (s t : list Z) (x y : Z) (a : nat) :
  edits s (x :: t) a -> exists c : nat, (c <= S a)%nat /\ edits s (y :: t) c.
Proof.
  intros H. remember (x :: t) as t0 eqn:Et. revert Et.
  induction H as [|x' s' t' k H IH|x' y' s' t' k H IH|x' s' t' k H IH|y' s' t' k H IH];
    intros Et.
  - discriminate.
  - injection Et as -> ->. exists (S k). split; [lia|]. by constructor.
  - injection Et as -> ->. exists (S k). split; [lia|]. by constructor.
  - destruct (IH Et) as (c & Hc & Hed). exists (S c). split; [lia|]. by constructor.
  - injection Et as -> ->. exists (S k). split; [lia|]. by constructor.
Qed.

Lemma edits_target_step (t u : list Z) :
  edit1 t u ->
  forall (s : list Z) (a : nat),
    edits s t a -> exists c : nat, (c <= S a)%nat /\ edits s u c.
Proof.
  induction 1 as [y t|x t|x y t Hxy|x t u Htu IHtu]; intros s a Hs.
  - exists (S a). split; [lia|]. by constructor.
  - by apply (edits_target_delete s t x).
  - by apply (edits_target_replace s t x y).
  - remember (x :: t) as t0 eqn:Et. revert Et.
    induction Hs as [|x' s' t' k H IH|x' y' s' t' k H IH|x' s' t' k H IH|y' s' t' k H IH];
      intros Et.
    + discriminate.
    + injection Et as -> ->. destruct (IHtu _ _ H) as (c & Hc & Hed).
      exists c. split; [lia|]. by constructor.
    + injection Et as -> ->. destruct (IHtu _ _ H) as (c & Hc & Hed).
      exists (S c). split; [lia|]. by constructor.
    + destruct (IH Et) as (c & Hc & Hed). exists (S c). split; [lia|].
      by constructor.
    + injection Et as -> ->. destruct (IHtu _ _ H) as (c & Hc & Hed).
      exists (S c). split; [lia|]. by constructor.
Qed.

Lemma edit1_sym (s t : list Z) : edit1 s t -> edit1 t s.
Proof. induction 1; constructor; (done || congruence). Qed.

Lemma edits_drop_last_target (s t : list Z) (x : Z) (a : nat) :
  edits s (t ++ [x]) a -> exists c : nat, (c <= S a)%nat /\ edits s t c.
Proof.
  intros H. apply edits_rev in H. rewrite rev_unit in H.
  apply edits_target_delete in H as (c & Hc & H).
  exists c. split; [exact Hc|]. by apply edits_rev_inv.
Qed.

Lemma edits_drop_last_source (s t : list Z) (x : Z) (a : nat) :
  edits (s ++ [x]) t a -> exists c : nat, (c <= S a)%nat /\ edits s t c.
Proof.
  intros H. apply edits_sym, edits_drop_last_target in H as (c & Hc & H).
  exists c. split; [exact Hc|]. by apply edits_sym.
Qed.

Lemma edit_steps_skip (k : nat) (x : Z) :
  forall s t : list Z, edit_steps k s t -> edit_steps k (x :: s) (x :: t).
Proof.
  induction k as [|k IH]; intros s t; cbn [edit_steps].
  - by intros ->.
  - intros (u & H1 & Hk). exists (x :: u). split; [by constructor|by apply IH].
Qed.

Lemma edits_edit_steps (s t : list Z) (k : nat) :
  edits s t k -> exists c : nat, (c <= k)%nat /\ edit_steps c s t.
Proof.
  induction 1 as [|x s t k H IH|x y s t k H IH|x s t k H IH|y s t k H IH].
  - exists 0%nat. done.
  - destruct IH as (c & Hc & Hs). exists c. split; [exact Hc|].
    by apply edit_steps_skip.
  - destruct IH as (c & Hc & Hs). destruct (decide (x = y)) as [->|Hxy].
    + exists c. split; [lia|]. by apply edit_steps_skip.
    + exists (S c). split; [lia|]. exists (y :: s).
      split; [by constructor|by apply edit_steps_skip].
  - destruct IH as (c & Hc & Hs). exists (S c). split; [lia|].
    exists s. split; [constructor|exact Hs].
  - destruct IH as (c & Hc & Hs). exists (S c). split; [lia|].
    exists (y :: s). split; [constructor|by apply edit_steps_skip].
Qed.

Lemma edit_steps_edits (k : nat) :
  forall s t : list Z,
    edit_steps k s t -> exists c : nat, (c <= k)%nat /\ edits s t c.
Proof.
  induction k as [|k IH]; intros s t; cbn [edit_steps].
  - intros ->. exists 0%nat. split; [done|apply edits_refl].
  - intros (u & H1 & Hk). destruct (IH _ _ Hk) as (c & Hc & Hed).
    apply edits_sym in Hed.
    destruct (edits_target_step u s (edit1_sym _ _ H1) t c Hed) as (c' & Hc' & Hed').
    exists c'. split; [lia|]. by apply edits_sym.
Qed.

Lemma least_edits_distance (s t : list Z) (k : nat) :
  least_edits s t k -> is_edit_distance s t k.
Proof.
  intros [Hed Hmin].
  assert (forall k' : nat, edit_steps k' s t -> (k <= k')%nat) as Hleast.
  { intros k' Hk'. destruct (edit_steps_edits _ _ _ Hk') as (c & Hc & Hc').
    specialize (Hmin c Hc'). lia. }
  split; [|exact Hleast].
  destruct (edits_edit_steps _ _ _ Hed) as (c & Hc & Hs).
  specialize (Hleast c Hs). by replace k with c by lia.
Qed.

Lemma least_edits_nil_r (s : list Z) : least_edits s [] (length s).
Proof.
  split.
  - pose proof (edits_max s []) as H. cbn [length] in H.
    by rewrite Nat.max_0_r in H.
  - intros k' H. apply edits_length in H. cbn [length] in H. lia.
Qed.

Lemma least_edits_nil_l (t : list Z) : least_edits [] t (length t).
Proof.
  split.
  - pose proof (edits_max [] t) as H. by cbn [length Nat.max] in H.
  - intros k' H. apply edits_length in H. cbn [length] in H. lia.
Qed.

Lemma least_edits_bound (s t : list Z) (k : nat) :
  least_edits s t k -> (k <= Nat.max (length s) (length t))%nat.
Proof. intros [_ Hmin]. apply Hmin, edits_max. Qed.

Lemma least_edits_snoc_eq (s t : list Z) (x : Z) (k : nat) :
  least_edits s t k -> least_edits (s ++ [x]) (t ++ [x]) k.
Proof.
  intros [Hed Hmin]. split; [by apply edits_snoc_keep|].
  intros k' H.
  apply edits_snoc_inv in H as [[_ H]|(k'' & -> & [H|[H|H]])].
  - by apply Hmin.
  - specialize (Hmin _ H). lia.
  - apply edits_drop_last_target in H as (c & Hc & H). specialize (Hmin _ H). lia.
  - apply edits_drop_last_source in H as (c & Hc & H). specialize (Hmin _ H). lia.
Qed.

Lemma least_edits_snoc_ne (s t : list Z) (x y : Z) (k0 k1 k2 : nat) :
  x <> y ->
  least_edits s t k0 ->
  least_edits s (t ++ [y]) k1 ->
  least_edits (s ++ [x]) t k2 ->
  least_edits (s ++ [x]) (t ++ [y]) (S (Nat.min k1 (Nat.min k2 k0))).
Proof.
  intros Hne [H0 Hmin0] [H1 Hmin1] [H2 Hmin2]. split.
  - destruct (Nat.min_spec k1 (Nat.min k2 k0)) as [[_ ->]|[_ ->]];
      [by apply edits_snoc_delete|].
    destruct (Nat.min_spec k2 k0) as [[_ ->]|[_ ->]];
      [by apply edits_snoc_insert|by apply edits_snoc_replace].
  - intros k' H.
    apply edits_snoc_inv in H as [[? _]|(k'' & -> & [H|[H|H]])]; [done|..].
    + specialize (Hmin0 _ H). lia.
    + specialize (Hmin1 _ H). lia.
    + specialize (Hmin2 _ H). lia.
Qed.

Section EditDistance.
Variables word1 word2 : list Z.
Hypothesis Hsize1 : size word1 < INT_MAX.
Hypothesis Hsize2 : size word2 < INT_MAX.

Local Abbreviation ed_table :=
  (table_inv (S (length word1)) (S (length word2))).
Local Abbreviation ed_cell := (edit_cell word1 word2).
Local Abbreviation ed_blank := (fun (_ _ : nat) (_ : Z) => True).

Lemma edit_cell_bound (a b : nat) (v : Z) :
  ed_cell a b v ->
  (a <= length word1)%nat -> (b <= length word2)%nat -> 0 <= v < INT_MAX.
Proof.
  unfold size in *. intros (k & -> & Hk) Ha Hb.
  apply least_edits_bound in Hk. rewrite !length_take in Hk. lia.
Qed.

Lemma edit_distance_inner (i j : Z) (dp : list (list Z)) :
  1 <= i <= size word1 -> 1 <= j <= size word2 ->
  ed_table (filled_upto (Z.to_nat i) (Z.to_nat j)) ed_cell ed_blank dp ->
  exists dp' : list (list Z),
    (do a <- at_ word1 (int (i - 1));
     do b <- at_ word2 (int (j - 1));
     if decide (a = b) then
       do x <- at2 dp (int (i - 1)) (int (j - 1));
       set_at2 dp i j x
     else
       do x <- at2 dp (int (i - 1)) j;
       do y <- at2 dp i (int (j - 1));
       do z <- at2 dp (int (i - 1)) (int (j - 1));
       set_at2 dp i j (int (1 + Z.min x (Z.min y z)))) = Ret dp' /\
    ed_table (filled_upto (Z.to_nat i) (Z.to_nat (j + 1))) ed_cell ed_blank dp'.
Proof.
  unfold size in *. intros Hi Hj Hdp.
  rewrite (int_small (i - 1)), (int_small (j - 1))
    by (unfold INT_MAX in *; lia).
  destruct (lookup_lt_is_Some_2 word1 (Z.to_nat (i - 1)) ltac:(lia)) as [a Ea].
  destruct (lookup_lt_is_Some_2 word2 (Z.to_nat (j - 1)) ltac:(lia)) as [b Eb].
  rewrite (at_lookup word1 (i - 1) a ltac:(lia) Ea). cbn [bind].
  rewrite (at_lookup word2 (j - 1) b ltac:(lia) Eb). cbn [bind].
  assert (take (Z.to_nat i) word1 = take (Z.to_nat (i - 1)) word1 ++ [a]) as Ei.
  { replace (Z.to_nat i) with (S (Z.to_nat (i - 1))) by lia. by apply take_S_r. }
  assert (take (Z.to_nat j) word2 = take (Z.to_nat (j - 1)) word2 ++ [b]) as Ej.
  { replace (Z.to_nat j) with (S (Z.to_nat (j - 1))) by lia. by apply take_S_r. }
  assert (forall a' b' : nat,
            (a' < S (length word1))%nat -> (b' < S (length word2))%nat ->
            filled_upto (Z.to_nat i) (Z.to_nat (j + 1)) a' b'
            <-> filled_upto (Z.to_nat i) (Z.to_nat j) a' b'
                \/ (a' = Z.to_nat i /\ b' = Z.to_nat j)) as Hnext.
  { intros a' b' _ _. unfold filled_upto. lia. }
  destruct (table_at2 _ _ _ _ _ dp (i - 1) (j - 1) Hdp ltac:(lia) ltac:(lia))
    as (z & Ez & Hz & _).
  specialize (Hz ltac:(unfold filled_upto; lia)).
  pose proof (edit_cell_bound _ _ _ Hz ltac:(lia) ltac:(lia)) as Hzb.
  destruct Hz as (k0 & -> & Hk0).
  destruct (decide (a = b)) as [<-|Hab].
  - rewrite Ez. cbn [bind].
    apply (table_set_at2 _ _ _ _ _ _ dp i j _ Hdp); [lia|lia| |exact Hnext].
    exists k0. split; [done|]. rewrite Ei, Ej. by apply least_edits_snoc_eq.
  - destruct (table_at2 _ _ _ _ _ dp (i - 1) j Hdp ltac:(lia) ltac:(lia))
      as (x & Ex & Hx & _).
    destruct (table_at2 _ _ _ _ _ dp i (j - 1) Hdp ltac:(lia) ltac:(lia))
      as (y & Ey & Hy & _).
    rewrite Ex. cbn [bind]. rewrite Ey. cbn [bind]. rewrite Ez. cbn [bind].
    specialize (Hx ltac:(unfold filled_upto; lia)).
    specialize (Hy ltac:(unfold filled_upto; lia)).
    pose proof (edit_cell_bound _ _ _ Hx ltac:(lia) ltac:(lia)) as Hxb.
    pose proof (edit_cell_bound _ _ _ Hy ltac:(lia) ltac:(lia)) as Hyb.
    destruct Hx as (k1 & -> & Hk1). destruct Hy as (k2 & -> & Hk2).
    rewrite int_small by (unfold INT_MAX in *; lia).
    apply (table_set_at2 _ _ _ _ _ _ dp i j _ Hdp); [lia|lia| |exact Hnext].
    exists (S (Nat.min k1 (Nat.min k2 k0))). split; [lia|]. rewrite Ei, Ej.
    apply least_edits_snoc_ne; [exact Hab|exact Hk0| |].
    + by rewrite <- Ej.
    + by rewrite <- Ei.
Qed.

Lemma edit_distance_least :
  exists k : nat,
    DpDemo.edit_distance word1 word2 = Ret (Z.of_nat k) /\
    least_edits word1 word2 k.
Proof.
  unfold DpDemo.edit_distance. rewrite !size_int by lia. unfold size in *.
  rewrite !(int_small (_ + 1)) by (unfold INT_MAX in *; lia).
  rewrite matrix_fill_Ret by (unfold INT_MAX in *; lia). cbn [bind].
  replace (Z.to_nat (Z.of_nat (length word1) + 1)) with (S (length word1)) by lia.
  replace (Z.to_nat (Z.of_nat (length word2) + 1)) with (S (length word2)) by lia.
  match goal with |- context [bind (for_le_M ?lo ?hi ?body ?s0)] =>
    destruct (for_le_M_inv
                (fun i dp =>
                   ed_table (fun a b => b = 0%nat /\ (a < Z.to_nat i)%nat)
                     ed_cell ed_blank dp)
                body lo hi s0) as (dp1 & E1 & Hdp1) end.
  { lia. }
  { apply table_replicate. intros a b _ _. split; [lia|done]. }
  { intros i dp Hi Hdp.
    apply (table_set_at2 _ _ _ _ _ _ dp i 0 _ Hdp); [lia|lia| |].
    - exists (Z.to_nat i). split; [lia|]. change (Z.to_nat 0) with 0%nat.
      rewrite take_0. replace (Z.to_nat i) with (length (take (Z.to_nat i) word1)) at 2
        by (rewrite length_take; lia).
      apply least_edits_nil_r.
    - intros a b _ _. lia. }
  rewrite E1. cbn [bind].
  match goal with |- context [bind (for_le_M ?lo ?hi ?body ?s0)] =>
    destruct (for_le_M_inv
                (fun j dp =>
                   ed_table (fun a b => b = 0%nat \/ (a = 0%nat /\ (b < Z.to_nat j)%nat))
                     ed_cell ed_blank dp)
                body lo hi s0) as (dp2 & E2 & Hdp2) end.
  { lia. }
  { apply (table_weaken _ _ _ _ _ _ _ Hdp1). intros a b Ha _. lia. }
  { intros j dp Hj Hdp.
    apply (table_set_at2 _ _ _ _ _ _ dp 0 j _ Hdp); [lia|lia| |].
    - exists (Z.to_nat j). split; [lia|]. change (Z.to_nat 0) with 0%nat.
      rewrite take_0. replace (Z.to_nat j) with (length (take (Z.to_nat j) word2)) at 2
        by (rewrite length_take; lia).
      apply least_edits_nil_l.
    - intros a b _ _. lia. }
  rewrite E2. cbn [bind].
  match goal with |- context [bind (for_le_M ?lo ?hi ?body ?s0)] =>
    destruct (for_le_M_inv
                (fun i dp => ed_table (filled_upto (Z.to_nat i) 1) ed_cell ed_blank dp)
                body lo hi s0) as (dp & E & Hdp) end.
  - lia.
  - apply (table_weaken _ _ _ _ _ _ _ Hdp2). intros a b _ Hb.
    unfold filled_upto. lia.
  - intros i dp Hi Hdp.
    match goal with |- context [for_le_M ?lo ?hi ?body ?s0] =>
      destruct (for_le_M_inv
                  (fun j dp => ed_table (filled_upto (Z.to_nat i) (Z.to_nat j))
                                 ed_cell ed_blank dp)
                  body lo hi s0) as (dp' & E & Hdp') end.
    + lia.
    + exact Hdp.
    + intros j dp' Hj Hdp'.
      apply edit_distance_inner; [unfold size; lia..|exact Hdp'].
    + exists dp'. split; [exact E|].
      apply (table_weaken _ _ _ _ _ _ _ Hdp').
      intros a b _ Hb. unfold filled_upto. lia.
  - rewrite E. cbn [bind].
    destruct (table_at2 _ _ _ _ _ dp (Z.of_nat (length word1))
                (Z.of_nat (length word2)) Hdp ltac:(lia) ltac:(lia))
      as (v & Ev & Hv & _).
    destruct Hv as (k & -> & Hk); [unfold filled_upto; lia|].
    exists k. split; [exact Ev|].
    rewrite !Nat2Z.id, !firstn_all in Hk. exact Hk.
Qed.
End EditDistance.

(** Property X28: for two strings shorter than
    [INT_MAX], [edit_distance] returns the least number of
    single-character insertions, deletions and replacements that turn
    [word1] into [word2]. *)
Theorem edit_distance_spec (word1 word2 : list Z) :
  size word1 < INT_MAX -> size word2 < INT_MAX ->
  exists k : nat,
    DpDemo.edit_distance word1 word2 = Ret (Z.of_nat k) /\
    is_edit_distance word1 word2 k.
Proof.
  intros H1 H2. destruct (edit_distance_least word1 word2 H1 H2) as (k & E & Hk).
  exists k. split; [exact E|]. by apply least_edits_distance.
Qed.

Lemma edit_distance_spec_witness :
  exists k : nat,
    DpDemo.edit_distance [104; 111; 114] [114; 111] = Ret (Z.of_nat k) /\
    is_edit_distance [104; 111; 114] [114; 111] k.
Proof.
  apply (edit_distance_spec [104; 111; 114] [114; 111]); vm_compute; reflexivity.
Defined.

(** ** dp_demo.cpp: min_path_sum *)

Lemma path_sum_snoc (grid : list (list Z)) (p : list (nat * nat)) (c : nat * nat) :
  path_sum grid (p ++ [c]) = path_sum grid p + cell_value grid c.
Proof.
  unfold path_sum. induction p as [|c' p IH]; cbn [app foldr]; [lia|].
  rewrite IH. lia.
Qed.

Lemma cell_value_lookup (grid : list (list Z)) (a b : nat) (r : list Z) (v : Z) :
  grid !! a = Some r -> r !! b = Some v -> cell_value grid (a, b) = v.
Proof. intros Er Ev. unfold cell_value. cbn [fst snd]. by rewrite Er, Ev. Qed.

Lemma min_path_sum_empty_grid : DpDemo.min_path_sum [] = Undefined.
Proof. reflexivity. Qed.

Lemma min_path_sum_empty_row (rest : list (list Z)) :
  DpDemo.min_path_sum ([] :: rest) = Undefined.
Proof.
  unfold DpDemo.min_path_sum.
  change (row_at ([] :: rest) 0) with (Ret (@nil Z)). cbn [bind].
  change (size []) with 0. change (size_t 0) with 0.
  rewrite (int_small 0) by (unfold INT_MAX; lia).
  change (for_lt_M 1 0) with (@for_loop_M (list (list Z)) 0 1). cbn [for_loop_M bind].
  unfold for_lt_M.
  destruct (Z.to_nat (int (size_t (Z.of_nat (length ([] :: rest)))) - 1))
    as [|k] eqn:Ek.
  - cbn [for_loop_M bind]. rewrite (int_id (0 - 1)) by (unfold INT_MIN, INT_MAX; lia).
    unfold at2, row_at. destruct (decide _); [|reflexivity].
    destruct (_ !! _); [|reflexivity]. cbn [bind]. unfold at_.
    destruct (decide (0 <= 0 - 1)); [lia|reflexivity].
  - cbn [for_loop_M bind]. rewrite (int_small (1 - 1)) by (unfold INT_MAX; lia).
    reflexivity.
Qed.

Section MinPathSum.
Variables (grid0 : list (list Z)) (m n : nat) (B : Z).
Hypothesis Hrows : length grid0 = S m.
Hypothesis Hcols : Forall (fun r => length r = S n) grid0.
Hypothesis Hm : Z.of_nat m < INT_MAX.
Hypothesis Hn : Z.of_nat n < INT_MAX.
Hypothesis Hcells : Forall (Forall (fun x => - B <= x <= B)) grid0.
Hypothesis Hfits : (Z.of_nat m + Z.of_nat n + 1) * B <= INT_MAX.

Local Abbreviation cell := (cell_value grid0).
Local Abbreviation least := (is_min_path_sum grid0).
Local Abbreviation sums := (table_inv (S m) (S n)).
Local Abbreviation fresh := (grid_cell grid0).

Lemma cell_bounded (a b : nat) :
  (a <= m)%nat -> (b <= n)%nat -> - B <= cell (a, b) <= B.
Proof.
  intros Ha Hb.
  destruct (lookup_lt_is_Some_2 grid0 a ltac:(lia)) as [r Er].
  pose proof (Forall_lookup_1 _ _ _ _ Hcols Er) as Hr. cbv beta in Hr.
  destruct (lookup_lt_is_Some_2 r b ltac:(lia)) as [v Ev].
  rewrite (cell_value_lookup _ _ _ _ _ Er Ev).
  pose proof (Forall_lookup_1 _ _ _ _ Hcells Er) as Hr'. cbv beta in Hr'.
  apply (Forall_lookup_1 _ _ _ _ Hr' Ev).
Qed.

Lemma bound_nonneg : 0 <= B.
Proof. pose proof (cell_bounded 0 0 ltac:(lia) ltac:(lia)). lia. Qed.

Lemma path_sum_bound (a b : nat) (p : list (nat * nat)) :
  grid_path a b p -> (a <= m)%nat -> (b <= n)%nat ->
  - ((Z.of_nat a + Z.of_nat b + 1) * B) <= path_sum grid0 p
  <= (Z.of_nat a + Z.of_nat b + 1) * B.
Proof.
  induction 1 as [|a b p Hp IH|a b p Hp IH]; intros Ha Hb.
  - pose proof (cell_bounded 0 0 ltac:(lia) ltac:(lia)). unfold path_sum.
    cbn [foldr]. lia.
  - rewrite path_sum_snoc. specialize (IH ltac:(lia) Hb).
    pose proof (cell_bounded (S a) b Ha Hb). nia.
  - rewrite path_sum_snoc. specialize (IH Ha ltac:(lia)).
    pose proof (cell_bounded a (S b) Ha Hb). nia.
Qed.

Lemma least_bound (a b : nat) (v : Z) :
  least a b v -> (a <= m)%nat -> (b <= n)%nat ->
  - ((Z.of_nat a + Z.of_nat b + 1) * B) <= v
  <= (Z.of_nat a + Z.of_nat b + 1) * B.
Proof. intros [(p & Hp & <-) _] Ha Hb. by apply path_sum_bound. Qed.

Lemma step_fits (a b : nat) (x c : Z) :
  (a <= m)%nat -> (b <= n)%nat ->
  - ((Z.of_nat a + Z.of_nat b) * B) <= x <= (Z.of_nat a + Z.of_nat b) * B ->
  - B <= c <= B ->
  INT_MIN <= c + x <= INT_MAX.
Proof.
  intros Ha Hb Hx Hc. pose proof bound_nonneg as HB.
  assert ((Z.of_nat a + Z.of_nat b + 1) * B
          <= (Z.of_nat m + Z.of_nat n + 1) * B) as Hle
    by (apply Z.mul_le_mono_nonneg_r; lia).
  unfold INT_MIN, INT_MAX in *. lia.
Qed.

Lemma least_start : least 0 0 (cell (0%nat, 0%nat)).
Proof.
  split.
  - exists [(0%nat, 0%nat)]. split; [constructor|]. unfold path_sum. cbn [foldr]. lia.
  - intros p Hp. inversion Hp; subst. unfold path_sum. cbn [foldr]. lia.
Qed.

Lemma least_right0 (b : nat) (v : Z) :
  least 0 b v -> least 0 (S b) (cell (0%nat, S b) + v).
Proof.
  intros [(p & Hp & <-) Hmin]. split.
  - eexists. split; [by apply path_right|]. rewrite path_sum_snoc. lia.
  - intros q Hq. inversion Hq as [| |? ? q' Hq']; subst.
    rewrite path_sum_snoc. specialize (Hmin _ Hq'). lia.
Qed.

Lemma least_down0 (a : nat) (v : Z) :
  least a 0 v -> least (S a) 0 (cell (S a, 0%nat) + v).
Proof.
  intros [(p & Hp & <-) Hmin]. split.
  - eexists. split; [by apply path_down|]. rewrite path_sum_snoc. lia.
  - intros q Hq. inversion Hq as [|? ? q' Hq'|]; subst.
    rewrite path_sum_snoc. specialize (Hmin _ Hq'). lia.
Qed.

Lemma least_inner (a b : nat) (x y : Z) :
  least a (S b) x -> least (S a) b y ->
  least (S a) (S b) (cell (S a, S b) + Z.min x y).
Proof.
  intros [(p & Hp & <-) Hminx] [(q & Hq & <-) Hminy]. split.
  - destruct (Z.min_spec (path_sum grid0 p) (path_sum grid0 q)) as [[_ ->]|[_ ->]].
    + eexists. split; [by apply path_down|]. rewrite path_sum_snoc. lia.
    + eexists. split; [by apply path_right|]. rewrite path_sum_snoc. lia.
  - intros r Hr. inversion Hr as [|? ? r' Hr'|? ? r' Hr']; subst;
      rewrite path_sum_snoc.
    + specialize (Hminx _ Hr'). lia.
    + specialize (Hminy _ Hr'). lia.
Qed.

Lemma fresh_table :
  sums (fun a b => a = 0%nat /\ b = 0%nat) least fresh grid0.
Proof.
  split; [exact Hrows|]. split; [exact Hcols|].
  intros a b Ha Hb r v Er Ev.
  pose proof (cell_value_lookup _ _ _ _ _ Er Ev) as Hv. split.
  - intros [-> ->]. rewrite <- Hv. apply least_start.
  - intros _. exact Hv.
Qed.

Lemma min_path_sum_least :
  exists v : Z, DpDemo.min_path_sum grid0 = Ret v /\ least m n v.
Proof.
  pose proof bound_nonneg as HB.
  unfold DpDemo.min_path_sum.
  destruct (lookup_lt_is_Some_2 grid0 0 ltac:(lia)) as [row0 E0].
  pose proof (Forall_lookup_1 _ _ _ _ Hcols E0) as Hrow0. cbv beta in Hrow0.
  rewrite (row_at_lookup grid0 0 row0 ltac:(lia) E0). cbn [bind].
  rewrite size_int by (unfold size; lia). unfold size. rewrite Hrow0.
  assert (int (size_t (Z.of_nat (length grid0))) = Z.of_nat (S m)) as ->.
  { rewrite Hrows. unfold size_t. rewrite Z.mod_small by (unfold INT_MAX in *; lia).
    apply int_small. lia. }
  (* the first row *)
  match goal with |- context [bind (for_lt_M ?lo ?hi ?body ?s0)] =>
    destruct (for_lt_M_inv
                (fun j dp =>
                   sums (fun a b => a = 0%nat /\ (b < Z.to_nat j)%nat) least fresh dp)
                body lo hi s0) as (dp1 & E1 & Hdp1) end.
  { lia. }
  { apply (table_weaken _ _ _ _ _ _ _ fresh_table). intros a b _ _. lia. }
  { intros j dp Hj Hdp.
    rewrite (int_small (j - 1)) by (unfold INT_MAX in *; lia).
    destruct (table_at2 _ _ _ _ _ dp 0 (j - 1) Hdp ltac:(lia) ltac:(lia))
      as (x & Ex & Hx & _).
    destruct (table_at2 _ _ _ _ _ dp 0 j Hdp ltac:(lia) ltac:(lia))
      as (y & Ey & _ & Hy).
    rewrite Ex. cbn [bind]. rewrite Ey. cbn [bind].
    specialize (Hx ltac:(lia)). specialize (Hy ltac:(lia)).
    change (Z.to_nat 0) with 0%nat in Hx, Hy. unfold grid_cell in Hy. subst y.
    pose proof (least_bound _ _ _ Hx ltac:(lia) ltac:(lia)) as Hxb.
    pose proof (cell_bounded 0 (Z.to_nat j) ltac:(lia) ltac:(lia)) as Hyb.
    rewrite Z2Nat.id in Hxb by lia.
    rewrite int_id
      by (apply (step_fits 0 (Z.to_nat j)); [lia|lia| |exact Hyb];
          rewrite Z2Nat.id by lia; lia).
    apply (table_set_at2 _ _ _ _ _ _ dp 0 j _ Hdp); [lia|lia| |].
    - change (Z.to_nat 0) with 0%nat.
      replace (Z.to_nat j) with (S (Z.to_nat (j - 1))) by lia.
      by apply least_right0.
    - intros a b _ _. lia. }
  rewrite E1. cbn [bind].
  (* the first column *)
  match goal with |- context [bind (for_lt_M ?lo ?hi ?body ?s0)] =>
    destruct (for_lt_M_inv
                (fun i dp =>
                   sums (fun a b => a = 0%nat \/ (b = 0%nat /\ (a < Z.to_nat i)%nat))
                     least fresh dp)
                body lo hi s0) as (dp2 & E2 & Hdp2) end.
  { lia. }
  { apply (table_weaken _ _ _ _ _ _ _ Hdp1). intros a b _ Hb. lia. }
  { intros i dp Hi Hdp.
    rewrite (int_small (i - 1)) by (unfold INT_MAX in *; lia).
    destruct (table_at2 _ _ _ _ _ dp (i - 1) 0 Hdp ltac:(lia) ltac:(lia))
      as (x & Ex & Hx & _).
    destruct (table_at2 _ _ _ _ _ dp i 0 Hdp ltac:(lia) ltac:(lia))
      as (y & Ey & _ & Hy).
    rewrite Ex. cbn [bind]. rewrite Ey. cbn [bind].
    specialize (Hx ltac:(lia)). specialize (Hy ltac:(lia)).
    change (Z.to_nat 0) with 0%nat in Hx, Hy. unfold grid_cell in Hy. subst y.
    pose proof (least_bound _ _ _ Hx ltac:(lia) ltac:(lia)) as Hxb.
    pose proof (cell_bounded (Z.to_nat i) 0 ltac:(lia) ltac:(lia)) as Hyb.
    rewrite Z2Nat.id in Hxb by lia.
    rewrite int_id
      by (apply (step_fits (Z.to_nat i) 0); [lia|lia| |exact Hyb];
          rewrite Z2Nat.id by lia; lia).
    apply (table_set_at2 _ _ _ _ _ _ dp i 0 _ Hdp); [lia|lia| |].
    - change (Z.to_nat 0) with 0%nat.
      replace (Z.to_nat i) with (S (Z.to_nat (i - 1))) by lia.
      by apply least_down0.
    - intros a b _ _. lia. }
  rewrite E2. cbn [bind].
  (* the other cells, row by row *)
  match goal with |- context [bind (for_lt_M ?lo ?hi ?body ?s0)] =>
    destruct (for_lt_M_inv
                (fun i dp => sums (filled_upto (Z.to_nat i) 1) least fresh dp)
                body lo hi s0) as (dp & E & Hdp) end.
  - lia.
  - apply (table_weaken _ _ _ _ _ _ _ Hdp2). intros a b Ha _.
    unfold filled_upto. lia.
  - intros i dp Hi Hdp.
    match goal with |- context [for_lt_M ?lo ?hi ?body ?s0] =>
      destruct (for_lt_M_inv
                  (fun j dp => sums (filled_upto (Z.to_nat i) (Z.to_nat j))
                                 least fresh dp)
                  body lo hi s0) as (dp' & E & Hdp') end.
    + lia.
    + exact Hdp.
    + intros j dp' Hj Hdp'.
      rewrite (int_small (i - 1)), (int_small (j - 1))
        by (unfold INT_MAX in *; lia).
      destruct (table_at2 _ _ _ _ _ dp' (i - 1) j Hdp' ltac:(lia) ltac:(lia))
        as (x & Ex & Hx & _).
      destruct (table_at2 _ _ _ _ _ dp' i (j - 1) Hdp' ltac:(lia) ltac:(lia))
        as (y & Ey & Hy & _).
      destruct (table_at2 _ _ _ _ _ dp' i j Hdp' ltac:(lia) ltac:(lia))
        as (z & Ez & _ & Hz).
      rewrite Ex. cbn [bind]. rewrite Ey. cbn [bind]. rewrite Ez. cbn [bind].
      specialize (Hx ltac:(unfold filled_upto; lia)).
      specialize (Hy ltac:(unfold filled_upto; lia)).
      specialize (Hz ltac:(unfold filled_upto; lia)).
      unfold grid_cell in Hz. subst z.
      pose proof (least_bound _ _ _ Hx ltac:(lia) ltac:(lia)) as Hxb.
      pose proof (least_bound _ _ _ Hy ltac:(lia) ltac:(lia)) as Hyb.
      pose proof (cell_bounded (Z.to_nat i) (Z.to_nat j) ltac:(lia) ltac:(lia)) as Hzb.
      rewrite !Z2Nat.id in Hxb, Hyb by lia.
      rewrite int_id
        by (apply (step_fits (Z.to_nat i) (Z.to_nat j)); [lia|lia| |exact Hzb];
            rewrite !Z2Nat.id by lia;
            destruct (Z.min_spec x y) as [[_ ->]|[_ ->]]; lia).
      apply (table_set_at2 _ _ _ _ _ _ dp' i j _ Hdp'); [lia|lia| |].
      * revert Hx Hy.
        replace (Z.to_nat i) with (S (Z.to_nat (i - 1))) by lia.
        replace (Z.to_nat j) with (S (Z.to_nat (j - 1))) by lia.
        replace (Z.to_nat (Z.of_nat (S (Z.to_nat (i - 1))) - 1))
          with (Z.to_nat (i - 1)) by lia.
        replace (Z.to_nat (Z.of_nat (S (Z.to_nat (j - 1))) - 1))
          with (Z.to_nat (j - 1)) by lia.
        intros Hx Hy. by apply least_inner.
      * intros a b _ _. unfold filled_upto. lia.
    + exists dp'. split; [exact E|].
      apply (table_weaken _ _ _ _ _ _ _ Hdp').
      intros a b _ Hb. unfold filled_upto. lia.
  - rewrite E. cbn [bind].
    rewrite !int_small by (unfold INT_MAX in *; lia).
    destruct (table_at2 _ _ _ _ _ dp (Z.of_nat (S m) - 1) (Z.of_nat (S n) - 1)
                Hdp ltac:(lia) ltac:(lia)) as (v & Ev & Hv & _).
    exists v. split; [exact Ev|].
    replace (Z.to_nat (Z.of_nat (S m) - 1)) with m in Hv by lia.
    replace (Z.to_nat (Z.of_nat (S n) - 1)) with n in Hv by lia.
    apply Hv. unfold filled_upto. lia.
Qed.
End MinPathSum.

(** Property X29: on a grid of [m + 1] rows of [n + 1] numbers each,
    with [m] and [n] below [INT_MAX] and the numbers all between [-B]
    and [B] with [(m + n + 1) * B] within [int], [min_path_sum] returns
    the least
    sum of the numbers along a path from the top-left to the
    bottom-right cell that steps right or down only.  On a grid
    without rows, or whose first row is empty, its behaviour is
    undefined. *)
Theorem min_path_sum_spec (grid : list (list Z)) (m n : nat) (B : Z) :
  length grid = S m ->
  Forall (fun r => length r = S n) grid ->
  Z.of_nat m < INT_MAX -> Z.of_nat n < INT_MAX ->
  Forall (Forall (fun x => - B <= x <= B)) grid ->
  (Z.of_nat m + Z.of_nat n + 1) * B <= INT_MAX ->
  (exists v : Z,
     DpDemo.min_path_sum grid = Ret v /\ is_min_path_sum grid m n v) /\
  DpDemo.min_path_sum [] = Undefined /\
  (forall rest : list (list Z), DpDemo.min_path_sum ([] :: rest) = Undefined).
Proof.
  intros H1 H2 H3 H4 H5 H6.
  split; [by apply (min_path_sum_least grid m n B)|].
  split; [apply min_path_sum_empty_grid|apply min_path_sum_empty_row].
Qed.

Lemma min_path_sum_spec_witness :
  (exists v : Z,
     DpDemo.min_path_sum [[1; 3; 1]; [1; 5; 1]; [4; 2; 1]] = Ret v /\
     is_min_path_sum [[1; 3; 1]; [1; 5; 1]; [4; 2; 1]] 2 2 v) /\
  DpDemo.min_path_sum [] = Undefined /\
  (forall rest : list (list Z), DpDemo.min_path_sum ([] :: rest) = Undefined).
Proof.
  apply (min_path_sum_spec [[1; 3; 1]; [1; 5; 1]; [4; 2; 1]] 2 2 5).
  - reflexivity.
  - repeat constructor.
  - vm_compute; reflexivity.
  - vm_compute; reflexivity.
  - repeat constructor; lia.
  - vm_compute; discriminate.
Defined.

(** ** recursion_demo.cpp: the moves of [hanoi] solve the puzzle *)

Lemma play_app (ms1 ms2 : list (Z * ascii * ascii)) (st st1 : position) :
  play ms1 st = Some st1 -> play (ms1 ++ ms2) st = play ms2 st1.
Proof.
  revert st. induction ms1 as [|[[d f] t] ms1 IH]; intros st; cbn [play app].
  - by intros [= ->].
  - destruct (move_disk d f t st) as [st'|]; [apply IH|discriminate].
Qed.

Lemma move_disk_top (d : Z) (from to : ascii) (st : position) (rest : list Z) :
  from <> to -> st from = d :: rest -> Forall (fun x => d < x) (st to) ->
  move_disk d from to st = Some (put to (d :: st to) (put from rest st)).
Proof.
  intros Hne Efrom Hto. unfold move_disk. rewrite Efrom.
  rewrite !bool_decide_eq_true_2 by done. cbn [andb].
  destruct (st to) as [|t ts]; [reflexivity|].
  inversion Hto; subst. by rewrite bool_decide_eq_true_2.
Qed.

Lemma put_eq (peg : ascii) (disks : list Z) (st : position) :
  put peg disks st peg = disks.
Proof. unfold put. by destruct (decide (peg = peg)). Qed.

Lemma put_ne (peg q : ascii) (disks : list Z) (st : position) :
  q <> peg -> put peg disks st q = st q.
Proof. intros Hne. unfold put. by destruct (decide (q = peg)). Qed.

Lemma seqZ_1_snoc (n : Z) : 1 < n -> seqZ 1 n = seqZ 1 (n - 1) ++ [n].
Proof.
  intros Hn. replace n with ((n - 1) + 1) at 1 by lia.
  rewrite seqZ_app by lia. f_equal.
  rewrite seqZ_cons by lia. replace (Z.pred 1) with 0 by lia.
  rewrite seqZ_nil by lia. f_equal. lia.
Qed.

Lemma hanoi_plays (fuel : nat) :
  forall (n : Z) (from to aux : ascii) (moves : list string)
         (st : position) (below : list Z),
    1 <= n <= INT_MAX -> (Z.to_nat n <= S fuel)%nat ->
    Z.of_nat (length moves) + 2 ^ n - 1 <= vector_max_size 32 ->
    from <> to -> from <> aux -> to <> aux ->
    st from = seqZ 1 n ++ below ->
    Forall (fun x => n < x) below ->
    Forall (fun x => n < x) (st to) ->
    Forall (fun x => n < x) (st aux) ->
    exists (ms : list (Z * ascii * ascii)) (st' : position),
      RecursionDemo.hanoi fuel n from to aux moves
      = Ret (moves ++ map (fun '(d, f, t) => RecursionDemo.move_text d f t) ms) /\
      Z.of_nat (length ms) = 2 ^ n - 1 /\
      play ms st = Some st' /\
      st' from = below /\ st' to = seqZ 1 n ++ st to /\ st' aux = st aux /\
      forall p : ascii, p <> from -> p <> to -> p <> aux -> st' p = st p.
Proof.
  assert (forall (from to : ascii) (st : position) (below : list Z)
                 (moves : list string),
            Z.of_nat (length moves) + 2 ^ 1 - 1 <= vector_max_size 32 ->
            from <> to -> st from = seqZ 1 1 ++ below ->
            Forall (fun x => 1 < x) (st to) ->
            forall aux : ascii, from <> aux -> to <> aux ->
            exists (ms : list (Z * ascii * ascii)) (st' : position),
              push_back 32 moves ("Move disk 1 from " +:+ String from "" +:+ " to "
                                    +:+ String to "")
              = Ret (moves ++ map (fun '(d, f, t) => RecursionDemo.move_text d f t) ms) /\
              Z.of_nat (length ms) = 2 ^ 1 - 1 /\
              play ms st = Some st' /\
              st' from = below /\ st' to = seqZ 1 1 ++ st to /\ st' aux = st aux /\
              forall p : ascii, p <> from -> p <> to -> p <> aux -> st' p = st p)
    as Hone.
  { intros from to st below moves Hfit Hft Efrom Hto aux Hfa Hta.
    exists [(1, from, to)]. eexists.
    rewrite push_back_Ret by (change (2 ^ 1) with 2 in Hfit; lia).
    split; [reflexivity|]. split; [reflexivity|].
    cbn [play]. rewrite (move_disk_top 1 from to st below Hft Efrom Hto).
    split; [reflexivity|]. split; [|split; [|split]].
    - rewrite put_ne by congruence. apply put_eq.
    - apply put_eq.
    - rewrite !put_ne by congruence. reflexivity.
    - intros p Hpf Hpt _. rewrite !put_ne by congruence. reflexivity. }
  induction fuel as [|fuel IH];
    intros n from to aux moves st below Hn Hfuel Hfit Hft Hfa Hta
           Efrom Hbelow Hto Haux;
    cbn [RecursionDemo.hanoi].
  - destruct (decide (n = 1)) as [->|Hne]; [|exfalso; lia].
    by apply Hone.
  - destruct (decide (n = 1)) as [->|Hne]; [by apply Hone|].
    rewrite int_id by (unfold INT_MIN, INT_MAX in *; lia).
    pose proof (pow2_step n ltac:(lia)) as Hpow.
    assert (0 < 2 ^ (n - 1)) as Hpos by (apply Z.pow_pos_nonneg; lia).
    rewrite seqZ_1_snoc, <- app_assoc in Efrom by lia. cbn [app] in Efrom.
    destruct (IH (n - 1) from aux to moves st (n :: below))
      as (ms1 & st1 & E1 & L1 & P1 & F1 & A1 & T1 & O1);
      [unfold INT_MAX in *; lia|lia|lia|congruence|congruence|congruence
      |exact Efrom| | | |].
    { constructor; [lia|]. eapply Forall_impl; [exact Hbelow|]. cbv beta. lia. }
    { eapply Forall_impl; [exact Haux|]. cbv beta. lia. }
    { eapply Forall_impl; [exact Hto|]. cbv beta. lia. }
    rewrite E1. cbn [bind].
    rewrite push_back_Ret by (rewrite length_app, length_map; lia). cbn [bind].
    pose (st2 := put to (n :: st1 to) (put from below st1)).
    assert (move_disk n from to st1 = Some st2) as M2.
    { apply move_disk_top; [done|exact F1|].
      rewrite T1. eapply Forall_impl; [exact Hto|]. cbv beta. lia. }
    destruct (IH (n - 1) aux to from
                ((moves ++ map (fun '(d, f, t) => RecursionDemo.move_text d f t) ms1)
                   ++ [RecursionDemo.move_text n from to])
                st2 (st aux))
      as (ms2 & st3 & E2 & L2 & P2 & F2 & A2 & T2 & O2);
      [unfold INT_MAX in *; lia|lia| |congruence|congruence|congruence| | | | |].
    { rewrite !length_app, length_map. cbn [length]. lia. }
    { unfold st2. rewrite !put_ne by congruence. exact A1. }
    { eapply Forall_impl; [exact Haux|]. cbv beta. lia. }
    { unfold st2. rewrite put_eq, T1. constructor; [lia|].
      eapply Forall_impl; [exact Hto|]. cbv beta. lia. }
    { unfold st2. rewrite put_ne by congruence. rewrite put_eq.
      eapply Forall_impl; [exact Hbelow|]. cbv beta. lia. }
    rewrite E2. exists (ms1 ++ (n, from, to) :: ms2), st3.
    split; [|split; [|split; [|split; [|split; [|split]]]]].
    + rewrite map_app. cbn [map]. rewrite <- !app_assoc. reflexivity.
    + rewrite length_app. cbn [length]. lia.
    + rewrite (play_app _ _ _ _ P1). cbn [play]. rewrite M2. exact P2.
    + rewrite T2. unfold st2. rewrite put_ne by congruence. apply put_eq.
    + rewrite A2. unfold st2. rewrite put_eq, T1.
      rewrite (seqZ_1_snoc n) by lia. rewrite <- app_assoc. reflexivity.
    + exact F2.
    + intros p Hpf Hpt Hpa. rewrite O2 by done. unfold st2.
      rewrite !put_ne by congruence. by apply O1.
Qed.

(** Property X30: for every [n >= 1] whose [2^n - 1] moves the vector
    [moves] can take in, and three distinct pegs, the [2^n - 1] moves
    that [hanoi(n, from, to, aux, moves)] appends solve the puzzle:
    played one after the other from a position with the disks 1 .. n
    on top of [from] and only larger disks elsewhere, each move takes
    the top disk of a peg and puts it on an empty peg or on a larger
    disk, and in the end the [n] disks are on top of [to], with every
    other disk where it was. *)
Theorem hanoi_solves (n : Z) (from to aux : ascii) (moves : list string)
    (fuel : nat) (st : position) (below : list Z) :
  1 <= n <= INT_MAX -> (Z.to_nat n <= S fuel)%nat ->
  Z.of_nat (length moves) + 2 ^ n - 1 <= vector_max_size 32 ->
  from <> to -> from <> aux -> to <> aux ->
  st from = seqZ 1 n ++ below ->
  Forall (fun x => n < x) below ->
  Forall (fun x => n < x) (st to) ->
  Forall (fun x => n < x) (st aux) ->
  exists (ms : list (Z * ascii * ascii)) (st' : position),
    RecursionDemo.hanoi fuel n from to aux moves
    = Ret (moves ++ map (fun '(d, f, t) => RecursionDemo.move_text d f t) ms) /\
    Z.of_nat (length ms) = 2 ^ n - 1 /\
    play ms st = Some st' /\
    st' from = below /\ st' to = seqZ 1 n ++ st to /\ st' aux = st aux /\
    forall p : ascii, p <> from -> p <> to -> p <> aux -> st' p = st p.
Proof. apply hanoi_plays. Qed.

Lemma hanoi_solves_witness :
  exists (ms : list (Z * ascii * ascii)) (st' : position),
    RecursionDemo.hanoi 2 3 "A" "C" "B" []
    = Ret ([] ++ map (fun '(d, f, t) => RecursionDemo.move_text d f t) ms) /\
    Z.of_nat (length ms) = 2 ^ 3 - 1 /\
    play ms (put "A" [1; 2; 3] (fun _ => [])) = Some st' /\
    st' "A"%char = [] /\
    st' "C"%char = seqZ 1 3 ++ put "A" [1; 2; 3] (fun _ => []) "C"%char /\
    st' "B"%char = put "A" [1; 2; 3] (fun _ => []) "B"%char /\
    forall p : ascii, p <> "A"%char -> p <> "C"%char -> p <> "B"%char ->
      st' p = put "A" [1; 2; 3] (fun _ => []) p.
Proof.
  apply (hanoi_solves 3 "A" "C" "B" [] 2 (put "A" [1; 2; 3] (fun _ => [])) []).
  - unfold INT_MAX. lia.
  - vm_compute. lia.
  - vm_compute. discriminate.
  - discriminate.
  - discriminate.
  - discriminate.
  - reflexivity.
  - constructor.
  - vm_compute. constructor.
  - vm_compute. constructor.
Defined.
